(** * Merval: a shallow embedding of the Mermaid validator

    The development follows the TypeScript sources:
    - [lexer/index.ts]  : [TokenType], [Token], the [Lexer] class;
    - [ast/index.ts]    : the node shapes, [ValidationError], [ValidationResult];
    - [parser/index.ts] : the [Parser] class (the revision with [linkCount]);
    - [index.ts]        : [validateMermaid] and [isMermaidVersionSupported].

    JavaScript strings are sequences of UTF-16 code units and are modelled as
    lists of [N].  Counters (positions, lines, columns) are [nat]. *)

From Stdlib Require Import String Ascii.
From Stdlib Require Import List NArith Arith Bool Lia.
Import ListNotations.
Local Open Scope nat_scope.
Local Open Scope bool_scope.

Set Implicit Arguments.

(* ===================================================================== *)
(** ** JavaScript strings *)
(* ===================================================================== *)

Definition jsstr := list N.

(** [u "abc"] is the JavaScript string literal ['abc']. *)
Definition u (s : string) : jsstr := map N_of_ascii (list_ascii_of_string s).

(** [ch "a"] is the code unit of a one-character literal. *)
Definition ch (a : ascii) : N := N_of_ascii a.

Definition LF : N := 10%N.

(** The double-quote code unit. *)
Definition QUOTE : N := 34%N.

Fixpoint str_eqb (a b : jsstr) : bool :=
  match a, b with
  | [], [] => true
  | x :: a', y :: b' => N.eqb x y && str_eqb a' b'
  | _, _ => false
  end.

(** [s[i]]: [None] stands for [undefined]. *)
Definition charAt (s : jsstr) (i : nat) : option N := nth_error s i.

(** [s[i] === c] *)
Definition char_is (s : jsstr) (i : nat) (c : N) : bool :=
  match charAt s i with
  | Some d => N.eqb d c
  | None => false
  end.

(** [s.slice(from, to)] for [0 <= from], [0 <= to]. *)
Definition slice (s : jsstr) (from to : nat) : jsstr :=
  firstn (to - from) (skipn from s).

(** [s.slice(1, -1)] *)
Definition slice_1_m1 (s : jsstr) : jsstr :=
  slice s 1 (length s - 1).

Definition between (lo hi c : N) : bool := N.leb lo c && N.leb c hi.

(** [/\s/.test(c)]: the ECMAScript WhiteSpace and LineTerminator code units. *)
Definition isSpace (c : N) : bool :=
  between 9 13 c || N.eqb c 32 || N.eqb c 160 || N.eqb c 5760
  || between 8192 8202 c || N.eqb c 8232 || N.eqb c 8233
  || N.eqb c 8239 || N.eqb c 8287 || N.eqb c 12288 || N.eqb c 65279.

(** [/\d/.test(c)] *)
Definition isDigit (c : N) : bool := between 48 57 c.

Definition isAlpha (c : N) : bool := between 65 90 c || between 97 122 c.

(** [/[a-zA-Z_]/.test(c)] *)
Definition isIdentStart (c : N) : bool := isAlpha c || N.eqb c 95.

(** [/[a-zA-Z0-9_'-]/.test(c)] *)
Definition isIdentPart (c : N) : bool :=
  isAlpha c || isDigit c || N.eqb c 95 || N.eqb c 39 || N.eqb c 45.

(** [s.toLowerCase()].  The lexer applies it to identifier text, which is
    ASCII, and the parser compares its result with the ASCII literal ['end'];
    the only other identifier tokens hold one code point, whose lower-case
    form is no three-letter ASCII word.  Code units outside [A-Z] are kept. *)
Definition toLowerCase (s : jsstr) : jsstr :=
  map (fun c => if between 65 90 c then (c + 32)%N else c) s.

(** [s.trim().length === 0] *)
Definition isBlank (s : jsstr) : bool := forallb isSpace s.

(** [parseInt(s)] on the text of a NUMBER token (decimal digits only).  The
    value is kept exact; a double rounds it above 2^53, which does not change
    the outcome of a comparison with a small counter. *)
Definition parseInt (s : jsstr) : nat :=
  fold_left (fun acc c => 10 * acc + (N.to_nat c - 48)) s 0.

(* ===================================================================== *)
(** ** lexer/index.ts *)
(* ===================================================================== *)

(** The [TokenType] enum.  [INHERITED_PROPERTY] is not a member of the enum:
    it stands for the value [keywords[name]] has when [name] is [constructor]
    or [__proto__], which the object literal inherits from [Object.prototype]
    (a truthy value different from every member of the enum). *)
Inductive TokenType :=
  | GRAPH | FLOWCHART | SEQUENCE_DIAGRAM | CLASS_DIAGRAM | STATE_DIAGRAM
  | STATE_DIAGRAM_V2 | ER_DIAGRAM | JOURNEY | GANTT | PIE | GITGRAPH
  | MINDMAP | TIMELINE | XYCHART_BETA | BLOCK_BETA
  | ARROW | DOTTED_ARROW | THICK_ARROW | SUBGRAPH | SUBGRAPH_END
  | PARTICIPANT | ACTIVATION | DEACTIVATION | NOTE | SEQUENCE_ARROW
  | IDENTIFIER | STRING | NUMBER | BRACKET_OPEN | BRACKET_CLOSE
  | PAREN_OPEN | PAREN_CLOSE | DOUBLE_PAREN_OPEN | DOUBLE_PAREN_CLOSE
  | BRACE_OPEN | BRACE_CLOSE | COMMA | SEMICOLON | COLON | PIPE | EQUALS
  | NEWLINE | WHITESPACE | COMMENT | DIRECTIVE | EOF
  | INHERITED_PROPERTY.

Scheme Equality for TokenType.

Definition ty_eqb : TokenType -> TokenType -> bool := TokenType_beq.

Record Token := mkToken {
  tok_type : TokenType;
  tok_value : jsstr;
  tok_line : nat;
  tok_column : nat;
  tok_position : nat
}.

Record Lexer := mkLexer {
  lx_input : jsstr;
  lx_position : nat;
  lx_line : nat;
  lx_column : nat
}.

(** [this.input[this.position + k] === c] *)
Definition at_is (lx : Lexer) (k : nat) (c : N) : bool :=
  char_is (lx_input lx) (lx_position lx + k) c.

(** [this.position + k < this.input.length] *)
Definition has (lx : Lexer) (k : nat) : bool :=
  lx_position lx + k <? length (lx_input lx).

(** Number of code units not yet read. *)
Definition remaining (lx : Lexer) : nat := length (lx_input lx) - lx_position lx.

(** [this.position += k; this.column += k] *)
Definition forward (k : nat) (lx : Lexer) : Lexer :=
  mkLexer (lx_input lx) (lx_position lx + k) (lx_line lx) (lx_column lx + k).

(** [this.line++; this.column = 1; this.position++] *)
Definition newline (lx : Lexer) : Lexer :=
  mkLexer (lx_input lx) (lx_position lx + 1) (lx_line lx + 1) 1.

(** A [while] loop of the lexer over a local state [S].  Every such loop
    tests [this.position < this.input.length] and reads one code unit per
    round, so [n] rounds are enough when [n] is the number of unread code
    units: by [lex_while_budget] a larger [n] gives the same result. *)
Fixpoint lex_while {S : Type} (n : nat) (cond : S -> bool) (body : S -> S) (s : S) : S :=
  match n with
  | 0 => s
  | Datatypes.S n' => if cond s then lex_while n' cond body (body s) else s
  end.

(** The conditions and bodies of the [while] loops of the [read...] methods. *)
Definition inComment (l : Lexer) : bool := has l 0 && negb (at_is l 0 LF).

Definition inDirective (s : Lexer * nat) : bool :=
  let '(l, braceCount) := s in has l 0 && (0 <? braceCount).

Definition directiveStep (s : Lexer * nat) : Lexer * nat :=
  let '(l, braceCount) := s in
  if at_is l 0 (ch "{") then
    (mkLexer (lx_input l) (lx_position l + 1) (lx_line l) (lx_column l), braceCount + 1)
  else if at_is l 0 (ch "}") then
    (mkLexer (lx_input l) (lx_position l + 1) (lx_line l) (lx_column l), braceCount - 1)
  else if at_is l 0 LF then (newline l, braceCount)
  else (forward 1 l, braceCount).

Definition inString (quote : N) (l : Lexer) : bool := has l 0 && negb (at_is l 0 quote).

Definition stringStep (l : Lexer) : Lexer :=
  if at_is l 0 LF then newline l else forward 1 l.

Definition inNumber (l : Lexer) : bool :=
  has l 0 && isDigit (nth (lx_position l) (lx_input l) 0%N).

(** The loop of [readIdentifier] with its two [break]s. *)
Definition inIdentifier (l : Lexer) : bool :=
  has l 0 && isIdentPart (nth (lx_position l) (lx_input l) 0%N)
  && negb (at_is l 0 (ch "-") && has l 1 && at_is l 1 (ch ">"))
  && negb (at_is l 0 (ch "-") && has l 2 && at_is l 1 (ch "-") && at_is l 2 (ch ">")).

Definition readComment (lx : Lexer) : Token * Lexer :=
  let start := lx_position lx in
  let startLine := lx_line lx in
  let startColumn := lx_column lx in
  let lx1 := forward 2 lx in
  let lx2 := lex_while (remaining lx1) inComment (forward 1) lx1 in
  let lx3 := if has lx2 0 && at_is lx2 0 LF then newline lx2 else lx2 in
  (mkToken COMMENT (slice (lx_input lx) start (lx_position lx3)) startLine startColumn start,
   lx3).

Definition readDirective (lx : Lexer) : Token * Lexer :=
  let start := lx_position lx in
  let lx1 := forward 3 lx in
  let '(lx2, _) := lex_while (remaining lx1) inDirective directiveStep (lx1, 1) in
  let lx3 := if has lx2 1 && at_is lx2 0 (ch "%") && at_is lx2 1 (ch "%")
             then forward 2 lx2 else lx2 in
  (mkToken DIRECTIVE (slice (lx_input lx) start (lx_position lx3))
           (lx_line lx3) (lx_column lx3) start,
   lx3).

Definition readString (lx : Lexer) : Token * Lexer :=
  let quote := nth (lx_position lx) (lx_input lx) 0%N in
  let start := lx_position lx in
  let lx1 := forward 1 lx in
  let lx2 := lex_while (remaining lx1) (inString quote) stringStep lx1 in
  let lx3 := if has lx2 0 then forward 1 lx2 else lx2 in
  (mkToken STRING (slice (lx_input lx) start (lx_position lx3))
           (lx_line lx3) (lx_column lx3) start,
   lx3).

Definition readNumber (lx : Lexer) : Token * Lexer :=
  let start := lx_position lx in
  let lx1 := lex_while (remaining lx) inNumber (forward 1) lx in
  (mkToken NUMBER (slice (lx_input lx) start (lx_position lx1))
           (lx_line lx1) (lx_column lx1) start,
   lx1).

(** The [keywords] table of [readIdentifier], with the two names every
    object literal inherits. *)
Definition keywords : list (string * TokenType) :=
  [ ("graph", GRAPH); ("flowchart", FLOWCHART);
    ("sequencediagram", SEQUENCE_DIAGRAM); ("classdiagram", CLASS_DIAGRAM);
    ("statediagram", STATE_DIAGRAM); ("statediagram-v2", STATE_DIAGRAM_V2);
    ("erdiagram", ER_DIAGRAM); ("journey", JOURNEY); ("gantt", GANTT);
    ("pie", PIE); ("gitgraph", GITGRAPH); ("mindmap", MINDMAP);
    ("timeline", TIMELINE); ("xychart-beta", XYCHART_BETA);
    ("block-beta", BLOCK_BETA); ("participant", PARTICIPANT);
    ("activate", ACTIVATION); ("deactivate", DEACTIVATION);
    ("note", IDENTIFIER); ("subgraph", SUBGRAPH); ("classdef", IDENTIFIER);
    ("class", IDENTIFIER); ("linkstyle", IDENTIFIER); ("style", IDENTIFIER);
    ("constructor", INHERITED_PROPERTY); ("__proto__", INHERITED_PROPERTY) ]%string.

(** [table[key]]: [None] stands for [undefined]. *)
Fixpoint lookup {V : Type} (table : list (string * V)) (key : jsstr) : option V :=
  match table with
  | [] => None
  | (k, v) :: rest => if str_eqb (u k) key then Some v else lookup rest key
  end.

Definition readIdentifier (lx : Lexer) : Token * Lexer :=
  let start := lx_position lx in
  let lx1 := lex_while (remaining lx) inIdentifier (forward 1) lx in
  let value := slice (lx_input lx) start (lx_position lx1) in
  let type := match lookup keywords (toLowerCase value) with
              | Some t => t
              | None => IDENTIFIER
              end in
  (mkToken type value (lx_line lx1) (lx_column lx1) start, lx1).

Definition singleCharTokens : list (string * TokenType) :=
  [ ("[", BRACKET_OPEN); ("]", BRACKET_CLOSE); ("(", PAREN_OPEN);
    (")", PAREN_CLOSE); ("{", BRACE_OPEN); ("}", BRACE_CLOSE);
    (",", COMMA); (";", SEMICOLON); (":", COLON); ("|", PIPE) ]%string.

(** A token that starts at the current position and is [k] code units long,
    built before the lexer moves. *)
Definition tokenHere (t : TokenType) (v : jsstr) (lx : Lexer) : Token :=
  mkToken t v (lx_line lx) (lx_column lx) (lx_position lx).

(** [{ ..., column: this.column - value.length + 1,
         position: this.position - value.length }] after the lexer moved. *)
Definition arrowToken (t : TokenType) (v : jsstr) (after : Lexer) : Token :=
  mkToken t v (lx_line after) (lx_column after - length v + 1)
          (lx_position after - length v).

Definition isHighSurrogate (c : N) : bool := between 55296 56319 c.
Definition isLowSurrogate (c : N) : bool := between 56320 57343 c.

(** [String.fromCodePoint(this.input.codePointAt(this.position)).length] *)
Definition codePointLength (lx : Lexer) : nat :=
  match charAt (lx_input lx) (lx_position lx), charAt (lx_input lx) (lx_position lx + 1) with
  | Some hi, Some lo => if isHighSurrogate hi && isLowSurrogate lo then 2 else 1
  | _, _ => 1
  end.

(** [nextToken].  The only recursive call follows a white-space code unit, so
    the recursion is on the number of unread code units ([nextToken_budget]);
    [None] is [null]. *)
Fixpoint nextToken_rec (n : nat) (lx : Lexer) : option Token * Lexer :=
  match n with
  | 0 => (None, lx)
  | S n' =>
    if length (lx_input lx) <=? lx_position lx then (None, lx) else
    let char := nth (lx_position lx) (lx_input lx) 0%N in
    if isSpace char then
      nextToken_rec n' (if N.eqb char LF then newline lx else forward 1 lx)
    else if N.eqb char (ch "%") && has lx 1 && at_is lx 1 (ch "%") then
      if has lx 2 && at_is lx 2 (ch "{") then
        let '(t, lx') := readDirective lx in (Some t, lx')
      else
        let '(t, lx') := readComment lx in (Some t, lx')
    else if N.eqb char (ch "(") && has lx 1 && at_is lx 1 (ch "(") then
      let lx' := forward 2 lx in
      (Some (mkToken DOUBLE_PAREN_OPEN (u "((") (lx_line lx') (lx_column lx' - 2)
                     (lx_position lx' - 2)), lx')
    else if N.eqb char (ch ")") && has lx 1 && at_is lx 1 (ch ")") then
      let lx' := forward 2 lx in
      (Some (mkToken DOUBLE_PAREN_CLOSE (u "))") (lx_line lx') (lx_column lx' - 2)
                     (lx_position lx' - 2)), lx')
    else if N.eqb char (ch "=") then
      if has lx 2 && at_is lx 1 (ch "=") && at_is lx 2 (ch ">") then
        if has lx 3 && at_is lx 3 (ch ">") then
          (Some (tokenHere EQUALS [char] lx), forward 1 lx)
        else
          let lx' := forward 3 lx in
          (Some (arrowToken THICK_ARROW (u "==>") lx'), lx')
      else
        (Some (tokenHere EQUALS [char] lx), forward 1 lx)
    else match lookup singleCharTokens [char] with
    | Some t => (Some (tokenHere t [char] lx), forward 1 lx)
    | None =>
    if N.eqb char (ch "-") && has lx 3 && at_is lx 1 (ch ".")
       && at_is lx 2 (ch "-") && at_is lx 3 (ch ">") then
      if has lx 4 && at_is lx 4 (ch ">") then
        let lx' := forward 5 lx in (Some (arrowToken DOTTED_ARROW (u "-.->>") lx'), lx')
      else
        let lx' := forward 4 lx in (Some (arrowToken DOTTED_ARROW (u "-.->") lx'), lx')
    else if N.eqb char (ch "-") && has lx 2 && at_is lx 1 (ch "-")
            && at_is lx 2 (ch ">") then
      if has lx 3 && at_is lx 3 (ch ">") then
        let lx' := forward 4 lx in (Some (arrowToken ARROW (u "-->>") lx'), lx')
      else
        let lx' := forward 3 lx in (Some (arrowToken ARROW (u "-->") lx'), lx')
    else if N.eqb char (ch "-") && has lx 1 && at_is lx 1 (ch ">") then
      if has lx 2 && at_is lx 2 (ch ">") then
        let lx' := forward 3 lx in (Some (arrowToken SEQUENCE_ARROW (u "->>") lx'), lx')
      else
        let lx' := forward 2 lx in (Some (arrowToken SEQUENCE_ARROW (u "->") lx'), lx')
    else if N.eqb char QUOTE || N.eqb char (ch "'") then
      let '(t, lx') := readString lx in (Some t, lx')
    else if isDigit char then
      let '(t, lx') := readNumber lx in (Some t, lx')
    else if isIdentStart char then
      let '(t, lx') := readIdentifier lx in (Some t, lx')
    else
      let charLength := codePointLength lx in
      (Some (tokenHere IDENTIFIER
               (slice (lx_input lx) (lx_position lx) (lx_position lx + charLength)) lx),
       mkLexer (lx_input lx) (lx_position lx + charLength) (lx_line lx) (lx_column lx + 1))
    end
  end.

Definition nextToken (lx : Lexer) : option Token * Lexer :=
  nextToken_rec (S (remaining lx)) lx.

(** The loop of [tokenize]: every token read is at least one code unit long,
    so [n] rounds are enough when [n] exceeds the number of unread units: by
    [tokenize_loop_budget] a larger [n] gives the same result. *)
Fixpoint tokenize_loop (n : nat) (lx : Lexer) (tokens : list Token) : list Token * Lexer :=
  match n with
  | 0 => (tokens, lx)
  | S n' =>
    match nextToken lx with
    | (Some token, lx') =>
        if ty_eqb (tok_type token) EOF then (tokens, lx')
        else tokenize_loop n' lx' (tokens ++ [token])
    | (None, lx') => (tokens, lx')
    end
  end.

Definition tokenize (input : jsstr) : list Token :=
  let lx := mkLexer input 0 1 1 in
  let '(tokens, lx') := tokenize_loop (S (length input)) lx [] in
  tokens ++ [mkToken EOF [] (lx_line lx') (lx_column lx') (lx_position lx')].

(** Source text with [\n] written as a line feed. *)
Definition lines (ls : list string) : jsstr :=
  concat (map (fun l => u l ++ [LF]) (removelast ls)) ++ u (last ls EmptyString).

(* ===================================================================== *)
(** ** ast/index.ts *)
(* ===================================================================== *)

(** A template literal: literal text, interpolated strings and numbers.  The
    rendering of numbers is left out; no property below depends on it. *)
Inductive chunk :=
  | L (s : string)
  | V (v : jsstr)
  | D (n : nat).

Definition text := list chunk.

(** A double quote inside a template. *)
Definition Q : chunk := V [QUOTE].

Record ValidationError := mkError {
  line : nat;
  column : nat;
  message : text;
  code : string;
  suggestion : option text
}.

Inductive Shape := rect | round | diamond | circle.

(** [FlowchartElement].  [processed] is the marker object
    [{ type: 'processed', line, column } as any] of [parseFlowchartElement]. *)
#[warnings="-register-all"]
Inductive FlowchartElement :=
  | node (ln col : nat) (id : jsstr) (label : option jsstr) (shape : Shape)
  | arrow (ln col : nat) (label : option jsstr) (to : option jsstr)
  | subgraph (ln col : nat) (id : jsstr) (children : list FlowchartElement)
  | processed (ln col : nat).

Record ParticipantNode := mkParticipant {
  part_line : nat;
  part_column : nat;
  name : jsstr;
  alias : option jsstr
}.

Inductive ArrowType := solid | dotted | thick.

Record MessageNode := mkMessage {
  msg_line : nat;
  msg_column : nat;
  from : jsstr;
  to : jsstr;
  msg_text : jsstr;
  arrowType : ArrowType
}.

Record YAxis := mkYAxis { y_label : jsstr; y_min : nat; y_max : nat }.

Inductive SeriesType := bar | line_series.

Record Series := mkSeries { series_type : SeriesType; values : list nat }.

Record BlockElement := mkBlock {
  block_line : nat;
  block_column : nat;
  block_id : jsstr;
  block_label : jsstr
}.

(** [ASTNode] and its extensions; [PlainNode] is a node with the three base
    fields only ([type], [line], [column]). *)
Inductive ASTNode :=
  | FlowchartNode (ln col : nat) (direction : option jsstr) (nodes : list FlowchartElement)
  | SequenceNode (ln col : nat) (participants : list ParticipantNode)
                 (messages : list MessageNode)
  | XYChartNode (ln col : nat) (title : option jsstr) (xAxis : list jsstr)
                (yAxis : YAxis) (data : list Series)
  | BlockDiagramNode (ln col : nat) (columns : option nat) (blocks : list BlockElement)
  | PlainNode (type : string) (ln col : nat).

Record ValidationResult := mkResult {
  isValid : bool;
  diagramType : string;
  errors : list ValidationError;
  ast : option ASTNode
}.

(* ===================================================================== *)
(** ** parser/index.ts: state and control *)
(* ===================================================================== *)

Record Parser := mkParser {
  tokens : list Token;
  position : nat;
  p_errors : list ValidationError;
  linkCount : nat
}.

(** What running a method gives: it returns, it throws, or the fuel that
    bounds the rounds of every loop and the depth of recursion ran out. *)
Inductive outcome (A : Type) :=
  | Ret (a : A) (p : Parser)
  | Throw (e : jsstr) (p : Parser)
  | Timeout.

Arguments Ret {A} a p.
Arguments Throw {A} e p.
Arguments Timeout {A}.

Definition M (A : Type) := Parser -> outcome A.

Definition ret {A} (a : A) : M A := fun p => Ret a p.

Definition bind {A B} (m : M A) (k : A -> M B) : M B :=
  fun p => match m p with
           | Ret a p' => k a p'
           | Throw e p' => Throw e p'
           | Timeout => Timeout
           end.

Declare Scope parser_scope.
Delimit Scope parser_scope with parser.
Notation "x <- m ;; k" := (bind m (fun x => k))
  (at level 61, m at next level, right associativity) : parser_scope.
Notation "' pat <- m ;; k" := (bind m (fun x => match x with pat => k end))
  (at level 61, pat pattern, m at next level, right associativity) : parser_scope.
Notation "m ;; k" := (bind m (fun _ => k))
  (at level 61, right associativity) : parser_scope.
Local Open Scope parser_scope.

(** Read the state without changing it. *)
Definition read {A} (f : Parser -> A) : M A := fun p => Ret (f p) p.

Definition when (b : bool) (m : M unit) : M unit := if b then m else ret tt.

Inductive ctl (S : Type) :=
  | Continue (s : S)
  | Break (s : S).

(** [while (cond) { body }] over the local variables [s] of the loop. *)
Fixpoint while {S : Type} (fuel : nat) (cond : S -> Parser -> bool)
         (body : S -> M (ctl S)) (s : S) : M S :=
  match fuel with
  | 0 => fun _ => Timeout
  | Datatypes.S fuel' =>
      fun p =>
        if cond s p then
          match body s p with
          | Ret (Continue s') p' => while fuel' cond body s' p'
          | Ret (Break s') p' => Ret s' p'
          | Throw e p' => Throw e p'
          | Timeout => Timeout
          end
        else Ret s p
  end.

Definition eofToken : Token := mkToken EOF [] 0 0 0.

Definition currentToken (p : Parser) : Token :=
  if length (tokens p) <=? position p
  then last (tokens p) eofToken
  else nth (position p) (tokens p) eofToken.

Definition advance : M unit :=
  fun p => Ret tt (if position p <? length (tokens p)
                   then mkParser (tokens p) (position p + 1) (p_errors p) (linkCount p)
                   else p).

Definition isAtEnd (p : Parser) : bool :=
  (length (tokens p) <=? position p) || ty_eqb (tok_type (currentToken p)) EOF.

Definition peekToken (p : Parser) : option Token :=
  if length (tokens p) <=? position p + 1 then None
  else nth_error (tokens p) (position p + 1).

Definition addError (token : Token) (msg : text) (c : string) (sugg : option text) : M unit :=
  fun p => Ret tt (mkParser (tokens p) (position p)
                     (p_errors p ++ [mkError (tok_line token) (tok_column token) msg c sugg])
                     (linkCount p)).

Definition setLinkCount (n : nat) : M unit :=
  fun p => Ret tt (mkParser (tokens p) (position p) (p_errors p) n).

(** [this.currentToken().type === t] *)
Definition tyIs (t : TokenType) (p : Parser) : bool :=
  ty_eqb (tok_type (currentToken p)) t.

(** [token.value === 'lit'] *)
Definition valIs (t : Token) (lit : string) : bool := str_eqb (tok_value t) (u lit).

(** [this.currentToken().type === IDENTIFIER &&
     this.currentToken().value.toLowerCase() === 'end'] *)
Definition isEnd (t : Token) : bool :=
  ty_eqb (tok_type t) IDENTIFIER && str_eqb (toLowerCase (tok_value t)) (u "end").

Definition includes (l : list TokenType) (t : TokenType) : bool := existsb (ty_eqb t) l.

(** [parts.join(sep)] *)
Fixpoint join (sep : jsstr) (parts : list jsstr) : jsstr :=
  match parts with
  | [] => []
  | [x] => x
  | x :: rest => x ++ sep ++ join sep rest
  end.

Fixpoint dropSpaces (s : jsstr) : jsstr :=
  match s with
  | c :: s' => if isSpace c then dropSpaces s' else s
  | [] => []
  end.

(** [s.trim()] *)
Definition trim (s : jsstr) : jsstr := rev (dropSpaces (rev (dropSpaces s))).

(** The value of a name token: [t.type === STRING ? t.value.slice(1, -1) : t.value] *)
Definition unquote (t : Token) : jsstr :=
  if ty_eqb (tok_type t) STRING then slice_1_m1 (tok_value t) else tok_value t.

(** [while (!this.isAtEnd() && type !== SEMICOLON && type !== EOF) advance();
     if (type === SEMICOLON) advance();] *)
Definition skipUntilSemicolon (fuel : nat) : M unit :=
  while fuel (fun _ p => negb (isAtEnd p) && negb (tyIs SEMICOLON p) && negb (tyIs EOF p))
        (fun _ => advance ;; ret (Continue tt)) tt ;;
  semi <- read (tyIs SEMICOLON) ;;
  when semi advance.

(* ===================================================================== *)
(** ** parser/index.ts: the flowchart grammar *)
(* ===================================================================== *)

Definition el_isNode (e : FlowchartElement) : bool :=
  match e with node _ _ _ _ _ => true | _ => false end.

Definition el_line (e : FlowchartElement) : nat :=
  match e with
  | node l _ _ _ _ | arrow l _ _ _ | subgraph l _ _ _ | processed l _ => l
  end.

Definition el_column (e : FlowchartElement) : nat :=
  match e with
  | node _ c _ _ _ | arrow _ c _ _ | subgraph _ c _ _ | processed _ c => c
  end.

(** [e.id || ''] *)
Definition el_id (e : FlowchartElement) : jsstr :=
  match e with
  | node _ _ i _ _ | subgraph _ _ i _ => i
  | _ => []
  end.

(** The [for] loop over [i] and [i + 1]. *)
Fixpoint validateFlowchartConnections (nodes : list FlowchartElement) : M unit :=
  match nodes with
  | currentNode :: ((nextNode :: _) as rest) =>
      when (el_isNode currentNode && el_isNode nextNode
            && (el_line currentNode =? el_line nextNode))
        (addError
           (mkToken IDENTIFIER (el_id nextNode) (el_line nextNode) (el_column nextNode) 0)
           [L "Adjacent nodes '"; V (el_id currentNode); L "' and '"; V (el_id nextNode);
            L "' on same line without arrow connection"]
           "MISSING_ARROW"
           (Some [L "Add an arrow (-->) between the nodes or place them on separate lines"])) ;;
      validateFlowchartConnections rest
  | _ => ret tt
  end.

Definition collectIdentifiersAsLabel (fuel : nat) (includeNumbers : bool) : M jsstr :=
  parts <- while fuel
             (fun _ p => (tyIs IDENTIFIER p || (includeNumbers && tyIs NUMBER p))
                         && negb (isAtEnd p))
             (fun parts =>
                t <- read currentToken ;;
                advance ;;
                ret (Continue (parts ++ [tok_value t])))
             [] ;;
  ret (join (u " ") parts).

(** [collectIdentifiersOnSameLine()]: no method calls it either. *)
Definition collectIdentifiersOnSameLine (fuel : nat) : M jsstr :=
  start <- read currentToken ;;
  let startLine := tok_line start in
  parts <- while fuel
             (fun _ p => tyIs IDENTIFIER p && (tok_line (currentToken p) =? startLine)
                         && negb (isAtEnd p))
             (fun parts =>
                t <- read currentToken ;;
                advance ;;
                ret (Continue (parts ++ [tok_value t])))
             [] ;;
  ret (join (u " ") parts).

(** The label of a round, circle or diamond node: a string, or identifiers
    joined by spaces. *)
Definition shapeLabel (fuel : nat) : M (option jsstr) :=
  t <- read currentToken ;;
  if ty_eqb (tok_type t) STRING then
    advance ;; ret (Some (slice_1_m1 (tok_value t)))
  else if ty_eqb (tok_type t) IDENTIFIER then
    labelParts <- while fuel (fun _ p => tyIs IDENTIFIER p)
                    (fun parts =>
                       t' <- read currentToken ;;
                       advance ;;
                       ret (Continue (parts ++ [tok_value t'])))
                    [] ;;
    ret (Some (join (u " ") labelParts))
  else ret None.

(** Expect the closing delimiter; otherwise report and skip to it, to an
    arrow or to the end. *)
Definition expectClose (fuel : nat) (close : TokenType) (msg : string) : M unit :=
  ok <- read (tyIs close) ;;
  if ok then advance
  else
    t <- read currentToken ;;
    addError t [L msg] "PARSE_ERROR" None ;;
    while fuel
      (fun _ p => negb (isAtEnd p) && negb (tyIs close p) && negb (tyIs ARROW p)
                  && negb (tyIs DOTTED_ARROW p) && negb (tyIs EOF p))
      (fun _ => advance ;; ret (Continue tt)) tt ;;
    ok' <- read (tyIs close) ;;
    when ok' advance.

Definition parseNode (fuel : nat) : M FlowchartElement :=
  idToken <- read currentToken ;;
  if ty_eqb (tok_type idToken) EOF then
    addError idToken [L "Expected node identifier"] "MISSING_NODE"
             (Some [L "Add a node identifier"]) ;;
    ret (node (tok_line idToken) (tok_column idToken) [] None rect)
  else
    let id := tok_value idToken in
    advance ;;
    t <- read currentToken ;;
    '(label, shape) <-
      (if ty_eqb (tok_type t) BRACKET_OPEN then
         advance ;;
         t1 <- read currentToken ;;
         label <- (if ty_eqb (tok_type t1) STRING then
                     advance ;; ret (Some (slice_1_m1 (tok_value t1)))
                   else if ty_eqb (tok_type t1) IDENTIFIER || ty_eqb (tok_type t1) NUMBER then
                     l <- collectIdentifiersAsLabel fuel true ;; ret (Some l)
                   else ret None) ;;
         expectClose fuel BRACKET_CLOSE "Expected closing bracket ]" ;;
         ret (label, rect)
       else if ty_eqb (tok_type t) PAREN_OPEN then
         advance ;;
         label <- shapeLabel fuel ;;
         expectClose fuel PAREN_CLOSE "Expected closing parenthesis )" ;;
         ret (label, round)
       else if ty_eqb (tok_type t) DOUBLE_PAREN_OPEN then
         advance ;;
         label <- shapeLabel fuel ;;
         expectClose fuel DOUBLE_PAREN_CLOSE "Expected closing double parenthesis ))" ;;
         ret (label, circle)
       else if ty_eqb (tok_type t) BRACE_OPEN then
         advance ;;
         label <- shapeLabel fuel ;;
         expectClose fuel BRACE_CLOSE "Expected closing brace }" ;;
         ret (label, diamond)
       else ret (None, rect)) ;;
    ret (node (tok_line idToken) (tok_column idToken) id label shape).

Definition parseArrow (fuel : nat) : M FlowchartElement :=
  arrowToken <- read currentToken ;;
  advance ;;
  n <- read linkCount ;;
  setLinkCount (n + 1) ;;
  pipe <- read (tyIs PIPE) ;;
  label <-
    (if pipe then
       advance ;;
       t <- read currentToken ;;
       label <- (if ty_eqb (tok_type t) STRING then
                   advance ;; ret (Some (slice_1_m1 (tok_value t)))
                 else if ty_eqb (tok_type t) IDENTIFIER || ty_eqb (tok_type t) NUMBER then
                   labelParts <- while fuel (fun _ p => tyIs IDENTIFIER p || tyIs NUMBER p)
                                   (fun parts =>
                                      t' <- read currentToken ;;
                                      advance ;;
                                      ret (Continue (parts ++ [tok_value t'])))
                                   [] ;;
                   ret (Some (join (u " ") labelParts))
                 else ret None) ;;
       pipe' <- read (tyIs PIPE) ;;
       (if pipe' then advance
        else t' <- read currentToken ;;
             addError t' [L "Expected closing pipe |"] "PARSE_ERROR" None) ;;
       ret label
     else ret None) ;;
  atEnd <- read (fun p => isAtEnd p || tyIs EOF p) ;;
  if atEnd then
    addError arrowToken [L "Arrow must have a destination node"] "INCOMPLETE_ARROW"
             (Some [L "Add a node after the arrow"]) ;;
    ret (arrow (tok_line arrowToken) (tok_column arrowToken) label None)
  else
    toNode <- parseNode fuel ;;
    ret (arrow (tok_line arrowToken) (tok_column arrowToken) label (Some (el_id toNode))).

(** [for (i = commentIndex - 1; i >= 0; i--)] over the tokens before the
    comment, nearest first. *)
Fixpoint commentFollowsToken (currentLine : nat) (before : list Token) : bool :=
  match before with
  | [] => false
  | token :: rest =>
      if tok_line token <? currentLine then false
      else if (tok_line token =? currentLine)
              && negb (ty_eqb (tok_type token) WHITESPACE)
              && negb (ty_eqb (tok_type token) NEWLINE) then true
      else commentFollowsToken currentLine rest
  end.

(** [isInlineComment(commentToken)].  The first loop finds the index of the
    token object itself; the argument is always [this.currentToken()] of type
    COMMENT, the object stored at [this.position]. *)
Definition isInlineComment (commentToken : Token) (p : Parser) : bool :=
  let commentIndex := position p in
  commentFollowsToken (tok_line commentToken) (rev (firstn commentIndex (tokens p))).

(** The look-ahead of [parseClassDef] from [currentPos]. *)
Fixpoint hasEqualsSyntax (ahead : list Token) : bool :=
  match ahead with
  | [] => false
  | t :: rest =>
      if ty_eqb (tok_type t) SEMICOLON || ty_eqb (tok_type t) EOF then false
      else if valIs t "=" then true
      else hasEqualsSyntax rest
  end.

Definition parseClassDef (fuel : nat) : M unit :=
  classDefToken <- read currentToken ;;
  advance ;;
  eq <- read (fun p => hasEqualsSyntax (skipn (position p) (tokens p))) ;;
  when eq
    (addError classDefToken [L "classDef with equals syntax is not supported in flowcharts"]
       "UNSUPPORTED_CLASSDEF_EQUALS_SYNTAX"
       (Some [L "Use colon syntax instead (e.g., fill:#f9f instead of fill=lightblue)"])) ;;
  skipUntilSemicolon fuel.

Definition parseClassAssignment (fuel : nat) : M unit :=
  advance ;;
  i1 <- read (tyIs IDENTIFIER) ;;
  when i1 advance ;;
  i2 <- read (tyIs IDENTIFIER) ;;
  when i2 advance ;;
  skipUntilSemicolon fuel.

Definition parseLinkStyle (fuel : nat) : M unit :=
  linkStyleToken <- read currentToken ;;
  advance ;;
  t <- read currentToken ;;
  when (ty_eqb (tok_type t) NUMBER)
    (let linkIndex := parseInt (tok_value t) in
     advance ;;
     count <- read linkCount ;;
     when (count <=? linkIndex)
       (addError linkStyleToken
          [L "linkStyle index "; D linkIndex; L " is out of bounds (only "; D count;
           L " link(s) defined)"]
          "INVALID_LINKSTYLE_INDEX"
          (Some [L "Use a link index between 0 and "; D (Nat.max 0 (count - 1))]))) ;;
  skipUntilSemicolon fuel.

Definition parseStyle (fuel : nat) : M unit :=
  advance ;;
  skipUntilSemicolon fuel.

Definition parseClickStatement (fuel : nat) : M unit :=
  advance ;;
  skipUntilSemicolon fuel.

Definition parseNoteStatement (fuel : nat) : M unit :=
  advance ;;
  nextToken <- read peekToken ;;
  match nextToken with
  | Some nt =>
      if valIs nt "for" || ty_eqb (tok_type nt) IDENTIFIER then
        t <- read currentToken ;;
        addError t [L "Standalone note statements are not supported in flowcharts"]
                 "INVALID_NOTE_SYNTAX"
                 (Some [L "Use note arrows instead: A -.->|note text| B"])
      else skipUntilSemicolon fuel
  | None => skipUntilSemicolon fuel
  end.

Definition parseDirectionStatement : M unit :=
  advance ;;
  i <- read (tyIs IDENTIFIER) ;;
  when i advance.

Definition skipTitleDirective (fuel : nat) : M unit :=
  advance ;;
  s <- read (tyIs STRING) ;;
  when s advance ;;
  skipUntilSemicolon fuel.

(** [parseSubgraph], with the element parser it calls back into. *)
Definition parseSubgraph (fuel : nat) (parseFlowchartElement : M (option FlowchartElement))
  : M FlowchartElement :=
  startToken <- read currentToken ;;
  advance ;;
  idTok <- read currentToken ;;
  let id := tok_value idTok in
  advance ;;
  open <- read (tyIs BRACKET_OPEN) ;;
  when open
    (advance ;;
     s <- read (tyIs STRING) ;;
     when s advance ;;
     c <- read (tyIs BRACKET_CLOSE) ;;
     when c advance) ;;
  children <- while fuel
                (fun _ p => negb (isAtEnd p) && negb (isEnd (currentToken p)))
                (fun children =>
                   child <- parseFlowchartElement ;;
                   match child with
                   | Some c => ret (Continue (children ++ [c]))
                   | None => ret (Continue children)
                   end)
                [] ;;
  t <- read currentToken ;;
  (if isEnd t then advance
   else addError t [L "Expected "; Q; L "end"; Q; L " to close subgraph"] "MISSING_SUBGRAPH_END"
                 (Some [L "Add "; Q; L "end"; Q; L " keyword to close the subgraph"])) ;;
  validateFlowchartConnections children ;;
  ret (subgraph (tok_line startToken) (tok_column startToken) id children).

Definition done (token : Token) : M (option FlowchartElement) :=
  ret (Some (processed (tok_line token) (tok_column token))).

Fixpoint parseFlowchartElement (fuel : nat) : M (option FlowchartElement) :=
  match fuel with
  | 0 => fun _ => Timeout
  | S fuel' =>
    token <- read currentToken ;;
    if isEnd token then
      addError token [L "Unexpected "; Q; L "end"; Q; L " keyword - found end without matching subgraph"]
               "UNMATCHED_END"
               (Some [L "Remove the end keyword or add a corresponding subgraph"]) ;;
      advance ;;
      done token
    else if valIs token "classDef" then parseClassDef fuel' ;; done token
    else if valIs token "class" then parseClassAssignment fuel' ;; done token
    else if valIs token "linkStyle" then parseLinkStyle fuel' ;; done token
    else if valIs token "style" then parseStyle fuel' ;; done token
    else if valIs token "click" then parseClickStatement fuel' ;; done token
    else if valIs token "note" then parseNoteStatement fuel' ;; done token
    else if valIs token "direction" then parseDirectionStatement ;; done token
    else if valIs token "title" then
      addError token [L "Title directive is not supported in flowcharts"]
               "UNSUPPORTED_TITLE_DIRECTIVE"
               (Some [L "Remove the title directive - flowcharts do not support titles"]) ;;
      skipTitleDirective fuel' ;;
      done token
    else if ty_eqb (tok_type token) IDENTIFIER then
      n <- parseNode fuel' ;; ret (Some n)
    else if ty_eqb (tok_type token) ARROW || ty_eqb (tok_type token) DOTTED_ARROW
            || ty_eqb (tok_type token) THICK_ARROW then
      a <- parseArrow fuel' ;; ret (Some a)
    else if ty_eqb (tok_type token) SUBGRAPH then
      s <- parseSubgraph fuel' (parseFlowchartElement fuel') ;; ret (Some s)
    else if ty_eqb (tok_type token) COMMENT then
      inline <- read (isInlineComment token) ;;
      when inline
        (addError token [L "Inline comments are not supported"] "INLINE_COMMENT_NOT_SUPPORTED"
                  (Some [L "Move comment to its own line"])) ;;
      advance ;;
      done token
    else if ty_eqb (tok_type token) DIRECTIVE then advance ;; done token
    else if includes [SEMICOLON; COLON; COMMA; EQUALS; PIPE; NUMBER; STRING;
                      BRACKET_OPEN; BRACKET_CLOSE; PAREN_OPEN; PAREN_CLOSE;
                      BRACE_OPEN; BRACE_CLOSE] (tok_type token) then
      advance ;; ret None
    else ret None
  end.

Definition diagramTypes : list TokenType :=
  [SEQUENCE_DIAGRAM; CLASS_DIAGRAM; STATE_DIAGRAM; STATE_DIAGRAM_V2; ER_DIAGRAM;
   JOURNEY; GANTT; PIE; GITGRAPH; MINDMAP; TIMELINE; XYCHART_BETA].

Definition parseFlowchart (fuel : nat) : M ASTNode :=
  startToken <- read currentToken ;;
  advance ;;
  setLinkCount 0 ;;
  t <- read currentToken ;;
  direction <- (if ty_eqb (tok_type t) IDENTIFIER
                then advance ;; ret (Some (tok_value t))
                else ret None) ;;
  nodes <- while fuel
             (fun _ p => negb (isAtEnd p) && negb (tyIs EOF p))
             (fun nodes =>
                token <- read currentToken ;;
                if includes diagramTypes (tok_type token) then ret (Break nodes)
                else
                  nd <- parseFlowchartElement fuel ;;
                  match nd with
                  | Some (processed _ _) => ret (Continue nodes)
                  | Some n => ret (Continue (nodes ++ [n]))
                  | None => advance ;; ret (Continue nodes)
                  end)
             [] ;;
  validateFlowchartConnections nodes ;;
  ret (FlowchartNode (tok_line startToken) (tok_column startToken) direction nodes).

(* ===================================================================== *)
(** ** parser/index.ts: the sequence-diagram grammar *)
(* ===================================================================== *)

Definition parseParticipant : M ParticipantNode :=
  startToken <- read currentToken ;;
  advance ;;
  nameToken <- read currentToken ;;
  atEnd <- read isAtEnd ;;
  if ty_eqb (tok_type nameToken) EOF || atEnd
     || (negb (ty_eqb (tok_type nameToken) IDENTIFIER)
         && negb (ty_eqb (tok_type nameToken) STRING)) then
    addError startToken [L "Participant declaration must have a name"]
             "MISSING_PARTICIPANT_NAME"
             (Some [L "Add a participant name after the participant keyword"]) ;;
    ret (mkParticipant (tok_line startToken) (tok_column startToken) [] None)
  else
    let name := unquote nameToken in
    advance ;;
    t <- read currentToken ;;
    alias <-
      (if ty_eqb (tok_type t) IDENTIFIER && valIs t "as" then
         advance ;;
         a <- read currentToken ;;
         if ty_eqb (tok_type a) IDENTIFIER || ty_eqb (tok_type a) STRING then
           advance ;; ret (Some (unquote a))
         else ret None
       else ret None) ;;
    ret (mkParticipant (tok_line startToken) (tok_column startToken) name alias).

(** The arrow of a message: the [if]/[else if] chain on [arrowValue]. *)
Definition messageArrowType (arrowValue : jsstr) : ArrowType :=
  if str_eqb arrowValue (u "->>") then solid
  else if str_eqb arrowValue (u "-->>") then dotted
  else if str_eqb arrowValue (u "->") then solid
  else if str_eqb arrowValue (u "-->") then solid
  else solid.

Definition parseMessageLine (fuel : nat) : M MessageNode :=
  fromToken <- read currentToken ;;
  let from := unquote fromToken in
  advance ;;
  arrowToken <- read currentToken ;;
  arrowType <-
    (if ty_eqb (tok_type arrowToken) SEQUENCE_ARROW || ty_eqb (tok_type arrowToken) ARROW then
       advance ;; ret (messageArrowType (tok_value arrowToken))
     else ret solid) ;;
  toToken <- read currentToken ;;
  atEnd <- read isAtEnd ;;
  if ty_eqb (tok_type toToken) EOF || atEnd then
    addError arrowToken [L "Incomplete message: arrow must have a destination participant"]
             "INCOMPLETE_MESSAGE"
             (Some [L "Add a destination participant after the arrow"]) ;;
    ret (mkMessage (tok_line fromToken) (tok_column fromToken) from [] [] arrowType)
  else
    let to := unquote toToken in
    advance ;;
    colon <- read (tyIs COLON) ;;
    when colon advance ;;
    start <- read currentToken ;;
    let startLine := tok_line start in
    messageParts <-
      while fuel
        (fun _ p => negb (isAtEnd p) && (tok_line (currentToken p) =? startLine)
                    && negb (tyIs EOF p))
        (fun parts =>
           t <- read currentToken ;;
           if ty_eqb (tok_type t) STRING then
             advance ;; ret (Continue (parts ++ [slice_1_m1 (tok_value t)]))
           else if ty_eqb (tok_type t) IDENTIFIER || ty_eqb (tok_type t) NUMBER then
             advance ;; ret (Continue (parts ++ [tok_value t]))
           else if ty_eqb (tok_type t) WHITESPACE || ty_eqb (tok_type t) NEWLINE then
             advance ;; ret (Continue parts)
           else if ty_eqb (tok_type t) COMMA || ty_eqb (tok_type t) COLON then
             advance ;; ret (Continue (parts ++ [tok_value t]))
           else
             advance ;; ret (Continue (parts ++ [tok_value t])))
        [] ;;
    ret (mkMessage (tok_line fromToken) (tok_column fromToken) from to
                   (trim (join (u " ") messageParts)) arrowType).

(** [parseMessage()]: no method calls it; [parseSequenceDiagram] reads its
    messages with [parseMessageLine]. *)
Definition parseMessage (fuel : nat) : M MessageNode :=
  fromToken <- read currentToken ;;
  let from := tok_value fromToken in
  advance ;;
  arrowToken <- read currentToken ;;
  arrowType <-
    (if ty_eqb (tok_type arrowToken) SEQUENCE_ARROW || ty_eqb (tok_type arrowToken) ARROW then
       advance ;; ret (messageArrowType (tok_value arrowToken))
     else ret solid) ;;
  toToken <- read currentToken ;;
  let to := tok_value toToken in
  advance ;;
  colon <- read (tyIs COLON) ;;
  when colon advance ;;
  start <- read currentToken ;;
  let startLine := tok_line start in
  messageParts <-
    while fuel
      (fun _ p => negb (isAtEnd p) && (tok_line (currentToken p) =? startLine)
                  && negb (tyIs EOF p))
      (fun parts =>
         t <- read currentToken ;;
         if ty_eqb (tok_type t) STRING then
           advance ;; ret (Continue (parts ++ [slice_1_m1 (tok_value t)]))
         else if ty_eqb (tok_type t) IDENTIFIER || ty_eqb (tok_type t) NUMBER then
           advance ;; ret (Continue (parts ++ [tok_value t]))
         else if ty_eqb (tok_type t) WHITESPACE || ty_eqb (tok_type t) NEWLINE then
           advance ;; ret (Continue parts)
         else if ty_eqb (tok_type t) COMMA || ty_eqb (tok_type t) COLON then
           advance ;; ret (Continue (parts ++ [tok_value t]))
         else
           advance ;; ret (Continue (parts ++ [tok_value t])))
      [] ;;
  ret (mkMessage (tok_line fromToken) (tok_column fromToken) from to
                 (trim (join (u " ") messageParts)) arrowType).

Definition validateSequenceDiagram (participants : list ParticipantNode)
           (messages : list MessageNode) : M unit :=
  ret tt.

Definition stylingDirectives : list string :=
  ["classDef"; "class"; "linkStyle"; "style"; "click"; "note"]%string.

Definition linkStylingDirectives : list string :=
  ["linkStyle"; "style"; "click"; "note"]%string.

(** [token.value === a || token.value === b || ...] *)
Definition valIn (t : Token) (lits : list string) : bool := existsb (valIs t) lits.

Definition unsupportedStyling (token : Token) (where_ : string) (sugg : string) : M unit :=
  addError token [V (tok_value token); L " directive is not supported in "; L where_]
           "UNSUPPORTED_STYLING_DIRECTIVE" (Some [L sugg]).

(** One round of the loop of [parseSequenceDiagram]. *)
Definition sequenceStatement (fuel : nat)
           (s : list ParticipantNode * list MessageNode)
  : M (ctl (list ParticipantNode * list MessageNode)) :=
  let '(participants, messages) := s in
  token <- read currentToken ;;
  if ty_eqb (tok_type token) PARTICIPANT then
    pt <- parseParticipant ;; ret (Continue (participants ++ [pt], messages))
  else if ty_eqb (tok_type token) DIRECTIVE then
    advance ;; ret (Continue s)
  else if valIn token stylingDirectives then
    unsupportedStyling token "sequence diagrams"
      "Styling directives are not supported in sequence diagrams" ;;
    skipUntilSemicolon fuel ;;
    ret (Continue s)
  else if ty_eqb (tok_type token) IDENTIFIER || ty_eqb (tok_type token) STRING then
    nextToken <- read peekToken ;;
    match nextToken with
    | Some nt =>
        if ty_eqb (tok_type nt) SEQUENCE_ARROW || ty_eqb (tok_type nt) ARROW then
          m <- parseMessageLine fuel ;; ret (Continue (participants, messages ++ [m]))
        else advance ;; ret (Continue s)
    | None => advance ;; ret (Continue s)
    end
  else advance ;; ret (Continue s).

(** [while (!this.isAtEnd() && this.currentToken().type !== EOF)] *)
Definition notAtEnd {S : Type} (_ : S) (p : Parser) : bool :=
  negb (isAtEnd p) && negb (tyIs EOF p).

Definition parseSequenceDiagram (fuel : nat) : M ASTNode :=
  startToken <- read currentToken ;;
  advance ;;
  '(participants, messages) <- while fuel notAtEnd (sequenceStatement fuel) ([], []) ;;
  validateSequenceDiagram participants messages ;;
  ret (SequenceNode (tok_line startToken) (tok_column startToken) participants messages).

(* ===================================================================== *)
(** ** parser/index.ts: the XY-chart grammar *)
(* ===================================================================== *)

(** The [specialChars] class: quotes, ampersand, angle brackets, parentheses,
    braces, square brackets, pipe, backslash, slash and white space. *)
Definition hasSpecialChars (identifier : jsstr) : bool :=
  existsb (fun c => existsb (N.eqb c)
                      (QUOTE :: u "'&<>(){}[]|\/") || isSpace c) identifier.

Inductive IdentifierContext := xychart_axis | flowchart_label | sequence_participant.

Definition isValidIdentifier (identifier : jsstr) (context : IdentifierContext) : bool :=
  match context with
  | xychart_axis => negb (hasSpecialChars identifier)
  | flowchart_label => true
  | sequence_participant => negb (hasSpecialChars identifier)
  end.

Definition validateXYChart (title : jsstr) (xAxis : list jsstr) (yAxis : YAxis)
           (data : list Series) : M unit :=
  when (length data =? 0)
    (addError (mkToken IDENTIFIER (u "data") 1 1 0)
       [L "No data provided for chart"] "MISSING_DATA"
       (Some [L "Add bar, line, or other data series to the chart"])).

Definition defaultYAxis : YAxis := mkYAxis [] 0 100.

(** [x || d] on an optional value. *)
Definition orElse {A} (x : option A) (d : A) : A :=
  match x with Some a => a | None => d end.

Record XYState := mkXY {
  xy_title : option jsstr;
  xy_xAxis : list jsstr;
  xy_yAxis : option YAxis;
  xy_data : list Series
}.

(** [while (this.currentToken().type !== BRACKET_CLOSE)] *)
Definition listOpen {S : Type} (_ : S) (p : Parser) : bool := negb (tyIs BRACKET_CLOSE p).

(** One round of the loop of the [x-axis] list. *)
Definition xAxisLabel (xAxis : list jsstr) : M (ctl (list jsstr)) :=
  t <- read currentToken ;;
  xAxis' <-
    (if ty_eqb (tok_type t) STRING then ret (xAxis ++ [slice_1_m1 (tok_value t)])
     else if ty_eqb (tok_type t) IDENTIFIER then
       let identifier := tok_value t in
       when (negb (isValidIdentifier identifier xychart_axis))
         (addError t
            [L "Identifier '"; V identifier;
             L "' contains special characters and should be quoted"]
            "INVALID_IDENTIFIER"
            (Some [L "Use "; Q; V identifier; Q; L " instead of "; V identifier])) ;;
       ret (xAxis ++ [identifier])
     else ret xAxis) ;;
  advance ;;
  comma <- read (tyIs COMMA) ;;
  when comma advance ;;
  ret (Continue xAxis').

Definition xAxisLabels (fuel : nat) (xAxis : list jsstr) : M (list jsstr) :=
  while fuel listOpen xAxisLabel xAxis.

(** One round of the loop of a [bar] or [line] list. *)
Definition seriesValue (values : list nat) : M (ctl (list nat)) :=
  t <- read currentToken ;;
  let values' := if ty_eqb (tok_type t) NUMBER
                 then values ++ [parseInt (tok_value t)] else values in
  advance ;;
  comma <- read (tyIs COMMA) ;;
  when comma advance ;;
  ret (Continue values').

Definition seriesValues (fuel : nat) : M (list nat) :=
  while fuel listOpen seriesValue [].

(** One round of the loop of [parseXYChart]. *)
Definition xyStatement (fuel : nat) (s : XYState) : M (ctl XYState) :=
  token <- read currentToken ;;
  if ty_eqb (tok_type token) DIRECTIVE then
    advance ;; ret (Continue s)
  else if valIs token "title" then
    advance ;;
    t <- read currentToken ;;
    if ty_eqb (tok_type t) STRING then
      advance ;;
      ret (Continue (mkXY (Some (slice_1_m1 (tok_value t))) (xy_xAxis s) (xy_yAxis s) (xy_data s)))
    else ret (Continue s)
  else if valIs token "x-axis" then
    advance ;;
    open <- read (tyIs BRACKET_OPEN) ;;
    if open then
      advance ;;
      xAxis <- xAxisLabels fuel (xy_xAxis s) ;;
      advance ;;
      ret (Continue (mkXY (xy_title s) xAxis (xy_yAxis s) (xy_data s)))
    else
      t <- read currentToken ;;
      addError t [L "x-axis must be followed by a bracketed list of labels"]
               "INVALID_X_AXIS_SYNTAX"
               (Some [L "Use x-axis ["; Q; L "Label1"; Q; L ", "; Q; L "Label2"; Q; L ", "; Q; L "Label3"; Q; L "] format"]) ;;
      ret (Continue s)
  else if valIs token "y-axis" then
    advance ;;
    t <- read currentToken ;;
    if ty_eqb (tok_type t) STRING then
      let label := slice_1_m1 (tok_value t) in
      advance ;;
      t1 <- read currentToken ;;
      if valIs t1 "min" then
        addError t1 [L "y-axis syntax does not support "; Q; L "min"; Q; L " keyword"]
                 "INVALID_Y_AXIS_SYNTAX"
                 (Some [L "Use format: y-axis "; Q; L "label"; Q; L " minValue --> maxValue"]) ;;
        advance ;;
        ret (Continue s)
      else if ty_eqb (tok_type t1) NUMBER then
        let min := parseInt (tok_value t1) in
        advance ;;
        t2 <- read currentToken ;;
        if valIs t2 "-->" then
          advance ;;
          t3 <- read currentToken ;;
          if ty_eqb (tok_type t3) NUMBER then
            let max := parseInt (tok_value t3) in
            advance ;;
            ret (Continue (mkXY (xy_title s) (xy_xAxis s) (Some (mkYAxis label min max))
                                (xy_data s)))
          else ret (Continue s)
        else ret (Continue s)
      else ret (Continue s)
    else ret (Continue s)
  else if valIs token "bar" || valIs token "line" then
    let type := if valIs token "bar" then bar else line_series in
    advance ;;
    open <- read (tyIs BRACKET_OPEN) ;;
    if open then
      advance ;;
      values <- seriesValues fuel ;;
      advance ;;
      ret (Continue (mkXY (xy_title s) (xy_xAxis s) (xy_yAxis s)
                          (xy_data s ++ [mkSeries type values])))
    else ret (Continue s)
  else if valIs token "area" || valIs token "scatter" then
    addError token [L "Chart type '"; V (tok_value token);
                    L "' is not supported by Mermaid CLI"]
             "UNSUPPORTED_CHART_TYPE" (Some [L "Use bar or line chart types instead"]) ;;
    advance ;;
    ret (Continue s)
  else if valIs token "series" then
    addError token [L "'series' syntax is not supported by Mermaid CLI"]
             "UNSUPPORTED_SERIES_SYNTAX"
             (Some [L "Use bar or line directly instead of series "; Q; L "name"; Q; L " type chart"]) ;;
    advance ;;
    ret (Continue s)
  else advance ;; ret (Continue s).

Definition parseXYChart (fuel : nat) : M ASTNode :=
  startToken <- read currentToken ;;
  advance ;;
  s <- while fuel notAtEnd (xyStatement fuel) (mkXY None [] None []) ;;
  validateXYChart (orElse (xy_title s) []) (xy_xAxis s) (orElse (xy_yAxis s) defaultYAxis)
                  (xy_data s) ;;
  ret (XYChartNode (tok_line startToken) (tok_column startToken) (xy_title s) (xy_xAxis s)
                   (orElse (xy_yAxis s) defaultYAxis) (xy_data s)).

(* ===================================================================== *)
(** ** parser/index.ts: the other grammars *)
(* ===================================================================== *)

(** One round of the loop of [parseClassDiagram]. *)
Definition classStatement (fuel : nat) (s : unit) : M (ctl unit) :=
  token <- read currentToken ;;
  if ty_eqb (tok_type token) DIRECTIVE then
    advance ;; ret (Continue tt)
  else if valIs token "classDef" then
    parseClassDef fuel ;; ret (Continue tt)
  else if valIs token "class" then
    advance ;;
    i1 <- read (tyIs IDENTIFIER) ;;
    when i1 advance ;;
    i2 <- read (tyIs IDENTIFIER) ;;
    when i2 advance ;;
    ret (Continue tt)
  else if valIn token linkStylingDirectives then
    unsupportedStyling token "class diagrams"
      "Only classDef and class directives are supported in class diagrams" ;;
    skipUntilSemicolon fuel ;;
    ret (Continue tt)
  else if ty_eqb (tok_type token) DOUBLE_PAREN_OPEN
          || ty_eqb (tok_type token) DOUBLE_PAREN_CLOSE then
    addError token [L "Double-parentheses syntax ((text)) is not supported in class diagrams"]
             "UNSUPPORTED_NODE_SHAPE" (Some [L "Use standard class syntax instead"]) ;;
    advance ;;
    ret (Continue tt)
  else advance ;; ret (Continue tt).

Definition parseClassDiagram (fuel : nat) : M ASTNode :=
  startToken <- read currentToken ;;
  advance ;;
  while fuel notAtEnd (classStatement fuel) tt ;;
  ret (PlainNode "class" (tok_line startToken) (tok_column startToken)).

(** One round of the loop of [parseStateDiagram]. *)
Definition stateStatement (fuel : nat) (s : unit) : M (ctl unit) :=
  token <- read currentToken ;;
  if ty_eqb (tok_type token) DIRECTIVE then
    advance ;; ret (Continue tt)
  else if valIs token "classDef" then
    parseClassDef fuel ;; ret (Continue tt)
  else if valIs token "class" then
    parseClassAssignment fuel ;; ret (Continue tt)
  else if valIn token linkStylingDirectives then
    unsupportedStyling token "state diagrams"
      "Only classDef and class directives are supported in state diagrams" ;;
    skipUntilSemicolon fuel ;;
    ret (Continue tt)
  else advance ;; ret (Continue tt).

Definition parseStateDiagram (fuel : nat) : M ASTNode :=
  startToken <- read currentToken ;;
  advance ;;
  while fuel notAtEnd (stateStatement fuel) tt ;;
  ret (PlainNode "state" (tok_line startToken) (tok_column startToken)).

(** The grammars that read to the end of the input: [parsePieChart],
    [parseJourney], [parseGitgraph], [parseMindmap], [parseTimeline],
    [parseGantt] and [parseERDiagram] differ in the [type] they return. *)
Definition parseToEnd (type : string) (fuel : nat) : M ASTNode :=
  startToken <- read currentToken ;;
  advance ;;
  while fuel notAtEnd (fun _ => advance ;; ret (Continue tt)) tt ;;
  ret (PlainNode type (tok_line startToken) (tok_column startToken)).

Definition parsePieChart := parseToEnd "pie".
Definition parseJourney := parseToEnd "journey".
Definition parseGitgraph := parseToEnd "gitgraph".
Definition parseMindmap := parseToEnd "mindmap".
Definition parseTimeline := parseToEnd "timeline".
Definition parseGantt := parseToEnd "gantt".
Definition parseERDiagram := parseToEnd "er".

(** One round of the loop of [parseBlockDiagram]. *)
Definition blockStatement (s : option nat * list BlockElement)
  : M (ctl (option nat * list BlockElement)) :=
  let '(columns, blocks) := s in
  token <- read currentToken ;;
  if valIs token "columns" then
    advance ;;
    t <- read currentToken ;;
    if ty_eqb (tok_type t) NUMBER then
      advance ;; ret (Continue (Some (parseInt (tok_value t)), blocks))
    else ret (Continue s)
  else if ty_eqb (tok_type token) IDENTIFIER then
    let id := tok_value token in
    advance ;;
    open <- read (tyIs BRACKET_OPEN) ;;
    if open then
      advance ;;
      t <- read currentToken ;;
      label <- (if ty_eqb (tok_type t) STRING then
                  advance ;; ret (slice_1_m1 (tok_value t))
                else if ty_eqb (tok_type t) IDENTIFIER then
                  advance ;; ret (tok_value t)
                else ret []) ;;
      close <- read (tyIs BRACKET_CLOSE) ;;
      when close advance ;;
      ret (Continue (columns,
                     blocks ++ [mkBlock (tok_line token) (tok_column token) id label]))
    else ret (Continue s)
  else advance ;; ret (Continue s).

Definition parseBlockDiagram (fuel : nat) : M ASTNode :=
  startToken <- read currentToken ;;
  advance ;;
  '(columns, blocks) <- while fuel notAtEnd blockStatement (None, []) ;;
  ret (BlockDiagramNode (tok_line startToken) (tok_column startToken) columns blocks).

(* ===================================================================== *)
(** ** parser/index.ts: the dispatcher and [parse] *)
(* ===================================================================== *)

Definition parseDiagram (fuel : nat) : M ASTNode :=
  while fuel (fun _ p => negb (isAtEnd p) && tyIs DIRECTIVE p)
        (fun _ => advance ;; ret (Continue tt)) tt ;;
  token <- read currentToken ;;
  match tok_type token with
  | GRAPH | FLOWCHART => parseFlowchart fuel
  | SEQUENCE_DIAGRAM => parseSequenceDiagram fuel
  | CLASS_DIAGRAM => parseClassDiagram fuel
  | STATE_DIAGRAM | STATE_DIAGRAM_V2 => parseStateDiagram fuel
  | PIE => parsePieChart fuel
  | JOURNEY => parseJourney fuel
  | XYCHART_BETA => parseXYChart fuel
  | GITGRAPH => parseGitgraph fuel
  | MINDMAP => parseMindmap fuel
  | TIMELINE => parseTimeline fuel
  | GANTT => parseGantt fuel
  | ER_DIAGRAM => parseERDiagram fuel
  | BLOCK_BETA => parseBlockDiagram fuel
  | _ =>
      addError token [L "Unsupported diagram type: "; V (tok_value token)] "PARSE_ERROR" None ;;
      ret (PlainNode "unknown" (tok_line token) (tok_column token))
  end.

Definition validateSingleDiagramType : M unit := ret tt.

(** The [for] loop of [getDiagramType]: the first token that is no directive. *)
Definition firstDiagramToken (ts : list Token) : option Token :=
  find (fun t => negb (ty_eqb (tok_type t) DIRECTIVE)) ts.

Definition getDiagramType (p : Parser) : string :=
  if length (tokens p) =? 0 then "unknown"
  else match firstDiagramToken (tokens p) with
       | None => "unknown"
       | Some t =>
           match tok_type t with
           | GRAPH | FLOWCHART => "flowchart"
           | SEQUENCE_DIAGRAM => "sequence"
           | CLASS_DIAGRAM => "class"
           | STATE_DIAGRAM | STATE_DIAGRAM_V2 => "state"
           | ER_DIAGRAM => "er"
           | JOURNEY => "journey"
           | GANTT => "gantt"
           | PIE => "pie"
           | GITGRAPH => "gitgraph"
           | MINDMAP => "mindmap"
           | TIMELINE => "timeline"
           | XYCHART_BETA => "xychart"
           | BLOCK_BETA => "block"
           | _ => "unknown"
           end
       end.

(** [new Parser(input)] *)
Definition newParser (input : jsstr) : Parser :=
  mkParser (tokenize input) 0 [] 0.

(** [try { ... } catch (error) { ... }]: the handler sees the state the
    body left. *)
Definition try_catch {A} (body : M A) (handler : jsstr -> M A) : M A :=
  fun p => match body p with
           | Ret a p' => Ret a p'
           | Throw e p' => handler e p'
           | Timeout => Timeout
           end.

(** [parse()] *)
Definition parse (fuel : nat) : M ValidationResult :=
  (fun p => Ret tt (mkParser (tokens p) 0 [] 0)) ;;
  try_catch
    (ast <- parseDiagram fuel ;;
     validateSingleDiagramType ;;
     errs <- read p_errors ;;
     type <- read getDiagramType ;;
     ret (mkResult (length errs =? 0) type errs (Some ast)))
    (fun e =>
       t <- read currentToken ;;
       addError t [L "Parse error: "; V e] "PARSE_ERROR" None ;;
       errs <- read p_errors ;;
       ret (mkResult false "unknown" errs None)).

(* ===================================================================== *)
(** ** index.ts *)
(* ===================================================================== *)

(** What a caller can pass for [mermaidCode]: the type annotation is
    [string], and the function tests [typeof mermaidCode] itself. *)
Inductive js_value :=
  | JSUndefined
  | JSNull
  | JSBoolean (b : bool)
  | JSNumber (n : nat)
  | JSObject
  | JSString (s : jsstr).

Section Index.

(** [MERMAID_VERSION_INFO.validatedAgainst], from [version.ts]. *)
Variable validatedAgainst : jsstr.

Definition isMermaidVersionSupported (version : jsstr) : bool :=
  let supportedVersion := validatedAgainst in
  str_eqb version supportedVersion.

Definition versionMismatch (targetMermaidVersion : jsstr) : ValidationError :=
  mkError 1 1
    [L "This validator was tested against Mermaid "; V validatedAgainst;
     L ", but you're requesting validation for version "; V targetMermaidVersion;
     L ". Compatibility cannot be guaranteed."]
    "VERSION_MISMATCH"
    (Some [L "Use Mermaid version "; V validatedAgainst;
           L " or update this validator to support version "; V targetMermaidVersion]).

(** A string is truthy when it is not empty; [None] is an omitted argument. *)
Definition truthy (s : option jsstr) : bool :=
  match s with
  | Some (_ :: _) => true
  | _ => false
  end.

(** [validateMermaid(mermaidCode, targetMermaidVersion)], over what
    [new Parser(mermaidCode).parse()] does: [run code] is the outcome of
    building a parser for [code] and calling [parse].  [None] means that the
    call did not return. *)
Definition validateMermaidWith (run : jsstr -> outcome ValidationResult)
           (mermaidCode : js_value) (targetMermaidVersion : option jsstr)
  : option ValidationResult :=
  match mermaidCode with
  | JSString code =>
      if (length code =? 0) || isBlank code then
        Some (mkResult false "unknown"
                [mkError 1 1 [L "Empty mermaid code"] "EMPTY_INPUT" None] None)
      else
        match run code with
        | Ret result _ =>
            if truthy targetMermaidVersion
               && negb (isMermaidVersionSupported (orElse targetMermaidVersion []))
            then
              Some (mkResult false (diagramType result)
                      (errors result ++ [versionMismatch (orElse targetMermaidVersion [])])
                      (ast result))
            else Some result
        | Throw error _ =>
            Some (mkResult false "unknown"
                    [mkError 1 1 [L "Validation error: "; V error] "VALIDATION_ERROR" None]
                    None)
        | Timeout => None
        end
  | _ =>
      Some (mkResult false "unknown"
              [mkError 1 1 [L "Input must be a string"] "INVALID_INPUT_TYPE" None] None)
  end.

(** The entry point with the parser of this repository; the call returns
    when the fuel is enough for every loop it runs. *)
Definition validateMermaid (fuel : nat) : js_value -> option jsstr -> option ValidationResult :=
  validateMermaidWith (fun code => parse fuel (newParser code)).

Definition isValidMermaid (fuel : nat) (mermaidCode : js_value) : option bool :=
  option_map isValid (validateMermaid fuel mermaidCode None).

Definition getDiagramTypeOf (fuel : nat) (mermaidCode : js_value) : option string :=
  option_map diagramType (validateMermaid fuel mermaidCode None).

End Index.

(* ===================================================================== *)
(** ** The call stack *)
(* ===================================================================== *)

(** A JavaScript engine has room for a bounded number of nested calls, and
    the call that exceeds it throws a RangeError.  Two methods of the
    repository call themselves: [Lexer.nextToken], once for every
    white-space code unit it skips, and [parseFlowchartElement], through
    [parseSubgraph], once for every subgraph that stands in a subgraph.
    [nextTokenCalls] is the number of nested calls of [nextToken] the engine
    has room for when [validateMermaid] builds its parser, [subgraphLevels]
    the number of subgraphs in one another it has room for when [parse]
    runs.  The definitions above describe the runs for which the room is
    enough; the ones below keep count. *)
Record CallStack := mkCallStack {
  nextTokenCalls : nat;
  subgraphLevels : nat
}.

(** The message of the RangeError (V8). *)
Definition stackOverflow : jsstr := u "Maximum call stack size exceeded".

(** [nextToken] with [calls] nested calls left: [None] is the RangeError.
    Only the branch for white space calls [nextToken] again; on any other
    code unit the method returns what [nextToken] above returns. *)
Fixpoint nextTokenIn (calls : nat) (lx : Lexer) : option (option Token * Lexer) :=
  match calls with
  | 0 => None
  | S calls' =>
    if length (lx_input lx) <=? lx_position lx then Some (None, lx) else
    let char := nth (lx_position lx) (lx_input lx) 0%N in
    if isSpace char then
      nextTokenIn calls' (if N.eqb char LF then newline lx else forward 1 lx)
    else Some (nextToken lx)
  end.

(** The loop of [tokenize]; an exception of [nextToken] ends it. *)
Fixpoint tokenize_loopIn (calls n : nat) (lx : Lexer) (tokens : list Token)
  : option (list Token * Lexer) :=
  match n with
  | 0 => Some (tokens, lx)
  | S n' =>
    match nextTokenIn calls lx with
    | None => None
    | Some (Some token, lx') =>
        if ty_eqb (tok_type token) EOF then Some (tokens, lx')
        else tokenize_loopIn calls n' lx' (tokens ++ [token])
    | Some (None, lx') => Some (tokens, lx')
    end
  end.

Definition tokenizeIn (calls : nat) (input : jsstr) : option (list Token) :=
  let lx := mkLexer input 0 1 1 in
  match tokenize_loopIn calls (S (length input)) lx [] with
  | Some (tokens, lx') =>
      Some (tokens ++ [mkToken EOF [] (lx_line lx') (lx_column lx') (lx_position lx')])
  | None => None
  end.

(** [parseFlowchartElement] with room for [levels] subgraphs in one another:
    the call of [parseSubgraph] for which there is no room throws. *)
Fixpoint parseFlowchartElementIn (levels fuel : nat) {struct fuel}
  : M (option FlowchartElement) :=
  match fuel with
  | 0 => fun _ => Timeout
  | S fuel' =>
    token <- read currentToken ;;
    if isEnd token then
      addError token [L "Unexpected "; Q; L "end"; Q; L " keyword - found end without matching subgraph"]
               "UNMATCHED_END"
               (Some [L "Remove the end keyword or add a corresponding subgraph"]) ;;
      advance ;;
      done token
    else if valIs token "classDef" then parseClassDef fuel' ;; done token
    else if valIs token "class" then parseClassAssignment fuel' ;; done token
    else if valIs token "linkStyle" then parseLinkStyle fuel' ;; done token
    else if valIs token "style" then parseStyle fuel' ;; done token
    else if valIs token "click" then parseClickStatement fuel' ;; done token
    else if valIs token "note" then parseNoteStatement fuel' ;; done token
    else if valIs token "direction" then parseDirectionStatement ;; done token
    else if valIs token "title" then
      addError token [L "Title directive is not supported in flowcharts"]
               "UNSUPPORTED_TITLE_DIRECTIVE"
               (Some [L "Remove the title directive - flowcharts do not support titles"]) ;;
      skipTitleDirective fuel' ;;
      done token
    else if ty_eqb (tok_type token) IDENTIFIER then
      n <- parseNode fuel' ;; ret (Some n)
    else if ty_eqb (tok_type token) ARROW || ty_eqb (tok_type token) DOTTED_ARROW
            || ty_eqb (tok_type token) THICK_ARROW then
      a <- parseArrow fuel' ;; ret (Some a)
    else if ty_eqb (tok_type token) SUBGRAPH then
      match levels with
      | 0 => fun p => Throw stackOverflow p
      | S levels' =>
          s <- parseSubgraph fuel' (parseFlowchartElementIn levels' fuel') ;; ret (Some s)
      end
    else if ty_eqb (tok_type token) COMMENT then
      inline <- read (isInlineComment token) ;;
      when inline
        (addError token [L "Inline comments are not supported"] "INLINE_COMMENT_NOT_SUPPORTED"
                  (Some [L "Move comment to its own line"])) ;;
      advance ;;
      done token
    else if ty_eqb (tok_type token) DIRECTIVE then advance ;; done token
    else if includes [SEMICOLON; COLON; COMMA; EQUALS; PIPE; NUMBER; STRING;
                      BRACKET_OPEN; BRACKET_CLOSE; PAREN_OPEN; PAREN_CLOSE;
                      BRACE_OPEN; BRACE_CLOSE] (tok_type token) then
      advance ;; ret None
    else ret None
  end.

Definition parseFlowchartIn (levels fuel : nat) : M ASTNode :=
  startToken <- read currentToken ;;
  advance ;;
  setLinkCount 0 ;;
  t <- read currentToken ;;
  direction <- (if ty_eqb (tok_type t) IDENTIFIER
                then advance ;; ret (Some (tok_value t))
                else ret None) ;;
  nodes <- while fuel
             (fun _ p => negb (isAtEnd p) && negb (tyIs EOF p))
             (fun nodes =>
                token <- read currentToken ;;
                if includes diagramTypes (tok_type token) then ret (Break nodes)
                else
                  nd <- parseFlowchartElementIn levels fuel ;;
                  match nd with
                  | Some (processed _ _) => ret (Continue nodes)
                  | Some n => ret (Continue (nodes ++ [n]))
                  | None => advance ;; ret (Continue nodes)
                  end)
             [] ;;
  validateFlowchartConnections nodes ;;
  ret (FlowchartNode (tok_line startToken) (tok_column startToken) direction nodes).

Definition parseDiagramIn (levels fuel : nat) : M ASTNode :=
  while fuel (fun _ p => negb (isAtEnd p) && tyIs DIRECTIVE p)
        (fun _ => advance ;; ret (Continue tt)) tt ;;
  token <- read currentToken ;;
  match tok_type token with
  | GRAPH | FLOWCHART => parseFlowchartIn levels fuel
  | SEQUENCE_DIAGRAM => parseSequenceDiagram fuel
  | CLASS_DIAGRAM => parseClassDiagram fuel
  | STATE_DIAGRAM | STATE_DIAGRAM_V2 => parseStateDiagram fuel
  | PIE => parsePieChart fuel
  | JOURNEY => parseJourney fuel
  | XYCHART_BETA => parseXYChart fuel
  | GITGRAPH => parseGitgraph fuel
  | MINDMAP => parseMindmap fuel
  | TIMELINE => parseTimeline fuel
  | GANTT => parseGantt fuel
  | ER_DIAGRAM => parseERDiagram fuel
  | BLOCK_BETA => parseBlockDiagram fuel
  | _ =>
      addError token [L "Unsupported diagram type: "; V (tok_value token)] "PARSE_ERROR" None ;;
      ret (PlainNode "unknown" (tok_line token) (tok_column token))
  end.

(** [parse()]: its [catch] receives the RangeError of the subgraph for which
    there is no room. *)
Definition parseIn (levels fuel : nat) : M ValidationResult :=
  (fun p => Ret tt (mkParser (tokens p) 0 [] 0)) ;;
  try_catch
    (ast <- parseDiagramIn levels fuel ;;
     validateSingleDiagramType ;;
     errs <- read p_errors ;;
     type <- read getDiagramType ;;
     ret (mkResult (length errs =? 0) type errs (Some ast)))
    (fun e =>
       t <- read currentToken ;;
       addError t [L "Parse error: "; V e] "PARSE_ERROR" None ;;
       errs <- read p_errors ;;
       ret (mkResult false "unknown" errs None)).

(** [new Parser(code).parse()]: the constructor runs the lexer, whose
    RangeError leaves the [try] block of [validateMermaid] before a parser
    exists. *)
Definition runIn (stack : CallStack) (fuel : nat) (code : jsstr) : outcome ValidationResult :=
  match tokenizeIn (nextTokenCalls stack) code with
  | Some tokens => parseIn (subgraphLevels stack) fuel (mkParser tokens 0 [] 0)
  | None => Throw stackOverflow (mkParser [] 0 [] 0)
  end.

(** The entry point on an engine with the call stack [stack]. *)
Definition validateMermaidIn (validatedAgainst : jsstr) (stack : CallStack) (fuel : nat)
  : js_value -> option jsstr -> option ValidationResult :=
  validateMermaidWith validatedAgainst (runIn stack fuel).

Definition isValidMermaidIn (validatedAgainst : jsstr) (stack : CallStack) (fuel : nat)
           (mermaidCode : js_value) : option bool :=
  option_map isValid (validateMermaidIn validatedAgainst stack fuel mermaidCode None).

Definition getDiagramTypeIn (validatedAgainst : jsstr) (stack : CallStack) (fuel : nat)
           (mermaidCode : js_value) : option string :=
  option_map diagramType (validateMermaidIn validatedAgainst stack fuel mermaidCode None).

(* ===================================================================== *)
(** * Vocabulary of the statements *)
(* ===================================================================== *)

(** [triple G m Q]: from a state in [G], if [m] returns [a] then [Q a] and
    the state is in [G]; if it throws, the state is in [G]. *)
Definition triple (G : Parser -> Prop) {A} (m : M A) (Q : A -> Prop) : Prop :=
  forall p, G p ->
    match m p with
    | Ret a p' => G p' /\ Q a
    | Throw _ p' => G p'
    | Timeout => True
    end.

(** The postcondition that asks nothing. *)
Definition any {A} (_ : A) : Prop := True.

(** A token stands at a place in [Pos]. *)
Definition tokOk (Pos : nat -> nat -> Prop) (t : Token) : Prop :=
  Pos (tok_line t) (tok_column t).

(** A node element stands where its identifier token stands. *)
Definition elemOk (Pos : nat -> nat -> Prop) (e : FlowchartElement) : Prop :=
  el_isNode e = true -> Pos (el_line e) (el_column e).

Definition optElemOk (Pos : nat -> nat -> Prop) (o : option FlowchartElement) : Prop :=
  match o with Some e => elemOk Pos e | None => True end.

(** A message of a sequence diagram has a solid or a dotted arrow. *)
Definition msgOk (m : MessageNode) : Prop :=
  arrowType m = solid \/ arrowType m = dotted.

Definition astOk (Pos : nat -> nat -> Prop) (a : ASTNode) : Prop :=
  match a with
  | FlowchartNode _ _ _ nodes => Forall (elemOk Pos) nodes
  | SequenceNode _ _ _ messages => Forall msgOk messages
  | _ => True
  end.

(** The place of a diagnostic is the place of a token. *)
Definition located (ts : list Token) (e : ValidationError) : Prop :=
  exists t, In t ts /\ tok_line t = line e /\ tok_column t = column e.

(** Diagnostics that are given line 1, column 1 whatever the input is. *)
Definition fixedPlace (e : ValidationError) : Prop :=
  line e = 1 /\ column e = 1 /\
  In (code e) ["MISSING_DATA"; "EMPTY_INPUT"; "VERSION_MISMATCH"; "VALIDATION_ERROR"]%string.

Definition placed (ts : list Token) (e : ValidationError) : Prop :=
  located ts e \/ fixedPlace e.

(** The text of a token read by one of the [read...] methods is the slice of
    the input from where the lexer stood to where it stands. *)
Definition readsSlice (read : Lexer -> Token * Lexer) : Prop :=
  forall lx t lx', read lx = (t, lx') ->
    tok_value t = slice (lx_input lx) (lx_position lx) (lx_position lx').

(** No token starts with "=" except EQUALS "=" and THICK_ARROW "==>". *)
Definition equalsTokenOk (t : Token) : Prop :=
  forall rest, tok_value t = ch "=" :: rest ->
    (tok_type t = EQUALS /\ rest = []) \/ (tok_type t = THICK_ARROW /\ rest = u "=>").

(** [l] reads the same input as [lx] and stands at least [k] units further. *)
Definition reaches (lx : Lexer) (k : nat) (l : Lexer) : Prop :=
  lx_input l = lx_input lx /\ lx_position lx + k <= lx_position l.

(** The token at index [i]. *)
Definition tokenAt (p : Parser) (i : nat) : Token := nth i (tokens p) eofToken.

(** The state differs from [p] in the cursor only. *)
Definition movedFrom (p p' : Parser) : Prop :=
  tokens p' = tokens p /\ p_errors p' = p_errors p /\ linkCount p' = linkCount p /\
  position p <= position p'.

(** No SEMICOLON token at the indices from [i] up to [j], [j] excluded. *)
Definition noSemicolon (p : Parser) (i j : nat) : Prop :=
  forall k, i <= k -> k < j -> tok_type (tokenAt p k) <> SEMICOLON.

(** The cursor of [p'] is just behind the first SEMICOLON at or after the
    cursor of [p], or, when there is none, at the end of the input. *)
Definition skippedStatement (p p' : Parser) : Prop :=
  movedFrom p p' /\
  ((exists k, position p' = k + 1 /\ position p <= k /\
              tok_type (tokenAt p k) = SEMICOLON /\ noSemicolon p (position p) k)
   \/ (isAtEnd p' = true /\ noSemicolon p (position p) (position p'))).

(** Every token stream of the tokenizer ends with its EOF token. *)
Definition endsWithEOF (p : Parser) : Prop :=
  tok_type (last (tokens p) eofToken) = EOF.

(** The cursor is on the EOF token at the end of the stream. *)
Definition atEOF (p : Parser) : Prop :=
  endsWithEOF p /\ tok_type (currentToken p) = EOF /\ length (tokens p) <= position p + 1.



(** The diagnostic of [parseLinkStyle]. *)
Definition invalidLinkStyleIndex (token : Token) (linkIndex count : nat) : ValidationError :=
  mkError (tok_line token) (tok_column token)
    [L "linkStyle index "; D linkIndex; L " is out of bounds (only "; D count;
     L " link(s) defined)"]
    "INVALID_LINKSTYLE_INDEX"
    (Some [L "Use a link index between 0 and "; D (Nat.max 0 (count - 1))]).

(** [a] and [b] are consecutive elements of the list, both nodes, on the
    same source line. *)
Definition adjacentNodes (nodes : list FlowchartElement) (a b : FlowchartElement) : Prop :=
  exists i, nth_error nodes i = Some a /\ nth_error nodes (S i) = Some b /\
            el_isNode a = true /\ el_isNode b = true /\ el_line a = el_line b.

(** [e] is a MISSING_ARROW diagnostic at the place of the element [b]. *)
Definition missingArrowAt (b : FlowchartElement) (e : ValidationError) : Prop :=
  code e = "MISSING_ARROW"%string /\ line e = el_line b /\ column e = el_column b.


(** ** The lexer in its input *)

(** The lexer is inside its input, on a line and a column counted from 1. *)
Definition lexerOk (lx : Lexer) : Prop :=
  lx_position lx <= length (lx_input lx) /\ 1 <= lx_line lx /\ 1 <= lx_column lx.

(** From [lx] to [l] the lexer read the same input forwards. *)
Definition lexFrom (lx l : Lexer) : Prop :=
  lx_input l = lx_input lx /\ lx_position lx <= lx_position l /\
  lx_position l <= length (lx_input lx) /\ lx_line lx <= lx_line l /\ 1 <= lx_column l.

(** From [lx] to [l] the lexer read white space only. *)
Definition blankTo (lx l : Lexer) : Prop :=
  lexFrom lx l /\
  isBlank (slice (lx_input lx) (lx_position lx) (lx_position l)) = true.

(** The types [nextToken] never gives. *)
Definition unlexedTypes : list TokenType := [SUBGRAPH_END; NOTE; NEWLINE; WHITESPACE; EOF].

(** [t] is the token read from [lx], which left the lexer at [l]. *)
Definition scanned (lx : Lexer) (t : Token) (l : Lexer) : Prop :=
  lexFrom lx l /\
  tok_position t = lx_position lx /\
  lx_position lx < lx_position l /\
  tok_value t = slice (lx_input lx) (lx_position lx) (lx_position l) /\
  lx_line lx <= tok_line t /\ tok_line t <= lx_line l /\ 1 <= tok_column t /\
  includes unlexedTypes (tok_type t) = false.

(** The code units of [v] stand in the input from offset [k] on. *)
Fixpoint reads (lx : Lexer) (k : nat) (v : jsstr) : Prop :=
  match v with
  | [] => True
  | c :: r => at_is lx k c = true /\ reads lx (S k) r
  end.

(** The tokens [ts] lie in the input from [from] to [stop] in their order,
    each with the text the input has at its position, and what lies between
    them is white space. *)
Fixpoint layout (input : jsstr) (from : nat) (ts : list Token) (stop : nat) : Prop :=
  match ts with
  | [] => from <= stop /\ isBlank (slice input from stop) = true
  | t :: rest =>
      from <= tok_position t /\
      isBlank (slice input from (tok_position t)) = true /\
      tok_value t <> [] /\
      tok_value t = slice input (tok_position t) (tok_position t + length (tok_value t)) /\
      layout input (tok_position t + length (tok_value t)) rest stop
  end.

(** The numbers of the list never go down. *)
Fixpoint ascending (l : list nat) : Prop :=
  match l with
  | a :: ((b :: _) as r) => a <= b /\ ascending r
  | _ => True
  end.

(** A token stands on a line and a column counted from 1. *)
Definition tokenPlaced (t : Token) : Prop := 1 <= tok_line t /\ 1 <= tok_column t.

(** What the loop of [tokenize] keeps. *)
Definition lexedSoFar (input : jsstr) (acc : list Token) (lx : Lexer) : Prop :=
  lexerOk lx /\ lx_input lx = input /\
  layout input 0 acc (lx_position lx) /\
  Forall (fun t => includes unlexedTypes (tok_type t) = false) acc /\
  Forall tokenPlaced acc /\
  Forall (fun t => tok_line t <= lx_line lx) acc /\
  ascending (map tok_line acc).

(** The code unit is a double or a single quote. *)
Definition isQuote (c : N) : bool := N.eqb c QUOTE || N.eqb c (ch "'").

(** The first code unit of the text of [t] is in the class [f]. *)
Definition startsWith (f : N -> bool) (t : Token) : Prop :=
  exists c rest, tok_value t = c :: rest /\ f c = true.

(** The text of a STRING token: its quote, code units other than the quote,
    and the same quote again, unless the input ends before it. *)
Definition quoted (input : jsstr) (t : Token) : Prop :=
  exists q body,
    isQuote q = true /\ ~ In q body /\
    (tok_value t = q :: body ++ [q] \/
     (tok_value t = q :: body /\ tok_position t + length (tok_value t) = length input)).

(** What the type of a token says about its text. *)
Definition kindOk (input : jsstr) (t : Token) : Prop :=
  (tok_type t = NUMBER <-> startsWith isDigit t) /\
  (tok_type t = NUMBER -> forallb isDigit (tok_value t) = true) /\
  (tok_type t = STRING <-> startsWith isQuote t) /\
  (tok_type t = STRING -> quoted input t).

(** The types of the tokens whose text is free. *)
Definition freeTextTypes : list TokenType := [IDENTIFIER; STRING; NUMBER; COMMENT; DIRECTIVE].

(** The texts, in lower case, that a token of a type can have when its text
    is not free; EOF has the empty text. *)
Definition fixedTexts (ty : TokenType) : list string :=
  match ty with
  | GRAPH => ["graph"] | FLOWCHART => ["flowchart"]
  | SEQUENCE_DIAGRAM => ["sequencediagram"] | CLASS_DIAGRAM => ["classdiagram"]
  | STATE_DIAGRAM => ["statediagram"] | STATE_DIAGRAM_V2 => ["statediagram-v2"]
  | ER_DIAGRAM => ["erdiagram"] | JOURNEY => ["journey"] | GANTT => ["gantt"]
  | PIE => ["pie"] | GITGRAPH => ["gitgraph"] | MINDMAP => ["mindmap"]
  | TIMELINE => ["timeline"] | XYCHART_BETA => ["xychart-beta"]
  | BLOCK_BETA => ["block-beta"]
  | PARTICIPANT => ["participant"] | ACTIVATION => ["activate"]
  | DEACTIVATION => ["deactivate"] | SUBGRAPH => ["subgraph"]
  | INHERITED_PROPERTY => ["constructor"; "__proto__"]
  | ARROW => ["-->"; "-->>"] | DOTTED_ARROW => ["-.->"; "-.->>"]
  | THICK_ARROW => ["==>"] | SEQUENCE_ARROW => ["->"; "->>"]
  | BRACKET_OPEN => ["["] | BRACKET_CLOSE => ["]"]
  | PAREN_OPEN => ["("] | PAREN_CLOSE => [")"]
  | DOUBLE_PAREN_OPEN => ["(("] | DOUBLE_PAREN_CLOSE => ["))"]
  | BRACE_OPEN => ["{"] | BRACE_CLOSE => ["}"]
  | COMMA => [","] | SEMICOLON => [";"] | COLON => [":"] | PIPE => ["|"]
  | EQUALS => ["="]
  | EOF => [""]
  | _ => []
  end%string.

(** The text of a token is free, or one of the texts of its type. *)
Definition textOk (t : Token) : Prop :=
  includes freeTextTypes (tok_type t) = true \/
  In (toLowerCase (tok_value t)) (map u (fixedTexts (tok_type t))).

(** ** Runs that return *)

(** [m] returns from [p], with a value and a state in [Q]. *)
Definition wp {A} (m : M A) (p : Parser) (Q : A -> Parser -> Prop) : Prop :=
  exists a p', m p = Ret a p' /\ Q a p'.

(** From [p] to [p'] the token list is kept, the cursor does not go back, and
    it moves [k] tokens at least unless it was at the end. *)
Definition onward (k : nat) (p p' : Parser) : Prop :=
  tokens p' = tokens p /\ position p <= position p' /\
  (isAtEnd p = false -> position p + k <= position p').

(** From [p] to [p'] tokens and cursor are kept. *)
Definition still (p p' : Parser) : Prop :=
  tokens p' = tokens p /\ position p' = position p.

(** The token types [parseFlowchartElement] has a branch for, and EOF, on
    which the loops that call it stop. *)
Definition elementTypes : list TokenType :=
  [IDENTIFIER; ARROW; DOTTED_ARROW; THICK_ARROW; SUBGRAPH; COMMENT; DIRECTIVE;
   SEMICOLON; COLON; COMMA; EQUALS; PIPE; NUMBER; STRING;
   BRACKET_OPEN; BRACKET_CLOSE; PAREN_OPEN; PAREN_CLOSE; BRACE_OPEN; BRACE_CLOSE; EOF].

(** A closing bracket stands at index [i], at the cursor or after it. *)
Definition closesAt (p : Parser) (i : nat) : Prop :=
  position p <= i /\ i < length (tokens p) /\ tok_type (tokenAt p i) = BRACKET_CLOSE.

(** What a round of a list loop does. *)
Definition listRound {St} (body : St -> M (ctl St)) : Prop :=
  forall s q i, closesAt q i -> tyIs BRACKET_CLOSE q = false ->
    wp (body s) q (fun r q' => (exists s', r = Continue s') /\ tokens q' = tokens q /\
                               position q < position q' /\ closesAt q' i).

(** Every opening bracket of the token list has a closing bracket behind it. *)
Definition bracketsClosed (ts : list Token) : Prop :=
  forall i, tok_type (nth i ts eofToken) = BRACKET_OPEN ->
    exists j, i < j /\ tok_type (nth j ts eofToken) = BRACKET_CLOSE.

(** ** Whole texts *)

(** Every BRACKET_OPEN token has a BRACKET_CLOSE token behind it. *)
Fixpoint listsClosed (ts : list Token) : bool :=
  match ts with
  | [] => true
  | t :: rest =>
      (negb (ty_eqb (tok_type t) BRACKET_OPEN)
       || existsb (fun c => ty_eqb (tok_type c) BRACKET_CLOSE) rest)
      && listsClosed rest
  end.

(** The tokens behind the first token that is no directive. *)
Fixpoint diagramBody (ts : list Token) : list Token :=
  match ts with
  | [] => []
  | t :: rest => if ty_eqb (tok_type t) DIRECTIVE then diagramBody rest else rest
  end.

(** No token is a [subgraph] keyword, or [parseFlowchartElement] has a branch
    for every token of the body. *)
Definition elementsBounded (ts : list Token) : bool :=
  forallb (fun t => negb (ty_eqb (tok_type t) SUBGRAPH)) ts
  || forallb (fun t => includes elementTypes (tok_type t)) (diagramBody ts).

(** The token streams on which the loops of the grammar that [parseDiagram]
    selects are bounded. *)
Definition loopsBounded (ts : list Token) : bool :=
  match firstDiagramToken ts with
  | Some t =>
      match tok_type t with
      | GRAPH | FLOWCHART => elementsBounded ts
      | XYCHART_BETA => listsClosed ts
      | _ => true
      end
  | None => true
  end.

(** The keywords of the grammars that read to the end of the input. *)
Definition readToEndTypes : list TokenType :=
  [PIE; JOURNEY; GITGRAPH; MINDMAP; TIMELINE; GANTT; ER_DIAGRAM].

(** The token types [parseDiagram] has a case for. *)
Definition grammarTypes : list TokenType :=
  [GRAPH; FLOWCHART; SEQUENCE_DIAGRAM; CLASS_DIAGRAM; STATE_DIAGRAM; STATE_DIAGRAM_V2;
   PIE; JOURNEY; XYCHART_BETA; GITGRAPH; MINDMAP; TIMELINE; GANTT; ER_DIAGRAM; BLOCK_BETA].

(** The diagnostic of the default case of [parseDiagram], for the token [t]. *)
Definition unsupportedDiagramType (t : Token) : ValidationError :=
  mkError (tok_line t) (tok_column t)
    [L "Unsupported diagram type: "; V (tok_value t)] "PARSE_ERROR" None.

(** The [type], [line] and [column] fields of an AST node. *)
Definition ast_type (a : ASTNode) : string :=
  match a with
  | FlowchartNode _ _ _ _ => "flowchart"
  | SequenceNode _ _ _ _ => "sequence"
  | XYChartNode _ _ _ _ _ _ => "xychart"
  | BlockDiagramNode _ _ _ _ => "block"
  | PlainNode type _ _ => type
  end.

Definition ast_line (a : ASTNode) : nat :=
  match a with
  | FlowchartNode l _ _ _ | SequenceNode l _ _ _ | XYChartNode l _ _ _ _ _
  | BlockDiagramNode l _ _ _ | PlainNode _ l _ => l
  end.

Definition ast_column (a : ASTNode) : nat :=
  match a with
  | FlowchartNode _ c _ _ | SequenceNode _ c _ _ | XYChartNode _ c _ _ _ _
  | BlockDiagramNode _ c _ _ | PlainNode _ _ c => c
  end.

(** The node [a] has the type [type] and stands where the token [t] stands. *)
Definition nodeAt (type : string) (t : Token) (a : ASTNode) : Prop :=
  ast_type a = type /\ ast_line a = tok_line t /\ ast_column a = tok_column t.

(** A diagnostic has a line and a column counted from 1. *)
Definition oneBased (e : ValidationError) : Prop := 1 <= line e /\ 1 <= column e.

(** [e] is a MISSING_SUBGRAPH_END diagnostic at the place of the token [t]. *)
Definition missingSubgraphEnd (t : Token) (e : ValidationError) : Prop :=
  code e = "MISSING_SUBGRAPH_END"%string /\ line e = tok_line t /\ column e = tok_column t.

(** The tokens from index [i] up to [j], [j] excluded. *)
Definition tokensBetween (p : Parser) (i j : nat) : list Token :=
  firstn (j - i) (skipn i (tokens p)).

(** From [p] to [p'] the cursor moved on as in [onward k], and nothing else
    changed: no diagnostic was added. *)
Definition quiet (k : nat) (p p' : Parser) : Prop :=
  onward k p p' /\ p_errors p' = p_errors p /\ linkCount p' = linkCount p.

(** The words whose statements the class-diagram and state-diagram grammars
    report, and the equals sign that [parseClassDef] reports. *)
Definition reportedWords : list string := ["linkStyle"; "style"; "click"; "note"; "="]%string.

(** No token is one of the reported words. *)
Definition plainTokens (ts : list Token) : bool :=
  forallb (fun t => negb (valIn t reportedWords)) ts.

(** No token is a double parenthesis. *)
Definition noDoubleParens (ts : list Token) : bool :=
  forallb (fun t => negb (ty_eqb (tok_type t) DOUBLE_PAREN_OPEN
                          || ty_eqb (tok_type t) DOUBLE_PAREN_CLOSE)) ts.

(** The grammars that report the reported words only: the state-diagram
    grammar, and the class-diagram grammar where no token is a double
    parenthesis. *)
Definition plainGrammar (ts : list Token) (t : Token) : bool :=
  match tok_type t with
  | STATE_DIAGRAM | STATE_DIAGRAM_V2 => true
  | CLASS_DIAGRAM => noDoubleParens ts
  | _ => false
  end.

(** What the sequence grammar asks of a token [t] and the token [n] behind
    it: a participant keyword is followed by a name, and a message arrow is
    not followed by the end of the input. *)
Definition followedOk (t n : Token) : bool :=
  (negb (ty_eqb (tok_type t) PARTICIPANT)
   || ty_eqb (tok_type n) IDENTIFIER || ty_eqb (tok_type n) STRING)
  && (negb (ty_eqb (tok_type t) SEQUENCE_ARROW || ty_eqb (tok_type t) ARROW)
      || negb (ty_eqb (tok_type n) EOF)).

Fixpoint allFollowedOk (ts : list Token) : bool :=
  match ts with
  | t :: ((n :: _) as rest) => followedOk t n && allFollowedOk rest
  | _ => true
  end.

(** No token is a styling word, and every token is followed as the sequence
    grammar asks. *)
Definition sequenceTokens (ts : list Token) : bool :=
  forallb (fun t => negb (valIn t stylingDirectives)) ts && allFollowedOk ts.

(** ** The call stack in the input *)

(** The white-space code units at the head of [s]. *)
Fixpoint blankRun (s : jsstr) : nat :=
  match s with
  | c :: s' => if isSpace c then S (blankRun s') else 0
  | [] => 0
  end.

(** The longest run of white-space code units in [s]. *)
Fixpoint longestBlankRun (s : jsstr) : nat :=
  match s with
  | [] => 0
  | _ :: s' => Nat.max (blankRun s) (longestBlankRun s')
  end.

(** The result of the [catch] block of [validateMermaid]. *)
Definition validationError (message : jsstr) : ValidationResult :=
  mkResult false "unknown"
    [mkError 1 1 [L "Validation error: "; V message] "VALIDATION_ERROR" None] None.

(** When [m] returns, the tokens are the same and the cursor has not gone
    back. *)
Definition forwards {A} (m : M A) : Prop :=
  forall p a p', m p = Ret a p' -> tokens p' = tokens p /\ position p <= position p'.

(** The [subgraph] keywords from the cursor on. *)
Definition subgraphsAhead (p : Parser) : nat :=
  length (filter (fun t => ty_eqb (tok_type t) SUBGRAPH) (skipn (position p) (tokens p))).

(** A flowchart has no more [subgraph] keywords than the call stack has
    room for levels; the other grammars do not call themselves. *)
Definition nestingFits (levels : nat) (ts : list Token) : bool :=
  match firstDiagramToken ts with
  | Some t => match tok_type t with
              | GRAPH | FLOWCHART =>
                  length (filter (fun t => ty_eqb (tok_type t) SUBGRAPH) ts) <=? levels
              | _ => true
              end
  | None => true
  end.




(** ** The link counter *)

(** The arrow elements in an element, those of the children of a subgraph
    included. *)
Fixpoint arrows (e : FlowchartElement) : nat :=
  match e with
  | arrow _ _ _ _ => 1
  | subgraph _ _ _ children =>
      (fix sum (l : list FlowchartElement) : nat :=
         match l with
         | [] => 0
         | x :: rest => arrows x + sum rest
         end) children
  | _ => 0
  end.

Definition arrowsIn (nodes : list FlowchartElement) : nat := list_sum (map arrows nodes).

Definition optArrows (o : option FlowchartElement) : nat :=
  match o with Some e => arrows e | None => 0 end.

(** When [m] returns [a], the link counter has grown by [f a]. *)
Definition counts {A} (f : A -> nat) (m : M A) : Prop :=
  forall p a p', m p = Ret a p' -> linkCount p' = linkCount p + f a.

(** [m] leaves the link counter as it is. *)
Definition keeps {A} (m : M A) : Prop := counts (fun _ => 0) m.

(* ===================================================================== *)
(** * Inputs of the examples *)
(* ===================================================================== *)

(** The validated-against version the README documents. *)
Definition version_11_12_0 : jsstr := u "11.12.0".


Definition flowchart_A_B : jsstr := lines ["flowchart TD"; "A B"]%string.

Definition sequence_A_B : jsstr :=
  lines ["sequenceDiagram"; "participant A"; "A->>B: hi"; "B-->>A: ok"]%string.

Definition thick_arrow_input : jsstr := u "A ==>> B ==> C".

Definition linkStyle_5 : jsstr :=
  lines ["flowchart TD"; "A[Start] --> B[End]"; "linkStyle 5 stroke:#f00"]%string.

(** A parser standing on the [linkStyle] token of the example, after one
    arrow has been counted. *)
Definition atLinkStyle_5 : Parser := mkParser (tokenize linkStyle_5) 11 [] 1.

Definition xaxis_unclosed : jsstr := lines ["xychart-beta"; "x-axis [a, b"]%string.

Definition bar_unclosed : jsstr := lines ["xychart-beta"; "bar [1, 2"]%string.

Definition subgraph_thin_arrow : jsstr :=
  lines ["flowchart TD"; "subgraph X"; "A -> B"; "end"]%string.

(** A parser standing on the [subgraph] token of that input. *)
Definition atSubgraph : Parser := mkParser (tokenize subgraph_thin_arrow) 2 [] 0.

Definition pie_styled : jsstr :=
  lines ["pie"; "classDef a fill:#f00;"; "class a b;"; "linkStyle 0 stroke:#f00;";
         "style a fill:#f00;"; "click a b;"; "note c"]%string.


Definition flowchart_A_to_B : jsstr := lines ["flowchart TD"; "A --> B"]%string.

Definition subgraph_closed : jsstr :=
  lines ["flowchart TD"; "subgraph X"; "A --> B"; "end"]%string.

(** A parser standing on the [subgraph] token of that input. *)
Definition atClosedSubgraph : Parser := mkParser (tokenize subgraph_closed) 2 [] 0.

Definition hello_world : jsstr := u "hello world".

Definition flowchart_comment : jsstr := lines ["flowchart TD"; "A %% note"]%string.

(** A parser standing on the comment token of that input. *)
Definition atComment : Parser := mkParser (tokenize flowchart_comment) 3 [] 0.

(** A parser standing on the first message of the sequence example. *)
Definition atMessage : Parser := mkParser (tokenize sequence_A_B) 3 [] 0.

(** A parser standing on the node [A] of the flowchart example. *)
Definition atNodeA : Parser := mkParser (tokenize flowchart_A_B) 2 [] 0.

Definition state_garbled : jsstr :=
  lines ["stateDiagram-v2"; "[*] --> --> ]) 12 end"; "class"]%string.

Definition block_garbled : jsstr := lines ["block-beta"; "columns x [[ --> style"]%string.

Definition linkStyle_5_semicolon : jsstr :=
  lines ["flowchart TD"; "A[Start] --> B[End];"; "linkStyle 5 stroke:#f00"]%string.

Definition linkStyle_5_classDef : jsstr :=
  lines ["flowchart TD"; "A[Start] --> B[End]"; "classDef x fill:#f9f";
         "linkStyle 5 stroke:#f00"]%string.




(* ===================================================================== *)
(** * Properties *)
(* ===================================================================== *)

(** ** Equality tests *)

Lemma str_eqb_eq (a b : jsstr) : str_eqb a b = true <-> a = b.
Proof.
  revert b; induction a as [|x a IH]; intros [|y b]; simpl; split;
    try congruence; try reflexivity.
  - intros H. apply andb_true_iff in H as [Hx Hr].
    apply N.eqb_eq in Hx. apply IH in Hr. congruence.
  - intros H. injection H as -> ->. rewrite N.eqb_refl. simpl. now apply IH.
Qed.

Lemma str_eqb_refl (a : jsstr) : str_eqb a a = true.
Proof. now apply str_eqb_eq. Qed.

Lemma str_eqb_neq (a b : jsstr) : a <> b -> str_eqb a b = false.
Proof.
  intros H. destruct (str_eqb a b) eqn:E; [|reflexivity].
  apply str_eqb_eq in E. contradiction.
Qed.

Lemma ty_eqb_eq (a b : TokenType) : ty_eqb a b = true <-> a = b.
Proof.
  unfold ty_eqb. split.
  - apply internal_TokenType_dec_bl.
  - apply internal_TokenType_dec_lb.
Qed.

Lemma ty_eqb_refl (a : TokenType) : ty_eqb a a = true.
Proof. now apply ty_eqb_eq. Qed.

Lemma valIs_eq (t : Token) (lit : string) : valIs t lit = true <-> tok_value t = u lit.
Proof. apply str_eqb_eq. Qed.

(** ** Running binds backwards *)

Lemma bind_Ret {A B} (m : M A) (k : A -> M B) p b p2 :
  bind m k p = Ret b p2 -> exists a p1, m p = Ret a p1 /\ k a p1 = Ret b p2.
Proof.
  unfold bind. destruct (m p) as [a p1| |]; try discriminate. eauto.
Qed.

Lemma bind_Throw {A B} (m : M A) (k : A -> M B) p e p2 :
  bind m k p = Throw e p2 ->
  m p = Throw e p2 \/ exists a p1, m p = Ret a p1 /\ k a p1 = Throw e p2.
Proof.
  unfold bind. destruct (m p) as [a p1| |]; intros H; try discriminate.
  - right; eauto.
  - injection H as -> ->. now left.
Qed.

(** ** Running binds forwards *)

Lemma bind_runs {A B} (m : M A) (k : A -> M B) p a p' r :
  m p = Ret a p' -> k a p' = r -> bind m k p = r.
Proof. intros Hm Hk. unfold bind. now rewrite Hm. Qed.

Lemma bind_never_returns {A B} (m : M A) (k : A -> M B) p :
  m p = Timeout -> bind m k p = Timeout.
Proof. intros Hm. unfold bind. now rewrite Hm. Qed.

(** ** The tokenizer ends every stream with one EOF token *)

Lemma tokenize_last (input : jsstr) :
  exists ts eof, tokenize input = ts ++ [eof] /\ tok_type eof = EOF.
Proof.
  unfold tokenize. destruct (tokenize_loop _ _ _) as [ts lx']. eauto.
Qed.

Lemma tokenize_nonempty (input : jsstr) : tokenize input <> [].
Proof.
  destruct (tokenize_last input) as (ts & eof & -> & _). now destruct ts.
Qed.

(** ** The result of [parse] *)

Lemma parse_isValid_iff fuel p r p' :
  parse fuel p = Ret r p' -> (isValid r = true <-> errors r = []).
Proof.
  unfold parse. intros H.
  apply bind_Ret in H as (? & p0 & _ & H).
  unfold try_catch in H.
  destruct (bind (parseDiagram fuel) _ p0) as [r0 p1|e p1|] eqn:E; try discriminate.
  - injection H as <- <-.
    apply bind_Ret in E as (a & p2 & _ & E).
    unfold validateSingleDiagramType, bind, read, ret in E. injection E as <- <-.
    simpl. rewrite Nat.eqb_eq. apply length_zero_iff_nil.
  - unfold bind, read, addError, ret in H. injection H as <- <-. simpl.
    split; [discriminate|]. intros H. now apply app_eq_nil in H as [_ H].
Qed.

Lemma parse_never_throws fuel p e p' : parse fuel p <> Throw e p'.
Proof.
  unfold parse, bind at 1, try_catch. simpl.
  destruct (bind (parseDiagram fuel) _ _); discriminate.
Qed.

Section EntryPoint.

Variable validatedAgainst : jsstr.

(** C1: whenever [validateMermaid] returns, the result is valid exactly when
    it carries no diagnostic: on the two early returns, on the result of
    [parse] (both its normal and its [catch] branch), after the version
    check, and in the [catch] branch of the entry point. *)
Theorem validateMermaid_isValid_iff_no_errors fuel mermaidCode target r :
  validateMermaid validatedAgainst fuel mermaidCode target = Some r ->
  (isValid r = true <-> errors r = []).
Proof.
  unfold validateMermaid, validateMermaidWith.
  destruct mermaidCode as [| | | | |code];
    try (intros H; injection H as <-; simpl; split; discriminate).
  destruct (_ || _).
  { intros H; injection H as <-; simpl; split; discriminate. }
  destruct (parse fuel (newParser code)) as [r0 p1|e p1|] eqn:E; try discriminate.
  - destruct (_ && _).
    + intros H; injection H as <-. simpl. split; [discriminate|].
      intros H. now apply app_eq_nil in H as [_ H].
    + intros H; injection H as <-. eapply parse_isValid_iff; eauto.
  - intros H; injection H as <-; simpl; split; discriminate.
Qed.

(** C3: a value that is no string gives the single diagnostic
    INVALID_INPUT_TYPE, an empty or white-space-only string gives the single
    diagnostic EMPTY_INPUT; the type is "unknown", there is no AST, and the
    result is the same whatever building and running the parser would do. *)
Theorem validateMermaid_input_contract run target :
  (forall v, (forall s, v <> JSString s) ->
     validateMermaidWith validatedAgainst run v target =
     Some (mkResult false "unknown"
             [mkError 1 1 [L "Input must be a string"] "INVALID_INPUT_TYPE" None] None))
  /\
  (forall s, isBlank s = true ->
     validateMermaidWith validatedAgainst run (JSString s) target =
     Some (mkResult false "unknown"
             [mkError 1 1 [L "Empty mermaid code"] "EMPTY_INPUT" None] None)).
Proof.
  split.
  - intros v Hv. destruct v; try reflexivity. now destruct (Hv s).
  - intros s Hs. unfold validateMermaidWith. rewrite Hs, orb_true_r. reflexivity.
Qed.

End EntryPoint.

(* ===================================================================== *)
(** ** Loops *)
(* ===================================================================== *)

Section Loops.

Context {S : Type} (cond : S -> Parser -> bool) (body : S -> M (ctl S)).

(** A loop whose every round ends and lowers a measure returns once the
    fuel exceeds the measure. *)
Lemma while_returns (I P : S -> Parser -> Prop) (measure : S -> Parser -> nat) :
  (forall s p, I s p -> cond s p = false -> P s p) ->
  (forall s p, I s p -> cond s p = true ->
     exists r p', body s p = Ret r p' /\
       match r with
       | Continue s' => I s' p' /\ measure s' p' < measure s p
       | Break s' => P s' p'
       end) ->
  forall fuel s p, I s p -> measure s p < fuel ->
    exists s' p', while fuel cond body s p = Ret s' p' /\ P s' p'.
Proof.
  intros Hexit Hbody. induction fuel as [|fuel IH]; intros s p HI Hm; [lia|].
  simpl. destruct (cond s p) eqn:Hc.
  - destruct (Hbody s p HI Hc) as (r & p' & -> & Hr).
    destruct r as [s'|s'].
    + destruct Hr as [HI' Hlt]. apply IH; [assumption|lia].
    + eauto.
  - eauto.
Qed.

(** A loop whose condition stays true while its rounds end never returns. *)
Lemma while_never_returns (I : S -> Parser -> Prop) :
  (forall s p, I s p ->
     cond s p = true /\ exists s' p', body s p = Ret (Continue s') p' /\ I s' p') ->
  forall fuel s p, I s p -> while fuel cond body s p = Timeout.
Proof.
  intros Hstuck. induction fuel as [|fuel IH]; intros s p HI; [reflexivity|].
  simpl. destruct (Hstuck s p HI) as (-> & s' & p' & -> & HI'). now apply IH.
Qed.

End Loops.

(** One round of a loop. *)
Lemma while_round {St} (cond : St -> Parser -> bool) (body : St -> M (ctl St))
      fuel s p s' p' :
  cond s p = true -> body s p = Ret (Continue s') p' ->
  while (S fuel) cond body s p = while fuel cond body s' p'.
Proof. intros Hc Hb. cbn [while]. now rewrite Hc, Hb. Qed.

(** A loop whose round does not return does not return. *)
Lemma while_round_never_returns {St} (cond : St -> Parser -> bool)
      (body : St -> M (ctl St)) fuel s p :
  cond s p = true -> body s p = Timeout -> while fuel cond body s p = Timeout.
Proof. intros Hc Hb. destruct fuel; [reflexivity|]. cbn [while]. now rewrite Hc, Hb. Qed.

(* ===================================================================== *)
(** ** What every method preserves *)
(* ===================================================================== *)

Section Hoare.

(** [G] is a property of the parser state that does not depend on the
    cursor nor, where it is reset or counted up, on the link counter;
    [Pos l c] holds of the place of the
    current token, and adding a diagnostic at such a place, or a
    MISSING_DATA diagnostic at line 1, column 1, keeps [G]. *)
Variable G : Parser -> Prop.
Variable Pos : nat -> nat -> Prop.

Hypothesis G_position : forall p pos,
  G p -> G (mkParser (tokens p) pos (p_errors p) (linkCount p)).
Hypothesis G_linkCount : forall p lc,
  G p -> G (mkParser (tokens p) (position p) (p_errors p) lc).
Hypothesis G_current : forall p,
  G p -> Pos (tok_line (currentToken p)) (tok_column (currentToken p)).
Hypothesis G_addError : forall p l c msg cd sugg,
  G p -> Pos l c \/ (cd = "MISSING_DATA"%string /\ l = 1 /\ c = 1) ->
  G (mkParser (tokens p) (position p) (p_errors p ++ [mkError l c msg cd sugg]) (linkCount p)).

Lemma triple_ret {A} (a : A) (Q : A -> Prop) : Q a -> triple G (ret a) Q.
Proof. intros HQ p Hp. simpl. auto. Qed.

Lemma triple_bind {A B} (m : M A) (k : A -> M B) (Q1 : A -> Prop) (Q2 : B -> Prop) :
  triple G m Q1 -> (forall a, Q1 a -> triple G (k a) Q2) -> triple G (bind m k) Q2.
Proof.
  intros Hm Hk p Hp. unfold bind. specialize (Hm p Hp).
  destruct (m p) as [a p1|e p1|]; auto.
  destruct Hm as [Hp1 Ha]. now apply Hk.
Qed.

Lemma triple_weaken {A} (m : M A) (Q Q' : A -> Prop) :
  triple G m Q -> (forall a, Q a -> Q' a) -> triple G m Q'.
Proof.
  intros Hm HQ p Hp. specialize (Hm p Hp).
  destruct (m p); auto. destruct Hm; auto.
Qed.

Lemma triple_any {A} (m : M A) (Q : A -> Prop) : triple G m Q -> triple G m any.
Proof. intros Hm. eapply triple_weaken; [exact Hm|]. intros; exact I. Qed.

Lemma triple_read {A} (f : Parser -> A) (Q : A -> Prop) :
  (forall p, G p -> Q (f p)) -> triple G (read f) Q.
Proof. intros HQ p Hp. simpl. auto. Qed.

Lemma triple_currentToken : triple G (read currentToken) (tokOk Pos).
Proof. apply triple_read. exact G_current. Qed.

Lemma triple_read_any {A} (f : Parser -> A) : triple G (read f) any.
Proof. apply triple_read. intros; exact I. Qed.

Lemma triple_advance : triple G advance any.
Proof.
  intros p Hp. simpl. split; [|exact I].
  destruct (position p <? length (tokens p)); [now apply G_position|].
  now destruct p.
Qed.

Lemma triple_setLinkCount n : triple G (setLinkCount n) any.
Proof. intros p Hp. simpl. split; [now apply G_linkCount|exact I]. Qed.

Lemma triple_addError token msg cd sugg :
  tokOk Pos token \/ (cd = "MISSING_DATA"%string /\ tok_line token = 1 /\ tok_column token = 1) ->
  triple G (addError token msg cd sugg) any.
Proof. intros Ht p Hp. simpl. split; [now apply G_addError|exact I]. Qed.

Lemma triple_when b (m : M unit) : triple G m any -> triple G (when b m) any.
Proof. intros Hm. destruct b; [exact Hm|]. now apply triple_ret. Qed.

Lemma triple_while {S} fuel (cond : S -> Parser -> bool) (body : S -> M (ctl S))
      (Inv : S -> Prop) :
  (forall s, Inv s ->
     triple G (body s) (fun r => match r with Continue s' | Break s' => Inv s' end)) ->
  forall s, Inv s -> triple G (while fuel cond body s) Inv.
Proof.
  intros Hbody. induction fuel as [|fuel IH]; intros s Hs p Hp; [exact I|].
  simpl. destruct (cond s p); [|auto].
  specialize (Hbody s Hs p Hp).
  destruct (body s p) as [[s'|s'] p1|e p1|]; auto.
  destruct Hbody as [Hp1 Hs']. now apply IH.
Qed.

Create HintDb hoare.

(** One step through a method body. *)
Ltac hoare_step :=
  lazymatch goal with
  | |- triple _ (ret _) _ => apply triple_ret
  | |- triple _ (done _) _ => apply triple_ret
  | |- triple _ (bind (read currentToken) _) _ =>
      eapply triple_bind; [apply triple_currentToken | intros ? ?]
  | |- triple _ (bind (read _) _) _ =>
      eapply triple_bind; [apply triple_read_any | intros ? _]
  | |- triple _ (bind advance _) _ =>
      eapply triple_bind; [apply triple_advance | intros _ _]
  | |- triple _ (bind (setLinkCount _) _) _ =>
      eapply triple_bind; [apply triple_setLinkCount | intros _ _]
  | |- triple _ (bind (addError _ _ _ _) _) _ =>
      eapply triple_bind; [apply triple_addError; auto | intros _ _]
  | |- triple _ (bind (when _ _) _) _ =>
      eapply triple_bind; [apply triple_when | intros _ _]
  | |- triple _ (bind (ret _) _) _ =>
      eapply triple_bind with (Q1 := any); [apply triple_ret; exact I | intros ? _]
  | |- triple _ (bind (while _ _ _ _) _) _ =>
      eapply triple_bind with (Q1 := any);
      [apply triple_while; [intros ? _ | exact I] | intros ? _]
  | |- triple _ (bind (if _ then _ else _) _) _ =>
      eapply triple_bind with (Q1 := any); [ | intros ? _]
  | |- triple _ (bind (match _ with _ => _ end) _) _ =>
      eapply triple_bind with (Q1 := any); [ | intros ? _]
  | |- triple _ (bind (bind _ _) _) _ =>
      eapply triple_bind with (Q1 := any); [ | intros ? _]
  | |- triple _ (bind _ _) _ =>
      eapply triple_bind; [solve [eauto with hoare] | intros ? ?]
  | |- triple _ (if ?b then _ else _) _ => destruct b eqn:?
  | |- triple _ (match ?x with _ => _ end) _ => destruct x eqn:?
  | |- triple _ (when _ _) _ => apply triple_when
  | |- triple _ advance _ => apply triple_advance
  | |- triple _ (addError _ _ _ _) _ => apply triple_addError; auto
  | |- triple _ (while _ _ _ _) _ => apply triple_while; [intros ? _ | exact I]
  | |- triple _ _ any => solve [eauto using triple_any with hoare]
  | |- any _ => exact I
  | |- True => exact I
  | |- match _ with Continue _ | Break _ => any _ end => exact I
  end.

Ltac hoare := repeat hoare_step.

Lemma triple_skipUntilSemicolon fuel : triple G (skipUntilSemicolon fuel) any.
Proof. unfold skipUntilSemicolon. hoare. Qed.

#[local] Hint Resolve triple_skipUntilSemicolon : hoare.

Lemma triple_validateFlowchartConnections nodes :
  Forall (elemOk Pos) nodes -> triple G (validateFlowchartConnections nodes) any.
Proof.
  induction nodes as [|currentNode rest IH]; intros Hall; [now apply triple_ret|].
  destruct rest as [|nextNode rest']; [now apply triple_ret|].
  cbn [validateFlowchartConnections].
  inversion Hall as [|? ? Hc Hrest]; subst.
  eapply triple_bind with (Q1 := any); [|intros _ _; now apply IH].
  destruct (el_isNode currentNode && el_isNode nextNode && _) eqn:E;
    [|now apply triple_ret].
  apply triple_addError. left. unfold tokOk. cbn [tok_line tok_column].
  inversion Hrest as [|? ? Hn _]; subst. apply Hn.
  apply andb_true_iff in E as [E _]. now apply andb_true_iff in E as [_ E].
Qed.

Lemma triple_collectIdentifiersAsLabel fuel b : triple G (collectIdentifiersAsLabel fuel b) any.
Proof. unfold collectIdentifiersAsLabel. hoare. Qed.

Lemma triple_shapeLabel fuel : triple G (shapeLabel fuel) any.
Proof. unfold shapeLabel. hoare. Qed.

Lemma triple_expectClose fuel close msg : triple G (expectClose fuel close msg) any.
Proof. unfold expectClose. hoare. Qed.

#[local] Hint Resolve triple_collectIdentifiersAsLabel triple_shapeLabel
  triple_expectClose : hoare.

Lemma triple_parseNode fuel : triple G (parseNode fuel) (elemOk Pos).
Proof.
  unfold parseNode. hoare_step. hoare_step.
  - hoare. intros _. assumption.
  - hoare; intros _; assumption.
Qed.

#[local] Hint Resolve triple_parseNode : hoare.

Lemma triple_parseArrow fuel : triple G (parseArrow fuel) (elemOk Pos).
Proof. unfold parseArrow. hoare; discriminate. Qed.

(** [parseArrow] from a state in [G0], when counting the link leads from
    [G0] to [G]: what follows the count keeps [G]. *)
Lemma parseArrow_after_count fuel (G0 : Parser -> Prop) :
  (forall p pos, G0 p -> G (mkParser (tokens p) pos (p_errors p) (linkCount p + 1))) ->
  (forall p, G0 p -> tokOk Pos (currentToken p)) ->
  forall p, G0 p ->
    match parseArrow fuel p with
    | Ret a p' => G p' /\ elemOk Pos a
    | Throw _ p' => G p'
    | Timeout => True
    end.
Proof.
  intros Hcount Htok p Hp. specialize (Htok p Hp). unfold parseArrow.
  unfold bind at 1, read at 1. unfold bind at 1, advance at 1.
  unfold bind at 1, read at 1. unfold bind at 1, setLinkCount at 1.
  cbn [tokens position p_errors linkCount].
  match goal with
  | |- match ?m ?q with _ => _ end =>
      assert (Htail : triple G m (elemOk Pos)) by (hoare; discriminate);
      apply (Htail q)
  end.
  destruct (position p <? length (tokens p)); cbn [tokens position p_errors linkCount];
    now apply Hcount.
Qed.

Lemma triple_parseClassDef fuel : triple G (parseClassDef fuel) any.
Proof. unfold parseClassDef. hoare. Qed.

Lemma triple_parseClassAssignment fuel : triple G (parseClassAssignment fuel) any.
Proof. unfold parseClassAssignment. hoare. Qed.

Lemma triple_parseLinkStyle fuel : triple G (parseLinkStyle fuel) any.
Proof. unfold parseLinkStyle. hoare. Qed.

Lemma triple_parseStyle fuel : triple G (parseStyle fuel) any.
Proof. unfold parseStyle. hoare. Qed.

Lemma triple_parseClickStatement fuel : triple G (parseClickStatement fuel) any.
Proof. unfold parseClickStatement. hoare. Qed.

Lemma triple_parseNoteStatement fuel : triple G (parseNoteStatement fuel) any.
Proof. unfold parseNoteStatement. hoare. Qed.

Lemma triple_parseDirectionStatement : triple G parseDirectionStatement any.
Proof. unfold parseDirectionStatement. hoare. Qed.

Lemma triple_skipTitleDirective fuel : triple G (skipTitleDirective fuel) any.
Proof. unfold skipTitleDirective. hoare. Qed.

#[local] Hint Resolve triple_parseArrow triple_parseClassDef triple_parseClassAssignment
  triple_parseLinkStyle triple_parseStyle triple_parseClickStatement
  triple_parseNoteStatement triple_parseDirectionStatement
  triple_skipTitleDirective : hoare.

Lemma Forall_snoc {A} (P : A -> Prop) l x : Forall P l -> P x -> Forall P (l ++ [x]).
Proof. intros Hl Hx. apply Forall_app. split; [assumption|]. now constructor. Qed.

Lemma triple_parseSubgraph fuel self :
  triple G self (optElemOk Pos) -> triple G (parseSubgraph fuel self) (elemOk Pos).
Proof.
  intros Hself. unfold parseSubgraph. do 5 hoare_step.
  hoare_step; [solve [hoare]|].
  eapply triple_bind with (Q1 := Forall (elemOk Pos)).
  { apply triple_while; [|constructor]. intros children Hch.
    eapply triple_bind; [exact Hself|]. intros [c|] Hc; apply triple_ret.
    - now apply Forall_snoc.
    - assumption. }
  intros children Hch. hoare_step.
  eapply triple_bind with (Q1 := any); [hoare|intros _ _].
  eapply triple_bind; [now apply triple_validateFlowchartConnections|intros _ _].
  apply triple_ret. discriminate.
Qed.

Lemma triple_parseFlowchartElement fuel : triple G (parseFlowchartElement fuel) (optElemOk Pos).
Proof.
  induction fuel as [|fuel IH]; [intros p Hp; exact I|].
  cbn [parseFlowchartElement].
  assert (Hsub := triple_parseSubgraph fuel IH).
  hoare_step.
  repeat (hoare_step; [solve [hoare; try discriminate; try assumption]|]).
  hoare; try discriminate; try assumption; exact I.
Qed.

#[local] Hint Resolve triple_parseFlowchartElement : hoare.

Lemma triple_parseFlowchart fuel : triple G (parseFlowchart fuel) (astOk Pos).
Proof.
  unfold parseFlowchart. do 4 hoare_step.
  hoare_step; [solve [hoare]|].
  eapply triple_bind with (Q1 := Forall (elemOk Pos)).
  { apply triple_while; [|constructor]. intros nodes Hn.
    hoare_step. hoare_step; [now apply triple_ret|].
    eapply triple_bind; [apply triple_parseFlowchartElement|].
    intros [e|] He.
    - destruct e; apply triple_ret; try assumption; now apply Forall_snoc.
    - hoare. assumption. }
  intros nodes Hn.
  eapply triple_bind; [now apply triple_validateFlowchartConnections|intros _ _].
  now apply triple_ret.
Qed.

Lemma triple_parseParticipant : triple G parseParticipant any.
Proof. unfold parseParticipant. hoare. Qed.

Lemma messageArrowType_ok v : messageArrowType v = solid \/ messageArrowType v = dotted.
Proof.
  unfold messageArrowType.
  repeat match goal with |- context [if ?b then _ else _] => destruct b end; auto.
Qed.

Lemma triple_parseMessageLine fuel : triple G (parseMessageLine fuel) msgOk.
Proof.
  unfold parseMessageLine. do 3 hoare_step.
  eapply triple_bind with (Q1 := fun a => a = solid \/ a = dotted).
  { hoare_step; hoare; auto using messageArrowType_ok. }
  intros arrowType Harrow. hoare; exact Harrow.
Qed.

#[local] Hint Resolve triple_parseParticipant triple_parseMessageLine : hoare.

Lemma triple_sequenceStatement fuel s :
  Forall msgOk (snd s) ->
  triple G (sequenceStatement fuel s)
         (fun r => match r with Continue s' | Break s' => Forall msgOk (snd s') end).
Proof.
  intros Hs. destruct s as [participants messages].
  unfold sequenceStatement, unsupportedStyling.
  hoare; simpl in *; try assumption. now apply Forall_snoc.
Qed.

Lemma triple_parseSequenceDiagram fuel : triple G (parseSequenceDiagram fuel) (astOk Pos).
Proof.
  unfold parseSequenceDiagram. do 2 hoare_step.
  eapply triple_bind with (Q1 := fun s => Forall msgOk (snd s)).
  { apply triple_while; [|constructor]. intros s Hs. now apply triple_sequenceStatement. }
  intros [participants messages] Hs. unfold validateSequenceDiagram. cbn iota.
  hoare. exact Hs.
Qed.

Lemma triple_xAxisLabels fuel xAxis : triple G (xAxisLabels fuel xAxis) any.
Proof. unfold xAxisLabels, xAxisLabel. hoare. Qed.

Lemma triple_seriesValues fuel : triple G (seriesValues fuel) any.
Proof. unfold seriesValues, seriesValue. hoare. Qed.

#[local] Hint Resolve triple_xAxisLabels triple_seriesValues : hoare.

Lemma triple_xyStatement fuel s : triple G (xyStatement fuel s) any.
Proof. unfold xyStatement. hoare. Qed.

Lemma triple_parseXYChart fuel : triple G (parseXYChart fuel) (astOk Pos).
Proof.
  unfold parseXYChart. do 2 hoare_step.
  eapply triple_bind with (Q1 := any).
  { apply triple_while; [|exact I]. intros s _.
    eapply triple_weaken; [apply triple_xyStatement|]. now intros []. }
  intros s _. unfold validateXYChart. hoare. exact I.
Qed.

Lemma triple_classStatement fuel s : triple G (classStatement fuel s) any.
Proof. unfold classStatement, unsupportedStyling. hoare. Qed.

Lemma triple_stateStatement fuel s : triple G (stateStatement fuel s) any.
Proof. unfold stateStatement, unsupportedStyling. hoare. Qed.

Lemma triple_loop_any {S} fuel (cond : S -> Parser -> bool) (body : S -> M (ctl S)) s :
  (forall s, triple G (body s) any) -> triple G (while fuel cond body s) any.
Proof.
  intros Hbody. apply triple_while; [|exact I]. intros s' _.
  eapply triple_weaken; [apply Hbody|]. now intros [].
Qed.

Lemma triple_parseClassDiagram fuel : triple G (parseClassDiagram fuel) (astOk Pos).
Proof.
  unfold parseClassDiagram. do 2 hoare_step.
  eapply triple_bind; [apply triple_loop_any, triple_classStatement|intros _ _].
  now apply triple_ret.
Qed.

Lemma triple_parseStateDiagram fuel : triple G (parseStateDiagram fuel) (astOk Pos).
Proof.
  unfold parseStateDiagram. do 2 hoare_step.
  eapply triple_bind; [apply triple_loop_any, triple_stateStatement|intros _ _].
  now apply triple_ret.
Qed.

Lemma triple_parseToEnd type fuel : triple G (parseToEnd type fuel) (astOk Pos).
Proof. unfold parseToEnd. hoare. exact I. Qed.

Lemma triple_blockStatement s : triple G (blockStatement s) any.
Proof. destruct s as [columns blocks]. unfold blockStatement. hoare. Qed.

Lemma triple_parseBlockDiagram fuel : triple G (parseBlockDiagram fuel) (astOk Pos).
Proof.
  unfold parseBlockDiagram. do 2 hoare_step.
  eapply triple_bind; [apply triple_loop_any, triple_blockStatement|intros [c b] _].
  now apply triple_ret.
Qed.

Lemma triple_parseDiagram fuel : triple G (parseDiagram fuel) (astOk Pos).
Proof.
  unfold parseDiagram.
  eapply triple_bind with (Q1 := any);
    [apply triple_loop_any; intros; hoare|intros _ _].
  eapply triple_bind; [apply triple_currentToken|intros token Htok].
  destruct (tok_type token);
    try apply triple_parseFlowchart; try apply triple_parseSequenceDiagram;
    try apply triple_parseClassDiagram; try apply triple_parseStateDiagram;
    try apply triple_parseToEnd; try apply triple_parseXYChart;
    try apply triple_parseBlockDiagram; hoare; exact I.
Qed.

End Hoare.

(** ** Consequences for [parse] and [validateMermaid] *)

Lemma currentToken_In p : tokens p <> [] -> In (currentToken p) (tokens p).
Proof.
  intros Hne. unfold currentToken.
  destruct (length (tokens p) <=? position p) eqn:E.
  - destruct (exists_last Hne) as (l & x & ->). rewrite last_last.
    apply in_or_app. right. now left.
  - apply Nat.leb_gt in E. now apply nth_In.
Qed.

Lemma parse_placed fuel input r p' :
  parse fuel (newParser input) = Ret r p' ->
  Forall (placed (tokenize input)) (errors r).
Proof.
  set (ts := tokenize input).
  set (G := fun p => tokens p = ts /\ Forall (placed ts) (p_errors p)).
  set (Pos := fun l c => exists t, In t ts /\ tok_line t = l /\ tok_column t = c).
  assert (Hmove : forall p pos, G p -> G (mkParser (tokens p) pos (p_errors p) (linkCount p))).
  { intros p pos [Ht He]. split; assumption. }
  assert (Hlc : forall p lc, G p -> G (mkParser (tokens p) (position p) (p_errors p) lc)).
  { intros p lc [Ht He]. split; assumption. }
  assert (Hcur : forall p, G p -> Pos (tok_line (currentToken p)) (tok_column (currentToken p))).
  { intros p [Ht _]. exists (currentToken p). repeat split.
    rewrite <- Ht. apply currentToken_In. rewrite Ht. apply tokenize_nonempty. }
  assert (Hadd : forall p l c msg cd sugg, G p ->
            Pos l c \/ (cd = "MISSING_DATA"%string /\ l = 1 /\ c = 1) ->
            G (mkParser (tokens p) (position p)
                 (p_errors p ++ [mkError l c msg cd sugg]) (linkCount p))).
  { intros p l c msg cd sugg [Ht He] Hpos. split; [assumption|].
    apply Forall_snoc; [assumption|].
    destruct Hpos as [Hpos|(-> & -> & ->)]; [now left|].
    right. repeat split. now left. }
  pose proof (@triple_parseDiagram G Pos Hmove Hlc Hcur Hadd fuel) as Hpd.
  unfold parse. intros H.
  apply bind_Ret in H as (? & p0 & H0 & H). injection H0 as _ <-.
  assert (G0 : G (mkParser (tokens (newParser input)) 0 [] 0)).
  { split; [reflexivity|constructor]. }
  unfold try_catch in H. unfold bind at 1 in H.
  specialize (Hpd _ G0).
  destruct (parseDiagram fuel _) as [a p1|e p1|]; try discriminate.
  - unfold validateSingleDiagramType, bind, read, ret in H. injection H as <- <-.
    simpl. apply Hpd.
  - unfold bind, read, addError, ret in H. injection H as <- <-. simpl.
    apply Forall_snoc; [apply Hpd|]. left. apply Hcur. exact Hpd.
Qed.

Lemma parse_ast_ok fuel p r p' :
  parse fuel p = Ret r p' ->
  forall l c ps ms, ast r = Some (SequenceNode l c ps ms) -> Forall msgOk ms.
Proof.
  pose proof (@triple_parseDiagram (fun _ => True) (fun _ _ => True)
                (fun _ _ _ => I) (fun _ _ _ => I) (fun _ _ => I)
                (fun _ _ _ _ _ _ _ _ => I) fuel) as Hpd.
  unfold parse. intros H.
  apply bind_Ret in H as (? & p0 & H0 & H). injection H0 as _ <-.
  unfold try_catch in H. unfold bind at 1 in H.
  specialize (Hpd (mkParser (tokens p) 0 [] 0) I).
  destruct (parseDiagram fuel _) as [a p1|e p1|]; try discriminate.
  - unfold validateSingleDiagramType, bind, read, ret in H. injection H as <- <-.
    simpl. intros l c ps ms [= ->]. apply Hpd.
  - unfold bind, read, addError, ret in H. injection H as <- <-. discriminate.
Qed.




(** C10: the messages of a sequence diagram in a returned AST have arrow
    type solid or dotted, never thick; "->", "->>" and "-->" give solid and
    "-->>" gives dotted. *)
Theorem sequence_messages_solid_or_dotted validatedAgainst fuel mermaidCode target r
        l c participants messages :
  validateMermaid validatedAgainst fuel mermaidCode target = Some r ->
  ast r = Some (SequenceNode l c participants messages) ->
  Forall (fun m => (arrowType m = solid \/ arrowType m = dotted) /\ arrowType m <> thick)
         messages
  /\ messageArrowType (u "->") = solid /\ messageArrowType (u "->>") = solid
  /\ messageArrowType (u "-->") = solid /\ messageArrowType (u "-->>") = dotted.
Proof.
  intros H Hast. split; [|repeat split].
  assert (Hok : Forall msgOk messages).
  { unfold validateMermaid, validateMermaidWith in H.
    destruct mermaidCode as [| | | | |src];
      try (injection H as <-; discriminate Hast).
    destruct (_ || _); [injection H as <-; discriminate Hast|].
    destruct (parse fuel (newParser src)) as [r0 p1|e p1|] eqn:E; try discriminate.
    - destruct (_ && _); injection H as <-; simpl in Hast;
        eapply parse_ast_ok; eauto.
    - injection H as <-. discriminate Hast. }
  eapply Forall_impl; [|exact Hok].
  intros m [Hm|Hm]; rewrite Hm; split; auto; discriminate.
Qed.

Lemma sequence_messages_solid_or_dotted_witness :
  exists r l c participants messages,
    validateMermaid version_11_12_0 10 (JSString sequence_A_B) None = Some r /\
    ast r = Some (SequenceNode l c participants messages) /\
    length messages = 2 /\
    Forall (fun m => (arrowType m = solid \/ arrowType m = dotted) /\ arrowType m <> thick)
           messages.
Proof.
  do 5 eexists. split; [vm_compute; reflexivity|]. split; [reflexivity|].
  split; [reflexivity|].
  eapply (sequence_messages_solid_or_dotted version_11_12_0 10 (JSString sequence_A_B) None).
  - vm_compute. reflexivity.
  - reflexivity.
Defined.

(* ===================================================================== *)
(** ** The tokenizer on "==>" and "==>>" *)
(* ===================================================================== *)

Arguments at_is : simpl never.
Arguments has : simpl never.
Arguments forward : simpl never.
Arguments slice : simpl never.

Lemma at_is_true lx k c :
  at_is lx k c = true ->
  nth_error (lx_input lx) (lx_position lx + k) = Some c /\ has lx k = true.
Proof.
  unfold at_is, char_is, charAt, has. intros H.
  destruct (nth_error _ _) as [d|] eqn:E; [|discriminate].
  apply N.eqb_eq in H. subst d. split; [reflexivity|].
  apply Nat.ltb_lt. apply nth_error_Some. congruence.
Qed.

Lemma at_is_here lx c :
  at_is lx 0 c = true ->
  (length (lx_input lx) <=? lx_position lx) = false /\
  nth (lx_position lx) (lx_input lx) 0%N = c.
Proof.
  intros H. apply at_is_true in H as [Hn Hh]. rewrite Nat.add_0_r in Hn.
  unfold has in Hh. rewrite Nat.add_0_r in Hh. apply Nat.ltb_lt in Hh.
  split; [apply Nat.leb_gt; assumption|]. now apply nth_error_nth.
Qed.

Lemma at_is_forward lx j k c : at_is (forward j lx) k c = at_is lx (j + k) c.
Proof. unfold at_is, forward. simpl. now rewrite Nat.add_assoc. Qed.

Lemma has_forward lx j k : has (forward j lx) k = has lx (j + k).
Proof. unfold has, forward. simpl. now rewrite Nat.add_assoc. Qed.

Lemma at_is_other lx k c d : at_is lx k c = true -> N.eqb c d = false -> at_is lx k d = false.
Proof.
  unfold at_is, char_is. destruct (charAt _ _) as [x|]; [|discriminate].
  intros H Hd. apply N.eqb_eq in H. now subst x.
Qed.

(** At "==>>" the lexer gives an EQUALS token for the first code unit only. *)
Lemma nextToken_at_thick_arrow_with_head lx :
  at_is lx 0 (ch "=") = true -> at_is lx 1 (ch "=") = true ->
  at_is lx 2 (ch ">") = true -> at_is lx 3 (ch ">") = true ->
  nextToken lx =
  (Some (mkToken EQUALS (u "=") (lx_line lx) (lx_column lx) (lx_position lx)), forward 1 lx).
Proof.
  intros H0 H1 H2 H3. unfold nextToken. cbn [nextToken_rec].
  apply at_is_here in H0 as [-> ->].
  destruct (at_is_true _ _ _ H2) as [_ Hh2]. destruct (at_is_true _ _ _ H3) as [_ Hh3].
  cbn in *. rewrite H1, H2, H3, Hh2, Hh3. reflexivity.
Qed.

(** At "==>" not followed by ">" the lexer gives one THICK_ARROW token. *)
Lemma nextToken_at_thick_arrow lx :
  at_is lx 0 (ch "=") = true -> at_is lx 1 (ch "=") = true ->
  at_is lx 2 (ch ">") = true -> at_is lx 3 (ch ">") = false ->
  nextToken lx =
  (Some (mkToken THICK_ARROW (u "==>") (lx_line lx) (lx_column lx + 1) (lx_position lx)),
   forward 3 lx).
Proof.
  intros H0 H1 H2 H3. unfold nextToken. cbn [nextToken_rec].
  apply at_is_here in H0 as [-> ->].
  destruct (at_is_true _ _ _ H2) as [_ Hh2].
  cbn in *. rewrite H1, H2, H3, Hh2, andb_false_r.
  unfold arrowToken, forward. cbn.
  repeat f_equal; lia.
Qed.

(** A single "=" before ">" is an EQUALS token. *)
Lemma nextToken_at_equals_gt lx :
  at_is lx 0 (ch "=") = true -> at_is lx 1 (ch ">") = true ->
  nextToken lx =
  (Some (mkToken EQUALS (u "=") (lx_line lx) (lx_column lx) (lx_position lx)), forward 1 lx).
Proof.
  intros H0 H1. unfold nextToken. cbn [nextToken_rec].
  apply at_is_here in H0 as [-> ->].
  pose proof (at_is_other lx 1 _ (ch "=") H1 eq_refl) as H1'.
  cbn in *. rewrite H1', andb_false_r. reflexivity.
Qed.

(** ">" belongs to no token class and becomes a one-unit IDENTIFIER. *)
Lemma nextToken_at_gt lx :
  at_is lx 0 (ch ">") = true ->
  nextToken lx =
  (Some (mkToken IDENTIFIER (u ">") (lx_line lx) (lx_column lx) (lx_position lx)),
   forward 1 lx).
Proof.
  intros H0. unfold nextToken. cbn [nextToken_rec].
  destruct (at_is_true _ _ _ H0) as [Hn _]. rewrite Nat.add_0_r in Hn.
  apply at_is_here in H0 as [Hlen Hc]. rewrite Hlen, Hc. cbn.
  unfold codePointLength, charAt. rewrite Hn.
  assert (Hs : slice (lx_input lx) (lx_position lx) (lx_position lx + 1) = u ">").
  { unfold slice. replace (lx_position lx + 1 - lx_position lx) with 1 by lia.
    apply nth_error_split in Hn as (l1 & l2 & Hin & Hl). rewrite Hin, <- Hl.
    rewrite skipn_app, skipn_all, Nat.sub_diag. reflexivity. }
  cbn. destruct (nth_error _ (lx_position lx + 1)); cbn; rewrite Hs; reflexivity.
Qed.

Lemma firstn_skipn_head {A} n a (s : list A) x r :
  firstn n (skipn a s) = x :: r -> nth_error s a = Some x.
Proof.
  revert s. induction a as [|a IH]; intros s H.
  - destruct n; [discriminate|]. destruct s; [discriminate|]. simpl in *. congruence.
  - destruct s as [|y s]; [now destruct n|]. simpl in *. now apply IH.
Qed.

Lemma slice_head s a b x r : slice s a b = x :: r -> nth_error s a = Some x.
Proof. unfold slice. apply firstn_skipn_head. Qed.

Lemma readComment_slice : readsSlice readComment.
Proof. intros lx t lx' H. unfold readComment in H. now injection H as <- <-. Qed.

Lemma readDirective_slice : readsSlice readDirective.
Proof.
  intros lx t lx' H. unfold readDirective in H.
  destruct (lex_while _ _ _ _) as [lx2 n]. now injection H as <- <-.
Qed.

Lemma readString_slice : readsSlice readString.
Proof. intros lx t lx' H. unfold readString in H. now injection H as <- <-. Qed.

Lemma readNumber_slice : readsSlice readNumber.
Proof. intros lx t lx' H. unfold readNumber in H. now injection H as <- <-. Qed.

Lemma readIdentifier_slice : readsSlice readIdentifier.
Proof. intros lx t lx' H. unfold readIdentifier in H. now injection H as <- <-. Qed.

Lemma read_not_equals read lx t lx' :
  readsSlice read -> read lx = (t, lx') ->
  (length (lx_input lx) <=? lx_position lx) = false ->
  N.eqb (nth (lx_position lx) (lx_input lx) 0%N) (ch "=") = false ->
  equalsTokenOk t.
Proof.
  intros Hread H Hlen Hc rest Hv. exfalso.
  rewrite (Hread _ _ _ H) in Hv. apply slice_head in Hv.
  apply Nat.leb_gt in Hlen.
  rewrite (nth_error_nth' _ 0%N Hlen) in Hv. injection Hv as Hv.
  rewrite Hv, N.eqb_refl in Hc. discriminate.
Qed.

Lemma nextToken_rec_equals n lx t lx' :
  nextToken_rec n lx = (Some t, lx') -> equalsTokenOk t.
Proof.
  revert lx. induction n as [|n IH]; intros lx; [discriminate|].
  cbn [nextToken_rec]. cbv zeta.
  destruct (length (lx_input lx) <=? lx_position lx) eqn:Hlen; [discriminate|].
  remember (nth (lx_position lx) (lx_input lx) 0%N) as char eqn:Hchar.
  destruct (isSpace char); [now apply IH|].
  destruct (N.eqb char (ch "%") && _ && _) eqn:Hpct.
  { assert (Hc : N.eqb char (ch "=") = false).
    { apply andb_true_iff in Hpct as [Hpct _]. apply andb_true_iff in Hpct as [Hpct _].
      apply N.eqb_eq in Hpct. now rewrite Hpct. }
    rewrite Hchar in Hc.
    destruct (has lx 2 && _).
    - destruct (readDirective lx) as [t0 lx0] eqn:E. cbv beta iota. intros H. injection H as <- <-.
      eapply read_not_equals; eauto using readDirective_slice.
    - destruct (readComment lx) as [t0 lx0] eqn:E. cbv beta iota. intros H. injection H as <- <-.
      eapply read_not_equals; eauto using readComment_slice. }
  destruct (N.eqb char (ch "(") && _ && _);
    [intros H; injection H as <- <-; intros rest Hv; discriminate Hv|].
  destruct (N.eqb char (ch ")") && _ && _);
    [intros H; injection H as <- <-; intros rest Hv; discriminate Hv|].
  destruct (N.eqb char (ch "=")) eqn:Heq.
  { apply N.eqb_eq in Heq. rewrite Heq.
    destruct (has lx 2 && _ && _); [destruct (has lx 3 && _)|];
      intros H; injection H as <- <-; intros rest Hv; injection Hv as <-; auto. }
  assert (Heq' : N.eqb (nth (lx_position lx) (lx_input lx) 0%N) (ch "=") = false)
    by (rewrite <- Hchar; exact Heq).
  assert (Hne : forall t0 ty, t0 = tokenHere ty [char] lx -> equalsTokenOk t0).
  { intros t0 ty -> rest Hv. injection Hv as Hv _. rewrite Hv, N.eqb_refl in Heq.
    discriminate. }
  destruct (lookup singleCharTokens [char]);
    [intros H; injection H as <- <-; eapply Hne; eauto|].
  destruct (N.eqb char (ch "-") && has lx 3 && _ && _ && _);
    [destruct (has lx 4 && _); intros H; injection H as <- <-;
     intros rest Hv; discriminate Hv|].
  destruct (N.eqb char (ch "-") && has lx 2 && _ && _);
    [destruct (has lx 3 && _); intros H; injection H as <- <-;
     intros rest Hv; discriminate Hv|].
  destruct (N.eqb char (ch "-") && has lx 1 && _);
    [destruct (has lx 2 && _); intros H; injection H as <- <-;
     intros rest Hv; discriminate Hv|].
  destruct (N.eqb char QUOTE || _).
  { destruct (readString lx) as [t0 lx0] eqn:E. cbv beta iota. intros H. injection H as <- <-.
    eapply read_not_equals; eauto using readString_slice. }
  destruct (isDigit char).
  { destruct (readNumber lx) as [t0 lx0] eqn:E. cbv beta iota. intros H. injection H as <- <-.
    eapply read_not_equals; eauto using readNumber_slice. }
  destruct (isIdentStart char).
  { destruct (readIdentifier lx) as [t0 lx0] eqn:E. cbv beta iota. intros H. injection H as <- <-.
    eapply read_not_equals; eauto using readIdentifier_slice. }
  intros H. injection H as <- <-. intros rest Hv. exfalso. cbn [tok_value tokenHere] in Hv.
  apply slice_head in Hv. apply Nat.leb_gt in Hlen.
  rewrite (nth_error_nth' _ 0%N Hlen) in Hv. injection Hv as Hv.
  rewrite Hv, N.eqb_refl in Heq'. discriminate.
Qed.

Lemma tokenize_loop_Forall (P : Token -> Prop) :
  (forall lx t lx', nextToken lx = (Some t, lx') -> P t) ->
  forall n lx acc, Forall P acc -> Forall P (fst (tokenize_loop n lx acc)).
Proof.
  intros Hnext. induction n as [|n IH]; intros lx acc Hacc; [exact Hacc|].
  cbn [tokenize_loop]. destruct (nextToken lx) as [[t|] lx'] eqn:E; [|exact Hacc].
  destruct (ty_eqb (tok_type t) EOF); [exact Hacc|].
  apply IH. apply Forall_snoc; [assumption|]. eapply Hnext; eauto.
Qed.

Lemma tokenize_Forall (P : Token -> Prop) :
  (forall lx t lx', nextToken lx = (Some t, lx') -> P t) ->
  (forall l c pos, P (mkToken EOF [] l c pos)) ->
  forall input, Forall P (tokenize input).
Proof.
  intros Hnext Heof input. unfold tokenize.
  pose proof (tokenize_loop_Forall Hnext (S (length input)) (mkLexer input 0 1 1)
                (Forall_nil P)) as H.
  destruct (tokenize_loop _ _ _) as [ts lx']. apply Forall_snoc; [exact H|apply Heof].
Qed.

(** C9: where the input reads "==>>" the lexer gives an EQUALS token for the
    first "=" alone and goes on from the second code unit, which yields a
    second EQUALS and two one-unit identifiers ">"; where it reads "==>" not
    followed by ">" it gives one THICK_ARROW token of value "==>"; and no
    token of any tokenization has the value "==>>". *)
Theorem thick_arrow_tokens :
  (forall lx,
     at_is lx 0 (ch "=") = true -> at_is lx 1 (ch "=") = true ->
     at_is lx 2 (ch ">") = true -> at_is lx 3 (ch ">") = true ->
     let lx1 := forward 1 lx in
     let lx2 := forward 1 lx1 in
     let lx3 := forward 1 lx2 in
     nextToken lx =
       (Some (mkToken EQUALS (u "=") (lx_line lx) (lx_column lx) (lx_position lx)), lx1)
     /\ nextToken lx1 =
       (Some (mkToken EQUALS (u "=") (lx_line lx1) (lx_column lx1) (lx_position lx1)), lx2)
     /\ nextToken lx2 =
       (Some (mkToken IDENTIFIER (u ">") (lx_line lx2) (lx_column lx2) (lx_position lx2)), lx3)
     /\ nextToken lx3 =
       (Some (mkToken IDENTIFIER (u ">") (lx_line lx3) (lx_column lx3) (lx_position lx3)),
        forward 1 lx3))
  /\
  (forall lx,
     at_is lx 0 (ch "=") = true -> at_is lx 1 (ch "=") = true ->
     at_is lx 2 (ch ">") = true -> at_is lx 3 (ch ">") = false ->
     nextToken lx =
       (Some (mkToken THICK_ARROW (u "==>") (lx_line lx) (lx_column lx + 1) (lx_position lx)),
        forward 3 lx))
  /\
  (forall input t, In t (tokenize input) -> tok_value t <> u "==>>").
Proof.
  split; [|split].
  - intros lx H0 H1 H2 H3 lx1 lx2 lx3. repeat split.
    + now apply nextToken_at_thick_arrow_with_head.
    + apply nextToken_at_equals_gt; unfold lx1; rewrite at_is_forward; assumption.
    + apply nextToken_at_gt. unfold lx2, lx1. rewrite !at_is_forward. assumption.
    + apply nextToken_at_gt. unfold lx3, lx2, lx1. rewrite !at_is_forward. assumption.
  - intros lx. apply nextToken_at_thick_arrow.
  - intros input t Hin Hv.
    assert (Hall : Forall equalsTokenOk (tokenize input)).
    { apply tokenize_Forall.
      - intros lx t0 lx'. apply nextToken_rec_equals.
      - intros l c pos rest Hr. discriminate Hr. }
    rewrite Forall_forall in Hall.
    destruct (Hall t Hin _ Hv) as [[_ Hr]|[_ Hr]]; discriminate Hr.
Qed.

Lemma thick_arrow_tokens_witness :
  nextToken (mkLexer thick_arrow_input 2 1 3) =
    (Some (mkToken EQUALS (u "=") 1 3 2), mkLexer thick_arrow_input 3 1 4)
  /\ nextToken (mkLexer thick_arrow_input 9 1 10) =
    (Some (mkToken THICK_ARROW (u "==>") 1 11 9), mkLexer thick_arrow_input 12 1 13)
  /\ map tok_type (tokenize thick_arrow_input) =
     [IDENTIFIER; EQUALS; EQUALS; IDENTIFIER; IDENTIFIER; IDENTIFIER; THICK_ARROW;
      IDENTIFIER; EOF]
  /\ (forall t, In t (tokenize thick_arrow_input) -> tok_value t <> u "==>>").
Proof.
  pose proof (proj1 thick_arrow_tokens (mkLexer thick_arrow_input 2 1 3)
                eq_refl eq_refl eq_refl eq_refl) as Hhead.
  pose proof (proj1 (proj2 thick_arrow_tokens) (mkLexer thick_arrow_input 9 1 10)
                eq_refl eq_refl eq_refl eq_refl) as Hthick.
  cbv zeta in Hhead. destruct Hhead as [Hhead _].
  split; [exact Hhead|]. split; [exact Hthick|]. split; [vm_compute; reflexivity|].
  exact (proj2 (proj2 thick_arrow_tokens) thick_arrow_input).
Defined.

(* ===================================================================== *)
(** ** Skipping a statement *)
(* ===================================================================== *)

Lemma currentToken_inside p :
  position p < length (tokens p) -> currentToken p = tokenAt p (position p).
Proof.
  intros H. unfold currentToken, tokenAt.
  apply Nat.leb_gt in H. now rewrite H.
Qed.

Lemma currentToken_outside p :
  length (tokens p) <= position p -> currentToken p = last (tokens p) eofToken.
Proof. intros H. unfold currentToken. apply Nat.leb_le in H. now rewrite H. Qed.

Lemma advance_inside p :
  position p < length (tokens p) ->
  advance p = Ret tt (mkParser (tokens p) (position p + 1) (p_errors p) (linkCount p)).
Proof. intros H. unfold advance. apply Nat.ltb_lt in H. now rewrite H. Qed.

Lemma not_isAtEnd p : isAtEnd p = false -> position p < length (tokens p).
Proof.
  unfold isAtEnd. intros H. apply orb_false_iff in H as [H _]. now apply Nat.leb_gt in H.
Qed.

Lemma movedFrom_refl p : movedFrom p p.
Proof. unfold movedFrom. auto. Qed.

Lemma skipUntilSemicolon_returns fuel p :
  endsWithEOF p -> length (tokens p) - position p < fuel ->
  exists p', skipUntilSemicolon fuel p = Ret tt p' /\ skippedStatement p p'.
Proof.
  intros Heof Hfuel. unfold skipUntilSemicolon.
  destruct (while_returns
              (fun (_ : unit) p0 => negb (isAtEnd p0) && negb (tyIs SEMICOLON p0)
                                    && negb (tyIs EOF p0))
              (fun _ => advance ;; ret (Continue tt))
              (fun _ p0 => movedFrom p p0 /\ noSemicolon p (position p) (position p0))
              (fun _ p0 => movedFrom p p0 /\ noSemicolon p (position p) (position p0) /\
                           (isAtEnd p0 = true \/
                            (isAtEnd p0 = false /\ tyIs SEMICOLON p0 = true)))
              (fun _ p0 => length (tokens p0) - position p0))
    with (fuel := fuel) (s := tt) (p := p) as (? & p1 & Hrun & Hmoved & Hno & Hstop).
  - intros _ p0 [Hm Hn] Hc. split; [assumption|]. split; [assumption|].
    destruct (isAtEnd p0) eqn:E; [now left|right]. split; [reflexivity|].
    simpl in Hc. destruct (tyIs SEMICOLON p0); [reflexivity|].
    simpl in Hc. unfold isAtEnd in E. apply orb_false_iff in E as [_ E].
    unfold tyIs in Hc. rewrite E in Hc. discriminate.
  - intros _ p0 [Hm Hn] Hc.
    apply andb_true_iff in Hc as [Hc _]. apply andb_true_iff in Hc as [He Hs].
    apply negb_true_iff in He, Hs. pose proof (not_isAtEnd _ He) as Hin.
    exists (Continue tt). eexists. split.
    { unfold bind. rewrite (advance_inside _ Hin). reflexivity. }
    destruct Hm as (Ht & Herr & Hlc & Hpos). simpl. split; [split|lia].
    + unfold movedFrom. simpl. repeat split; auto. lia.
    + intros k Hk1 Hk2. destruct (Nat.eq_dec k (position p0)) as [->|Hne].
      * unfold tyIs in Hs. rewrite (currentToken_inside _ Hin) in Hs.
        unfold tokenAt in *. rewrite <- Ht. intros Hty. rewrite Hty in Hs. discriminate.
      * apply Hn; lia.
  - split; [apply movedFrom_refl|]. intros k Hk1 Hk2. lia.
  - assumption.
  - unfold bind at 1. rewrite Hrun. unfold bind, read.
    destruct Hstop as [Hend|[Hnot Hsemi]].
    + assert (Hs : tyIs SEMICOLON p1 = false).
      { unfold isAtEnd in Hend. apply orb_true_iff in Hend as [Hend|Hend].
        - apply Nat.leb_le in Hend. unfold tyIs.
          rewrite (currentToken_outside _ Hend).
          destruct Hmoved as (Ht & _). rewrite Ht. unfold endsWithEOF in Heof.
          now rewrite Heof.
        - unfold tyIs. apply ty_eqb_eq in Hend. now rewrite Hend. }
      rewrite Hs. simpl. exists p1. split; [reflexivity|].
      split; [assumption|]. right. auto.
    + rewrite Hsemi. simpl. pose proof (not_isAtEnd _ Hnot) as Hin.
      rewrite (advance_inside _ Hin). eexists. split; [reflexivity|].
      destruct Hmoved as (Ht & Herr & Hlc & Hpos).
      split; [unfold movedFrom; simpl; repeat split; auto; lia|].
      left. exists (position p1). simpl. repeat split; auto.
      unfold tyIs in Hsemi. rewrite (currentToken_inside _ Hin) in Hsemi.
      apply ty_eqb_eq in Hsemi. unfold tokenAt in *. now rewrite <- Ht.
Qed.

(* ===================================================================== *)
(** ** [linkStyle] in a flowchart *)
(* ===================================================================== *)

Arguments skipUntilSemicolon : simpl never.
Arguments currentToken : simpl never.
Arguments advance : simpl never.

Lemma endsWithEOF_moved p pos errs lc :
  endsWithEOF p -> endsWithEOF (mkParser (tokens p) pos errs lc).
Proof. exact (fun H => H). Qed.

Lemma parseLinkStyle_checks_index fuel p :
  endsWithEOF p -> position p + 1 < length (tokens p) ->
  tok_type (tokenAt p (position p + 1)) = NUMBER ->
  length (tokens p) < fuel ->
  let linkIndex := parseInt (tok_value (tokenAt p (position p + 1))) in
  exists p',
    parseLinkStyle fuel p = Ret tt p' /\
    tokens p' = tokens p /\ linkCount p' = linkCount p /\
    p_errors p' =
      p_errors p ++
      (if linkCount p <=? linkIndex
       then [invalidLinkStyleIndex (currentToken p) linkIndex (linkCount p)]
       else []).
Proof.
  intros Heof Hnext Hnum Hfuel linkIndex.
  unfold parseLinkStyle. unfold bind at 1, read. unfold bind at 1.
  rewrite advance_inside by lia.
  set (p1 := mkParser (tokens p) (position p + 1) (p_errors p) (linkCount p)).
  unfold bind at 1, read.
  assert (Hcur : currentToken p1 = tokenAt p (position p + 1)).
  { rewrite currentToken_inside by (simpl; lia). reflexivity. }
  rewrite Hcur, Hnum. cbn [ty_eqb TokenType_beq when]. fold linkIndex.
  unfold bind at 1. unfold bind at 1.
  rewrite advance_inside by (simpl; lia). cbn [tokens position p_errors linkCount p1].
  unfold bind at 1, read. cbn [linkCount].
  set (final := fun errs => mkParser (tokens p) (position p + 1 + 1) errs (linkCount p)).
  destruct (linkCount p <=? linkIndex) eqn:Hle; cbn [when addError ret].
  - destruct (skipUntilSemicolon_returns (fuel := fuel)
                (p := final (p_errors p ++
                   [invalidLinkStyleIndex (currentToken p) linkIndex (linkCount p)])))
      as (p' & Hrun & (Ht & He & Hl & _) & _); [exact Heof|simpl; lia|].
    exists p'. split; [exact Hrun|]. auto.
  - destruct (skipUntilSemicolon_returns (fuel := fuel) (p := final (p_errors p)))
      as (p' & Hrun & (Ht & He & Hl & _) & _); [exact Heof|simpl; lia|].
    exists p'. split; [exact Hrun|]. rewrite app_nil_r. auto.
Qed.

(** [parseArrow] counts one link, whatever else it does. *)
Lemma parseArrow_counts_one_link fuel p a p' :
  parseArrow fuel p = Ret a p' -> linkCount p' = linkCount p + 1.
Proof.
  intros H.
  pose proof (@parseArrow_after_count
                (fun q => linkCount q = linkCount p + 1) (fun _ _ => True)
                (fun _ _ Hq => Hq) (fun _ _ => I) (fun _ _ _ _ _ _ Hq _ => Hq)
                fuel (fun q => linkCount q = linkCount p)) as Hcount.
  specialize (Hcount (fun q _ Hq => f_equal (fun n => n + 1) Hq) (fun _ _ => I) p eq_refl).
  rewrite H in Hcount. apply Hcount.
Qed.

(** A statement of a flowchart that starts with [linkStyle] and a number. *)
Lemma flowchart_linkStyle_statement fuel p :
  endsWithEOF p -> position p + 1 < length (tokens p) ->
  valIs (currentToken p) "linkStyle" = true ->
  tok_type (tokenAt p (position p + 1)) = NUMBER ->
  length (tokens p) < fuel ->
  let token := currentToken p in
  let linkIndex := parseInt (tok_value (tokenAt p (position p + 1))) in
  exists p',
    parseFlowchartElement (S fuel) p =
      Ret (Some (processed (tok_line token) (tok_column token))) p' /\
    tokens p' = tokens p /\ linkCount p' = linkCount p /\
    p_errors p' =
      p_errors p ++
      (if linkCount p <=? linkIndex
       then [invalidLinkStyleIndex token linkIndex (linkCount p)]
       else []).
Proof.
  intros Heof Hnext Hval Hnum Hfuel token linkIndex.
  destruct (parseLinkStyle_checks_index Heof Hnext Hnum Hfuel)
    as (p' & Hrun & Ht & Hl & He).
  exists p'. split; [|auto].
  cbn [parseFlowchartElement]. unfold bind at 1, read at 1. fold token.
  assert (Hv : tok_value token = u "linkStyle") by now apply valIs_eq.
  assert (E0 : isEnd token = false).
  { unfold isEnd. rewrite Hv. now destruct (ty_eqb _ _). }
  assert (E1 : valIs token "classDef" = false) by (unfold valIs; now rewrite Hv).
  assert (E2 : valIs token "class" = false) by (unfold valIs; now rewrite Hv).
  rewrite E0, E1, E2. fold token in Hval. rewrite Hval.
  unfold bind. rewrite Hrun. reflexivity.
Qed.

(* ===================================================================== *)
(** ** Adjacent nodes on one line *)
(* ===================================================================== *)

Lemma validateFlowchartConnections_reports nodes p :
  exists added,
    validateFlowchartConnections nodes p =
      Ret tt (mkParser (tokens p) (position p) (p_errors p ++ added) (linkCount p)) /\
    (forall a b, adjacentNodes nodes a b -> exists e, In e added /\ missingArrowAt b e) /\
    (forall e, In e added -> exists a b, adjacentNodes nodes a b /\ missingArrowAt b e).
Proof.
  revert p. induction nodes as [|x rest IH]; intros p.
  { exists []. rewrite app_nil_r. destruct p. split; [reflexivity|]. split.
    - intros a b (i & Ha & _). now destruct i.
    - intros e []. }
  destruct rest as [|y rest'].
  { exists []. rewrite app_nil_r. destruct p. split; [reflexivity|]. split.
    - intros a b (i & Ha & Hb & _). destruct i as [|[|i]]; discriminate Hb.
    - intros e []. }
  cbn [validateFlowchartConnections]. unfold bind at 1.
  destruct (el_isNode x && el_isNode y && (el_line x =? el_line y)) eqn:E;
    cbn [when addError ret].
  - set (err := mkError _ _ _ _ _).
    destruct (IH (mkParser (tokens p) (position p) (p_errors p ++ [err]) (linkCount p)))
      as (added & Hrun & Hall & Honly).
    exists (err :: added). cbn [tokens position p_errors linkCount] in Hrun.
    rewrite <- app_assoc in Hrun. split; [exact Hrun|].
    apply andb_true_iff in E as [E El]. apply andb_true_iff in E as [Ex Ey].
    apply Nat.eqb_eq in El. split.
    + intros a b (i & Ha & Hb & Hrest). destruct i as [|i].
      * injection Ha as <-. injection Hb as <-. exists err. split; [now left|].
        repeat split.
      * destruct (Hall a b) as (e & Hin & He); [exists i; auto|].
        exists e. split; [now right|exact He].
    + intros e [<-|Hin].
      * exists x, y. split; [exists 0; repeat split; assumption|repeat split].
      * destruct (Honly e Hin) as (a & b & (i & Hi) & He).
        exists a, b. split; [exists (S i); exact Hi|exact He].
  - destruct (IH p) as (added & Hrun & Hall & Honly).
    exists added. split; [exact Hrun|]. split.
    + intros a b (i & Ha & Hb & Hna & Hnb & Hl). destruct i as [|i].
      * injection Ha as <-. injection Hb as <-.
        rewrite Hna, Hnb, Hl, Nat.eqb_refl in E. discriminate.
      * apply (Hall a b). exists i. auto.
    + intros e Hin. destruct (Honly e Hin) as (a & b & (i & Hi) & He).
      exists a, b. split; [exists (S i); exact Hi|exact He].
Qed.




(* ===================================================================== *)
(** ** A bracketed list that is never closed *)
(* ===================================================================== *)

Lemma advance_atEOF p :
  atEOF p -> exists p', advance p = Ret tt p' /\ atEOF p'.
Proof.
  intros (Heof & Hcur & Hpos). unfold advance.
  destruct (position p <? length (tokens p)) eqn:E.
  - eexists. split; [reflexivity|]. unfold atEOF. simpl. split; [exact Heof|].
    split; [|lia]. apply Nat.ltb_lt in E.
    rewrite currentToken_outside by (simpl; lia). exact Heof.
  - exists p. split; [reflexivity|]. repeat split; assumption.
Qed.

Lemma tyIs_atEOF p t : atEOF p -> t <> EOF -> tyIs t p = false.
Proof.
  intros (_ & Hcur & _) Ht. unfold tyIs. rewrite Hcur.
  destruct (ty_eqb EOF t) eqn:E; [|reflexivity]. apply ty_eqb_eq in E. congruence.
Qed.

(** On the EOF token the loop of an [x-axis] list goes round without end. *)
Lemma xAxisLabels_never_returns_atEOF fuel xAxis p :
  atEOF p -> xAxisLabels fuel xAxis p = Timeout.
Proof.
  intros Hp. unfold xAxisLabels.
  apply while_never_returns with (I := fun _ q => atEOF q); [|exact Hp].
  intros s q Hq. split.
  - unfold listOpen. rewrite (tyIs_atEOF Hq); [reflexivity|discriminate].
  - destruct (advance_atEOF Hq) as (q' & Hadv & Hq').
    exists s, q'. split; [|exact Hq'].
    unfold xAxisLabel. unfold bind at 1, read at 1.
    destruct Hq as (_ & Hcur & _). rewrite Hcur.
    cbn [ty_eqb TokenType_beq]. unfold bind at 1, ret at 1. unfold bind at 1.
    rewrite Hadv. unfold bind at 1, read at 1.
    rewrite (tyIs_atEOF Hq'); [reflexivity|discriminate].
Qed.

(** The same for the list of a [bar] or [line] series. *)
Lemma seriesValues_never_returns_atEOF fuel values p :
  atEOF p -> while fuel listOpen seriesValue values p = Timeout.
Proof.
  intros Hp.
  apply while_never_returns with (I := fun _ q => atEOF q); [|exact Hp].
  intros s q Hq. split.
  - unfold listOpen. rewrite (tyIs_atEOF Hq); [reflexivity|discriminate].
  - destruct (advance_atEOF Hq) as (q' & Hadv & Hq').
    exists s, q'. split; [|exact Hq'].
    unfold seriesValue. unfold bind at 1, read at 1.
    destruct Hq as (_ & Hcur & _). rewrite Hcur.
    cbn [ty_eqb TokenType_beq]. unfold bind at 1.
    rewrite Hadv. unfold bind at 1, read at 1.
    rewrite (tyIs_atEOF Hq'); [reflexivity|discriminate].
Qed.

(* ===================================================================== *)
(** ** A token the element parser has no branch for, in a subgraph *)
(* ===================================================================== *)

(** On a thin arrow "->", which the lexer gives the type SEQUENCE_ARROW,
    [parseFlowchartElement] falls through to its last [return null] and
    leaves the cursor where it was. *)
Lemma parseFlowchartElement_leaves_thin_arrow fuel p :
  tok_type (currentToken p) = SEQUENCE_ARROW ->
  tok_value (currentToken p) = u "->"%string ->
  parseFlowchartElement (S fuel) p = Ret None p.
Proof.
  intros Hty Hval. cbn [parseFlowchartElement]. unfold bind at 1, read at 1.
  destruct (currentToken p) as [ty v l c ps]. cbn in Hty, Hval. subst ty v.
  vm_compute. reflexivity.
Qed.

(** The loop of [parseSubgraph] does not move the cursor itself, so on such
    a token it goes round without end. *)
Lemma subgraph_children_never_return fuel fuel' children p :
  isAtEnd p = false ->
  tok_type (currentToken p) = SEQUENCE_ARROW ->
  tok_value (currentToken p) = u "->"%string ->
  while fuel
    (fun _ p => negb (isAtEnd p) && negb (isEnd (currentToken p)))
    (fun children =>
       child <- parseFlowchartElement fuel' ;;
       match child with
       | Some c => ret (Continue (children ++ [c]))
       | None => ret (Continue children)
       end)
    children p = Timeout.
Proof.
  intros Hend Hty Hval.
  assert (Hcond : negb (isAtEnd p) && negb (isEnd (currentToken p)) = true).
  { rewrite Hend. unfold isEnd. rewrite Hty. reflexivity. }
  destruct fuel' as [|fuel'].
  - apply while_round_never_returns; [exact Hcond|reflexivity].
  - apply while_never_returns
      with (I := fun s q => s = children /\ q = p); [|split; reflexivity].
    intros s q [-> ->]. split; [exact Hcond|].
    exists children, p. split; [|split; reflexivity].
    unfold bind. rewrite parseFlowchartElement_leaves_thin_arrow by assumption.
    reflexivity.
Qed.

(** Running a method on a concrete state: a step that returns, a test that
    is decided, and the state written as it is named. *)
Ltac runs := eapply bind_runs; [vm_compute; reflexivity | cbv beta zeta].

Ltac decides :=
  lazymatch goal with
  | |- (if ?c then _ else _) _ = _ =>
      let b := eval vm_compute in c in
      replace c with b by (vm_compute; reflexivity); cbv iota
  end.

Ltac at_state q :=
  lazymatch goal with
  | |- _ ?p = _ => replace p with q by (vm_compute; reflexivity)
  end.

Lemma parseSubgraph_thin_arrow fuel :
  parseSubgraph fuel (parseFlowchartElement fuel) atSubgraph = Timeout.
Proof.
  unfold parseSubgraph. do 6 runs. apply bind_never_returns.
  destruct fuel as [|[|fuel]]; [reflexivity|vm_compute; reflexivity|].
  erewrite while_round; [|vm_compute; reflexivity|vm_compute; reflexivity].
  apply subgraph_children_never_return; vm_compute; reflexivity.
Qed.

Lemma parseFlowchartElement_thin_arrow fuel :
  parseFlowchartElement fuel atSubgraph = Timeout.
Proof.
  destruct fuel as [|fuel]; [reflexivity|].
  cbn [parseFlowchartElement]. runs. repeat decides.
  apply bind_never_returns. at_state atSubgraph. apply parseSubgraph_thin_arrow.
Qed.

Lemma parse_subgraph_thin_arrow fuel :
  parse fuel (newParser subgraph_thin_arrow) = Timeout.
Proof.
  unfold parse. runs. unfold try_catch.
  rewrite bind_never_returns; [reflexivity|].
  unfold parseDiagram. destruct fuel as [|fuel]; [reflexivity|].
  runs. runs. cbn [tok_type].
  unfold parseFlowchart. do 5 runs.
  apply bind_never_returns.
  apply while_round_never_returns; [vm_compute; reflexivity|].
  runs. decides.
  apply bind_never_returns. at_state atSubgraph.
  apply parseFlowchartElement_thin_arrow.
Qed.

(** C2, the failing inputs: with an [x-axis [] or [bar [] list that is not
    closed before the end of the input, [validateMermaid] does not return,
    whatever the fuel: the loop of the list stays on the EOF token.  Nor does
    it return on a subgraph that holds a thin arrow "->": the loop of
    [parseSubgraph] stays on that token. *)
Theorem parser_loops_that_never_return validatedAgainst fuel target :
  validateMermaid validatedAgainst fuel (JSString xaxis_unclosed) target = None /\
  validateMermaid validatedAgainst fuel (JSString bar_unclosed) target = None /\
  validateMermaid validatedAgainst fuel (JSString subgraph_thin_arrow) target = None.
Proof.
  split; [|split].
  - destruct fuel as [|[|[|fuel]]]; [vm_compute; reflexivity ..|].
    assert (H : xAxisLabels (S fuel) [u "a"; u "b"]
                  (mkParser (tokenize xaxis_unclosed) 6 [] 0) = Timeout).
    { apply xAxisLabels_never_returns_atEOF. repeat split. vm_compute. lia. }
    vm_compute in H. vm_compute. rewrite H. reflexivity.
  - destruct fuel as [|[|[|fuel]]]; [vm_compute; reflexivity ..|].
    assert (H : while (S fuel) listOpen seriesValue [1; 2]
                  (mkParser (tokenize bar_unclosed) 6 [] 0) = Timeout).
    { apply seriesValues_never_returns_atEOF. repeat split. vm_compute. lia. }
    vm_compute in H. vm_compute. rewrite H. reflexivity.
  - unfold validateMermaid, validateMermaidWith.
    rewrite parse_subgraph_thin_arrow. reflexivity.
Qed.

(* ===================================================================== *)
(** ** Styling statements outside the flowchart grammar *)
(* ===================================================================== *)










Lemma readIdentifier_type lx t lx' :
  readIdentifier lx = (t, lx') ->
  tok_type t = match lookup keywords (toLowerCase (tok_value t)) with
               | Some ty => ty
               | None => IDENTIFIER
               end.
Proof. unfold readIdentifier. intros H. now injection H as <- <-. Qed.





Lemma tokenize_endsWithEOF input pos errs lc :
  endsWithEOF (mkParser (tokenize input) pos errs lc).
Proof.
  unfold endsWithEOF. simpl.
  destruct (tokenize_last input) as (ts & eof & -> & Heof). now rewrite last_last.
Qed.



(* ===================================================================== *)
(** ** The entry point on concrete inputs *)
(* ===================================================================== *)

Lemma validateMermaid_isValid_iff_no_errors_witness :
  exists r,
    validateMermaid version_11_12_0 30 (JSString flowchart_A_B) (Some (u "10.0.0")) = Some r /\
    (isValid r = true <-> errors r = []).
Proof.
  destruct (validateMermaid version_11_12_0 30 (JSString flowchart_A_B) (Some (u "10.0.0")))
    as [r|] eqn:E.
  - exists r. split; [reflexivity|].
    exact (validateMermaid_isValid_iff_no_errors version_11_12_0 30
             (JSString flowchart_A_B) (Some (u "10.0.0")) E).
  - vm_compute in E. discriminate E.
Defined.

Lemma validateMermaid_input_contract_witness :
  validateMermaidWith version_11_12_0 (fun _ => Timeout) JSNull None =
    Some (mkResult false "unknown"
            [mkError 1 1 [L "Input must be a string"] "INVALID_INPUT_TYPE" None] None)
  /\
  validateMermaidWith version_11_12_0 (fun _ => Timeout) (JSString (u "  ")) None =
    Some (mkResult false "unknown"
            [mkError 1 1 [L "Empty mermaid code"] "EMPTY_INPUT" None] None).
Proof.
  split.
  - refine (proj1 (validateMermaid_input_contract version_11_12_0 (fun _ => Timeout) None)
              JSNull _).
    intros s H. discriminate H.
  - refine (proj2 (validateMermaid_input_contract version_11_12_0 (fun _ => Timeout) None)
              (u "  ") _).
    reflexivity.
Defined.

(** C8, as stated, fails: an empty target version differs from the
    validated-against version, yet it is not checked and the valid result
    comes back unchanged; and on a blank input the result has the
    EMPTY_INPUT diagnostic only, whatever the target version. *)
Lemma version_check_is_skipped :
  [] <> version_11_12_0 /\
  validateMermaid version_11_12_0 30 (JSString flowchart_A_to_B) (Some []) =
    validateMermaid version_11_12_0 30 (JSString flowchart_A_to_B) None /\
  option_map (fun r => (isValid r, map code (errors r)))
    (validateMermaid version_11_12_0 30 (JSString flowchart_A_to_B) (Some [])) =
    Some (true, []) /\
  u "10.0.0" <> version_11_12_0 /\
  option_map (fun r => map code (errors r))
    (validateMermaid version_11_12_0 30 (JSString (u " ")) (Some (u "10.0.0"))) =
    Some ["EMPTY_INPUT"%string].
Proof.
  split; [discriminate|]. split; [vm_compute; reflexivity|].
  split; [vm_compute; reflexivity|]. split; [discriminate|]. vm_compute. reflexivity.
Qed.

(* ===================================================================== *)
(** ** The rounds of the lexer's loops *)
(* ===================================================================== *)

(** A loop whose body lowers a measure gives the same result for every
    number of rounds that is at least the measure. *)
Lemma lex_while_budget {St : Type} (cond : St -> bool) (body : St -> St)
      (measure : St -> nat) :
  (forall s, cond s = true -> measure (body s) < measure s) ->
  forall n m s, measure s <= n -> measure s <= m ->
    lex_while n cond body s = lex_while m cond body s.
Proof.
  intros Hdec.
  assert (Hzero : forall k s, measure s = 0 -> lex_while k cond body s = s).
  { intros k s Hs. destruct k; [reflexivity|]. simpl.
    destruct (cond s) eqn:E; [|reflexivity]. apply Hdec in E. lia. }
  induction n as [|n IH]; intros m s Hn Hm.
  - rewrite (Hzero m) by lia. reflexivity.
  - destruct m as [|m]; [now rewrite (Hzero (S n)) by lia|].
    simpl. destruct (cond s) eqn:E; [|reflexivity].
    apply Hdec in E. apply IH; lia.
Qed.

Lemma lex_while_invariant {St : Type} (P : St -> Prop) (cond : St -> bool)
      (body : St -> St) :
  (forall s, P s -> cond s = true -> P (body s)) ->
  forall n s, P s -> P (lex_while n cond body s).
Proof.
  intros Hstep. induction n as [|n IH]; intros s Hs; [exact Hs|].
  simpl. destruct (cond s) eqn:E; [|exact Hs]. apply IH. now apply Hstep.
Qed.

Lemma reaches_forward lx k j l : reaches lx k l -> reaches lx (k + j) (forward j l).
Proof. intros [Hi Hp]. split; [exact Hi|]. simpl. lia. Qed.

Lemma reaches_newline lx k l : reaches lx k l -> reaches lx (k + 1) (newline l).
Proof. intros [Hi Hp]. split; [exact Hi|]. simpl. lia. Qed.

Lemma reaches_weaken lx k j l : reaches lx k l -> j <= k -> reaches lx j l.
Proof. intros [Hi Hp] Hj. split; [exact Hi|]. lia. Qed.

Lemma has_remaining l : has l 0 = true -> 0 < remaining l.
Proof.
  unfold has, remaining. rewrite Nat.add_0_r. intros H. apply Nat.ltb_lt in H. lia.
Qed.

Lemma remaining_forward l : 0 < remaining l -> remaining (forward 1 l) < remaining l.
Proof. unfold remaining, forward. simpl. lia. Qed.

Lemma remaining_newline l : 0 < remaining l -> remaining (newline l) < remaining l.
Proof. unfold remaining, newline. simpl. lia. Qed.

(** Every loop of the [read...] methods reads one code unit per round. *)
Lemma lexer_loops_progress :
  (forall l, inComment l = true -> remaining (forward 1 l) < remaining l) /\
  (forall s, inDirective s = true ->
             remaining (fst (directiveStep s)) < remaining (fst s)) /\
  (forall quote l, inString quote l = true -> remaining (stringStep l) < remaining l) /\
  (forall l, inNumber l = true -> remaining (forward 1 l) < remaining l) /\
  (forall l, inIdentifier l = true -> remaining (forward 1 l) < remaining l).
Proof.
  repeat split.
  - intros l H. apply andb_true_iff in H as [H _]. now apply remaining_forward, has_remaining.
  - intros [l n] H. apply andb_true_iff in H as [H _]. apply has_remaining in H.
    unfold directiveStep. cbn [fst].
    repeat match goal with |- context [if ?b then _ else _] => destruct b end;
      cbn [fst]; unfold remaining in *; simpl; lia.
  - intros quote l H. apply andb_true_iff in H as [H _]. apply has_remaining in H.
    unfold stringStep. destruct (at_is l 0 LF);
      [now apply remaining_newline|now apply remaining_forward].
  - intros l H. apply andb_true_iff in H as [H _]. now apply remaining_forward, has_remaining.
  - intros l H. repeat (apply andb_true_iff in H as [H _]).
    now apply remaining_forward, has_remaining.
Qed.

(** Each [read...] method keeps the input and moves the lexer forward, given
    that the unit it starts on belongs to the token. *)
Lemma readComment_reaches lx t lx' : readComment lx = (t, lx') -> reaches lx 1 lx'.
Proof.
  unfold readComment. intros H. injection H as _ <-.
  assert (Hl : reaches lx 2 (lex_while (remaining (forward 2 lx)) inComment (forward 1)
                               (forward 2 lx))).
  { apply lex_while_invariant.
    - intros l Hl _. apply reaches_weaken with (k := 2 + 1); [|lia].
      now apply reaches_forward.
    - split; [reflexivity|]. simpl. lia. }
  destruct (_ && _).
  - apply reaches_weaken with (k := 2 + 1); [|lia]. now apply reaches_newline.
  - apply reaches_weaken with (k := 2); [exact Hl|lia].
Qed.

Lemma readDirective_reaches lx t lx' : readDirective lx = (t, lx') -> reaches lx 1 lx'.
Proof.
  unfold readDirective. intros H.
  assert (Hl : reaches lx 3 (fst (lex_while (remaining (forward 3 lx)) inDirective
                                    directiveStep (forward 3 lx, 1)))).
  { apply lex_while_invariant with (P := fun s => reaches lx 3 (fst s)).
    - intros [l n] Hl _. cbn [fst] in Hl. unfold directiveStep.
      repeat match goal with |- context [if ?b then _ else _] => destruct b end;
        cbn [fst]; destruct Hl as [Hi Hp]; split; simpl; try assumption; lia.
    - split; [reflexivity|]. simpl. lia. }
  destruct (lex_while _ _ _ _) as [lx2 n]. cbn [fst] in Hl. injection H as _ <-.
  destruct (_ && _ && _).
  - apply reaches_weaken with (k := 3 + 2); [|lia]. now apply reaches_forward.
  - apply reaches_weaken with (k := 3); [exact Hl|lia].
Qed.

Lemma readString_reaches lx t lx' : readString lx = (t, lx') -> reaches lx 1 lx'.
Proof.
  unfold readString. intros H. injection H as _ <-.
  set (quote := nth _ _ _).
  assert (Hl : reaches lx 1 (lex_while (remaining (forward 1 lx)) (inString quote) stringStep
                               (forward 1 lx))).
  { apply lex_while_invariant.
    - intros l Hl _. unfold stringStep. apply reaches_weaken with (k := 1 + 1); [|lia].
      destruct (at_is l 0 LF); [now apply reaches_newline|now apply reaches_forward].
    - split; [reflexivity|]. simpl. lia. }
  destruct (has _ 0).
  - apply reaches_weaken with (k := 1 + 1); [|lia]. now apply reaches_forward.
  - exact Hl.
Qed.

Lemma first_round_reaches lx (cond : Lexer -> bool) :
  cond lx = true -> 0 < remaining lx ->
  reaches lx 1 (lex_while (remaining lx) cond (forward 1) lx).
Proof.
  intros Hc Hr. destruct (remaining lx) as [|n]; [lia|]. simpl. rewrite Hc.
  apply lex_while_invariant.
  - intros l Hl _. apply reaches_weaken with (k := 1 + 1); [|lia].
    now apply reaches_forward.
  - split; [reflexivity|]. simpl. lia.
Qed.

Lemma readNumber_reaches lx t lx' :
  inNumber lx = true -> readNumber lx = (t, lx') -> reaches lx 1 lx'.
Proof.
  unfold readNumber. intros Hc H. injection H as _ <-.
  apply first_round_reaches; [exact Hc|].
  apply andb_true_iff in Hc as [Hc _]. now apply has_remaining.
Qed.

Lemma readIdentifier_reaches lx t lx' :
  inIdentifier lx = true -> readIdentifier lx = (t, lx') -> reaches lx 1 lx'.
Proof.
  unfold readIdentifier. intros Hc H. injection H as _ <-.
  apply first_round_reaches; [exact Hc|].
  repeat (apply andb_true_iff in Hc as [Hc _]). now apply has_remaining.
Qed.

Lemma identStart_inIdentifier lx :
  (length (lx_input lx) <=? lx_position lx) = false ->
  isIdentStart (nth (lx_position lx) (lx_input lx) 0%N) = true ->
  inIdentifier lx = true.
Proof.
  intros Hlen Hc. apply Nat.leb_gt in Hlen.
  assert (Hhas : has lx 0 = true).
  { unfold has. rewrite Nat.add_0_r. now apply Nat.ltb_lt. }
  assert (Hat : at_is lx 0 (ch "-") = false).
  { unfold at_is, char_is, charAt. rewrite Nat.add_0_r.
    rewrite (nth_error_nth' _ 0%N Hlen).
    destruct (N.eqb _ (ch "-")) eqn:E; [|reflexivity].
    apply N.eqb_eq in E. rewrite E in Hc. discriminate Hc. }
  unfold inIdentifier. rewrite Hhas, Hat. cbn [andb negb].
  unfold isIdentPart. unfold isIdentStart in Hc.
  apply orb_true_iff in Hc as [Hc|Hc]; rewrite Hc; cbn [orb andb];
    repeat rewrite orb_true_r; reflexivity.
Qed.

(** A token read by [nextToken] is at least one code unit long. *)
Lemma nextToken_rec_reaches n lx t lx' :
  nextToken_rec n lx = (Some t, lx') ->
  reaches lx 1 lx' /\ lx_position lx < length (lx_input lx).
Proof.
  revert lx. induction n as [|n IH]; intros lx; [discriminate|].
  cbn [nextToken_rec]. cbv zeta.
  destruct (length (lx_input lx) <=? lx_position lx) eqn:Hlen; [discriminate|].
  pose proof Hlen as Hin. apply Nat.leb_gt in Hin.
  assert (Hfw : forall k, 0 < k -> reaches lx 1 (forward k lx)).
  { intros k Hk. split; [reflexivity|]. simpl. lia. }
  remember (nth (lx_position lx) (lx_input lx) 0%N) as char eqn:Hchar.
  destruct (isSpace char).
  { intros H. apply IH in H as [[Hi Hp] _]. split; [|exact Hin].
    destruct (N.eqb char LF); simpl in *; split; try assumption; lia. }
  destruct (N.eqb char (ch "%") && _ && _).
  { destruct (has lx 2 && _).
    - destruct (readDirective lx) as [t0 lx0] eqn:E. cbv beta iota. intros H.
      injection H as <- <-. split; [eapply readDirective_reaches; eauto|exact Hin].
    - destruct (readComment lx) as [t0 lx0] eqn:E. cbv beta iota. intros H.
      injection H as <- <-. split; [eapply readComment_reaches; eauto|exact Hin]. }
  destruct (N.eqb char (ch "(") && _ && _);
    [intros H; injection H as <- <-; split; [apply Hfw; lia|exact Hin]|].
  destruct (N.eqb char (ch ")") && _ && _);
    [intros H; injection H as <- <-; split; [apply Hfw; lia|exact Hin]|].
  destruct (N.eqb char (ch "=")).
  { destruct (has lx 2 && _ && _); [destruct (has lx 3 && _)|];
      intros H; injection H as <- <-; (split; [apply Hfw; lia|exact Hin]). }
  destruct (lookup singleCharTokens [char]);
    [intros H; injection H as <- <-; split; [apply Hfw; lia|exact Hin]|].
  destruct (N.eqb char (ch "-") && has lx 3 && _ && _ && _);
    [destruct (has lx 4 && _); intros H; injection H as <- <-;
     (split; [apply Hfw; lia|exact Hin])|].
  destruct (N.eqb char (ch "-") && has lx 2 && _ && _);
    [destruct (has lx 3 && _); intros H; injection H as <- <-;
     (split; [apply Hfw; lia|exact Hin])|].
  destruct (N.eqb char (ch "-") && has lx 1 && _);
    [destruct (has lx 2 && _); intros H; injection H as <- <-;
     (split; [apply Hfw; lia|exact Hin])|].
  destruct (N.eqb char QUOTE || _).
  { destruct (readString lx) as [t0 lx0] eqn:E. cbv beta iota. intros H.
    injection H as <- <-. split; [eapply readString_reaches; eauto|exact Hin]. }
  destruct (isDigit char) eqn:Hd.
  { destruct (readNumber lx) as [t0 lx0] eqn:E. cbv beta iota. intros H.
    injection H as <- <-. split; [|exact Hin].
    eapply readNumber_reaches; [|exact E]. unfold inNumber, has.
    rewrite Nat.add_0_r, <- Hchar, Hd, andb_true_r. now apply Nat.ltb_lt. }
  destruct (isIdentStart char) eqn:Hs.
  { destruct (readIdentifier lx) as [t0 lx0] eqn:E. cbv beta iota. intros H.
    injection H as <- <-. split; [|exact Hin].
    eapply readIdentifier_reaches; [|exact E].
    apply identStart_inIdentifier; [exact Hlen|now rewrite <- Hchar]. }
  intros H. injection H as <- <-. split; [|exact Hin]. split; [reflexivity|].
  simpl. unfold codePointLength.
  repeat match goal with |- context [match ?x with _ => _ end] => destruct x end; lia.
Qed.

(** The recursion of [nextToken] never runs out of rounds. *)
Lemma nextToken_budget n m lx :
  remaining lx < n -> remaining lx < m -> nextToken_rec n lx = nextToken_rec m lx.
Proof.
  revert m lx. induction n as [|n IH]; intros m lx Hn Hm; [lia|].
  destruct m as [|m]; [lia|]. cbn [nextToken_rec].
  destruct (length (lx_input lx) <=? lx_position lx) eqn:Hlen; [reflexivity|].
  apply Nat.leb_gt in Hlen.
  destruct (isSpace _); [|reflexivity].
  apply IH; destruct (N.eqb _ LF); unfold remaining in *; simpl; lia.
Qed.

(** The loop of [tokenize] never runs out of rounds. *)
Lemma tokenize_loop_budget n m lx acc :
  remaining lx < n -> remaining lx < m ->
  tokenize_loop n lx acc = tokenize_loop m lx acc.
Proof.
  revert m lx acc. induction n as [|n IH]; intros m lx acc Hn Hm; [lia|].
  destruct m as [|m]; [lia|]. cbn [tokenize_loop].
  destruct (nextToken lx) as [[t|] lx'] eqn:E; [|reflexivity].
  destruct (ty_eqb (tok_type t) EOF); [reflexivity|].
  apply nextToken_rec_reaches in E as [[Hi Hp] Hin].
  apply IH; unfold remaining in *; rewrite Hi; lia.
Qed.

(* ===================================================================== *)
(** ** The tokens in the input *)
(* ===================================================================== *)

(** *** Slices *)

Lemma firstn_plus {A} j k (l : list A) :
  firstn (j + k) l = firstn j l ++ firstn k (skipn j l).
Proof.
  revert l. induction j as [|j IH]; intros l; [reflexivity|].
  destruct l as [|x l]; [simpl; now rewrite firstn_nil|]. simpl. now rewrite IH.
Qed.

Lemma slice_app s a m b : a <= m -> m <= b -> slice s a b = slice s a m ++ slice s m b.
Proof.
  intros Ham Hmb. unfold slice.
  replace (b - a) with ((m - a) + (b - m)) by lia.
  rewrite firstn_plus, skipn_skipn. now replace (m - a + a) with m by lia.
Qed.

Lemma slice_empty s a : slice s a a = [].
Proof. unfold slice. now rewrite Nat.sub_diag. Qed.

Lemma slice_one s a x : nth_error s a = Some x -> slice s a (a + 1) = [x].
Proof.
  intros H. unfold slice. replace (a + 1 - a) with 1 by lia.
  apply nth_error_split in H as (l1 & l2 & -> & <-).
  rewrite skipn_app, skipn_all, Nat.sub_diag. reflexivity.
Qed.

Lemma slice_length s a b : b <= length s -> length (slice s a b) = b - a.
Proof. intros H. unfold slice. rewrite length_firstn, length_skipn. lia. Qed.

Lemma slice_all s : slice s 0 (length s) = s.
Proof. unfold slice. rewrite Nat.sub_0_r. simpl. apply firstn_all. Qed.

Lemma reads_slice lx k v :
  lx_position lx + k <= length (lx_input lx) -> reads lx k v ->
  slice (lx_input lx) (lx_position lx + k) (lx_position lx + k + length v) = v /\
  lx_position lx + k + length v <= length (lx_input lx).
Proof.
  revert k. induction v as [|c r IH]; intros k Hk H.
  - simpl. rewrite Nat.add_0_r, slice_empty. split; [reflexivity|exact Hk].
  - destruct H as [Hc Hr]. apply at_is_true in Hc as [Hn Hh].
    unfold has in Hh. apply Nat.ltb_lt in Hh.
    destruct (IH (S k)) as [Hs Hb]; [lia|exact Hr|].
    cbn [length]. split; [|lia].
    rewrite (@slice_app _ (lx_position lx + k) (lx_position lx + k + 1) _) by lia.
    rewrite (slice_one _ _ Hn).
    replace (lx_position lx + k + 1) with (lx_position lx + S k) by lia.
    replace (lx_position lx + k + S (length r)) with (lx_position lx + S k + length r) by lia.
    now rewrite Hs.
Qed.

Lemma here_at_is lx :
  (length (lx_input lx) <=? lx_position lx) = false ->
  at_is lx 0 (nth (lx_position lx) (lx_input lx) 0%N) = true.
Proof.
  intros Hlen. apply Nat.leb_gt in Hlen. unfold at_is, char_is, charAt.
  rewrite Nat.add_0_r, (nth_error_nth' _ 0%N Hlen). apply N.eqb_refl.
Qed.

Lemma lexFrom_refl lx : lexerOk lx -> lexFrom lx lx.
Proof. intros (Hp & Hl & Hc). repeat split; auto. Qed.

Lemma lexFrom_ok lx l : lexerOk lx -> lexFrom lx l -> lexerOk l.
Proof.
  intros (Hp & Hl & Hc) (Hi & Hpos & Hlen & Hline & Hcol).
  unfold lexerOk. rewrite Hi. repeat split; lia.
Qed.

Lemma lexFrom_trans a b c : lexFrom a b -> lexFrom b c -> lexFrom a c.
Proof.
  intros (Hi & Hpos & Hlen & Hline & Hcol) (Hi' & Hpos' & Hlen' & Hline' & Hcol').
  unfold lexFrom. rewrite Hi in *. repeat split; try lia. congruence.
Qed.

Lemma lexFrom_forward lx l k :
  lexFrom lx l -> lx_position l + k <= length (lx_input lx) -> lexFrom lx (forward k l).
Proof.
  intros (Hi & Hpos & Hlen & Hline & Hcol) Hk. unfold lexFrom, forward. simpl.
  repeat split; try lia. exact Hi.
Qed.

Lemma lexFrom_newline lx l :
  lexFrom lx l -> lx_position l + 1 <= length (lx_input lx) -> lexFrom lx (newline l).
Proof.
  intros (Hi & Hpos & Hlen & Hline & Hcol) Hk. unfold lexFrom, newline. simpl.
  repeat split; try lia. exact Hi.
Qed.

Lemma has_inside lx l k :
  lexFrom lx l -> has l k = true -> lx_position l + k + 1 <= length (lx_input lx).
Proof.
  intros (Hi & _) H. unfold has in H. rewrite Hi in H. apply Nat.ltb_lt in H. lia.
Qed.

(** What the loops of the [read...] methods keep. *)
Lemma readComment_from lx t lx' :
  lexerOk lx -> has lx 1 = true -> readComment lx = (t, lx') -> lexFrom lx lx'.
Proof.
  intros Hok Hh H. unfold readComment in H. injection H as _ <-.
  assert (H2 : lexFrom lx (forward 2 lx)).
  { apply lexFrom_forward; [now apply lexFrom_refl|].
    pose proof (has_inside _ (lexFrom_refl Hok) Hh). lia. }
  assert (Hl : lexFrom lx (lex_while (remaining (forward 2 lx)) inComment (forward 1)
                             (forward 2 lx))).
  { apply lex_while_invariant; [|exact H2].
    intros l Hl Hc. apply andb_true_iff in Hc as [Hc _].
    apply lexFrom_forward; [exact Hl|]. pose proof (has_inside _ Hl Hc). lia. }
  destruct (has _ 0 && _) eqn:E; [|exact Hl].
  apply andb_true_iff in E as [E _].
  apply lexFrom_newline; [exact Hl|]. pose proof (has_inside _ Hl E). lia.
Qed.

Lemma readDirective_from lx t lx' :
  lexerOk lx -> has lx 2 = true -> readDirective lx = (t, lx') ->
  lexFrom lx lx' /\ tok_line t = lx_line lx' /\ tok_column t = lx_column lx'.
Proof.
  intros Hok Hh H. unfold readDirective in H.
  assert (H3 : lexFrom lx (forward 3 lx)).
  { apply lexFrom_forward; [now apply lexFrom_refl|].
    pose proof (has_inside _ (lexFrom_refl Hok) Hh). lia. }
  assert (Hl : lexFrom lx (fst (lex_while (remaining (forward 3 lx)) inDirective
                                  directiveStep (forward 3 lx, 1)))).
  { apply lex_while_invariant with (P := fun s => lexFrom lx (fst s)); [|exact H3].
    intros [l n] Hl Hc. cbn [fst] in Hl. apply andb_true_iff in Hc as [Hc _].
    pose proof (has_inside _ Hl Hc) as Hin. unfold directiveStep.
    destruct Hl as (Hi & Hpos & Hlen & Hline & Hcol).
    repeat match goal with |- context [if ?b then _ else _] => destruct b end;
      cbn [fst]; unfold lexFrom, newline, forward; simpl; repeat split; try lia; exact Hi. }
  destruct (lex_while _ _ _ _) as [lx2 n]. cbn [fst] in Hl.
  destruct (has lx2 1 && _ && _) eqn:E; injection H as <- <-.
  - repeat (apply andb_true_iff in E as [E _]).
    split; [|split; reflexivity].
    apply lexFrom_forward; [exact Hl|]. pose proof (has_inside _ Hl E). lia.
  - split; [exact Hl|split; reflexivity].
Qed.

Lemma readString_from lx t lx' :
  lexerOk lx -> has lx 0 = true -> readString lx = (t, lx') ->
  lexFrom lx lx' /\ tok_line t = lx_line lx' /\ tok_column t = lx_column lx'.
Proof.
  intros Hok Hh H. unfold readString in H. injection H as <- <-.
  set (quote := nth _ _ _).
  assert (H1 : lexFrom lx (forward 1 lx)).
  { apply lexFrom_forward; [now apply lexFrom_refl|].
    pose proof (has_inside _ (lexFrom_refl Hok) Hh). lia. }
  assert (Hl : lexFrom lx (lex_while (remaining (forward 1 lx)) (inString quote) stringStep
                             (forward 1 lx))).
  { apply lex_while_invariant; [|exact H1].
    intros l Hl Hc. apply andb_true_iff in Hc as [Hc _].
    pose proof (has_inside _ Hl Hc). unfold stringStep.
    destruct (at_is l 0 LF); [apply lexFrom_newline|apply lexFrom_forward]; auto; lia. }
  cbn [tok_line tok_column]. split; [|split; reflexivity].
  destruct (has (lex_while _ _ _ _) 0) eqn:E; [|exact Hl].
  apply lexFrom_forward; [exact Hl|]. pose proof (has_inside _ Hl E). lia.
Qed.

Lemma forward_loop_from lx (cond : Lexer -> bool) n :
  lexerOk lx -> (forall l, cond l = true -> has l 0 = true) ->
  lexFrom lx (lex_while n cond (forward 1) lx).
Proof.
  intros Hok Hc. apply lex_while_invariant; [|now apply lexFrom_refl].
  intros l Hl Hcl. apply Hc in Hcl.
  apply lexFrom_forward; [exact Hl|]. pose proof (has_inside _ Hl Hcl). lia.
Qed.

Lemma readNumber_from lx t lx' :
  lexerOk lx -> readNumber lx = (t, lx') ->
  lexFrom lx lx' /\ tok_line t = lx_line lx' /\ tok_column t = lx_column lx'.
Proof.
  intros Hok H. unfold readNumber in H. injection H as <- <-.
  split; [|split; reflexivity]. apply forward_loop_from; [exact Hok|].
  intros l Hc. now apply andb_true_iff in Hc as [Hc _].
Qed.

Lemma readIdentifier_from lx t lx' :
  lexerOk lx -> readIdentifier lx = (t, lx') ->
  lexFrom lx lx' /\ tok_line t = lx_line lx' /\ tok_column t = lx_column lx'.
Proof.
  intros Hok H. unfold readIdentifier in H. injection H as <- <-.
  split; [|split; reflexivity]. apply forward_loop_from; [exact Hok|].
  intros l Hc. now repeat (apply andb_true_iff in Hc as [Hc _]).
Qed.

Lemma keywords_lexed key :
  includes unlexedTypes
    (match lookup keywords key with Some t => t | None => IDENTIFIER end) = false.
Proof.
  unfold keywords. cbn [lookup].
  repeat match goal with |- context [if ?b then _ else _] => destruct b end; reflexivity.
Qed.

Lemma singleCharTokens_lexed key t :
  lookup singleCharTokens key = Some t -> includes unlexedTypes t = false.
Proof.
  unfold singleCharTokens. cbn [lookup].
  repeat match goal with |- context [if ?b then _ else _] => destruct b end;
    intros H; try discriminate H; injection H as <-; reflexivity.
Qed.

Lemma scanned_here lx ty :
  lexerOk lx -> (length (lx_input lx) <=? lx_position lx) = false ->
  includes unlexedTypes ty = false ->
  scanned lx (tokenHere ty [nth (lx_position lx) (lx_input lx) 0%N] lx) (forward 1 lx).
Proof.
  intros Hok Hlen Hty. pose proof Hok as (Hp & Hl & Hc).
  apply Nat.leb_gt in Hlen.
  unfold scanned, tokenHere. cbn [tok_position tok_value tok_line tok_column tok_type].
  split; [apply lexFrom_forward; [now apply lexFrom_refl|lia]|].
  repeat split; try (simpl; lia); try assumption.
  simpl. symmetry. apply slice_one. now apply nth_error_nth'.
Qed.

Lemma scanned_literal lx v t k :
  lexerOk lx -> reads lx 0 v -> k = length v -> 0 < k ->
  tok_value t = v -> tok_position t = lx_position lx -> tok_line t = lx_line lx ->
  1 <= tok_column t -> includes unlexedTypes (tok_type t) = false ->
  scanned lx t (forward k lx).
Proof.
  intros Hok Hr -> Hk Hv Hpos Hline Hcol Hty. pose proof Hok as (Hp & Hl & Hc).
  destruct (reads_slice lx 0 v) as [Hs Hb]; [lia|exact Hr|].
  rewrite !Nat.add_0_r in *.
  unfold scanned. split; [apply lexFrom_forward; [now apply lexFrom_refl|lia]|].
  repeat split; try (simpl; lia); try assumption.
  simpl. now rewrite Hs.
Qed.

Lemma scanned_read read lx t lx' :
  readsSlice read -> read lx = (t, lx') -> lexFrom lx lx' -> reaches lx 1 lx' ->
  tok_position t = lx_position lx ->
  (tok_line t = lx_line lx' /\ tok_column t = lx_column lx') \/
  (tok_line t = lx_line lx /\ tok_column t = lx_column lx /\ 1 <= lx_column lx) ->
  includes unlexedTypes (tok_type t) = false ->
  scanned lx t lx'.
Proof.
  intros Hread H Hfrom [_ Hreach] Hpos Hlc Hty.
  pose proof Hfrom as (Hi & Hp & Hlen & Hline & Hcol).
  unfold scanned. split; [exact Hfrom|].
  repeat split; try assumption; try lia; try (now apply Hread);
    destruct Hlc as [[Ha Hb]|(Ha & Hb & Hc)]; lia.
Qed.

Lemma read_position :
  (forall lx t lx', readComment lx = (t, lx') ->
     tok_position t = lx_position lx /\ tok_type t = COMMENT /\
     tok_line t = lx_line lx /\ tok_column t = lx_column lx) /\
  (forall lx t lx', readDirective lx = (t, lx') ->
     tok_position t = lx_position lx /\ tok_type t = DIRECTIVE) /\
  (forall lx t lx', readString lx = (t, lx') ->
     tok_position t = lx_position lx /\ tok_type t = STRING) /\
  (forall lx t lx', readNumber lx = (t, lx') ->
     tok_position t = lx_position lx /\ tok_type t = NUMBER) /\
  (forall lx t lx', readIdentifier lx = (t, lx') ->
     tok_position t = lx_position lx /\
     includes unlexedTypes (tok_type t) = false).
Proof.
  split; [|split; [|split; [|split]]]; intros lx t lx' H;
    [unfold readComment in H | unfold readDirective in H | unfold readString in H
    | unfold readNumber in H | unfold readIdentifier in H];
    try (destruct (lex_while _ inDirective _ _) as [lx2 n]);
    injection H as <- _; repeat split.
  cbn [tok_type]. apply keywords_lexed.
Qed.

Lemma blankTo_refl lx : lexerOk lx -> blankTo lx lx.
Proof. intros Hok. split; [now apply lexFrom_refl|]. now rewrite slice_empty. Qed.

Lemma blankTo_step lx lx1 lx0 :
  lexerOk lx -> (length (lx_input lx) <=? lx_position lx) = false ->
  isSpace (nth (lx_position lx) (lx_input lx) 0%N) = true ->
  lexFrom lx lx1 -> lx_position lx1 = lx_position lx + 1 ->
  blankTo lx1 lx0 -> blankTo lx lx0.
Proof.
  intros Hok Hlen Hsp H1 Hpos [Hfrom Hblank]. apply Nat.leb_gt in Hlen.
  split; [eapply lexFrom_trans; eauto|].
  pose proof Hfrom as (Hi & Hp & _). destruct H1 as (Hi1 & _).
  rewrite (@slice_app _ (lx_position lx) (lx_position lx + 1) _) by lia.
  rewrite (slice_one _ _ (nth_error_nth' _ 0%N Hlen)).
  cbn [isBlank app forallb]. rewrite Hsp. cbn [andb].
  rewrite Hi1, Hpos in Hblank. exact Hblank.
Qed.

Lemma at_is_reads2 lx a b :
  at_is lx 0 a = true -> at_is lx 1 b = true -> reads lx 0 [a; b].
Proof. cbn. auto. Qed.

Lemma scanned_arrow lx v ty k :
  lexerOk lx -> reads lx 0 v -> k = length v -> 0 < k ->
  includes unlexedTypes ty = false ->
  scanned lx (arrowToken ty v (forward k lx)) (forward k lx).
Proof.
  intros Hok Hr Hk Hk0 Hty. pose proof Hok as (Hp & Hl & Hc).
  eapply scanned_literal; eauto; unfold arrowToken; simpl; lia.
Qed.

Lemma scanned_pair lx v ty :
  lexerOk lx -> reads lx 0 v -> 2 = length v ->
  includes unlexedTypes ty = false ->
  scanned lx (mkToken ty v (lx_line (forward 2 lx)) (lx_column (forward 2 lx) - 2)
                (lx_position (forward 2 lx) - 2)) (forward 2 lx).
Proof.
  intros Hok Hr Hk Hty. pose proof Hok as (Hp & Hl & Hc).
  eapply scanned_literal; eauto; simpl; lia.
Qed.

Ltac literal :=
  first [eapply scanned_arrow | eapply scanned_pair];
  [eassumption | cbn; repeat split; assumption | reflexivity | try (cbn; lia); try reflexivity ..].

(** What [nextToken] reads: white space, then one token. *)
Lemma nextToken_rec_scans n lx t lx' :
  lexerOk lx -> nextToken_rec n lx = (Some t, lx') ->
  exists lx0, blankTo lx lx0 /\ scanned lx0 t lx'.
Proof.
  revert lx. induction n as [|n IH]; intros lx Hok; [discriminate|].
  cbn [nextToken_rec]. cbv zeta.
  destruct (length (lx_input lx) <=? lx_position lx) eqn:Hlen; [discriminate|].
  pose proof Hlen as Hin. apply Nat.leb_gt in Hin.
  pose proof (here_at_is lx Hlen) as Hhere.
  remember (nth (lx_position lx) (lx_input lx) 0%N) as char eqn:Hchar.
  destruct (isSpace char) eqn:Hsp.
  { intros H.
    assert (H1 : lexFrom lx (if N.eqb char LF then newline lx else forward 1 lx)).
    { destruct (N.eqb char LF);
        [apply lexFrom_newline|apply lexFrom_forward]; try lia; now apply lexFrom_refl. }
    apply IH in H as (lx0 & Hb & Hs); [|eapply lexFrom_ok; eauto].
    exists lx0. split; [|exact Hs].
    eapply blankTo_step; eauto; [now rewrite <- Hchar|].
    destruct (N.eqb char LF); reflexivity. }
  intros H. exists lx. split; [now apply blankTo_refl|]. revert H.
  assert (Hlit : forall v ty k c,
             reads lx 0 v -> k = length v -> 0 < k -> 1 <= c ->
             includes unlexedTypes ty = false ->
             scanned lx (mkToken ty v (lx_line lx) c (lx_position lx)) (forward k lx)).
  { intros v ty k c Hr Hk Hk0 Hc Hty. eapply scanned_literal; eauto. }
  destruct (N.eqb char (ch "%") && _ && _) eqn:Hpct.
  { apply andb_true_iff in Hpct as [Hpct H1]. apply andb_true_iff in Hpct as [_ Hh1].
    destruct (has lx 2 && _) eqn:Hd.
    - apply andb_true_iff in Hd as [Hh2 _].
      destruct (readDirective lx) as [t0 lx0] eqn:E. cbv beta iota. intros H.
      injection H as <- <-.
      destruct (readDirective_from Hok Hh2 E) as (Hf & Hl & Hc).
      destruct (proj1 (proj2 read_position) _ _ _ E) as [Hp Hty].
      eapply scanned_read;
        [apply readDirective_slice | exact E | exact Hf
        | eapply readDirective_reaches; exact E | exact Hp
        | left; split; assumption | rewrite Hty; reflexivity].
    - destruct (readComment lx) as [t0 lx0] eqn:E. cbv beta iota. intros H.
      injection H as <- <-.
      pose proof (readComment_from Hok Hh1 E) as Hf.
      destruct (proj1 read_position _ _ _ E) as (Hp & Hty & Hl & Hc).
      eapply scanned_read;
        [apply readComment_slice | exact E | exact Hf
        | eapply readComment_reaches; exact E | exact Hp
        | right; repeat split; try assumption; apply Hok | rewrite Hty; reflexivity]. }
  destruct (N.eqb char (ch "(") && _ && _) eqn:Hpo.
  { apply andb_true_iff in Hpo as [Hpo H1]. apply andb_true_iff in Hpo as [Hc0 _].
    apply N.eqb_eq in Hc0. rewrite Hc0 in Hhere.
    intros Heqn; injection Heqn as <- <-.
    literal. }
  destruct (N.eqb char (ch ")") && _ && _) eqn:Hpc.
  { apply andb_true_iff in Hpc as [Hpc H1]. apply andb_true_iff in Hpc as [Hc0 _].
    apply N.eqb_eq in Hc0. rewrite Hc0 in Hhere.
    intros Heqn; injection Heqn as <- <-.
    literal. }
  destruct (N.eqb char (ch "=")) eqn:Heq.
  { destruct (has lx 2 && _ && _) eqn:H2; [destruct (has lx 3 && _)|].
    - intros Heqn; injection Heqn as <- <-. rewrite Hchar. now apply scanned_here.
    - apply andb_true_iff in H2 as [H2 Hgt]. apply andb_true_iff in H2 as [_ He].
      apply N.eqb_eq in Heq. rewrite Heq in Hhere.
      intros Heqn; injection Heqn as <- <-.
      literal.
    - intros Heqn; injection Heqn as <- <-. rewrite Hchar. now apply scanned_here. }
  destruct (lookup singleCharTokens [char]) eqn:Hsc.
  { intros Heqn; injection Heqn as <- <-. rewrite Hchar. apply scanned_here; auto.
    eapply singleCharTokens_lexed; eauto. }
  destruct (N.eqb char (ch "-") && has lx 3 && _ && _ && _) eqn:Hdot.
  { repeat (apply andb_true_iff in Hdot as [Hdot ?]). apply N.eqb_eq in Hdot.
    rewrite Hdot in Hhere.
    destruct (has lx 4 && _) eqn:H4.
    - apply andb_true_iff in H4 as [_ H4].
      intros Heqn; injection Heqn as <- <-.
      literal.
    - intros Heqn; injection Heqn as <- <-.
      literal. }
  destruct (N.eqb char (ch "-") && has lx 2 && _ && _) eqn:Harr.
  { repeat (apply andb_true_iff in Harr as [Harr ?]). apply N.eqb_eq in Harr.
    rewrite Harr in Hhere.
    destruct (has lx 3 && _) eqn:H3.
    - apply andb_true_iff in H3 as [_ H3].
      intros Heqn; injection Heqn as <- <-.
      literal.
    - intros Heqn; injection Heqn as <- <-.
      literal. }
  destruct (N.eqb char (ch "-") && has lx 1 && _) eqn:Hseq.
  { repeat (apply andb_true_iff in Hseq as [Hseq ?]). apply N.eqb_eq in Hseq.
    rewrite Hseq in Hhere.
    destruct (has lx 2 && _) eqn:H2.
    - apply andb_true_iff in H2 as [_ H2].
      intros Heqn; injection Heqn as <- <-.
      literal.
    - intros Heqn; injection Heqn as <- <-.
      literal. }
  assert (Hhas : has lx 0 = true).
  { unfold has. rewrite Nat.add_0_r. now apply Nat.ltb_lt. }
  destruct (N.eqb char QUOTE || _).
  { destruct (readString lx) as [t0 lx0] eqn:E. cbv beta iota. intros H.
    injection H as <- <-.
    destruct (readString_from Hok Hhas E) as (Hf & Hl & Hc).
    destruct (proj1 (proj2 (proj2 read_position)) _ _ _ E) as [Hp Hty].
    eapply scanned_read;
      [apply readString_slice | exact E | exact Hf
      | eapply readString_reaches; exact E | exact Hp
      | left; split; assumption | rewrite Hty; reflexivity]. }
  destruct (isDigit char) eqn:Hd.
  { destruct (readNumber lx) as [t0 lx0] eqn:E. cbv beta iota. intros H.
    injection H as <- <-.
    destruct (readNumber_from Hok E) as (Hf & Hl & Hc).
    destruct (proj1 (proj2 (proj2 (proj2 read_position))) _ _ _ E) as [Hp Hty].
    eapply scanned_read;
      [apply readNumber_slice | exact E | exact Hf
      | | exact Hp | left; split; assumption | rewrite Hty; reflexivity].
    eapply readNumber_reaches; [|exact E]. unfold inNumber.
    now rewrite Hhas, <- Hchar, Hd. }
  destruct (isIdentStart char) eqn:Hs.
  { destruct (readIdentifier lx) as [t0 lx0] eqn:E. cbv beta iota. intros H.
    injection H as <- <-.
    destruct (readIdentifier_from Hok E) as (Hf & Hl & Hc).
    destruct (proj2 (proj2 (proj2 (proj2 read_position))) _ _ _ E) as [Hp Hty].
    eapply scanned_read;
      [apply readIdentifier_slice | exact E | exact Hf
      | | exact Hp | left; split; assumption | exact Hty].
    eapply readIdentifier_reaches; [|exact E].
    apply identStart_inIdentifier; [exact Hlen|now rewrite <- Hchar]. }
  intros H. injection H as <- <-.
  assert (Hcp : 0 < codePointLength lx /\
                lx_position lx + codePointLength lx <= length (lx_input lx)).
  { unfold codePointLength, charAt.
    destruct (nth_error _ (lx_position lx)); [|lia].
    destruct (nth_error _ (lx_position lx + 1)) eqn:E1; [|lia].
    assert (lx_position lx + 1 < length (lx_input lx))
      by (apply nth_error_Some; congruence).
    destruct (isHighSurrogate _ && _); lia. }
  destruct Hcp as [Hcp0 Hcp1]. pose proof Hok as (Hp & Hl & Hc).
  unfold scanned, tokenHere, lexFrom. simpl. repeat split; try lia.
Qed.

Lemma nextToken_rec_ends n lx lx' :
  lexerOk lx -> remaining lx < n -> nextToken_rec n lx = (None, lx') ->
  blankTo lx lx' /\ lx_position lx' = length (lx_input lx).
Proof.
  revert lx. induction n as [|n IH]; intros lx Hok Hn; [lia|].
  cbn [nextToken_rec]. cbv zeta.
  destruct (length (lx_input lx) <=? lx_position lx) eqn:Hlen.
  { intros H. injection H as <-. apply Nat.leb_le in Hlen.
    split; [now apply blankTo_refl|]. destruct Hok. lia. }
  pose proof Hlen as Hin. apply Nat.leb_gt in Hin.
  remember (nth (lx_position lx) (lx_input lx) 0%N) as char eqn:Hchar.
  destruct (isSpace char) eqn:Hsp.
  { intros H.
    assert (H1 : lexFrom lx (if N.eqb char LF then newline lx else forward 1 lx)).
    { destruct (N.eqb char LF);
        [apply lexFrom_newline|apply lexFrom_forward]; try lia; now apply lexFrom_refl. }
    apply IH in H as (Hb & Hp); [| eapply lexFrom_ok; eauto |].
    - split.
      + eapply blankTo_step; eauto; [now rewrite <- Hchar|].
        destruct (N.eqb char LF); reflexivity.
      + rewrite Hp. now destruct (N.eqb char LF).
    - unfold remaining in *. destruct (N.eqb char LF); simpl; lia. }
  repeat match goal with
         | |- context [if ?b then _ else _] => destruct b
         | |- context [match lookup ?t ?k with _ => _ end] => destruct (lookup t k)
         | |- context [let '(_, _) := ?r in _] => destruct r
         end; discriminate.
Qed.

Lemma isBlank_app a b : isBlank (a ++ b) = isBlank a && isBlank b.
Proof. apply forallb_app. Qed.

Lemma layout_gap input a ts m s :
  layout input a ts m -> m <= s -> isBlank (slice input m s) = true ->
  layout input a ts s.
Proof.
  revert a. induction ts as [|t ts IH]; intros a H Hms Hb.
  - destruct H as [Ham Hblank]. split; [lia|].
    rewrite (@slice_app _ a m s) by lia. now rewrite isBlank_app, Hblank, Hb.
  - destruct H as (H1 & H2 & H3 & H4 & H5). repeat split; auto.
Qed.

Lemma layout_snoc input a ts m t e :
  layout input a ts m -> m <= tok_position t ->
  isBlank (slice input m (tok_position t)) = true ->
  tok_position t < e -> e <= length input ->
  tok_value t = slice input (tok_position t) e ->
  layout input a (ts ++ [t]) e.
Proof.
  intros H Hm Hb Hlt He Hv.
  assert (Hlen : tok_position t + length (tok_value t) = e).
  { rewrite Hv, slice_length by lia. lia. }
  revert a H. induction ts as [|t0 ts IH]; intros a H.
  - destruct H as [Ham Hblank]. cbn [app layout]. rewrite Hlen.
    repeat split; try lia.
    + rewrite (@slice_app _ a m (tok_position t)) by lia.
      now rewrite isBlank_app, Hblank, Hb.
    + intros Hnil. rewrite Hnil in Hlen. simpl in Hlen. lia.
    + exact Hv.
    + now rewrite slice_empty.
  - destruct H as (H1 & H2 & H3 & H4 & H5). cbn [app layout]. repeat split; auto.
Qed.

Lemma ascending_snoc l x : ascending l -> Forall (fun a => a <= x) l -> ascending (l ++ [x]).
Proof.
  induction l as [|a l IH]; intros Ha Hall; [exact I|].
  inversion Hall as [|? ? Hax Hl]; subst.
  destruct l as [|b l]; [cbn; auto|].
  destruct Ha as [Hab Hr]. cbn [app ascending]. split; [exact Hab|]. now apply IH.
Qed.

Lemma tokenize_loop_lexed input n lx acc :
  lexedSoFar input acc lx -> remaining lx < n ->
  lexedSoFar input (fst (tokenize_loop n lx acc)) (snd (tokenize_loop n lx acc)) /\
  lx_position (snd (tokenize_loop n lx acc)) = length input.
Proof.
  revert lx acc. induction n as [|n IH]; intros lx acc Hinv Hn; [lia|].
  destruct Hinv as (Hok & Hi & Hlay & Hty & Hpl & Hln & Hasc).
  cbn [tokenize_loop]. unfold nextToken.
  destruct (nextToken_rec (S (remaining lx)) lx) as [[t|] lx'] eqn:E.
  - destruct (nextToken_rec_scans _ Hok E) as (lx0 & [Hf0 Hb0] & Hs).
    destruct Hs as (Hf & Hpos & Hlt & Hv & Hl1 & Hl2 & Hc & Htype).
    pose proof Hf0 as (Hi0 & Hp0 & Hlen0 & Hline0 & Hcol0).
    pose proof Hf as (Hi1 & Hp1 & Hlen1 & Hline1 & Hcol1).
    assert (Hne : ty_eqb (tok_type t) EOF = false).
    { unfold includes, unlexedTypes in Htype. cbn [existsb] in Htype.
      repeat (apply orb_false_iff in Htype as [? Htype]). assumption. }
    rewrite Hne. apply IH.
    + unfold lexedSoFar. rewrite Hi0, Hi in *.
      split; [eapply lexFrom_ok; [|exact Hf]; eapply lexFrom_ok; eauto|].
      split; [congruence|].
      split; [eapply layout_snoc; eauto; rewrite ?Hpos; try lia; congruence|].
      split; [apply Forall_snoc; assumption|].
      split; [apply Forall_snoc; [assumption|]; split; [destruct Hok; lia|assumption]|].
      split.
      * apply Forall_snoc; [|lia]. eapply Forall_impl; [|exact Hln].
        cbn beta. intros a Ha. lia.
      * rewrite map_app. apply ascending_snoc; [exact Hasc|].
        rewrite Forall_map. eapply Forall_impl; [|exact Hln]. cbn beta. intros a Ha. lia.
    + unfold remaining in *. rewrite Hi1, Hi0. rewrite Hi0 in Hlen1. lia.
  - cbn [fst snd]. apply nextToken_rec_ends in E as [[Hf Hb] Hp]; [|exact Hok|lia].
    pose proof Hf as (Hi0 & Hp0 & Hlen0 & Hline0 & Hcol0).
    split; [|congruence].
    unfold lexedSoFar. rewrite Hi in *.
    split; [eapply lexFrom_ok; eauto|]. split; [congruence|].
    split; [eapply layout_gap; eauto|].
    repeat split; auto.
    eapply Forall_impl; [|exact Hln]. cbn beta. intros a Ha. lia.
Qed.

Lemma tokenize_lexed input :
  exists ts lx,
    tokenize input = ts ++ [mkToken EOF [] (lx_line lx) (lx_column lx) (lx_position lx)] /\
    lexedSoFar input ts lx /\ lx_position lx = length input.
Proof.
  unfold tokenize.
  destruct (@tokenize_loop_lexed input (S (length input)) (mkLexer input 0 1 1) [])
    as [Hinv Hp].
  - unfold lexedSoFar, lexerOk. simpl. repeat split; try lia; auto.
  - unfold remaining. simpl. lia.
  - destruct (tokenize_loop _ _ _) as [ts lx]. cbn [fst snd] in *.
    exists ts, lx. auto.
Qed.

Lemma layout_le input a ts b : layout input a ts b -> a <= b.
Proof.
  revert a. induction ts as [|t ts IH]; intros a H; [apply H|].
  destruct H as (H1 & _ & _ & _ & H5). apply IH in H5. lia.
Qed.

Lemma filter_blank l : isBlank l = true -> filter (fun c => negb (isSpace c)) l = [].
Proof.
  induction l as [|c l IH]; [reflexivity|]. cbn [isBlank forallb filter].
  intros H. apply andb_true_iff in H as [-> H]. cbn. now apply IH.
Qed.

Lemma layout_text input a ts b :
  layout input a ts b ->
  filter (fun c => negb (isSpace c)) (slice input a b) =
  filter (fun c => negb (isSpace c)) (concat (map tok_value ts)).
Proof.
  revert a. induction ts as [|t ts IH]; intros a H.
  - destruct H as [_ H]. cbn. now apply filter_blank.
  - destruct H as (H1 & H2 & H3 & H4 & H5). pose proof (layout_le _ _ _ _ H5) as Hle.
    rewrite (@slice_app _ a (tok_position t) b) by lia.
    rewrite (@slice_app _ (tok_position t) (tok_position t + length (tok_value t)) b) by lia.
    cbn [map concat]. rewrite !filter_app, (filter_blank _ H2), <- H4, (IH _ H5).
    reflexivity.
Qed.

(** X1: [tokenize] ends every token list with one EOF token, of empty text
    and at the offset [input.length], and gives no other token of type
    EOF. *)
Theorem tokenize_ends_with_one_EOF input :
  exists ts l c,
    tokenize input = ts ++ [mkToken EOF [] l c (length input)] /\
    Forall (fun t => tok_type t <> EOF) ts.
Proof.
  destruct (tokenize_lexed input) as (ts & lx & Ht & Hinv & Hp).
  exists ts, (lx_line lx), (lx_column lx). rewrite <- Hp. split; [exact Ht|].
  destruct Hinv as (_ & _ & _ & Hty & _).
  eapply Forall_impl; [|exact Hty]. cbn beta. intros t H E. rewrite E in H. discriminate H.
Qed.

(** X2: [tokenize] never gives a token of type SUBGRAPH_END, NOTE, NEWLINE
    or WHITESPACE, although the enum declares them: white space and line
    breaks are skipped, and [end] and [note] are read as identifiers. *)
Theorem tokenize_never_gives_layout_tokens input :
  Forall (fun t => includes [SUBGRAPH_END; NOTE; NEWLINE; WHITESPACE] (tok_type t) = false)
         (tokenize input).
Proof.
  destruct (tokenize_lexed input) as (ts & lx & -> & Hinv & _).
  destruct Hinv as (_ & _ & _ & Hty & _).
  apply Forall_snoc; [|reflexivity].
  eapply Forall_impl; [|exact Hty]. cbn beta. intros t H.
  destruct (tok_type t); try reflexivity; discriminate H.
Qed.

(** X3: the text of every token but EOF is not empty and is the slice of the
    input that starts at the [position] of the token: no text is altered,
    and every token lies inside the input. *)
Theorem token_text_is_input_slice input :
  exists ts eof,
    tokenize input = ts ++ [eof] /\ tok_type eof = EOF /\
    Forall (fun t =>
              tok_value t <> [] /\
              tok_position t + length (tok_value t) <= length input /\
              tok_value t =
                slice input (tok_position t) (tok_position t + length (tok_value t)))
           ts.
Proof.
  destruct (tokenize_lexed input) as (ts & lx & Ht & Hinv & Hp).
  exists ts, (mkToken EOF [] (lx_line lx) (lx_column lx) (lx_position lx)).
  split; [exact Ht|]. split; [reflexivity|].
  destruct Hinv as (_ & _ & Hlay & _). rewrite Hp in Hlay. clear Ht Hp.
  revert Hlay. generalize 0. induction ts as [|t ts IH]; intros a H; [constructor|].
  destruct H as (H1 & H2 & H3 & H4 & H5). constructor; [|eapply IH; exact H5].
  apply layout_le in H5. auto.
Qed.

(** X4: the tokens lie in the input in their order and without overlap, and
    what lies before, between and behind them is white space only; so the
    texts of the tokens, joined, and the input are the same once white space
    is dropped from both. *)
Theorem tokens_cover_input input :
  (exists ts eof,
     tokenize input = ts ++ [eof] /\ tok_type eof = EOF /\
     layout input 0 ts (length input)) /\
  filter (fun c => negb (isSpace c)) (concat (map tok_value (tokenize input))) =
  filter (fun c => negb (isSpace c)) input.
Proof.
  destruct (tokenize_lexed input) as (ts & lx & Ht & Hinv & Hp).
  destruct Hinv as (_ & _ & Hlay & _). rewrite Hp in Hlay.
  split.
  - exists ts, (mkToken EOF [] (lx_line lx) (lx_column lx) (lx_position lx)). auto.
  - rewrite Ht, map_app, concat_app. cbn [map concat tok_value]. rewrite !app_nil_r.
    rewrite <- (layout_text _ _ _ _ Hlay). now rewrite slice_all.
Qed.

(** X5: every token has a line and a column of 1 at least, and the lines of
    the tokens never go down along the token list. *)
Theorem tokens_are_placed input :
  Forall tokenPlaced (tokenize input) /\ ascending (map tok_line (tokenize input)).
Proof.
  destruct (tokenize_lexed input) as (ts & lx & -> & Hinv & _).
  destruct Hinv as ((_ & Hl & Hc) & _ & _ & _ & Hpl & Hln & Hasc).
  split.
  - apply Forall_snoc; [exact Hpl|]. split; assumption.
  - rewrite map_app. apply ascending_snoc; [exact Hasc|]. now rewrite Forall_map.
Qed.

(** *** Blank input and the number of tokens *)

Lemma skipn_nth (A : Type) (l : list A) n d :
  n < length l -> skipn n l = nth n l d :: skipn (S n) l.
Proof.
  revert n. induction l as [|x l IH]; intros [|n] H; simpl in *; try lia; [reflexivity|].
  apply IH. lia.
Qed.

(** [nextToken] gives a token only where a code unit that is no white space
    is still to be read. *)
Lemma nextToken_rec_sees n : forall lx t lx',
  nextToken_rec n lx = (Some t, lx') ->
  isBlank (skipn (lx_position lx) (lx_input lx)) = false.
Proof.
  induction n as [|n IH]; intros lx t lx' H; [discriminate H|].
  cbn [nextToken_rec] in H.
  destruct (length (lx_input lx) <=? lx_position lx) eqn:El; [discriminate H|].
  apply Nat.leb_gt in El. rewrite (@skipn_nth _ _ _ 0%N El).
  cbn [isBlank forallb].
  destruct (isSpace (nth (lx_position lx) (lx_input lx) 0%N)) eqn:Es; [|reflexivity].
  apply IH in H. cbn [andb].
  destruct (N.eqb _ LF); unfold newline, forward in H;
    cbn [lx_position lx_input] in H; rewrite Nat.add_1_r in H; exact H.
Qed.

Lemma tokenize_blank input :
  isBlank input = true ->
  exists l c pos, tokenize input = [mkToken EOF [] l c pos].
Proof.
  intros Hb. unfold tokenize. cbn [tokenize_loop].
  destruct (nextToken (mkLexer input 0 1 1)) as [[t|] lx'] eqn:E.
  - unfold nextToken in E. apply nextToken_rec_sees in E.
    cbn [lx_position lx_input skipn] in E. congruence.
  - cbn. eauto.
Qed.

Lemma filter_none l : filter (fun c => negb (isSpace c)) l = [] -> isBlank l = true.
Proof.
  induction l as [|c l IH]; [reflexivity|]. cbn [filter isBlank forallb].
  destruct (isSpace c); cbn; [exact IH|discriminate].
Qed.

Lemma layout_count input a ts b : layout input a ts b -> a + length ts <= b.
Proof.
  revert a. induction ts as [|t ts IH]; intros a H; [cbn; destruct H; lia|].
  destruct H as (H1 & _ & H3 & _ & H5). apply IH in H5. cbn [length].
  destruct (tok_value t); [contradiction|]. cbn [length] in H5. lia.
Qed.

Lemma tokenize_length input : length (tokenize input) <= length input + 1.
Proof.
  destruct (tokenize_lexed input) as (ts & lx & -> & Hinv & Hp).
  destruct Hinv as (_ & _ & Hlay & _). rewrite Hp in Hlay.
  apply layout_count in Hlay. rewrite length_app. cbn in *. lia.
Qed.

(** Where the call stack is enough: the input is empty or white space only
    exactly when [tokenize]
    gives the EOF token alone. *)
Lemma tokenize_blank_iff input :
  isBlank input = true <->
  exists l c, tokenize input = [mkToken EOF [] l c (length input)].
Proof.
  destruct (tokenize_lexed input) as (ts & lx & Ht & Hinv & Hp).
  destruct Hinv as (_ & _ & Hlay & _). rewrite Hp in Hlay.
  split.
  - intros Hb. destruct (tokenize_blank _ Hb) as (l & c & pos & E).
    rewrite Ht in E |- *. destruct ts as [|t [|]]; try discriminate E.
    exists (lx_line lx), (lx_column lx). now rewrite Hp.
  - intros (l & c & E). rewrite E in Ht. destruct ts as [|t ts].
    + apply layout_text in Hlay. rewrite slice_all in Hlay. now apply filter_none.
    + destruct ts; discriminate Ht.
Qed.

(* ===================================================================== *)
(** ** What the type of a token says about its text *)
(* ===================================================================== *)

Lemma lex_while_exit {St : Type} (cond : St -> bool) (body : St -> St)
      (measure : St -> nat) :
  (forall s, cond s = true -> measure (body s) < measure s) ->
  forall n s, measure s <= n -> cond (lex_while n cond body s) = false.
Proof.
  intros Hdec. induction n as [|n IH]; intros s Hn; cbn [lex_while].
  - destruct (cond s) eqn:E; [|reflexivity]. apply Hdec in E. lia.
  - destruct (cond s) eqn:E; [|exact E]. apply IH. apply Hdec in E. lia.
Qed.

(** Where [nextToken] gives a token, it reads it in one step from a code
    unit that is no white space. *)
Lemma nextToken_rec_at n : forall lx t lx',
  lexerOk lx -> nextToken_rec n lx = (Some t, lx') ->
  exists lx0,
    lexerOk lx0 /\ lx_input lx0 = lx_input lx /\
    lx_position lx0 < length (lx_input lx0) /\
    isSpace (nth (lx_position lx0) (lx_input lx0) 0%N) = false /\
    nextToken_rec 1 lx0 = (Some t, lx').
Proof.
  induction n as [|n IH]; intros lx t lx' Hok H; [discriminate H|].
  cbn [nextToken_rec] in H |- *.
  destruct (length (lx_input lx) <=? lx_position lx) eqn:Hlen; [discriminate H|].
  destruct (isSpace (nth (lx_position lx) (lx_input lx) 0%N)) eqn:Hsp.
  - apply Nat.leb_gt in Hlen.
    assert (H1 : lexFrom lx (if N.eqb (nth (lx_position lx) (lx_input lx) 0%N) LF
                             then newline lx else forward 1 lx)).
    { destruct (N.eqb _ LF);
        [apply lexFrom_newline|apply lexFrom_forward]; try lia; now apply lexFrom_refl. }
    apply IH in H as (lx0 & Hok0 & Hi0 & Hrest); [|eapply lexFrom_ok; eauto].
    exists lx0. split; [exact Hok0|]. split; [|exact Hrest].
    rewrite Hi0. now destruct (N.eqb _ LF).
  - exists lx. apply Nat.leb_gt in Hlen as Hlt.
    split; [exact Hok|]. split; [reflexivity|]. split; [exact Hlt|]. split; [exact Hsp|].
    rewrite Hlen, Hsp. exact H.
Qed.

Lemma singleCharTokens_kind c ty :
  lookup singleCharTokens [c] = Some ty ->
  isDigit c = false /\ isQuote c = false /\ ty <> NUMBER /\ ty <> STRING.
Proof.
  unfold singleCharTokens. cbn [lookup u map list_ascii_of_string str_eqb].
  repeat match goal with
         | |- context [if N.eqb ?k c && true then _ else _] =>
             destruct (N.eqb k c) eqn:?; cbn [andb]
         end;
    intros H; try discriminate H; injection H as <-;
    match goal with E : N.eqb _ c = true |- _ => apply N.eqb_eq in E; subst c end;
    repeat split; discriminate.
Qed.

Lemma keywords_kind key :
  match lookup keywords key with Some t => t | None => IDENTIFIER end <> NUMBER /\
  match lookup keywords key with Some t => t | None => IDENTIFIER end <> STRING.
Proof.
  unfold keywords. cbn [lookup].
  repeat match goal with |- context [if ?b then _ else _] => destruct b end;
    split; discriminate.
Qed.

Lemma literal_kind c x ty v l col pos :
  N.eqb c x = true -> isDigit x = false -> isQuote x = false ->
  ty <> NUMBER -> ty <> STRING ->
  isDigit c = false /\ isQuote c = false /\
  tok_type (mkToken ty v l col pos) <> NUMBER /\ tok_type (mkToken ty v l col pos) <> STRING.
Proof. intros H. apply N.eqb_eq in H. subst c. auto. Qed.

(** The branch of [nextToken] that reads a token is chosen by the code unit
    the token starts with. *)
Lemma nextToken_kind lx t lx' :
  lx_position lx < length (lx_input lx) ->
  isSpace (nth (lx_position lx) (lx_input lx) 0%N) = false ->
  nextToken_rec 1 lx = (Some t, lx') ->
  (isDigit (nth (lx_position lx) (lx_input lx) 0%N) = true /\ readNumber lx = (t, lx')) \/
  (isQuote (nth (lx_position lx) (lx_input lx) 0%N) = true /\ readString lx = (t, lx')) \/
  (isDigit (nth (lx_position lx) (lx_input lx) 0%N) = false /\
   isQuote (nth (lx_position lx) (lx_input lx) 0%N) = false /\
   tok_type t <> NUMBER /\ tok_type t <> STRING).
Proof.
  intros Hlt Hsp. cbn [nextToken_rec]. cbv zeta.
  apply Nat.leb_gt in Hlt as Hlen. rewrite Hlen, Hsp.
  set (char := nth (lx_position lx) (lx_input lx) 0%N).
  assert (Hlit : forall x ty v l col pos lx0,
            N.eqb char x = true -> isDigit x = false -> isQuote x = false ->
            ty <> NUMBER -> ty <> STRING ->
            (Some (mkToken ty v l col pos), lx0) = (Some t, lx') ->
            isDigit char = true /\ readNumber lx = (t, lx') \/
            isQuote char = true /\ readString lx = (t, lx') \/
            isDigit char = false /\ isQuote char = false /\
            tok_type t <> NUMBER /\ tok_type t <> STRING).
  { intros x ty v l col pos lx0 Hc Hd Hq Hn Hs H. injection H as <- <-.
    right. right. eapply literal_kind; eauto. }
  destruct (N.eqb char (ch "%") && _ && _) eqn:Hpct.
  { apply andb_true_iff in Hpct as [Hpct _]. apply andb_true_iff in Hpct as [Hpct _].
    apply N.eqb_eq in Hpct. rewrite Hpct.
    destruct (has lx 2 && _).
    - destruct (readDirective lx) as [t0 lx0] eqn:E. cbv beta iota. intros H.
      injection H as <- <-. right. right.
      destruct (proj1 (proj2 read_position) _ _ _ E) as [_ Hty]. rewrite Hty.
      repeat split; discriminate.
    - destruct (readComment lx) as [t0 lx0] eqn:E. cbv beta iota. intros H.
      injection H as <- <-. right. right.
      destruct (proj1 read_position _ _ _ E) as (_ & Hty & _). rewrite Hty.
      repeat split; discriminate. }
  destruct (N.eqb char (ch "(") && _ && _) eqn:Hpo.
  { apply andb_true_iff in Hpo as [Hpo _]. apply andb_true_iff in Hpo as [Hpo _].
    intros H. eapply Hlit; eauto; discriminate. }
  destruct (N.eqb char (ch ")") && _ && _) eqn:Hpc.
  { apply andb_true_iff in Hpc as [Hpc _]. apply andb_true_iff in Hpc as [Hpc _].
    intros H. eapply Hlit; eauto; discriminate. }
  destruct (N.eqb char (ch "=")) eqn:Heq.
  { destruct (has lx 2 && _ && _); [destruct (has lx 3 && _)|];
      intros H; eapply Hlit; eauto; discriminate. }
  destruct (lookup singleCharTokens [char]) eqn:Hsc.
  { intros H. injection H as <- <-. right. right. eapply singleCharTokens_kind; eauto. }
  destruct (N.eqb char (ch "-") && has lx 3 && _ && _ && _) eqn:Hdot.
  { repeat (apply andb_true_iff in Hdot as [Hdot _]).
    destruct (has lx 4 && _); intros Heqn; eapply Hlit; eauto; discriminate. }
  destruct (N.eqb char (ch "-") && has lx 2 && _ && _) eqn:Harr.
  { repeat (apply andb_true_iff in Harr as [Harr _]).
    destruct (has lx 3 && _); intros Heqn; eapply Hlit; eauto; discriminate. }
  destruct (N.eqb char (ch "-") && has lx 1 && _) eqn:Hseq.
  { repeat (apply andb_true_iff in Hseq as [Hseq _]).
    destruct (has lx 2 && _); intros Heqn; eapply Hlit; eauto; discriminate. }
  destruct (N.eqb char QUOTE || N.eqb char (ch "'")) eqn:Hq.
  { destruct (readString lx) as [t0 lx0] eqn:E. cbv beta iota. intros H.
    injection H as <- <-. right. left. split; [exact Hq|reflexivity]. }
  destruct (isDigit char) eqn:Hd.
  { destruct (readNumber lx) as [t0 lx0] eqn:E. cbv beta iota. intros H.
    injection H as <- <-. left. split; reflexivity. }
  destruct (isIdentStart char).
  { destruct (readIdentifier lx) as [t0 lx0] eqn:E. cbv beta iota. intros H.
    injection H as <- <-. right. right. split; [reflexivity|]. split; [exact Hq|].
    rewrite (readIdentifier_type E). apply keywords_kind. }
  intros H. injection H as <- <-. right. right.
  split; [reflexivity|]. split; [exact Hq|]. split; discriminate.
Qed.

Lemma slice_cons s a b :
  a < b -> a < length s -> slice s a b = nth a s 0%N :: slice s (a + 1) b.
Proof.
  intros Hab Ha. rewrite (@slice_app _ a (a + 1) b) by lia.
  now rewrite (slice_one _ _ (nth_error_nth' _ 0%N Ha)).
Qed.

Lemma slice_snoc s a b :
  a <= b -> b < length s -> slice s a (b + 1) = slice s a b ++ [nth b s 0%N].
Proof.
  intros Hab Hb. rewrite (@slice_app _ a b (b + 1)) by lia.
  now rewrite (slice_one _ _ (nth_error_nth' _ 0%N Hb)).
Qed.

Lemma blankTo_here lx lx0 :
  lx_position lx < length (lx_input lx) ->
  isSpace (nth (lx_position lx) (lx_input lx) 0%N) = false ->
  blankTo lx lx0 -> lx_position lx0 = lx_position lx.
Proof.
  intros Hlt Hsp [(_ & Hle & _) Hb].
  destruct (Nat.eq_dec (lx_position lx0) (lx_position lx)) as [E|E]; [exact E|].
  rewrite slice_cons in Hb by lia. cbn [isBlank forallb] in Hb.
  rewrite Hsp in Hb. discriminate Hb.
Qed.

(** The token read in one step starts where the lexer stands and its text is
    what the lexer passed. *)
Lemma nextToken_value lx t lx' :
  lexerOk lx -> lx_position lx < length (lx_input lx) ->
  isSpace (nth (lx_position lx) (lx_input lx) 0%N) = false ->
  nextToken_rec 1 lx = (Some t, lx') ->
  tok_position t = lx_position lx /\
  tok_value t = nth (lx_position lx) (lx_input lx) 0%N ::
                slice (lx_input lx) (lx_position lx + 1) (lx_position lx') /\
  lx_position lx < lx_position lx' /\ lx_position lx' <= length (lx_input lx).
Proof.
  intros Hok Hlt Hsp H.
  destruct (nextToken_rec_scans _ Hok H) as (lx0 & Hb & Hs).
  pose proof (blankTo_here Hlt Hsp Hb) as Hp. destruct Hb as [(Hi & _) _].
  destruct Hs as ((Hi' & _ & Hlen & _) & Hpos & Hlt' & Hv & _).
  rewrite Hi, Hp in *. split; [exact Hpos|].
  split; [|split; assumption]. rewrite Hv. now apply slice_cons.
Qed.

Lemma readNumber_digits lx t lx' :
  lx_position lx <= length (lx_input lx) -> readNumber lx = (t, lx') ->
  forallb isDigit (tok_value t) = true.
Proof.
  intros Hle H. unfold readNumber in H. injection H as <- _. cbn [tok_value].
  set (P := fun l => lx_input l = lx_input lx /\ lx_position lx <= lx_position l /\
                     lx_position l <= length (lx_input lx) /\
                     forallb isDigit (slice (lx_input lx) (lx_position lx) (lx_position l))
                       = true).
  assert (HP : P (lex_while (remaining lx) inNumber (forward 1) lx)).
  { apply lex_while_invariant.
    - intros l (Hi & Hp1 & Hp2 & Hd) Hc. unfold inNumber in Hc.
      apply andb_true_iff in Hc as [Hh Hc]. unfold has in Hh. apply Nat.ltb_lt in Hh.
      rewrite Hi, Nat.add_0_r in *. unfold P, forward. cbn [lx_input lx_position].
      repeat split; try lia; [exact Hi|].
      rewrite slice_snoc by lia. rewrite forallb_app, Hd. cbn. now rewrite Hc.
    - unfold P. rewrite slice_empty. repeat split; auto. }
  apply HP.
Qed.

Lemma readString_quoted lx t lx' :
  lx_position lx < length (lx_input lx) ->
  isQuote (nth (lx_position lx) (lx_input lx) 0%N) = true ->
  readString lx = (t, lx') -> quoted (lx_input lx) t.
Proof.
  intros Hlt Hq H. unfold readString in H. injection H as <- _.
  set (quote := nth (lx_position lx) (lx_input lx) 0%N) in *.
  set (lx1 := forward 1 lx).
  set (P := fun l => lx_input l = lx_input lx /\ lx_position lx + 1 <= lx_position l /\
                     lx_position l <= length (lx_input lx) /\
                     ~ In quote (slice (lx_input lx) (lx_position lx + 1) (lx_position l))).
  assert (Hstep : forall l, lx_position (stringStep l) = lx_position l + 1 /\
                            lx_input (stringStep l) = lx_input l).
  { intros l. unfold stringStep. destruct (at_is l 0 LF); split; reflexivity. }
  assert (HP : P (lex_while (remaining lx1) (inString quote) stringStep lx1)).
  { apply lex_while_invariant.
    - intros l (Hi & Hp1 & Hp2 & Hn) Hc. unfold inString in Hc.
      apply andb_true_iff in Hc as [Hh Hc]. unfold has in Hh. apply Nat.ltb_lt in Hh.
      rewrite Hi, Nat.add_0_r in Hh. destruct (Hstep l) as [Hs1 Hs2].
      unfold P. rewrite Hs1, Hs2. repeat split; try lia; [exact Hi|].
      rewrite slice_snoc by lia. intros Hin. apply in_app_or in Hin as [Hin|[Hin|[]]].
      + now apply Hn.
      + apply negb_true_iff in Hc. unfold at_is, char_is, charAt in Hc.
        rewrite Nat.add_0_r, Hi, (nth_error_nth' _ 0%N Hh), Hin, N.eqb_refl in Hc.
        discriminate Hc.
    - unfold P, lx1, forward. cbn [lx_input lx_position]. rewrite slice_empty.
      repeat split; auto; lia. }
  assert (Hexit : inString quote (lex_while (remaining lx1) (inString quote) stringStep lx1)
                  = false).
  { apply lex_while_exit with (measure := remaining); [|lia].
    intros l Hc. now apply (proj1 (proj2 (proj2 lexer_loops_progress)) quote). }
  set (lx2 := lex_while (remaining lx1) (inString quote) stringStep lx1) in *.
  destruct HP as (Hi & Hp1 & Hp2 & Hn).
  exists quote, (slice (lx_input lx) (lx_position lx + 1) (lx_position lx2)).
  split; [exact Hq|]. split; [exact Hn|]. cbn [tok_value tok_position].
  unfold inString in Hexit. destruct (has lx2 0) eqn:Hh; cbn [andb] in Hexit.
  - left. apply negb_false_iff in Hexit. apply at_is_true in Hexit as [Hnth _].
    unfold has in Hh. apply Nat.ltb_lt in Hh. rewrite Hi, Nat.add_0_r in *.
    unfold forward. cbn [lx_position].
    rewrite slice_cons by lia. fold quote. f_equal.
    rewrite slice_snoc by lia. f_equal. f_equal.
    rewrite (nth_error_nth' _ 0%N) in Hnth by lia. congruence.
  - right. unfold has in Hh. apply Nat.ltb_ge in Hh. rewrite Hi, Nat.add_0_r in Hh.
    assert (Hend : lx_position lx2 = length (lx_input lx)) by lia.
    split.
    + rewrite slice_cons by lia. reflexivity.
    + rewrite slice_length by lia. lia.
Qed.

Lemma tokenize_loop_each input (P : Token -> Prop) :
  (forall lx t lx',
     lexerOk lx -> lx_input lx = input -> lx_position lx < length input ->
     isSpace (nth (lx_position lx) input 0%N) = false ->
     nextToken_rec 1 lx = (Some t, lx') -> P t) ->
  forall n lx acc, lexerOk lx -> lx_input lx = input -> Forall P acc ->
    Forall P (fst (tokenize_loop n lx acc)).
Proof.
  intros HP. induction n as [|n IH]; intros lx acc Hok Hi Hacc; [exact Hacc|].
  cbn [tokenize_loop]. destruct (nextToken lx) as [[t|] lx'] eqn:E; [|exact Hacc].
  destruct (ty_eqb (tok_type t) EOF); [exact Hacc|]. unfold nextToken in E.
  destruct (nextToken_rec_scans _ Hok E) as (l0 & [Hf0 _] & (Hf & _)).
  pose proof (lexFrom_trans Hf0 Hf) as Hfrom.
  apply IH.
  - eapply lexFrom_ok; eauto.
  - destruct Hfrom as (-> & _). exact Hi.
  - apply Forall_snoc; [exact Hacc|].
    destruct (nextToken_rec_at _ Hok E) as (lx0 & Hok0 & Hi0 & Hlt & Hsp & Hstep).
    rewrite Hi in Hi0. rewrite Hi0 in Hlt, Hsp. eapply HP; eauto.
Qed.

Lemma tokenize_each input (P : Token -> Prop) :
  (forall lx t lx',
     lexerOk lx -> lx_input lx = input -> lx_position lx < length input ->
     isSpace (nth (lx_position lx) input 0%N) = false ->
     nextToken_rec 1 lx = (Some t, lx') -> P t) ->
  (forall l c pos, P (mkToken EOF [] l c pos)) ->
  Forall P (tokenize input).
Proof.
  intros HP Heof. unfold tokenize.
  pose proof (@tokenize_loop_each input P HP (S (length input)) (mkLexer input 0 1 1) [])
    as H.
  destruct (tokenize_loop _ _ _) as [ts lx']. apply Forall_snoc; [|apply Heof].
  apply H; [|reflexivity|constructor]. unfold lexerOk. cbn. lia.
Qed.

Lemma isQuote_not_digit c : isQuote c = true -> isDigit c = false.
Proof.
  unfold isQuote. intros H.
  apply orb_true_iff in H as [H|H]; apply N.eqb_eq in H; subst c; reflexivity.
Qed.

Lemma tokenize_kinds input : Forall (kindOk input) (tokenize input).
Proof.
  apply tokenize_each.
  - intros lx t lx' Hok Hi Hlt Hsp Hstep. rewrite <- Hi in Hlt, Hsp.
    destruct (@nextToken_value _ _ _ Hok Hlt Hsp Hstep) as (Hpos & Hv & _).
    assert (Hstart : forall f, startsWith f t <->
                               f (nth (lx_position lx) (lx_input lx) 0%N) = true).
    { intros f. unfold startsWith. rewrite Hv. split.
      - intros (c & rest & E & Hf). now injection E as <- _.
      - intros Hf. eauto. }
    unfold kindOk. rewrite !Hstart.
    destruct (@nextToken_kind _ _ _ Hlt Hsp Hstep) as [[Hd E]|[[Hq E]|(Hd & Hq & Hn & Hs)]].
    + destruct (proj1 (proj2 (proj2 (proj2 read_position))) _ _ _ E) as [_ Hty].
      rewrite Hty, Hd. repeat split; try discriminate; auto.
      * intros _. eapply readNumber_digits; [|exact E]. lia.
      * intros Hq. apply isQuote_not_digit in Hq. congruence.
    + destruct (proj1 (proj2 (proj2 read_position)) _ _ _ E) as [_ Hty].
      rewrite Hty, Hq, (isQuote_not_digit _ Hq). repeat split; try discriminate; auto.
      intros _. rewrite <- Hi. eapply readString_quoted; eauto.
    + rewrite Hd, Hq. repeat split; intros; try discriminate; contradiction.
  - intros l c pos. unfold kindOk, startsWith. cbn [tok_type tok_value].
    repeat split; try discriminate; intros (? & ? & E & _); discriminate E.
Qed.

(** X7: a token has type NUMBER exactly when its text starts with a decimal
    digit, and then every code unit of its text is a decimal digit (the
    texts [parseInt] is applied to). *)
Theorem number_tokens_are_digit_strings input :
  Forall (fun t => (tok_type t = NUMBER <-> startsWith isDigit t) /\
                   (tok_type t = NUMBER -> forallb isDigit (tok_value t) = true))
         (tokenize input).
Proof.
  eapply Forall_impl; [|apply tokenize_kinds]. cbn beta.
  intros t (H1 & H2 & _). split; assumption.
Qed.

(** X8: a token has type STRING exactly when its text starts with a double
    or a single quote; its text is then that quote, code units other than
    that quote, and the same quote again, or, where the input ends first, it
    runs unclosed to the end of the input.  No code unit escapes a quote. *)
Theorem string_tokens_are_quoted input :
  Forall (fun t => (tok_type t = STRING <-> startsWith isQuote t) /\
                   (tok_type t = STRING -> quoted input t))
         (tokenize input).
Proof.
  eapply Forall_impl; [|apply tokenize_kinds]. cbn beta.
  intros t (_ & _ & H3 & H4). split; assumption.
Qed.

(** *** The texts of the types *)

Lemma keywords_text key :
  let ty := match lookup keywords key with Some t => t | None => IDENTIFIER end in
  includes freeTextTypes ty = true \/ In key (map u (fixedTexts ty)).
Proof.
  unfold keywords. cbn [lookup].
  repeat match goal with
         | |- context [if str_eqb ?k key then _ else _] =>
             destruct (str_eqb k key) eqn:?
         end;
    cbv zeta; try (left; reflexivity);
    match goal with E : str_eqb _ key = true |- _ => apply str_eqb_eq in E; subst key end;
    right; cbn; auto.
Qed.

Lemma singleCharTokens_text c ty :
  lookup singleCharTokens [c] = Some ty ->
  In (toLowerCase [c]) (map u (fixedTexts ty)).
Proof.
  unfold singleCharTokens. cbn [lookup u map list_ascii_of_string str_eqb].
  repeat match goal with
         | |- context [if N.eqb ?k c && true then _ else _] =>
             destruct (N.eqb k c) eqn:?; cbn [andb]
         end;
    intros H; try discriminate H; injection H as <-;
    match goal with E : N.eqb _ c = true |- _ => apply N.eqb_eq in E; subst c end;
    cbn; auto.
Qed.

Lemma nextToken_text lx t lx' :
  lx_position lx < length (lx_input lx) ->
  isSpace (nth (lx_position lx) (lx_input lx) 0%N) = false ->
  nextToken_rec 1 lx = (Some t, lx') -> textOk t.
Proof.
  intros Hlt Hsp. cbn [nextToken_rec]. cbv zeta.
  apply Nat.leb_gt in Hlt as Hlen. rewrite Hlen, Hsp.
  set (char := nth (lx_position lx) (lx_input lx) 0%N).
  assert (Hlit : forall ty v l col pos lx0,
            In (toLowerCase v) (map u (fixedTexts ty)) ->
            (Some (mkToken ty v l col pos), lx0) = (Some t, lx') -> textOk t).
  { intros ty v l col pos lx0 Hin H. injection H as <- <-. right. exact Hin. }
  assert (Hfree : forall read ty t0 lx0,
            read lx = (t0, lx0) -> tok_type t0 = ty ->
            includes freeTextTypes ty = true ->
            (Some t0, lx0) = (Some t, lx') -> textOk t).
  { intros read ty t0 lx0 _ Hty Hfree H. injection H as <- <-. left. now rewrite Hty. }
  destruct (N.eqb char (ch "%") && _ && _).
  { destruct (has lx 2 && _).
    - destruct (readDirective lx) as [t0 lx0] eqn:E. cbv beta iota.
      apply (Hfree readDirective DIRECTIVE t0 lx0 E); [|reflexivity].
      exact (proj2 (proj1 (proj2 read_position) _ _ _ E)).
    - destruct (readComment lx) as [t0 lx0] eqn:E. cbv beta iota.
      apply (Hfree readComment COMMENT t0 lx0 E); [|reflexivity].
      exact (proj1 (proj2 (proj1 read_position _ _ _ E))). }
  destruct (N.eqb char (ch "(") && _ && _); [apply Hlit; cbn; auto|].
  destruct (N.eqb char (ch ")") && _ && _); [apply Hlit; cbn; auto|].
  destruct (N.eqb char (ch "=")) eqn:Heq.
  { apply N.eqb_eq in Heq. rewrite Heq.
    destruct (has lx 2 && _ && _); [destruct (has lx 3 && _)|];
      apply Hlit; cbn; auto. }
  destruct (lookup singleCharTokens [char]) eqn:Hsc.
  { apply Hlit. now apply singleCharTokens_text. }
  destruct (N.eqb char (ch "-") && has lx 3 && _ && _ && _);
    [destruct (has lx 4 && _); apply Hlit; cbn; auto|].
  destruct (N.eqb char (ch "-") && has lx 2 && _ && _);
    [destruct (has lx 3 && _); apply Hlit; cbn; auto|].
  destruct (N.eqb char (ch "-") && has lx 1 && _);
    [destruct (has lx 2 && _); apply Hlit; cbn; auto|].
  destruct (N.eqb char QUOTE || _).
  { destruct (readString lx) as [t0 lx0] eqn:E. cbv beta iota.
    apply (Hfree readString STRING t0 lx0 E); [|reflexivity].
    exact (proj2 (proj1 (proj2 (proj2 read_position)) _ _ _ E)). }
  destruct (isDigit char).
  { destruct (readNumber lx) as [t0 lx0] eqn:E. cbv beta iota.
    apply (Hfree readNumber NUMBER t0 lx0 E); [|reflexivity].
    exact (proj2 (proj1 (proj2 (proj2 (proj2 read_position))) _ _ _ E)). }
  destruct (isIdentStart char).
  { destruct (readIdentifier lx) as [t0 lx0] eqn:E. cbv beta iota. intros H.
    injection H as <- <-. unfold textOk. rewrite (readIdentifier_type E).
    apply keywords_text. }
  intros H. injection H as <- <-. left. reflexivity.
Qed.

(** X19: the type of a token fixes its text unless the type is IDENTIFIER,
    STRING, NUMBER, COMMENT or DIRECTIVE: a punctuation or arrow token has
    the text of its type, a keyword token has its keyword up to the case of
    its letters, and the EOF token has the empty text. *)
Theorem token_type_fixes_token_text input : Forall textOk (tokenize input).
Proof.
  apply tokenize_each.
  - intros lx t lx' _ Hi Hlt Hsp. rewrite <- Hi in Hlt, Hsp. now apply nextToken_text.
  - intros l c pos. right. cbn. auto.
Qed.

(* ===================================================================== *)
(** ** Methods that return *)
(* ===================================================================== *)

(** *** Rules for runs that return *)

Lemma wp_ret {A} (a : A) p (Q : A -> Parser -> Prop) : Q a p -> wp (ret a) p Q.
Proof. intros H. exists a, p. split; [reflexivity|exact H]. Qed.

Lemma wp_bind {A B} (m : M A) (k : A -> M B) p (Q : B -> Parser -> Prop) :
  wp m p (fun a p' => wp (k a) p' Q) -> wp (bind m k) p Q.
Proof.
  intros (a & p1 & Hm & b & p2 & Hk & HQ). exists b, p2. split; [|exact HQ].
  unfold bind. now rewrite Hm.
Qed.

Lemma wp_conseq {A} (m : M A) p (Q Q' : A -> Parser -> Prop) :
  wp m p Q -> (forall a p', Q a p' -> Q' a p') -> wp m p Q'.
Proof. intros (a & p' & Hm & HQ) H. exists a, p'. auto. Qed.

Lemma wp_read {A} (f : Parser -> A) p (Q : A -> Parser -> Prop) :
  Q (f p) p -> wp (read f) p Q.
Proof. intros H. exists (f p), p. split; [reflexivity|exact H]. Qed.

Lemma onward_refl p : onward 0 p p.
Proof. unfold onward. repeat split; lia. Qed.

Lemma wp_advance p (Q : unit -> Parser -> Prop) :
  (forall p', onward 1 p p' -> position p' <= position p + 1 -> Q tt p') ->
  wp advance p Q.
Proof.
  intros H. unfold wp. eexists tt, _. split; [reflexivity|].
  destruct (position p <? length (tokens p)) eqn:E; apply H.
  - unfold onward. simpl. repeat split; lia.
  - simpl. lia.
  - apply Nat.ltb_ge in E. unfold onward. repeat split; try lia.
    intros Hend. apply not_isAtEnd in Hend. lia.
  - lia.
Qed.

Lemma wp_addError token msg cd sugg p (Q : unit -> Parser -> Prop) :
  (forall p', still p p' -> Q tt p') -> wp (addError token msg cd sugg) p Q.
Proof.
  intros H. unfold wp. eexists tt, _. split; [reflexivity|]. apply H.
  unfold still. simpl. split; reflexivity.
Qed.

Lemma wp_setLinkCount n p (Q : unit -> Parser -> Prop) :
  (forall p', still p p' -> Q tt p') -> wp (setLinkCount n) p Q.
Proof.
  intros H. unfold wp. eexists tt, _. split; [reflexivity|]. apply H.
  unfold still. simpl. split; reflexivity.
Qed.

Lemma onward_trans j k p q r : onward j p q -> onward k q r -> onward j p r.
Proof.
  intros (Ht & Hp & Hk) (Ht' & Hp' & Hk').
  unfold onward. rewrite Ht in *. split; [congruence|]. split; [lia|].
  intros H. specialize (Hk H). lia.
Qed.

Lemma onward_weaken j k p q : onward j p q -> k <= j -> onward k p q.
Proof.
  intros (Ht & Hp & Hk) Hle. unfold onward. repeat split; auto.
  intros H. specialize (Hk H). lia.
Qed.

Lemma still_currentToken p q : still p q -> currentToken q = currentToken p.
Proof. intros [Ht Hp]. unfold currentToken. now rewrite Ht, Hp. Qed.

Lemma still_isAtEnd p q : still p q -> isAtEnd q = isAtEnd p.
Proof.
  intros H. unfold isAtEnd. rewrite (still_currentToken H).
  destruct H as [Ht Hp]. now rewrite Ht, Hp.
Qed.

Lemma onward_endsWithEOF k p q : onward k p q -> endsWithEOF p -> endsWithEOF q.
Proof. intros (Ht & _) H. unfold endsWithEOF. now rewrite Ht. Qed.

Lemma still_endsWithEOF p q : still p q -> endsWithEOF p -> endsWithEOF q.
Proof. intros (Ht & _) H. unfold endsWithEOF. now rewrite Ht. Qed.

(** On a token that is no EOF the cursor is not at the end. *)
Lemma inside_of_type p :
  endsWithEOF p -> ty_eqb (tok_type (currentToken p)) EOF = false -> isAtEnd p = false.
Proof.
  intros Heof Hty. unfold isAtEnd. rewrite Hty, orb_false_r.
  destruct (length (tokens p) <=? position p) eqn:E; [|reflexivity].
  apply Nat.leb_le in E. rewrite (currentToken_outside _ E) in Hty.
  unfold endsWithEOF in Heof. rewrite Heof in Hty. discriminate Hty.
Qed.

Lemma tyIs_inside t p :
  endsWithEOF p -> tyIs t p = true -> ty_eqb t EOF = false -> isAtEnd p = false.
Proof.
  intros Heof Hty Ht. apply inside_of_type; [exact Heof|].
  unfold tyIs in Hty. apply ty_eqb_eq in Hty. now rewrite Hty.
Qed.

(** A loop whose rounds return and move the cursor on returns.  [kb] is
    what a round that breaks out of the loop moves. *)
Lemma wp_while {St} kb fuel (cond : St -> Parser -> bool) (body : St -> M (ctl St)) s p :
  kb <= 1 ->
  (forall s q, onward 0 p q -> cond s q = true -> isAtEnd q = false) ->
  (forall s q, onward 0 p q -> cond s q = true ->
     wp (body s) q (fun r q' => match r with
                                | Continue _ => onward 1 q q'
                                | Break _ => onward kb q q'
                                end)) ->
  length (tokens p) - position p < fuel ->
  wp (while fuel cond body s) p
     (fun _ p' => onward 0 p p' /\ (cond s p = true -> onward kb p p') /\
                  (cond s p = false -> p' = p)).
Proof.
  intros Hkb Hcond Hbody Hfuel.
  assert (H : forall fuel s q, onward 0 p q -> length (tokens q) - position q < fuel ->
                wp (while fuel cond body s) q (fun _ p' => onward 0 q p')).
  { clear fuel s Hfuel. induction fuel as [|fuel IH]; intros s q Hq Hf; [lia|].
    unfold wp. cbn [while]. destruct (cond s q) eqn:Hc;
      [|exists s, q; split; [reflexivity|apply onward_refl]].
    pose proof (Hcond _ _ Hq Hc) as Hin.
    destruct (Hbody _ _ Hq Hc) as (r & q' & -> & Hr). destruct r as [s'|s'].
    - destruct (IH s' q') as (s2 & q2 & -> & H2).
      + apply (onward_trans Hq) in Hr. exact Hr.
      + destruct Hr as (Ht & Hp & Hk). rewrite Ht. specialize (Hk Hin).
        apply not_isAtEnd in Hin. lia.
      + exists s2, q2. split; [reflexivity|].
        eapply onward_trans; [|exact H2]. eapply onward_weaken; [exact Hr|lia].
    - exists s', q'. split; [reflexivity|]. eapply onward_weaken; [exact Hr|lia]. }
  destruct fuel as [|fuel]; [lia|]. unfold wp. cbn [while].
  destruct (cond s p) eqn:Hc.
  - pose proof (Hcond _ _ (onward_refl p) Hc) as Hin.
    destruct (Hbody _ _ (onward_refl p) Hc) as (r & q' & -> & Hr). destruct r as [s'|s'].
    + destruct (H fuel s' q') as (s2 & q2 & -> & H2).
      * eapply onward_weaken; [exact Hr|lia].
      * destruct Hr as (Ht & Hp & Hk). rewrite Ht. specialize (Hk Hin).
        apply not_isAtEnd in Hin. lia.
      * exists s2, q2. split; [reflexivity|].
        assert (H1 : onward 1 p q2) by (eapply onward_trans; eauto).
        split; [eapply onward_weaken; [exact H1|lia]|].
        split; [intros _; eapply onward_weaken; [exact H1|lia]|discriminate].
    + exists s', q'. split; [reflexivity|].
      split; [eapply onward_weaken; [exact Hr|lia]|].
      split; [intros _; exact Hr|discriminate].
  - exists s, p. split; [reflexivity|].
    split; [apply onward_refl|]. split; [discriminate|reflexivity].
Qed.

(** *** Tactics *)

Ltac unpack :=
  repeat match goal with
         | H : onward _ _ _ |- _ => destruct H as (? & ? & ?)
         | H : still _ _ |- _ => destruct H as (? & ?)
         end.

Ltac same_end :=
  repeat match goal with
         | H : still ?a ?b |- _ =>
             lazymatch goal with
             | _ : isAtEnd b = isAtEnd a |- _ => fail
             | _ => pose proof (still_isAtEnd H)
             end
         end.

Ltac toks :=
  repeat match goal with
         | H : tokens ?a = tokens ?b |- _ => rewrite H in *; clear H
         end.

Ltac ends :=
  repeat match goal with
         | H : isAtEnd ?a = isAtEnd ?b |- _ => rewrite H in *; clear H
         end.

(** The relation between the first and the last state of a run. *)
Ltac inner :=
  repeat match goal with
         | H : isAtEnd ?q = false |- _ =>
             lazymatch goal with
             | _ : position q < length (tokens q) |- _ => fail
             | _ => pose proof (not_isAtEnd _ H)
             end
         end.

Ltac chain :=
  lazymatch goal with |- wp _ _ _ => fail | _ => idtac end;
  try match goal with
      | |- match ?a with Continue _ => _ | Break _ => _ end => destruct a
      end;
  first
    [ assumption
    | inner; same_end; unpack; ends; unfold onward, still, endsWithEOF in *; toks;
      repeat split; intros;
      repeat match goal with
             | H : ?A -> _, H' : ?A |- _ => specialize (H H')
             end;
      try assumption; try reflexivity; try lia; try congruence ].

Ltac side := first [ assumption | solve [chain] ].

(** Calling a method that is known to return. *)
Ltac wp_call L :=
  eapply wp_conseq; [eapply L; side | cbv beta; intros ? ? ?].

Ltac inside :=
  match goal with
  | H : negb (isAtEnd ?q) = true |- isAtEnd ?q = false => now apply negb_true_iff in H
  | H : tyIs ?t ?q = true |- isAtEnd ?q = false =>
      apply (@tyIs_inside t q); [side | exact H | reflexivity]
  | H : ty_eqb (tok_type (currentToken ?q)) ?t = true |- isAtEnd ?q = false =>
      apply (@tyIs_inside t q); [side | exact H | reflexivity]
  end.

Ltac cond_inside :=
  unfold notAtEnd in *;
  repeat match goal with
         | H : (_ && _) = true |- _ => apply andb_true_iff in H as [? ?]
         end;
  repeat match goal with
         | H : (_ || _) = true |- _ => apply orb_true_iff in H as [?|?]
         end;
  inside.

(** A loop, with the test that its condition excludes the end. *)
Ltac wp_loop kb :=
  eapply wp_conseq;
  [eapply (@wp_while _ kb); [lia | intros ? ? ? ?; cond_inside | intros ? ? ? ? | side]
  | cbv beta; intros ? ? (? & ? & ?)].

(** The methods that are known to return; extended below. *)
Ltac wp_method := fail.

Ltac wp_step :=
  lazymatch goal with
  | |- wp (bind _ _) _ _ => apply wp_bind
  | |- wp (ret _) _ _ => apply wp_ret; cbv beta iota
  | |- wp (done _) _ _ => apply wp_ret; cbv beta iota
  | |- wp (read _) _ _ => apply wp_read; cbv beta
  | |- wp advance _ _ => apply wp_advance; intros ? ? ?; cbv beta
  | |- wp (addError _ _ _ _) _ _ => apply wp_addError; intros ? ?; cbv beta
  | |- wp (unsupportedStyling _ _ _) _ _ => apply wp_addError; intros ? ?; cbv beta
  | |- wp (setLinkCount _) _ _ => apply wp_setLinkCount; intros ? ?; cbv beta
  | |- wp (when ?b _) _ _ => unfold when at 1; destruct b eqn:?
  | |- wp (if ?b then _ else _) _ _ => destruct b eqn:?
  | |- wp (match ?x with _ => _ end) _ _ => destruct x eqn:?
  | |- wp (while _ _ _ _) _ _ => wp_loop 1
  | |- wp _ _ _ => wp_method
  end.

Ltac wp_run := repeat wp_step.

(** *** The grammars *)

Lemma runs_skipUntilSemicolon fuel p :
  endsWithEOF p -> length (tokens p) - position p < fuel ->
  wp (skipUntilSemicolon fuel) p (fun _ p' => onward 1 p p').
Proof.
  intros Heof Hfuel.
  destruct (skipUntilSemicolon_returns Heof Hfuel) as (p' & Hrun & (Ht & _ & _ & Hp) & Hs).
  exists tt, p'. split; [exact Hrun|]. unfold onward. repeat split; auto.
  intros Hend. destruct Hs as [(k & Hk & Hle & _)|[Hend' _]]; [lia|].
  destruct (Nat.eq_dec (position p') (position p)) as [E|E]; [|lia].
  unfold isAtEnd, currentToken in *. rewrite Ht, E in Hend'. congruence.
Qed.

Ltac wp_method ::=
  lazymatch goal with
  | |- wp (skipUntilSemicolon _) _ _ => wp_call runs_skipUntilSemicolon
  end.

Lemma runs_collectIdentifiersAsLabel fuel b p :
  endsWithEOF p -> length (tokens p) - position p < fuel ->
  wp (collectIdentifiersAsLabel fuel b) p (fun _ p' => onward 0 p p').
Proof. intros Heof Hfuel. unfold collectIdentifiersAsLabel. wp_run; chain. Qed.

Lemma runs_shapeLabel fuel p :
  endsWithEOF p -> length (tokens p) - position p < fuel ->
  wp (shapeLabel fuel) p (fun _ p' => onward 0 p p').
Proof. intros Heof Hfuel. unfold shapeLabel. wp_run; chain. Qed.

Lemma runs_expectClose fuel close msg p :
  endsWithEOF p -> length (tokens p) - position p < fuel ->
  wp (expectClose fuel close msg) p (fun _ p' => onward 0 p p').
Proof. intros Heof Hfuel. unfold expectClose. wp_run; chain. Qed.

Ltac wp_method ::=
  lazymatch goal with
  | |- wp (skipUntilSemicolon _) _ _ => wp_call runs_skipUntilSemicolon
  | |- wp (collectIdentifiersAsLabel _ _) _ _ => wp_call runs_collectIdentifiersAsLabel
  | |- wp (shapeLabel _) _ _ => wp_call runs_shapeLabel
  | |- wp (expectClose _ _ _) _ _ => wp_call runs_expectClose
  end.

Lemma atEnd_of_EOF p : ty_eqb (tok_type (currentToken p)) EOF = true -> isAtEnd p = true.
Proof. intros H. unfold isAtEnd. rewrite H. apply orb_true_r. Qed.

Lemma runs_parseNode fuel p :
  endsWithEOF p -> length (tokens p) - position p < fuel ->
  wp (parseNode fuel) p (fun _ p' => onward 1 p p').
Proof.
  intros Heof Hfuel. unfold parseNode. wp_step. wp_step. wp_step.
  { match goal with H : ty_eqb _ EOF = true |- _ => apply atEnd_of_EOF in H end.
    wp_run. chain. }
  wp_run; chain.
Qed.

Lemma runs_parseClassDef fuel p :
  endsWithEOF p -> length (tokens p) - position p < fuel ->
  wp (parseClassDef fuel) p (fun _ p' => onward 1 p p').
Proof. intros Heof Hfuel. unfold parseClassDef. wp_run; chain. Qed.

Lemma runs_parseClassAssignment fuel p :
  endsWithEOF p -> length (tokens p) - position p < fuel ->
  wp (parseClassAssignment fuel) p (fun _ p' => onward 1 p p').
Proof. intros Heof Hfuel. unfold parseClassAssignment. wp_run; chain. Qed.

Lemma runs_parseLinkStyle fuel p :
  endsWithEOF p -> length (tokens p) - position p < fuel ->
  wp (parseLinkStyle fuel) p (fun _ p' => onward 1 p p').
Proof. intros Heof Hfuel. unfold parseLinkStyle. wp_run; chain. Qed.

Lemma runs_parseStyle fuel p :
  endsWithEOF p -> length (tokens p) - position p < fuel ->
  wp (parseStyle fuel) p (fun _ p' => onward 1 p p').
Proof. intros Heof Hfuel. unfold parseStyle. wp_run; chain. Qed.

Lemma runs_parseClickStatement fuel p :
  endsWithEOF p -> length (tokens p) - position p < fuel ->
  wp (parseClickStatement fuel) p (fun _ p' => onward 1 p p').
Proof. intros Heof Hfuel. unfold parseClickStatement. wp_run; chain. Qed.

Lemma runs_parseNoteStatement fuel p :
  endsWithEOF p -> length (tokens p) - position p < fuel ->
  wp (parseNoteStatement fuel) p (fun _ p' => onward 1 p p').
Proof. intros Heof Hfuel. unfold parseNoteStatement. wp_run; chain. Qed.

Lemma runs_parseDirectionStatement p :
  wp parseDirectionStatement p (fun _ p' => onward 1 p p').
Proof. unfold parseDirectionStatement. wp_run; chain. Qed.

Lemma runs_skipTitleDirective fuel p :
  endsWithEOF p -> length (tokens p) - position p < fuel ->
  wp (skipTitleDirective fuel) p (fun _ p' => onward 1 p p').
Proof. intros Heof Hfuel. unfold skipTitleDirective. wp_run; chain. Qed.

Lemma runs_validateFlowchartConnections nodes p :
  wp (validateFlowchartConnections nodes) p (fun _ p' => still p p').
Proof.
  revert p. induction nodes as [|a nodes IH]; intros p.
  - apply wp_ret. chain.
  - destruct nodes as [|b nodes]; [apply wp_ret; chain|].
    cbn [validateFlowchartConnections]. wp_step. wp_step.
    + wp_step. eapply wp_conseq; [apply IH|]. cbv beta. intros ? ? ?. chain.
    + wp_step. eapply wp_conseq; [apply IH|]. cbv beta. intros ? ? ?. chain.
Qed.

Ltac wp_method ::=
  lazymatch goal with
  | |- wp (skipUntilSemicolon _) _ _ => wp_call runs_skipUntilSemicolon
  | |- wp (collectIdentifiersAsLabel _ _) _ _ => wp_call runs_collectIdentifiersAsLabel
  | |- wp (shapeLabel _) _ _ => wp_call runs_shapeLabel
  | |- wp (expectClose _ _ _) _ _ => wp_call runs_expectClose
  | |- wp (parseNode _) _ _ => wp_call runs_parseNode
  end.

Lemma runs_parseArrow fuel p :
  endsWithEOF p -> length (tokens p) - position p < fuel ->
  wp (parseArrow fuel) p (fun _ p' => onward 1 p p').
Proof. intros Heof Hfuel. unfold parseArrow. wp_run; chain. Qed.

Ltac wp_method ::=
  lazymatch goal with
  | |- wp (skipUntilSemicolon _) _ _ => wp_call runs_skipUntilSemicolon
  | |- wp (collectIdentifiersAsLabel _ _) _ _ => wp_call runs_collectIdentifiersAsLabel
  | |- wp (shapeLabel _) _ _ => wp_call runs_shapeLabel
  | |- wp (expectClose _ _ _) _ _ => wp_call runs_expectClose
  | |- wp (parseNode _) _ _ => wp_call runs_parseNode
  | |- wp (parseArrow _) _ _ => wp_call runs_parseArrow
  | |- wp (parseClassDef _) _ _ => wp_call runs_parseClassDef
  | |- wp (parseClassAssignment _) _ _ => wp_call runs_parseClassAssignment
  | |- wp (parseLinkStyle _) _ _ => wp_call runs_parseLinkStyle
  | |- wp (parseStyle _) _ _ => wp_call runs_parseStyle
  | |- wp (parseClickStatement _) _ _ => wp_call runs_parseClickStatement
  | |- wp (parseNoteStatement _) _ _ => wp_call runs_parseNoteStatement
  | |- wp parseDirectionStatement _ _ =>
      eapply wp_conseq; [apply runs_parseDirectionStatement | cbv beta; intros ? ? ?]
  | |- wp (skipTitleDirective _) _ _ => wp_call runs_skipTitleDirective
  | |- wp (validateFlowchartConnections _) _ _ =>
      eapply wp_conseq; [apply runs_validateFlowchartConnections | cbv beta; intros ? ? ?]
  end.

Lemma currentToken_Forall (P : Token -> Prop) p :
  Forall P (tokens p) -> P eofToken -> P (currentToken p).
Proof.
  intros Hall Heof. destruct (tokens p) as [|t ts] eqn:E.
  - unfold currentToken. rewrite E. simpl. now destruct (position p).
  - rewrite Forall_forall in Hall. apply Hall. rewrite <- E. apply currentToken_In.
    now rewrite E.
Qed.

(** Where no token is a [subgraph] keyword, [parseFlowchartElement] returns,
    and it has moved the cursor on when it gives an element. *)
Lemma runs_parseFlowchartElement fuel p :
  endsWithEOF p -> Forall (fun t => tok_type t <> SUBGRAPH) (tokens p) ->
  length (tokens p) - position p < fuel ->
  wp (parseFlowchartElement (S fuel)) p
     (fun r p' => match r with
                  | Some _ => onward 1 p p'
                  | None => still p p' \/ onward 1 p p'
                  end).
Proof.
  intros Heof Hsub Hfuel.
  assert (Hns : ty_eqb (tok_type (currentToken p)) SUBGRAPH = false).
  { destruct (ty_eqb _ SUBGRAPH) eqn:E; [|reflexivity]. apply ty_eqb_eq in E.
    exfalso. revert E.
    apply (@currentToken_Forall (fun t => tok_type t <> SUBGRAPH) p Hsub). discriminate. }
  cbn [parseFlowchartElement]. wp_run; try congruence; try chain;
    first [left; solve [chain] | right; solve [chain]].
Qed.

Lemma runs_parseSubgraph fuel self p :
  endsWithEOF p -> isAtEnd p = false ->
  (forall q, tokens q = tokens p -> position p < position q ->
             wp self q (fun _ q' => onward 1 q q')) ->
  length (tokens p) - position p < fuel ->
  wp (parseSubgraph fuel self) p (fun _ p' => onward 1 p p').
Proof.
  intros Heof Hin Hself Hfuel. unfold parseSubgraph.
  set (loop := while fuel _ _ []).
  assert (Hloop : forall q, onward 1 p q -> wp loop q (fun _ q' => onward 0 q q')).
  { intros q Hq. subst loop. eapply wp_conseq.
    - eapply (@wp_while _ 1); [lia | intros ? ? ? ?; cond_inside | | side].
      intros s q' Hq' Hc. wp_step.
      eapply wp_conseq; [apply Hself; chain|]. cbv beta. intros ? ? ?. wp_run; chain.
    - cbv beta. intros ? ? (? & _). assumption. }
  wp_run; (eapply wp_conseq; [apply Hloop; chain|]); cbv beta; intros ? ? ?;
    wp_run; chain.
Qed.

Lemma currentToken_element k p :
  endsWithEOF p ->
  Forall (fun t => includes elementTypes (tok_type t) = true) (skipn k (tokens p)) ->
  k <= position p ->
  includes elementTypes (tok_type (currentToken p)) = true.
Proof.
  intros Heof Hall Hk. unfold currentToken.
  destruct (length (tokens p) <=? position p) eqn:E.
  - unfold endsWithEOF in Heof. now rewrite Heof.
  - apply Nat.leb_gt in E. rewrite Forall_forall in Hall. apply Hall.
    rewrite <- (firstn_skipn k (tokens p)) at 1.
    rewrite app_nth2; rewrite length_firstn; [|lia].
    replace (Nat.min k (length (tokens p))) with k by lia.
    apply nth_In. rewrite length_skipn. lia.
Qed.

(** Where every token from index [k] on has a branch, [parseFlowchartElement]
    returns from a cursor at or behind [k] and has moved the cursor on,
    however subgraphs are nested. *)
Lemma runs_parseFlowchartElement_nested k fuel :
  forall p, endsWithEOF p ->
    Forall (fun t => includes elementTypes (tok_type t) = true) (skipn k (tokens p)) ->
    k <= position p ->
    length (tokens p) - position p < fuel ->
    wp (parseFlowchartElement (S fuel)) p (fun _ p' => onward 1 p p').
Proof.
  induction fuel as [|fuel IH]; intros p Heof Hall Hk Hfuel; [lia|].
  pose proof (@currentToken_element k p Heof Hall Hk) as Hcur.
  remember (S fuel) as fuel' eqn:Ef. cbn [parseFlowchartElement].
  wp_run; try chain.
  - assert (Hin : isAtEnd p = false) by inside.
    pose proof (not_isAtEnd _ Hin).
    eapply wp_conseq.
    + apply runs_parseSubgraph; [assumption | assumption | | lia].
      intros q Hq Hpos. subst fuel'.
      apply IH; [chain | congruence | lia | rewrite Hq; lia].
    + cbv beta. intros ? ? ?. wp_run. chain.
  - assert (Hend : isAtEnd p = true).
    { apply atEnd_of_EOF. revert Hcur.
      repeat match goal with
             | H : (_ || _) = false |- _ => apply orb_false_iff in H as [? ?]
             end.
      destruct (tok_type (currentToken p)); try discriminate; reflexivity. }
    congruence.
Qed.

(** The flowchart grammar returns where its element parser does. *)
Lemma runs_parseFlowchart_elements fuel p :
  endsWithEOF p -> isAtEnd p = false -> length (tokens p) - position p < fuel ->
  (forall q, tokens q = tokens p -> position p < position q ->
     wp (parseFlowchartElement fuel) q
        (fun r q' => match r with
                     | Some _ => onward 1 q q'
                     | None => still q q' \/ onward 1 q q'
                     end)) ->
  wp (parseFlowchart fuel) p (fun _ p' => onward 1 p p').
Proof.
  intros Heof Hin Hfuel Helem. unfold parseFlowchart.
  set (loop := while fuel _ _ []).
  assert (Hloop : forall q, onward 1 p q -> wp loop q (fun _ q' => onward 0 q q')).
  { intros q Hq. subst loop. eapply wp_conseq.
    - eapply (@wp_while _ 0); [lia | intros ? ? ? ?; cond_inside | | side].
      intros s q' Hq' Hc.
      assert (Hin' : isAtEnd q' = false) by cond_inside.
      do 3 wp_step; [wp_run; chain|].
      wp_step. eapply wp_conseq; [apply Helem; chain|].
      cbv beta. intros [e|] q2 H2; cbv beta iota in H2 |- *;
        [|destruct H2 as [H2|H2]]; wp_run; chain.
    - cbv beta. intros ? ? (? & _). assumption. }
  wp_run; (eapply wp_conseq; [apply Hloop; chain|]); cbv beta; intros ? ? ?;
    wp_run; chain.
Qed.

(** The two kinds of flowchart source on which the grammar returns: without
    a [subgraph] keyword, or with a branch for every token behind the
    cursor. *)
Lemma runs_parseFlowchart fuel p :
  endsWithEOF p ->
  Forall (fun t => tok_type t <> SUBGRAPH) (tokens p) \/
  Forall (fun t => includes elementTypes (tok_type t) = true)
         (skipn (S (position p)) (tokens p)) ->
  isAtEnd p = false -> length (tokens p) - position p < fuel ->
  wp (parseFlowchart fuel) p (fun _ p' => onward 1 p p').
Proof.
  intros Heof Hts Hin Hfuel. destruct fuel as [|fuel]; [lia|].
  apply runs_parseFlowchart_elements; try assumption.
  pose proof (not_isAtEnd _ Hin).
  intros q Hq Hpos. destruct Hts as [Hsub|Hall].
  - apply runs_parseFlowchartElement; [chain | congruence | rewrite Hq; lia].
  - eapply wp_conseq.
    + apply (@runs_parseFlowchartElement_nested (S (position p)));
        [chain | congruence | lia | rewrite Hq; lia].
    + cbv beta. intros [e|] ? ?; [assumption | now right].
Qed.

Lemma runs_parseParticipant p : wp parseParticipant p (fun _ p' => onward 1 p p').
Proof. unfold parseParticipant. wp_run; chain. Qed.

Lemma runs_parseMessageLine fuel p :
  endsWithEOF p -> length (tokens p) - position p < fuel ->
  wp (parseMessageLine fuel) p (fun _ p' => onward 1 p p').
Proof. intros Heof Hfuel. unfold parseMessageLine. wp_run; chain. Qed.

Ltac wp_method ::=
  lazymatch goal with
  | |- wp (skipUntilSemicolon _) _ _ => wp_call runs_skipUntilSemicolon
  | |- wp (parseClassDef _) _ _ => wp_call runs_parseClassDef
  | |- wp (parseClassAssignment _) _ _ => wp_call runs_parseClassAssignment
  | |- wp parseParticipant _ _ =>
      eapply wp_conseq; [apply runs_parseParticipant | cbv beta; intros ? ? ?]
  | |- wp (parseMessageLine _) _ _ => wp_call runs_parseMessageLine
  end.

Lemma runs_sequenceStatement fuel s p :
  endsWithEOF p -> length (tokens p) - position p < fuel ->
  wp (sequenceStatement fuel s) p (fun _ p' => onward 1 p p').
Proof.
  intros Heof Hfuel. destruct s as [participants messages]. unfold sequenceStatement.
  wp_run; chain.
Qed.

Lemma runs_classStatement fuel s p :
  endsWithEOF p -> length (tokens p) - position p < fuel ->
  wp (classStatement fuel s) p (fun _ p' => onward 1 p p').
Proof. intros Heof Hfuel. unfold classStatement. wp_run; chain. Qed.

Lemma runs_stateStatement fuel s p :
  endsWithEOF p -> length (tokens p) - position p < fuel ->
  wp (stateStatement fuel s) p (fun _ p' => onward 1 p p').
Proof. intros Heof Hfuel. unfold stateStatement. wp_run; chain. Qed.

Lemma runs_blockStatement s p : wp (blockStatement s) p (fun _ p' => onward 1 p p').
Proof. destruct s as [columns blocks]. unfold blockStatement. wp_run; chain. Qed.

Ltac wp_method ::=
  lazymatch goal with
  | |- wp (sequenceStatement _ _) _ _ => wp_call runs_sequenceStatement
  | |- wp (classStatement _ _) _ _ => wp_call runs_classStatement
  | |- wp (stateStatement _ _) _ _ => wp_call runs_stateStatement
  | |- wp (blockStatement _) _ _ =>
      eapply wp_conseq; [apply runs_blockStatement | cbv beta; intros ? ? ?]
  | |- wp (validateSequenceDiagram _ _) _ _ => apply wp_ret; cbv beta
  end.

Lemma runs_parseSequenceDiagram fuel p :
  endsWithEOF p -> length (tokens p) - position p < fuel ->
  wp (parseSequenceDiagram fuel) p (fun _ p' => onward 1 p p').
Proof. intros Heof Hfuel. unfold parseSequenceDiagram. wp_run; chain. Qed.

Lemma runs_parseClassDiagram fuel p :
  endsWithEOF p -> length (tokens p) - position p < fuel ->
  wp (parseClassDiagram fuel) p (fun _ p' => onward 1 p p').
Proof. intros Heof Hfuel. unfold parseClassDiagram. wp_run; chain. Qed.

Lemma runs_parseStateDiagram fuel p :
  endsWithEOF p -> length (tokens p) - position p < fuel ->
  wp (parseStateDiagram fuel) p (fun _ p' => onward 1 p p').
Proof. intros Heof Hfuel. unfold parseStateDiagram. wp_run; chain. Qed.

Lemma runs_parseToEnd type fuel p :
  endsWithEOF p -> length (tokens p) - position p < fuel ->
  wp (parseToEnd type fuel) p (fun _ p' => onward 1 p p').
Proof. intros Heof Hfuel. unfold parseToEnd. wp_run; chain. Qed.

Lemma runs_parseBlockDiagram fuel p :
  endsWithEOF p -> length (tokens p) - position p < fuel ->
  wp (parseBlockDiagram fuel) p (fun _ p' => onward 1 p p').
Proof. intros Heof Hfuel. unfold parseBlockDiagram. wp_run; chain. Qed.

(** *** The lists of the XY chart *)

Lemma wp_advance_inside p (Q : unit -> Parser -> Prop) :
  position p < length (tokens p) ->
  (forall p', tokens p' = tokens p -> position p' = position p + 1 -> Q tt p') ->
  wp advance p Q.
Proof.
  intros Hin H. unfold wp. rewrite (advance_inside _ Hin). eexists tt, _.
  split; [reflexivity|]. now apply H.
Qed.

Lemma closesAt_open p i :
  closesAt p i -> tyIs BRACKET_CLOSE p = false -> position p < i.
Proof.
  intros (Hle & Hlt & Hty) Hc.
  destruct (Nat.eq_dec (position p) i) as [E|E]; [|lia]. exfalso.
  unfold tyIs in Hc. rewrite currentToken_inside in Hc by lia.
  rewrite E, Hty in Hc. discriminate Hc.
Qed.

Lemma closesAt_not p i t :
  closesAt p i -> tyIs t p = true -> ty_eqb BRACKET_CLOSE t = false -> position p < i.
Proof.
  intros (Hle & Hlt & Hty) Hc Ht.
  destruct (Nat.eq_dec (position p) i) as [E|E]; [|lia]. exfalso.
  unfold tyIs in Hc. rewrite currentToken_inside in Hc by lia.
  rewrite E, Hty in Hc. rewrite Hc in Ht. discriminate Ht.
Qed.

(** After one item of a list, and the comma behind it, the cursor has moved
    and is not behind the closing bracket. *)
Lemma list_item_step {A} (p q : Parser) i (k : M A) (Q : A -> Parser -> Prop) :
  closesAt p i -> tyIs BRACKET_CLOSE p = false -> still p q ->
  (forall q', tokens q' = tokens p -> position p < position q' -> closesAt q' i ->
              wp k q' Q) ->
  wp (advance ;; comma <- read (tyIs COMMA) ;; when comma advance ;; k) q Q.
Proof.
  intros Hcl Hopen [Ht Hp] HQ. pose proof (closesAt_open Hcl Hopen) as Hlt.
  destruct Hcl as (Hle & Hi & Hty).
  apply wp_bind, wp_advance_inside; [rewrite Ht, Hp; lia|]. intros q1 Ht1 Hp1.
  apply wp_bind, wp_read. cbv beta.
  assert (Hcl1 : closesAt q1 i).
  { unfold closesAt, tokenAt in *. rewrite Ht1, Ht, Hp1, Hp. repeat split; auto; lia. }
  apply wp_bind. unfold when. destruct (tyIs COMMA q1) eqn:Hcomma.
  - pose proof (@closesAt_not _ _ _ Hcl1 Hcomma eq_refl) as Hlt1.
    apply wp_advance_inside; [rewrite Ht1, Ht; lia|]. intros q2 Ht2 Hp2.
    apply HQ; [congruence|lia|].
    unfold closesAt, tokenAt in *. rewrite Ht2, Ht1, Ht, Hp2. repeat split; auto; lia.
  - apply wp_ret. apply HQ; [congruence|lia|exact Hcl1].
Qed.

Lemma still_refl p : still p p.
Proof. split; reflexivity. Qed.

Ltac list_item Hcl Hopen :=
  cbv beta zeta; eapply list_item_step; [exact Hcl | exact Hopen | chain |];
  intros ? ? ? ?; apply wp_ret; eauto.

Lemma xAxisLabel_round : listRound xAxisLabel.
Proof.
  intros xs q i Hcl Hopen. unfold xAxisLabel.
  apply wp_bind, wp_read. cbv beta. apply wp_bind.
  destruct (ty_eqb _ STRING); [apply wp_ret; list_item Hcl Hopen|].
  destruct (ty_eqb _ IDENTIFIER); [|apply wp_ret; list_item Hcl Hopen].
  cbv zeta. apply wp_bind. unfold when.
  destruct (negb _); [apply wp_addError; intros q0 Hst|apply wp_ret];
    cbv beta; apply wp_ret; list_item Hcl Hopen.
Qed.

Lemma seriesValue_round : listRound seriesValue.
Proof.
  intros xs q i Hcl Hopen. unfold seriesValue.
  apply wp_bind, wp_read. list_item Hcl Hopen.
Qed.

(** A bracketed list that is closed is read up to its closing bracket. *)
Lemma runs_list {St} (body : St -> M (ctl St)) :
  listRound body ->
  forall fuel s p i, closesAt p i -> i - position p < fuel ->
    wp (while fuel listOpen body s) p
       (fun _ p' => tokens p' = tokens p /\ position p <= position p' /\
                    position p' < length (tokens p')).
Proof.
  intros Hbody. induction fuel as [|fuel IH]; intros s p i Hcl Hfuel; [lia|].
  unfold wp. cbn [while]. unfold listOpen at 1.
  destruct (tyIs BRACKET_CLOSE p) eqn:Hopen; cbn [negb].
  - exists s, p. split; [reflexivity|]. destruct Hcl as (Hle & Hi & _).
    repeat split; lia.
  - destruct (Hbody s p i Hcl Hopen) as (r & q & -> & (s' & ->) & Ht & Hp & Hcl').
    pose proof Hcl' as (Hle' & _).
    destruct (IH s' q i Hcl') as (s2 & q2 & -> & Ht2 & Hp2 & Hin2); [lia|].
    exists s2, q2. split; [reflexivity|]. repeat split; try lia. congruence.
Qed.

Lemma open_bracket_closes q1 q2 :
  endsWithEOF q1 -> bracketsClosed (tokens q1) -> tyIs BRACKET_OPEN q1 = true ->
  onward 1 q1 q2 -> position q2 <= position q1 + 1 ->
  exists j, closesAt q2 j.
Proof.
  intros Heof Hbr Hopen (Ht & Hp & Hk) Hle.
  pose proof (tyIs_inside _ Heof Hopen eq_refl) as Hin. specialize (Hk Hin).
  apply not_isAtEnd in Hin.
  unfold tyIs in Hopen. apply ty_eqb_eq in Hopen.
  rewrite (currentToken_inside _ Hin) in Hopen. unfold tokenAt in Hopen.
  destruct (Hbr _ Hopen) as (j & Hj & Hty). exists j.
  unfold closesAt, tokenAt. rewrite Ht. repeat split; try lia; [|exact Hty].
  destruct (Nat.lt_ge_cases j (length (tokens q1))) as [H|H]; [exact H|].
  rewrite nth_overflow in Hty by exact H. discriminate Hty.
Qed.

(** The call of a list loop behind an opening bracket. *)
Ltac wp_list round :=
  match goal with
  | Hopen : tyIs BRACKET_OPEN ?q1 = true, Hon : onward 1 ?q1 ?q2 |- wp _ ?q2 _ =>
      let j := fresh "j" in
      let Hj := fresh "Hj" in
      destruct (@open_bracket_closes q1 q2) as (j & Hj);
      [side | solve [chain] | exact Hopen | exact Hon | lia |];
      eapply wp_conseq;
      [eapply (runs_list round) with (i := j);
       [exact Hj | destruct Hj as (? & ? & ?); chain]
      | cbv beta; intros ? ? (? & ? & ?)]
  end.

Lemma runs_xyStatement fuel s p :
  endsWithEOF p -> bracketsClosed (tokens p) ->
  length (tokens p) - position p < fuel ->
  wp (xyStatement fuel s) p (fun _ p' => onward 1 p p').
Proof.
  intros Heof Hbr Hfuel. unfold xyStatement, xAxisLabels, seriesValues.
  wp_run; try chain.
  - wp_list xAxisLabel_round. wp_run; chain.
  - wp_list seriesValue_round. wp_run; chain.
Qed.

Ltac wp_method ::=
  lazymatch goal with
  | |- wp (xyStatement _ _) _ _ => wp_call runs_xyStatement
  | |- wp (validateXYChart _ _ _ _) _ _ =>
      unfold validateXYChart; unfold when at 1;
      match goal with |- context [length ?d =? 0] => destruct (length d =? 0) end
  end.

Lemma runs_parseXYChart fuel p :
  endsWithEOF p -> bracketsClosed (tokens p) ->
  length (tokens p) - position p < fuel ->
  wp (parseXYChart fuel) p (fun _ p' => onward 1 p p').
Proof. intros Heof Hbr Hfuel. unfold parseXYChart. wp_run; chain. Qed.

(* ===================================================================== *)
(** ** The result for whole texts *)
(* ===================================================================== *)

Lemma listsClosed_bracketsClosed ts : listsClosed ts = true -> bracketsClosed ts.
Proof.
  induction ts as [|t rest IH]; intros H i Hi.
  - destruct i; discriminate Hi.
  - cbn [listsClosed] in H. apply andb_true_iff in H as [Ht Hrest].
    destruct i as [|i]; cbn [nth] in Hi.
    + rewrite Hi in Ht. cbn in Ht. apply existsb_exists in Ht as (c & Hin & Hc).
      apply (In_nth _ _ eofToken) in Hin as (j & Hj & <-).
      exists (S j). split; [lia|]. cbn [nth]. now apply ty_eqb_eq.
    + destruct (IH Hrest i Hi) as (j & Hj & Hc). exists (S j). split; [lia|exact Hc].
Qed.

Lemma elementsBounded_tokens ts :
  elementsBounded ts = true ->
  Forall (fun t => tok_type t <> SUBGRAPH) ts \/
  Forall (fun t => includes elementTypes (tok_type t) = true) (diagramBody ts).
Proof.
  unfold elementsBounded. intros H.
  apply orb_true_iff in H as [H|H]; [left|right]; rewrite forallb_forall in H;
    apply Forall_forall; intros t Hin; specialize (H t Hin); [|exact H].
  intros E. rewrite E in H. discriminate H.
Qed.

Lemma last_is_nth (A : Type) (l : list A) d : last l d = nth (length l - 1) l d.
Proof.
  induction l as [|x l IH]; [reflexivity|]. destruct l as [|y l]; [reflexivity|].
  cbn [last length Nat.sub nth] in *. now rewrite IH, Nat.sub_0_r.
Qed.

(** The loop of [parseDiagram] over the leading directives stops at the first
    token that is no directive, and changes the cursor only. *)
Lemma directives_skipped fuel : forall p,
  endsWithEOF p -> position p < length (tokens p) ->
  length (tokens p) - position p < fuel ->
  exists p',
    while fuel (fun _ p => negb (isAtEnd p) && tyIs DIRECTIVE p)
          (fun _ => advance ;; ret (Continue tt)) tt p = Ret tt p' /\
    movedFrom p p' /\ position p' < length (tokens p) /\
    find (fun t => negb (ty_eqb (tok_type t) DIRECTIVE)) (skipn (position p) (tokens p))
      = Some (currentToken p') /\
    diagramBody (skipn (position p) (tokens p)) = skipn (S (position p')) (tokens p).
Proof.
  induction fuel as [|fuel IH]; intros p Heof Hin Hfuel; [lia|].
  cbn [while]. rewrite (@skipn_nth _ _ _ eofToken Hin). cbn [find diagramBody].
  change (nth (position p) (tokens p) eofToken) with (tokenAt p (position p)).
  rewrite <- (currentToken_inside _ Hin).
  destruct (negb (isAtEnd p) && tyIs DIRECTIVE p) eqn:Ec.
  - apply andb_true_iff in Ec as [_ Hd]. unfold tyIs in Hd. rewrite Hd. cbn [negb].
    unfold bind, advance, ret. apply Nat.ltb_lt in Hin as Hlt. rewrite Hlt.
    set (p1 := mkParser _ _ _ _).
    assert (Hin1 : position p1 < length (tokens p1)).
    { subst p1. cbn. apply ty_eqb_eq in Hd.
      destruct (Nat.eq_dec (position p + 1) (length (tokens p))) as [E|E]; [|lia].
      exfalso. unfold endsWithEOF in Heof. rewrite (currentToken_inside _ Hin) in Hd.
      unfold tokenAt in Hd.
      rewrite last_is_nth in Heof.
      replace (length (tokens p) - 1) with (position p) in Heof by lia. congruence. }
    destruct (IH p1 Heof Hin1) as (p' & Hrun & Hmv & Hlt' & Hfind & Hbody);
      [subst p1; cbn; lia|].
    exists p'. split; [exact Hrun|]. subst p1. cbn in *.
    rewrite Nat.add_1_r in Hfind, Hbody. split; [|repeat split; assumption].
    destruct Hmv as (? & ? & ? & ?). repeat split; cbn in *; try assumption; lia.
  - exists p. split; [reflexivity|]. split; [repeat split; lia|]. split; [exact Hin|].
    assert (Hd : ty_eqb (tok_type (currentToken p)) DIRECTIVE = false).
    { apply andb_false_iff in Ec as [Ec|Ec]; [|exact Ec].
      apply negb_false_iff in Ec. unfold isAtEnd in Ec.
      apply orb_true_iff in Ec as [Ec|Ec]; [apply Nat.leb_le in Ec; lia|].
      apply ty_eqb_eq in Ec. rewrite Ec. reflexivity. }
    rewrite Hd. split; reflexivity.
Qed.

Lemma movedFrom_endsWithEOF p p' : movedFrom p p' -> endsWithEOF p -> endsWithEOF p'.
Proof. intros (Ht & _) H. unfold endsWithEOF in *. now rewrite Ht. Qed.

(** [parseDiagram] returns on the token streams with bounded loops, and with
    the tokens it was given. *)
Lemma runs_parseDiagram fuel p :
  endsWithEOF p -> position p = 0 -> tokens p <> [] ->
  loopsBounded (tokens p) = true -> length (tokens p) < fuel ->
  wp (parseDiagram fuel) p (fun _ p' => tokens p' = tokens p).
Proof.
  intros Heof Hpos Hne Hb Hfuel.
  assert (Hin : position p < length (tokens p)).
  { rewrite Hpos. destruct (tokens p); [contradiction|cbn; lia]. }
  destruct (@directives_skipped fuel p Heof Hin)
    as (p1 & Hrun & Hmv & Hlt & Hfind & Hbody); [lia|].
  rewrite Hpos in Hfind, Hbody. cbn [skipn] in Hfind.
  change (skipn 0 (tokens p)) with (tokens p) in Hbody.
  unfold loopsBounded, firstDiagramToken in Hb. rewrite Hfind in Hb.
  pose proof (movedFrom_endsWithEOF Hmv Heof) as Heof1.
  destruct Hmv as (Ht & _ & _ & Hle).
  assert (Hfuel1 : length (tokens p1) - position p1 < fuel) by (rewrite Ht; lia).
  unfold parseDiagram. apply wp_bind. exists tt, p1. split; [exact Hrun|].
  apply wp_bind, wp_read. cbv beta.
  assert (Hend : ty_eqb (tok_type (currentToken p1)) EOF = false ->
                 isAtEnd p1 = false) by (now apply inside_of_type).
  destruct (tok_type (currentToken p1)) eqn:Ety;
    try (eapply wp_conseq;
         [first [ apply runs_parseSequenceDiagram | apply runs_parseClassDiagram
                | apply runs_parseStateDiagram | apply runs_parseToEnd
                | apply runs_parseBlockDiagram ]; assumption
         | cbv beta; intros ? ? (E & _); congruence ]).
  all: try (eapply wp_conseq;
            [apply runs_parseFlowchart;
             [assumption
             | rewrite Ht, <- Hbody; apply elementsBounded_tokens; exact Hb
             | now apply Hend | assumption]
            | cbv beta; intros ? ? (E & _); congruence ]).
  all: try (eapply wp_conseq;
            [apply runs_parseXYChart;
             [assumption | rewrite Ht; now apply listsClosed_bracketsClosed | assumption]
            | cbv beta; intros ? ? (E & _); congruence ]).
  all: wp_run; match goal with H : still _ _ |- _ => destruct H as [E _] end; congruence.
Qed.

Lemma parse_returns fuel src :
  loopsBounded (tokenize src) = true -> length (tokenize src) < fuel ->
  exists r p', parse fuel (newParser src) = Ret r p'.
Proof.
  intros Hb Hfuel. unfold parse. unfold bind at 1. cbn [newParser tokens].
  set (p0 := mkParser (tokenize src) 0 [] 0).
  destruct (@runs_parseDiagram fuel p0) as (a & p1 & Hrun & _);
    try assumption; try reflexivity.
  - apply tokenize_endsWithEOF.
  - apply tokenize_nonempty.
  - unfold try_catch, bind at 1. rewrite Hrun. cbn. eauto.
Qed.

(** *** The entry point returns *)

(** X9: [validateMermaid] returns on every source text whose loops are
    bounded ([loopsBounded]): a text that selects a grammar other than
    flowchart and xychart; a flowchart text without a [subgraph] keyword, or
    with a branch of [parseFlowchartElement] for every token behind the
    header; an xychart text in which every opening bracket has a closing
    bracket behind it.  Fuel above the length of the text plus one is
    enough. *)
Theorem validateMermaid_returns_on_bounded_loops validatedAgainst fuel src target :
  loopsBounded (tokenize src) = true -> length src + 1 < fuel ->
  exists r, validateMermaid validatedAgainst fuel (JSString src) target = Some r.
Proof.
  intros Hb Hfuel. pose proof (tokenize_length src) as Hlen.
  destruct (@parse_returns fuel src Hb) as (r & p' & Hrun); [lia|].
  unfold validateMermaid, validateMermaidWith. rewrite Hrun.
  destruct (_ || _); [eauto|]. destruct (_ && _); eauto.
Qed.

(** *** The grammars that read to the end *)

Lemma advance_to_end fuel p :
  length (tokens p) - position p < fuel ->
  exists p', while fuel notAtEnd (fun _ : unit => advance ;; ret (Continue tt)) tt p
             = Ret tt p' /\ movedFrom p p'.
Proof.
  intros Hfuel.
  destruct (while_returns (@notAtEnd unit) (fun _ => advance ;; ret (Continue tt))
              (fun _ q => movedFrom p q) (fun _ q => movedFrom p q)
              (fun _ q => length (tokens q) - position q))
    with (fuel := fuel) (s := tt) (p := p) as ([] & p' & Hrun & Hmv).
  - auto.
  - intros [] q Hmv Hc. unfold notAtEnd in Hc. apply andb_true_iff in Hc as [Hc _].
    apply negb_true_iff, not_isAtEnd in Hc.
    unfold bind. rewrite (advance_inside _ Hc). eexists _, _. split; [reflexivity|].
    cbn [tokens position p_errors linkCount]. destruct Hmv as (? & ? & ? & ?).
    split; [repeat split; cbn; try assumption; lia|cbn; lia].
  - apply movedFrom_refl.
  - exact Hfuel.
  - eauto.
Qed.

Lemma movedFrom_trans p q r : movedFrom p q -> movedFrom q r -> movedFrom p r.
Proof.
  intros (? & ? & ? & ?) (? & ? & ? & ?). repeat split; try congruence. lia.
Qed.

Lemma movedFrom_advance p p' : advance p = Ret tt p' -> movedFrom p p'.
Proof.
  unfold advance. intros H. injection H as <-.
  destruct (position p <? length (tokens p)); [|apply movedFrom_refl].
  repeat split. cbn. lia.
Qed.

Lemma parseToEnd_accepts type fuel p :
  length (tokens p) - position p < fuel ->
  exists p', parseToEnd type fuel p =
               Ret (PlainNode type (tok_line (currentToken p)) (tok_column (currentToken p))) p'
             /\ movedFrom p p'.
Proof.
  intros Hfuel. unfold parseToEnd. unfold bind at 1, read. unfold bind at 1.
  destruct (advance p) as [[] p1| |] eqn:Ea; try discriminate Ea.
  apply movedFrom_advance in Ea.
  destruct (@advance_to_end fuel p1) as (p2 & Hrun & Hmv).
  { destruct Ea as (Ht & _ & _ & Hle). rewrite Ht. lia. }
  unfold bind at 1. rewrite Hrun. exists p2. split; [reflexivity|].
  eapply movedFrom_trans; eassumption.
Qed.

Lemma getDiagramType_tokens p q : tokens p = tokens q -> getDiagramType p = getDiagramType q.
Proof. intros H. unfold getDiagramType. now rewrite H. Qed.

(** [parseDiagram] after the leading directives: the cursor is on the first
    token that is no directive, and the rest of the method runs from there. *)
Lemma parseDiagram_directives fuel src :
  length (tokenize src) < fuel ->
  exists t p1,
    firstDiagramToken (tokenize src) = Some t /\
    movedFrom (mkParser (tokenize src) 0 [] 0) p1 /\
    position p1 < length (tokenize src) /\ currentToken p1 = t /\
    forall (A : Type) (k : Token -> M A),
      (while fuel (fun _ p => negb (isAtEnd p) && tyIs DIRECTIVE p)
             (fun _ : unit => advance ;; ret (Continue tt)) tt ;;
       token <- read currentToken ;; k token) (mkParser (tokenize src) 0 [] 0) = k t p1.
Proof.
  intros Hfuel. set (p0 := mkParser (tokenize src) 0 [] 0).
  destruct (@directives_skipped fuel p0) as (p1 & Hrun & Hmv & Hlt & Hfind & _).
  - apply tokenize_endsWithEOF.
  - cbn. pose proof (tokenize_nonempty src). destruct (tokenize src); [contradiction|cbn; lia].
  - cbn. lia.
  - exists (currentToken p1), p1. repeat split; try apply Hmv; try assumption.
    intros A k. unfold bind at 1. rewrite Hrun. reflexivity.
Qed.

(** What [parse] makes of the result of [parseDiagram]. *)
Lemma parse_of_parseDiagram fuel p a p2 :
  parseDiagram fuel (mkParser (tokens p) 0 [] 0) = Ret a p2 ->
  parse fuel p =
    Ret (mkResult (length (p_errors p2) =? 0) (getDiagramType p2) (p_errors p2) (Some a)) p2.
Proof.
  intros H. unfold parse. unfold bind at 1. unfold try_catch, bind at 1. now rewrite H.
Qed.

Lemma tokenize_length_nonzero src : (length (tokenize src) =? 0) = false.
Proof.
  apply Nat.eqb_neq. pose proof (tokenize_nonempty src).
  destruct (tokenize src); [contradiction|discriminate].
Qed.

Lemma first_token_of_blank src t :
  firstDiagramToken (tokenize src) = Some t -> tok_type t <> EOF ->
  (length src =? 0) || isBlank src = false.
Proof.
  intros Hfirst Hty.
  assert (Hb : isBlank src = false).
  { destruct (isBlank src) eqn:Hb; [|reflexivity].
    destruct (tokenize_blank _ Hb) as (l & c & pos & E). rewrite E in Hfirst.
    cbn in Hfirst. injection Hfirst as <-. now contradiction Hty. }
  rewrite Hb, orb_false_r. destruct src; [discriminate Hb|reflexivity].
Qed.

Lemma parse_reads_to_end fuel src t :
  firstDiagramToken (tokenize src) = Some t ->
  includes readToEndTypes (tok_type t) = true ->
  length (tokenize src) < fuel ->
  exists p',
    parse fuel (newParser src) =
      Ret (mkResult true (getDiagramType (newParser src)) []
             (Some (PlainNode (getDiagramType (newParser src))
                              (tok_line t) (tok_column t)))) p'.
Proof.
  intros Hfirst Hty Hfuel.
  destruct (parseDiagram_directives src Hfuel)
    as (t' & p1 & Hfirst' & Hmv & Hlt & Hcur & Hk).
  rewrite Hfirst in Hfirst'. injection Hfirst' as <-.
  assert (Hfuel1 : length (tokens p1) - position p1 < fuel).
  { destruct Hmv as (-> & _). cbn. lia. }
  assert (Hres : forall type,
            getDiagramType (newParser src) = type ->
            parseDiagram fuel (mkParser (tokenize src) 0 [] 0) = parseToEnd type fuel p1 ->
            exists p',
              parse fuel (newParser src) =
              Ret (mkResult true type [] (Some (PlainNode type (tok_line t) (tok_column t))))
                  p').
  { intros type Htype Hpd.
    destruct (parseToEnd_accepts type p1 Hfuel1) as (p2 & Hrun & Hmv2).
    rewrite Hrun in Hpd. exists p2.
    rewrite (@parse_of_parseDiagram fuel (newParser src) _ _ Hpd).
    pose proof (movedFrom_trans Hmv Hmv2) as (Ht & He & _). cbn in Ht, He.
    rewrite He, Hcur, (@getDiagramType_tokens p2 (newParser src)) by exact Ht.
    now rewrite Htype. }
  assert (Hpd : parseDiagram fuel (mkParser (tokenize src) 0 [] 0) =
                match tok_type t with
                | PIE => parsePieChart fuel | JOURNEY => parseJourney fuel
                | GITGRAPH => parseGitgraph fuel | MINDMAP => parseMindmap fuel
                | TIMELINE => parseTimeline fuel | GANTT => parseGantt fuel
                | ER_DIAGRAM => parseERDiagram fuel
                | _ => parseDiagram fuel
                end p1).
  { unfold parseDiagram at 1. rewrite Hk.
    destruct (tok_type t); try discriminate Hty; reflexivity. }
  assert (Htype : getDiagramType (newParser src) =
                  match tok_type t with
                  | PIE => "pie" | JOURNEY => "journey" | GITGRAPH => "gitgraph"
                  | MINDMAP => "mindmap" | TIMELINE => "timeline" | GANTT => "gantt"
                  | ER_DIAGRAM => "er" | _ => getDiagramType (newParser src)
                  end%string).
  { unfold getDiagramType at 1. cbn [newParser tokens].
    rewrite tokenize_length_nonzero, Hfirst.
    destruct (tok_type t); try discriminate Hty; reflexivity. }
  destruct (tok_type t); try discriminate Hty; rewrite Htype;
    (apply Hres; [exact Htype|exact Hpd]).
Qed.

(** Where the call stack is enough: a text whose first token that is no
    directive is the keyword of a
    grammar that reads to the end of the input (pie, journey, gitGraph,
    mindmap, timeline, gantt, erDiagram) is valid whatever follows the
    keyword: the result has no diagnostic, the diagram type of the keyword,
    and a node with the three base fields at the place of the keyword. *)
Lemma validateMermaid_reads_to_end validatedAgainst fuel src t :
  firstDiagramToken (tokenize src) = Some t ->
  includes readToEndTypes (tok_type t) = true ->
  length src + 1 < fuel ->
  validateMermaid validatedAgainst fuel (JSString src) None =
    Some (mkResult true (getDiagramType (newParser src)) []
            (Some (PlainNode (getDiagramType (newParser src)) (tok_line t) (tok_column t)))).
Proof.
  intros Hfirst Hty Hfuel. pose proof (tokenize_length src) as Hlen.
  destruct (@parse_reads_to_end fuel src t Hfirst Hty) as (p' & Hrun); [lia|].
  unfold validateMermaid, validateMermaidWith.
  rewrite (first_token_of_blank _ Hfirst), Hrun; [reflexivity|].
  intros E. rewrite E in Hty. discriminate Hty.
Qed.

(** *** A first token that selects no grammar *)

Lemma parse_unsupported fuel src t :
  firstDiagramToken (tokenize src) = Some t ->
  includes grammarTypes (tok_type t) = false ->
  length (tokenize src) < fuel ->
  exists p',
    parse fuel (newParser src) =
      Ret (mkResult false "unknown" [unsupportedDiagramType t]
             (Some (PlainNode "unknown" (tok_line t) (tok_column t)))) p'.
Proof.
  intros Hfirst Hty Hfuel.
  destruct (parseDiagram_directives src Hfuel)
    as (t' & p1 & Hfirst' & Hmv & Hlt & Hcur & Hk).
  rewrite Hfirst in Hfirst'. injection Hfirst' as <-.
  destruct Hmv as (Ht & He & _). cbn in Ht, He.
  eexists. erewrite parse_of_parseDiagram.
  2:{ cbn [newParser tokens]. unfold parseDiagram. rewrite Hk.
      destruct (tok_type t); try discriminate Hty; reflexivity. }
  cbn [p_errors]. rewrite He. cbn [app length Nat.eqb].
  unfold getDiagramType. cbn [tokens]. rewrite Ht, tokenize_length_nonzero, Hfirst.
  destruct (tok_type t); try discriminate Hty; reflexivity.
Qed.

(** Where the call stack is enough: for a text that is not blank and whose
    first token that is no
    directive selects no grammar, the result has exactly one diagnostic,
    PARSE_ERROR with the text of that token in its message and at the place
    of that token, the diagram type unknown, and a node of type unknown at
    the same place. *)
Lemma validateMermaid_unsupported validatedAgainst fuel src t :
  isBlank src = false ->
  firstDiagramToken (tokenize src) = Some t ->
  includes grammarTypes (tok_type t) = false ->
  length src + 1 < fuel ->
  validateMermaid validatedAgainst fuel (JSString src) None =
    Some (mkResult false "unknown" [unsupportedDiagramType t]
            (Some (PlainNode "unknown" (tok_line t) (tok_column t)))).
Proof.
  intros Hb Hfirst Hty Hfuel. pose proof (tokenize_length src) as Hlen.
  destruct (@parse_unsupported fuel src t Hfirst Hty) as (p' & Hrun); [lia|].
  unfold validateMermaid, validateMermaidWith. rewrite Hb, Hrun.
  destruct src; [discriminate Hb|reflexivity].
Qed.

(** *** The exported [getDiagramType] *)

Lemma parse_diagramType fuel src :
  loopsBounded (tokenize src) = true -> length (tokenize src) < fuel ->
  exists r p', parse fuel (newParser src) = Ret r p' /\
               diagramType r = getDiagramType (newParser src).
Proof.
  intros Hb Hfuel.
  destruct (@runs_parseDiagram fuel (mkParser (tokenize src) 0 [] 0))
    as (a & p2 & Hrun & Ht); try assumption; try reflexivity.
  - apply tokenize_endsWithEOF.
  - apply tokenize_nonempty.
  - eexists _, p2. rewrite (@parse_of_parseDiagram fuel (newParser src) _ _ Hrun).
    split; [reflexivity|]. cbn [diagramType]. now apply getDiagramType_tokens.
Qed.

(** Where the call stack is enough: on a text whose loops are bounded, the
    exported [getDiagramType]
    gives the diagram type of the first token that is no directive, whether
    the text is valid or not, and unknown for a blank text. *)
Lemma getDiagramTypeOf_first_token validatedAgainst fuel src :
  loopsBounded (tokenize src) = true -> length src + 1 < fuel ->
  getDiagramTypeOf validatedAgainst fuel (JSString src) =
    Some (getDiagramType (newParser src)).
Proof.
  intros Hb Hfuel. pose proof (tokenize_length src) as Hlen.
  unfold getDiagramTypeOf, validateMermaid, validateMermaidWith.
  destruct ((length src =? 0) || isBlank src) eqn:E.
  - assert (Hblank : isBlank src = true).
    { apply orb_true_iff in E as [E|E]; [|exact E].
      apply Nat.eqb_eq in E. now destruct src. }
    destruct (tokenize_blank _ Hblank) as (l & c & pos & Ht).
    unfold getDiagramType. cbn [newParser tokens]. now rewrite Ht.
  - destruct (@parse_diagramType fuel src Hb) as (r & p' & Hrun & Hty); [lia|].
    rewrite Hrun. cbn. now rewrite Hty.
Qed.

(** *** The AST and the diagram type *)

Lemma while_fuel_mono {St : Type} (cond : St -> Parser -> bool) (body : St -> M (ctl St)) :
  forall n m s p s' p', n <= m ->
    while n cond body s p = Ret s' p' -> while m cond body s p = Ret s' p'.
Proof.
  induction n as [|n IH]; intros m s p s' p' Hle H; [discriminate H|].
  destruct m as [|m]; [lia|]. cbn [while] in *.
  destruct (cond s p); [|exact H].
  destruct (body s p) as [[s1|s1] p1| |]; try discriminate H; [|exact H].
  apply IH; [lia|exact H].
Qed.

Lemma directives_stop fuel p p1 :
  endsWithEOF p -> position p < length (tokens p) ->
  while fuel (fun _ p => negb (isAtEnd p) && tyIs DIRECTIVE p)
        (fun _ : unit => advance ;; ret (Continue tt)) tt p = Ret tt p1 ->
  movedFrom p p1 /\
  find (fun t => negb (ty_eqb (tok_type t) DIRECTIVE)) (skipn (position p) (tokens p))
    = Some (currentToken p1).
Proof.
  intros Heof Hin Hrun.
  destruct (@directives_skipped (Nat.max fuel (S (length (tokens p)))) p Heof Hin)
    as (p' & Hrun' & Hmv & _ & Hfind & _); [lia|].
  apply (@while_fuel_mono _ _ _ fuel (Nat.max fuel (S (length (tokens p))))) in Hrun; [|lia].
  rewrite Hrun in Hrun'. injection Hrun' as <-. auto.
Qed.

Ltac node_of H :=
  apply bind_Ret in H as (? & ? & Hcur & H); unfold read in Hcur; injection Hcur as <- <-;
  repeat (apply bind_Ret in H as (? & ? & _ & H));
  repeat match type of H with
         | (match ?x with _ => _ end) _ = _ => destruct x
         end;
  repeat (apply bind_Ret in H as (? & ? & _ & H));
  unfold ret in H; injection H as <- _; repeat split.

Lemma parseFlowchart_node fuel p a p' :
  parseFlowchart fuel p = Ret a p' -> nodeAt "flowchart" (currentToken p) a.
Proof. intros H. unfold parseFlowchart in H. node_of H. Qed.

Lemma parseSequenceDiagram_node fuel p a p' :
  parseSequenceDiagram fuel p = Ret a p' -> nodeAt "sequence" (currentToken p) a.
Proof. intros H. unfold parseSequenceDiagram in H. node_of H. Qed.

Lemma parseClassDiagram_node fuel p a p' :
  parseClassDiagram fuel p = Ret a p' -> nodeAt "class" (currentToken p) a.
Proof. intros H. unfold parseClassDiagram in H. node_of H. Qed.

Lemma parseStateDiagram_node fuel p a p' :
  parseStateDiagram fuel p = Ret a p' -> nodeAt "state" (currentToken p) a.
Proof. intros H. unfold parseStateDiagram in H. node_of H. Qed.

Lemma parseXYChart_node fuel p a p' :
  parseXYChart fuel p = Ret a p' -> nodeAt "xychart" (currentToken p) a.
Proof. intros H. unfold parseXYChart in H. node_of H. Qed.

Lemma parseBlockDiagram_node fuel p a p' :
  parseBlockDiagram fuel p = Ret a p' -> nodeAt "block" (currentToken p) a.
Proof. intros H. unfold parseBlockDiagram in H. node_of H. Qed.

Lemma parseToEnd_node type fuel p a p' :
  parseToEnd type fuel p = Ret a p' -> nodeAt type (currentToken p) a.
Proof. intros H. unfold parseToEnd in H. node_of H. Qed.

Lemma parseDiagram_tokens fuel p a p' :
  parseDiagram fuel p = Ret a p' -> tokens p' = tokens p.
Proof.
  intros H.
  pose proof (@triple_parseDiagram (fun q => tokens q = tokens p) (fun _ _ => True)
                (fun _ _ Hq => Hq) (fun _ _ Hq => Hq) (fun _ _ => I)
                (fun _ _ _ _ _ _ Hq _ => Hq) fuel p eq_refl) as Ht.
  rewrite H in Ht. apply Ht.
Qed.

Lemma parseDiagram_node fuel src a p' :
  parseDiagram fuel (mkParser (tokenize src) 0 [] 0) = Ret a p' ->
  exists t, firstDiagramToken (tokenize src) = Some t /\
            nodeAt (getDiagramType (newParser src)) t a.
Proof.
  intros H. unfold parseDiagram in H.
  apply bind_Ret in H as ([] & p1 & Hloop & H).
  apply directives_stop in Hloop as [_ Hfind].
  2:{ apply tokenize_endsWithEOF. }
  2:{ cbn. pose proof (tokenize_nonempty src). destruct (tokenize src); [contradiction|cbn; lia]. }
  cbn [position tokens skipn] in Hfind.
  apply bind_Ret in H as (t & ? & Hcur & H). unfold read in Hcur. injection Hcur as <- <-.
  exists (currentToken p1). split; [exact Hfind|].
  unfold getDiagramType. cbn [newParser tokens].
  rewrite tokenize_length_nonzero. unfold firstDiagramToken in *. rewrite Hfind.
  destruct (tok_type (currentToken p1));
    first [ now apply parseFlowchart_node in H | now apply parseSequenceDiagram_node in H
          | now apply parseClassDiagram_node in H | now apply parseStateDiagram_node in H
          | now apply parseXYChart_node in H | now apply parseBlockDiagram_node in H
          | now apply parseToEnd_node in H
          | apply bind_Ret in H as (? & ? & _ & H); unfold ret in H; injection H as <- _;
            repeat split ].
Qed.

(** X12: whenever the result carries an AST, its diagram type is the one
    [getDiagramType] reads off the first token that is no directive, the
    [type] field of the AST is that diagram type, and the AST stands at the
    line and column of that token. *)
Theorem ast_agrees_with_diagramType validatedAgainst fuel src target r a :
  validateMermaid validatedAgainst fuel (JSString src) target = Some r ->
  ast r = Some a ->
  diagramType r = getDiagramType (newParser src) /\
  exists t, firstDiagramToken (tokenize src) = Some t /\ nodeAt (diagramType r) t a.
Proof.
  intros H Ha. unfold validateMermaid, validateMermaidWith in H.
  destruct (_ || _); [injection H as <-; discriminate Ha|].
  destruct (parse fuel (newParser src)) as [r0 p1|e p1|] eqn:E; try discriminate H.
  2:{ injection H as <-. discriminate Ha. }
  assert (H0 : diagramType r0 = diagramType r /\ ast r0 = ast r).
  { destruct (_ && _); injection H as <-; split; reflexivity. }
  destruct H0 as [<- Hast]. rewrite <- Hast in Ha. clear H Hast.
  unfold parse in E. apply bind_Ret in E as (? & p0 & H0 & E). injection H0 as _ <-.
  unfold try_catch in E. cbn [newParser tokens] in E.
  destruct (bind (parseDiagram fuel) _ _) as [r1 p2|e p2|] eqn:Ed; try discriminate E.
  - injection E as <- <-.
    apply bind_Ret in Ed as (a0 & p3 & Hpd & Ed).
    unfold validateSingleDiagramType, bind, read, ret in Ed. injection Ed as <- <-.
    cbn [ast diagramType] in *. injection Ha as <-.
    pose proof (parseDiagram_tokens _ _ Hpd) as Ht. cbn [tokens] in Ht.
    rewrite (@getDiagramType_tokens p3 (newParser src)) by exact Ht.
    split; [reflexivity|]. eapply parseDiagram_node. exact Hpd.
  - unfold bind, read, addError, ret in E. injection E as <- <-. discriminate Ha.
Qed.

(** *** The places of the diagnostics *)

Lemma placed_oneBased src e : placed (tokenize src) e -> oneBased e.
Proof.
  destruct (tokenize_lexed src) as (ts & lx & Ht & Hinv & _).
  destruct Hinv as ((_ & Hl & Hc) & _ & _ & _ & Hpl & _).
  unfold oneBased. intros [(t & Hin & <- & <-)|(-> & -> & _)]; [|split; lia].
  rewrite Ht in Hin. apply in_app_or in Hin as [Hin|[<-|[]]].
  - rewrite Forall_forall in Hpl. exact (Hpl t Hin).
  - split; assumption.
Qed.

(** X13: every diagnostic of every result, for any input, has a line and a
    column of 1 at least. *)
Theorem diagnostics_are_one_based validatedAgainst fuel mermaidCode target r :
  validateMermaid validatedAgainst fuel mermaidCode target = Some r ->
  Forall oneBased (errors r).
Proof.
  intros H. unfold validateMermaid, validateMermaidWith in H.
  assert (Hone : forall msg cd sugg, oneBased (mkError 1 1 msg cd sugg))
    by (intros; split; cbn; lia).
  destruct mermaidCode as [| | | | |src];
    try (injection H as <-; constructor; [apply Hone|constructor]).
  destruct (_ || _); [injection H as <-; constructor; [apply Hone|constructor]|].
  destruct (parse fuel (newParser src)) as [r0 p1|e p1|] eqn:E; try discriminate H.
  - apply parse_placed in E.
    assert (H0 : Forall oneBased (errors r0)).
    { eapply Forall_impl; [|exact E]. apply placed_oneBased. }
    destruct (_ && _); injection H as <-; [|exact H0].
    cbn [errors]. apply Forall_snoc; [exact H0|apply Hone].
  - injection H as <-. constructor; [apply Hone|constructor].
Qed.

(** *** The connection check *)

(** X14: [validateFlowchartConnections] always returns and changes nothing
    but the diagnostics, to which it appends MISSING_ARROW diagnostics only,
    each at the second of two consecutive nodes on one line; for a list
    without such a pair it appends nothing. *)
Theorem connection_check_flags_adjacent_nodes_only nodes p :
  exists added,
    validateFlowchartConnections nodes p =
      Ret tt (mkParser (tokens p) (position p) (p_errors p ++ added) (linkCount p)) /\
    (forall e, In e added -> exists a b, adjacentNodes nodes a b /\ missingArrowAt b e) /\
    ((forall a b, ~ adjacentNodes nodes a b) -> added = []).
Proof.
  destruct (validateFlowchartConnections_reports nodes p) as (added & Hrun & _ & Honly).
  exists added. split; [exact Hrun|]. split; [exact Honly|].
  intros Hnone. destruct added as [|e rest]; [reflexivity|].
  destruct (Honly e (or_introl eq_refl)) as (a & b & Hab & _).
  now destruct (Hnone a b).
Qed.

(** *** Inline comments *)

Lemma ascending_nth l : ascending l -> forall i, S i < length l -> nth i l 0 <= nth (S i) l 0.
Proof.
  induction l as [|a l IH]; intros Hasc i Hi; [cbn in Hi; lia|].
  destruct l as [|b l]; [cbn in Hi; lia|]. destruct Hasc as [Hab Hasc].
  destruct i as [|i]; [exact Hab|]. apply (IH Hasc i). cbn in *. lia.
Qed.

Lemma rev_firstn_S (A : Type) (l : list A) i d :
  i < length l -> rev (firstn (S i) l) = nth i l d :: rev (firstn i l).
Proof.
  intros Hi. replace (S i) with (i + 1) by lia.
  rewrite firstn_plus, (@skipn_nth _ _ _ d Hi), rev_app_distr. reflexivity.
Qed.

(** X15: on the tokens of any input, [isInlineComment] holds for the token
    under the cursor exactly when the token before it stands on the same
    line; for the first token it is false. *)
Theorem comment_is_inline_after_a_token_of_its_line input p :
  tokens p = tokenize input -> position p < length (tokens p) ->
  isInlineComment (currentToken p) p =
    match position p with
    | 0 => false
    | S i => tok_line (tokenAt p i) =? tok_line (currentToken p)
    end.
Proof.
  intros Ht Hin. unfold isInlineComment. rewrite (currentToken_inside _ Hin).
  unfold tokenAt. destruct (position p) as [|i]; [reflexivity|].
  rewrite (@rev_firstn_S _ _ i eofToken) by lia. cbn [commentFollowsToken].
  destruct (tokenize_lexed input) as (ts & lx & Hts & Hinv & _).
  destruct Hinv as (_ & _ & _ & Hty & _ & Hln & Hasc).
  assert (Hup : ascending (map tok_line (tokens p))).
  { rewrite Ht, Hts, map_app. apply ascending_snoc; [exact Hasc|]. now rewrite Forall_map. }
  pose proof (@ascending_nth _ Hup i) as Hle. rewrite length_map in Hle.
  specialize (Hle Hin).
  rewrite <- (map_nth tok_line (tokens p) eofToken i) .
  rewrite <- (map_nth tok_line (tokens p) eofToken (S i)).
  change (tok_line eofToken) with 0.
  destruct (nth i (map tok_line (tokens p)) 0 <? nth (S i) (map tok_line (tokens p)) 0) eqn:El.
  - apply Nat.ltb_lt in El. symmetry. apply Nat.eqb_neq. lia.
  - apply Nat.ltb_ge in El.
    replace (nth i (map tok_line (tokens p)) 0 =? nth (S i) (map tok_line (tokens p)) 0)
      with true by (symmetry; apply Nat.eqb_eq; lia).
    assert (Hi : i < length ts).
    { rewrite Ht, Hts, length_app in Hin. cbn in Hin. lia. }
    rewrite Forall_forall in Hty.
    specialize (Hty (nth i ts eofToken) (nth_In _ _ Hi)).
    rewrite Ht, Hts, app_nth1 by exact Hi.
    destruct (tok_type (nth i ts eofToken)); try discriminate Hty; reflexivity.
Qed.

(** *** The end of a subgraph *)

Lemma while_exit {St : Type} (cond : St -> Parser -> bool) (body : St -> M (ctl St)) :
  (forall s p r p', body s p = Ret r p' -> exists s', r = Continue s') ->
  forall fuel s p s' p', while fuel cond body s p = Ret s' p' -> cond s' p' = false.
Proof.
  intros Hbody. induction fuel as [|fuel IH]; intros s p s' p' H; [discriminate H|].
  cbn [while] in H. destruct (cond s p) eqn:Ec.
  - destruct (body s p) as [r p1| |] eqn:Eb; try discriminate H.
    destruct (Hbody _ _ _ _ Eb) as (s1 & ->). eapply IH. exact H.
  - injection H as <- <-. exact Ec.
Qed.

(** X16: when [parseSubgraph] returns, the cursor is just behind an [end]
    identifier, or it is at the end of the input and a MISSING_SUBGRAPH_END
    diagnostic was added at the place of the token under the cursor. *)
Theorem subgraph_is_closed_or_reported fuel self p e p' :
  parseSubgraph fuel self p = Ret e p' -> endsWithEOF p' ->
  (0 < position p' /\ isEnd (tokenAt p' (position p' - 1)) = true) \/
  (isAtEnd p' = true /\
   exists d, In d (p_errors p') /\ missingSubgraphEnd (currentToken p') d).
Proof.
  intros H Heof. unfold parseSubgraph in H.
  do 6 (apply bind_Ret in H as (? & ? & _ & H)).
  apply bind_Ret in H as (children & q & Hloop & H).
  apply while_exit in Hloop.
  2:{ intros s q0 r q1 Hb. apply bind_Ret in Hb as ([c|] & ? & _ & Hb);
        unfold ret in Hb; injection Hb as <- _; eauto. }
  apply bind_Ret in H as (t & ? & Hcur & H). unfold read in Hcur. injection Hcur as <- <-.
  apply bind_Ret in H as ([] & q1 & Hend & H).
  apply bind_Ret in H as ([] & q2 & Hconn & H). unfold ret in H. injection H as _ <-.
  destruct (validateFlowchartConnections_reports children q1) as (added & Hrun & _).
  rewrite Hrun in Hconn. injection Hconn as <-.
  unfold endsWithEOF in Heof. cbn [tokens] in Heof.
  destruct (isEnd (currentToken q)) eqn:Ee.
  - left. assert (Hq : tokens q1 = tokens q /\ position q1 = position q + 1 /\
                       position q < length (tokens q)).
    { assert (Hin : isAtEnd q = false).
      { apply inside_of_type.
        - unfold advance in Hend. injection Hend as <-.
          unfold endsWithEOF. now destruct (position q <? length (tokens q)).
        - unfold isEnd in Ee. apply andb_true_iff in Ee as [Ee _].
          apply ty_eqb_eq in Ee. now rewrite Ee. }
      apply not_isAtEnd in Hin. rewrite (advance_inside _ Hin) in Hend.
      injection Hend as <-. cbn. auto. }
    destruct Hq as (Ht & Hp & Hlt). cbn [position]. split; [lia|].
    unfold tokenAt. cbn [tokens]. rewrite Ht, Hp.
    replace (position q + 1 - 1) with (position q) by lia.
    now rewrite (currentToken_inside _ Hlt) in Ee.
  - right. unfold addError in Hend. injection Hend as <-. cbn [tokens position p_errors linkCount].
    cbv beta in Hloop. cbn [negb] in Hloop. rewrite andb_true_r in Hloop.
    apply negb_false_iff in Hloop.
    split.
    + unfold isAtEnd, currentToken in *. exact Hloop.
    + eexists. split.
      * apply in_or_app. left. apply in_or_app. right. now left.
      * repeat split.
Qed.

(** *** On concrete inputs *)

Lemma validateMermaid_returns_on_bounded_loops_witness :
  exists r, validateMermaid version_11_12_0 40 (JSString subgraph_closed) None = Some r.
Proof.
  apply validateMermaid_returns_on_bounded_loops.
  - vm_compute. reflexivity.
  - vm_compute. lia.
Defined.

Lemma ast_agrees_with_diagramType_witness :
  exists r a,
    validateMermaid version_11_12_0 30 (JSString flowchart_A_to_B) None = Some r /\
    ast r = Some a /\
    diagramType r = getDiagramType (newParser flowchart_A_to_B) /\
    exists t, firstDiagramToken (tokenize flowchart_A_to_B) = Some t /\
              nodeAt (diagramType r) t a.
Proof.
  destruct (validateMermaid version_11_12_0 30 (JSString flowchart_A_to_B) None)
    as [r|] eqn:E; [|vm_compute in E; discriminate E].
  destruct (ast r) as [a|] eqn:Ea.
  - exists r, a. split; [reflexivity|]. split; [exact Ea|].
    exact (ast_agrees_with_diagramType version_11_12_0 30 flowchart_A_to_B None E Ea).
  - vm_compute in E. injection E as <-. discriminate Ea.
Defined.

Lemma diagnostics_are_one_based_witness :
  exists r,
    validateMermaid version_11_12_0 30 (JSString flowchart_A_B) None = Some r /\
    Forall oneBased (errors r).
Proof.
  destruct (validateMermaid version_11_12_0 30 (JSString flowchart_A_B) None)
    as [r|] eqn:E; [|vm_compute in E; discriminate E].
  exists r. split; [reflexivity|].
  exact (diagnostics_are_one_based version_11_12_0 30 (JSString flowchart_A_B) None E).
Defined.

Lemma comment_is_inline_after_a_token_of_its_line_witness :
  isInlineComment (currentToken atComment) atComment =
    (tok_line (tokenAt atComment 2) =? tok_line (currentToken atComment)).
Proof.
  refine (@comment_is_inline_after_a_token_of_its_line flowchart_comment atComment _ _).
  - reflexivity.
  - vm_compute. lia.
Defined.

Lemma subgraph_is_closed_or_reported_witness :
  exists e p',
    parseSubgraph 20 (parseFlowchartElement 20) atClosedSubgraph = Ret e p' /\
    ((0 < position p' /\ isEnd (tokenAt p' (position p' - 1)) = true) \/
     (isAtEnd p' = true /\
      exists d, In d (p_errors p') /\ missingSubgraphEnd (currentToken p') d)).
Proof.
  destruct (parseSubgraph 20 (parseFlowchartElement 20) atClosedSubgraph)
    as [e p'|e p'|] eqn:E; [|vm_compute in E; discriminate E ..].
  exists e, p'. split; [reflexivity|].
  refine (@subgraph_is_closed_or_reported 20 (parseFlowchartElement 20) atClosedSubgraph
            e p' E _).
  vm_compute in E. injection E as _ <-. vm_compute. reflexivity.
Defined.

(* ===================================================================== *)
(** ** The methods no method calls *)
(* ===================================================================== *)

(** X17: [parseMessage], which no method calls, returns from every state,
    keeps the tokens, does not move the cursor back, and gives a message
    whose arrow type is solid or dotted, never thick. *)
Theorem parseMessage_returns_solid_or_dotted fuel p :
  endsWithEOF p -> length (tokens p) - position p < fuel ->
  exists m p', parseMessage fuel p = Ret m p' /\ msgOk m /\
               tokens p' = tokens p /\ position p <= position p'.
Proof.
  intros Heof Hfuel.
  assert (H : wp (parseMessage fuel) p (fun m p' => onward 0 p p' /\ msgOk m)).
  { unfold parseMessage. wp_run; try solve [chain];
      (split; [chain|]); unfold msgOk; cbn [arrowType]; auto using messageArrowType_ok. }
  destruct H as (m & p' & Hrun & (Ht & Hp & _) & Hm). eauto 8.
Qed.

Lemma firstn_skipn_snoc (A : Type) (l : list A) i k d :
  i + k < length l ->
  firstn (S k) (skipn i l) = firstn k (skipn i l) ++ [nth (i + k) l d].
Proof.
  intros H. replace (S k) with (k + 1) by lia.
  rewrite firstn_plus, skipn_skipn.
  replace (k + i) with (i + k) by lia.
  now rewrite (@skipn_nth _ _ _ d H).
Qed.

(** X18: [collectIdentifiersOnSameLine], which no method calls, returns the
    texts of the tokens it passed, joined by a space; it changes the cursor
    only, passes IDENTIFIER tokens on the line of the token it started on
    only, and stops where the token under the cursor is no such token or
    the input ends. *)
Theorem collectIdentifiersOnSameLine_reads_one_line fuel p :
  length (tokens p) - position p < fuel ->
  exists p',
    collectIdentifiersOnSameLine fuel p =
      Ret (join (u " ") (map tok_value (tokensBetween p (position p) (position p')))) p' /\
    movedFrom p p' /\
    Forall (fun t => tok_type t = IDENTIFIER /\ tok_line t = tok_line (currentToken p))
           (tokensBetween p (position p) (position p')) /\
    (tyIs IDENTIFIER p' && (tok_line (currentToken p') =? tok_line (currentToken p))
     && negb (isAtEnd p')) = false.
Proof.
  intros Hfuel. unfold collectIdentifiersOnSameLine. unfold bind at 1. unfold read at 1.
  cbv beta zeta. set (startLine := tok_line (currentToken p)).
  set (cond := fun (_ : list jsstr) q =>
                 tyIs IDENTIFIER q && (tok_line (currentToken q) =? startLine)
                 && negb (isAtEnd q)).
  set (I := fun (parts : list jsstr) q =>
              movedFrom p q /\
              parts = map tok_value (tokensBetween p (position p) (position q)) /\
              Forall (fun t => tok_type t = IDENTIFIER /\ tok_line t = startLine)
                     (tokensBetween p (position p) (position q))).
  destruct (while_returns cond
              (fun parts => t <- read currentToken ;; advance ;;
                            ret (Continue (parts ++ [tok_value t])))
              I (fun parts q => I parts q /\ cond parts q = false)
              (fun _ q => length (tokens q) - position q))
    with (fuel := fuel) (s := @nil jsstr) (p := p)
    as (parts & p' & Hrun & (Hmv & Hparts & Hall) & Hstop).
  - intros parts q HI Hc. auto.
  - intros parts q (Hmv & Hparts & Hall) Hc. unfold cond in Hc.
    apply andb_true_iff in Hc as [Hc Hin]. apply andb_true_iff in Hc as [Hty Hline].
    apply negb_true_iff, not_isAtEnd in Hin.
    unfold tyIs in Hty. apply ty_eqb_eq in Hty. apply Nat.eqb_eq in Hline.
    unfold bind at 1, read. unfold bind at 1. rewrite (advance_inside _ Hin).
    eexists _, _. split; [reflexivity|].
    destruct Hmv as (Ht & He & Hl & Hp). cbv beta iota.
    assert (Hnext : tokensBetween p (position p) (position q + 1) =
                    tokensBetween p (position p) (position q) ++ [currentToken q]).
    { unfold tokensBetween.
      replace (position q + 1 - position p) with (S (position q - position p)) by lia.
      rewrite (@firstn_skipn_snoc _ _ _ _ eofToken) by (rewrite <- Ht; lia).
      rewrite (currentToken_inside _ Hin). unfold tokenAt. rewrite Ht.
      now replace (position p + (position q - position p)) with (position q) by lia. }
    split; [|cbn; lia]. unfold I. cbn [tokens position p_errors linkCount].
    rewrite Hnext, !map_app. cbn [map].
    repeat split; try assumption; try (cbn; lia); [now rewrite Hparts|].
    apply Forall_snoc; [exact Hall|]. split; assumption.
  - unfold I. split; [apply movedFrom_refl|].
    unfold tokensBetween. rewrite Nat.sub_diag. split; [reflexivity|constructor].
  - exact Hfuel.
  - exists p'. unfold bind at 1. rewrite Hrun. unfold ret. rewrite Hparts.
    repeat split; try apply Hmv; assumption.
Qed.

(** *** On concrete inputs *)

Lemma parseMessage_returns_solid_or_dotted_witness :
  exists m p', parseMessage 20 atMessage = Ret m p' /\ msgOk m /\
               tokens p' = tokens atMessage /\ position atMessage <= position p'.
Proof.
  apply parseMessage_returns_solid_or_dotted.
  - vm_compute. reflexivity.
  - vm_compute. lia.
Defined.

Lemma collectIdentifiersOnSameLine_reads_one_line_witness :
  exists p',
    collectIdentifiersOnSameLine 10 atNodeA =
      Ret (join (u " ")
             (map tok_value (tokensBetween atNodeA (position atNodeA) (position p')))) p' /\
    movedFrom atNodeA p' /\
    Forall (fun t => tok_type t = IDENTIFIER /\ tok_line t = tok_line (currentToken atNodeA))
           (tokensBetween atNodeA (position atNodeA) (position p')) /\
    (tyIs IDENTIFIER p' && (tok_line (currentToken p') =? tok_line (currentToken atNodeA))
     && negb (isAtEnd p')) = false.
Proof.
  apply collectIdentifiersOnSameLine_reads_one_line. vm_compute. lia.
Defined.

(* ===================================================================== *)
(** ** Texts a grammar accepts whatever they hold *)
(* ===================================================================== *)

Lemma wp_advance_quiet p (Q : unit -> Parser -> Prop) :
  (forall p', quiet 1 p p' -> Q tt p') -> wp advance p Q.
Proof.
  intros H. unfold wp. eexists tt, _. split; [reflexivity|]. apply H.
  destruct (position p <? length (tokens p)) eqn:E.
  - unfold quiet, onward. simpl. repeat split; lia.
  - apply Nat.ltb_ge in E. unfold quiet, onward. repeat split; try lia.
    intros Hend. apply not_isAtEnd in Hend. lia.
Qed.

Lemma quiet_skipUntilSemicolon fuel p :
  endsWithEOF p -> length (tokens p) - position p < fuel ->
  wp (skipUntilSemicolon fuel) p (fun _ p' => quiet 0 p p').
Proof.
  intros Heof Hfuel.
  destruct (skipUntilSemicolon_returns Heof Hfuel) as (p' & Hrun & (Ht & He & Hl & Hp) & _).
  exists tt, p'. split; [exact Hrun|]. unfold quiet, onward. repeat split; auto. lia.
Qed.

Ltac unquiet :=
  repeat match goal with
         | H : quiet _ _ _ |- _ => destruct H as (? & ? & ?)
         end.

Ltac quiet_end := unquiet; split; [chain|split; congruence].

Ltac quiet_step :=
  lazymatch goal with
  | |- wp (bind _ _) _ _ => apply wp_bind
  | |- wp (ret _) _ _ => apply wp_ret; cbv beta iota
  | |- wp (read _) _ _ => apply wp_read; cbv beta
  | |- wp advance _ _ => apply wp_advance_quiet; intros ? ?; cbv beta
  | |- wp (when ?b _) _ _ => unfold when at 1; destruct b eqn:?
  | |- wp (skipUntilSemicolon _) _ _ =>
      eapply wp_conseq;
      [apply quiet_skipUntilSemicolon; [unquiet; chain | unquiet; chain]
      | cbv beta; intros ? ? ?]
  end.

Lemma hasEqualsSyntax_plain ts :
  Forall (fun t => valIn t reportedWords = false) ts -> hasEqualsSyntax ts = false.
Proof.
  induction 1 as [|t ts Ht _ IH]; [reflexivity|]. cbn [hasEqualsSyntax].
  destruct (_ || _); [reflexivity|].
  unfold valIn, reportedWords in Ht. cbn [existsb] in Ht.
  repeat (apply orb_false_iff in Ht as [? Ht]).
  match goal with H : valIs t "=" = false |- _ => rewrite H end. exact IH.
Qed.

Lemma plainTokens_Forall ts :
  plainTokens ts = true -> Forall (fun t => valIn t reportedWords = false) ts.
Proof.
  unfold plainTokens. rewrite forallb_forall, Forall_forall.
  intros H t Hin. apply negb_true_iff. auto.
Qed.

Lemma Forall_skipn (A : Type) (P : A -> Prop) n l : Forall P l -> Forall P (skipn n l).
Proof.
  intros H. rewrite Forall_forall in *. intros x Hin. apply H.
  rewrite <- (firstn_skipn n l). apply in_or_app. now right.
Qed.

Lemma quiet_parseClassDef fuel p :
  endsWithEOF p -> plainTokens (tokens p) = true ->
  length (tokens p) - position p < fuel ->
  wp (parseClassDef fuel) p (fun _ p' => quiet 1 p p').
Proof.
  intros Heof Hplain Hfuel. unfold parseClassDef.
  do 4 quiet_step. apply wp_bind, wp_read. cbv beta.
  assert (Ht : tokens p' = tokens p) by (unquiet; chain).
  rewrite Ht, hasEqualsSyntax_plain by (apply Forall_skipn, plainTokens_Forall, Hplain).
  repeat quiet_step; quiet_end.
Qed.

Lemma quiet_parseClassAssignment fuel p :
  endsWithEOF p -> length (tokens p) - position p < fuel ->
  wp (parseClassAssignment fuel) p (fun _ p' => quiet 1 p p').
Proof.
  intros Heof Hfuel. unfold parseClassAssignment. repeat quiet_step; quiet_end.
Qed.

Lemma currentToken_plain p :
  plainTokens (tokens p) = true -> valIn (currentToken p) reportedWords = false.
Proof.
  intros H. apply plainTokens_Forall in H.
  apply (@currentToken_Forall (fun t => valIn t reportedWords = false) p H). reflexivity.
Qed.

Lemma plain_not_linkStyling t :
  valIn t reportedWords = false -> valIn t linkStylingDirectives = false.
Proof.
  unfold valIn, reportedWords, linkStylingDirectives. cbn [existsb]. intros H.
  repeat (apply orb_false_iff in H as [? H]).
  repeat (apply orb_false_iff; split); assumption.
Qed.

Ltac quiet_method :=
  lazymatch goal with
  | |- wp (parseClassDef _) _ _ =>
      eapply wp_conseq;
      [apply quiet_parseClassDef;
       [unquiet; chain | unquiet; unpack; toks; assumption | unquiet; chain]
      | cbv beta; intros ? ? ?]
  | |- wp (parseClassAssignment _) _ _ =>
      eapply wp_conseq;
      [apply quiet_parseClassAssignment; [unquiet; chain | unquiet; chain]
      | cbv beta; intros ? ? ?]
  | |- wp (if ?b then _ else _) _ _ => destruct b eqn:?
  | |- _ => quiet_step
  end.

Lemma quiet_stateStatement fuel p :
  endsWithEOF p -> plainTokens (tokens p) = true ->
  length (tokens p) - position p < fuel ->
  wp (stateStatement fuel tt) p
     (fun r p' => r = Continue tt /\ quiet 1 p p').
Proof.
  intros Heof Hplain Hfuel. unfold stateStatement.
  pose proof (plain_not_linkStyling _ (currentToken_plain _ Hplain)) as Hno.
  apply wp_bind, wp_read. cbv beta. rewrite Hno.
  repeat quiet_method; (split; [reflexivity|quiet_end]).
Qed.

Lemma quiet_classStatement fuel p :
  endsWithEOF p -> plainTokens (tokens p) = true -> noDoubleParens (tokens p) = true ->
  length (tokens p) - position p < fuel ->
  wp (classStatement fuel tt) p
     (fun r p' => r = Continue tt /\ quiet 1 p p').
Proof.
  intros Heof Hplain Hparens Hfuel. unfold classStatement.
  pose proof (plain_not_linkStyling _ (currentToken_plain _ Hplain)) as Hno.
  assert (Hdp : ty_eqb (tok_type (currentToken p)) DOUBLE_PAREN_OPEN
                || ty_eqb (tok_type (currentToken p)) DOUBLE_PAREN_CLOSE = false).
  { unfold noDoubleParens in Hparens. rewrite forallb_forall in Hparens.
    apply negb_true_iff.
    apply (@currentToken_Forall
             (fun t => negb (ty_eqb (tok_type t) DOUBLE_PAREN_OPEN
                             || ty_eqb (tok_type t) DOUBLE_PAREN_CLOSE) = true) p);
      [now apply Forall_forall|reflexivity]. }
  apply wp_bind, wp_read. cbv beta. rewrite Hno, Hdp.
  repeat quiet_method; (split; [reflexivity|quiet_end]).
Qed.

(** A loop over statements that add no diagnostic adds none. *)
Lemma quiet_loop fuel (body : unit -> M (ctl unit)) p :
  endsWithEOF p ->
  (forall q, tokens q = tokens p -> length (tokens q) - position q < fuel ->
             wp (body tt) q (fun r q' => r = Continue tt /\ quiet 1 q q')) ->
  length (tokens p) - position p < fuel ->
  wp (while fuel notAtEnd body tt) p (fun _ p' => quiet 0 p p').
Proof.
  intros Heof Hbody Hfuel.
  destruct (while_returns (@notAtEnd unit) body
              (fun _ q => quiet 0 p q) (fun _ q => quiet 0 p q)
              (fun _ q => length (tokens q) - position q))
    with (fuel := fuel) (s := tt) (p := p) as ([] & p' & Hrun & Hq).
  - auto.
  - intros [] q Hq Hc. unfold notAtEnd in Hc. apply andb_true_iff in Hc as [Hc _].
    apply negb_true_iff in Hc. pose proof (not_isAtEnd _ Hc) as Hin.
    destruct (Hbody q) as (r & q' & Hrun & -> & Hq'); [unquiet; chain|unquiet; chain|].
    exists (Continue tt), q'. split; [exact Hrun|].
    split; [quiet_end|]. unquiet. chain.
  - unfold quiet. split; [apply onward_refl|auto].
  - exact Hfuel.
  - exists tt, p'. auto.
Qed.

Lemma quiet_parseStateDiagram fuel p :
  endsWithEOF p -> plainTokens (tokens p) = true ->
  length (tokens p) - position p < fuel ->
  wp (parseStateDiagram fuel) p
     (fun a p' => a = PlainNode "state" (tok_line (currentToken p)) (tok_column (currentToken p))
                  /\ quiet 0 p p').
Proof.
  intros Heof Hplain Hfuel. unfold parseStateDiagram. do 5 quiet_step.
  eapply wp_conseq.
  - apply quiet_loop; [unquiet; chain| |unquiet; chain].
    intros q Hq Hf. apply quiet_stateStatement; [unquiet; chain| |exact Hf].
    rewrite Hq. unquiet. unpack. toks. assumption.
  - cbv beta. intros ? ? ?. quiet_step. split; [reflexivity|quiet_end].
Qed.

Lemma quiet_parseClassDiagram fuel p :
  endsWithEOF p -> plainTokens (tokens p) = true -> noDoubleParens (tokens p) = true ->
  length (tokens p) - position p < fuel ->
  wp (parseClassDiagram fuel) p
     (fun a p' => a = PlainNode "class" (tok_line (currentToken p)) (tok_column (currentToken p))
                  /\ quiet 0 p p').
Proof.
  intros Heof Hplain Hparens Hfuel. unfold parseClassDiagram. do 5 quiet_step.
  eapply wp_conseq.
  - apply quiet_loop; [unquiet; chain| |unquiet; chain].
    intros q Hq Hf. apply quiet_classStatement; [unquiet; chain| | |exact Hf];
      rewrite Hq; unquiet; unpack; toks; assumption.
  - cbv beta. intros ? ? ?. quiet_step. split; [reflexivity|quiet_end].
Qed.

Lemma parse_plain fuel src t :
  firstDiagramToken (tokenize src) = Some t ->
  plainGrammar (tokenize src) t = true ->
  plainTokens (tokenize src) = true ->
  length (tokenize src) < fuel ->
  exists p',
    parse fuel (newParser src) =
      Ret (mkResult true (getDiagramType (newParser src)) []
             (Some (PlainNode (getDiagramType (newParser src))
                              (tok_line t) (tok_column t)))) p'.
Proof.
  intros Hfirst Hg Hplain Hfuel.
  destruct (parseDiagram_directives src Hfuel)
    as (t' & p1 & Hfirst' & Hmv & Hlt & Hcur & Hk).
  rewrite Hfirst in Hfirst'. injection Hfirst' as <-.
  pose proof (movedFrom_endsWithEOF Hmv (tokenize_endsWithEOF src 0 [] 0)) as Heof1.
  destruct Hmv as (Ht & He & _ & _). cbn [tokens p_errors] in Ht, He.
  assert (Hfuel1 : length (tokens p1) - position p1 < fuel) by (rewrite Ht; lia).
  assert (Hres : forall type (g : M ASTNode),
            getDiagramType (newParser src) = type ->
            parseDiagram fuel (mkParser (tokenize src) 0 [] 0) = g p1 ->
            wp g p1 (fun a p' => a = PlainNode type (tok_line (currentToken p1))
                                                  (tok_column (currentToken p1))
                                 /\ quiet 0 p1 p') ->
            exists p',
              parse fuel (newParser src) =
              Ret (mkResult true type [] (Some (PlainNode type (tok_line t) (tok_column t))))
                  p').
  { intros type g Htype Hpd (a & p2 & Hrun & -> & (Ht2 & _) & He2 & _).
    rewrite Hrun in Hpd. exists p2.
    rewrite (@parse_of_parseDiagram fuel (newParser src) _ _ Hpd).
    rewrite He2, He, Hcur.
    rewrite (@getDiagramType_tokens p2 (newParser src)) by (cbn [newParser tokens]; congruence).
    now rewrite Htype. }
  assert (Hpd : parseDiagram fuel (mkParser (tokenize src) 0 [] 0) =
                match tok_type t with
                | CLASS_DIAGRAM => parseClassDiagram fuel
                | STATE_DIAGRAM | STATE_DIAGRAM_V2 => parseStateDiagram fuel
                | _ => parseDiagram fuel
                end p1).
  { unfold parseDiagram at 1. rewrite Hk. unfold plainGrammar in Hg.
    destruct (tok_type t); try discriminate Hg; reflexivity. }
  assert (Htype : getDiagramType (newParser src) =
                  match tok_type t with
                  | CLASS_DIAGRAM => "class"
                  | STATE_DIAGRAM | STATE_DIAGRAM_V2 => "state"
                  | _ => getDiagramType (newParser src)
                  end%string).
  { unfold getDiagramType at 1. cbn [newParser tokens].
    rewrite tokenize_length_nonzero, Hfirst. unfold plainGrammar in Hg.
    destruct (tok_type t); try discriminate Hg; reflexivity. }
  rewrite <- Ht in Hplain. unfold plainGrammar in Hg. rewrite <- Ht in Hg.
  destruct (tok_type t); try discriminate Hg; rewrite Htype;
    (eapply Hres; [exact Htype|exact Hpd|]);
    first [ now apply quiet_parseStateDiagram | now apply quiet_parseClassDiagram ].
Qed.

(** Where the call stack is enough: a text that selects the state-diagram
    grammar, or the class-diagram
    grammar and has no double parenthesis, and in which no token is
    [linkStyle], [style], [click], [note] or an equals sign, is valid
    whatever else it holds: the result has no diagnostic, the diagram type
    of the keyword, and a node with the three base fields at the place of
    the keyword. *)
Lemma validateMermaid_plain_grammar validatedAgainst fuel src t :
  firstDiagramToken (tokenize src) = Some t ->
  plainGrammar (tokenize src) t = true ->
  plainTokens (tokenize src) = true ->
  length src + 1 < fuel ->
  validateMermaid validatedAgainst fuel (JSString src) None =
    Some (mkResult true (getDiagramType (newParser src)) []
            (Some (PlainNode (getDiagramType (newParser src)) (tok_line t) (tok_column t)))).
Proof.
  intros Hfirst Hg Hplain Hfuel. pose proof (tokenize_length src) as Hlen.
  destruct (@parse_plain fuel src t Hfirst Hg Hplain) as (p' & Hrun); [lia|].
  unfold validateMermaid, validateMermaidWith.
  rewrite (first_token_of_blank _ Hfirst), Hrun; [reflexivity|].
  intros E. unfold plainGrammar in Hg. rewrite E in Hg. discriminate Hg.
Qed.

Lemma quiet_blockStatement s p :
  wp (blockStatement s) p (fun r p' => (exists s', r = Continue s') /\ quiet 1 p p').
Proof.
  destruct s as [columns blocks]. unfold blockStatement.
  repeat quiet_method; (split; [eauto|quiet_end]).
Qed.

Lemma quiet_parseBlockDiagram fuel p :
  endsWithEOF p -> length (tokens p) - position p < fuel ->
  wp (parseBlockDiagram fuel) p
     (fun a p' => nodeAt "block" (currentToken p) a /\ quiet 0 p p').
Proof.
  intros Heof Hfuel. unfold parseBlockDiagram. do 5 quiet_step.
  match goal with Hq : quiet 1 p ?q |- _ => rename q into p1 end.
  destruct (while_returns (@notAtEnd (option nat * list BlockElement)) blockStatement
              (fun _ q => quiet 0 p1 q) (fun _ q => quiet 0 p1 q)
              (fun _ q => length (tokens q) - position q))
    with (fuel := fuel) (s := (@None nat, @nil BlockElement)) (p := p1)
    as ([columns blocks] & p2 & Hrun & Hq).
  - auto.
  - intros s q Hq Hc. unfold notAtEnd in Hc. apply andb_true_iff in Hc as [Hc _].
    apply negb_true_iff in Hc. pose proof (not_isAtEnd _ Hc) as Hin.
    destruct (quiet_blockStatement s q) as (r & q' & Hrun & (s' & ->) & Hq').
    exists (Continue s'), q'. split; [exact Hrun|].
    split; [quiet_end|]. unquiet. chain.
  - unfold quiet. split; [apply onward_refl|auto].
  - unquiet. chain.
  - exists (columns, blocks), p2. split; [exact Hrun|]. cbv beta iota.
    quiet_step. split; [repeat split|quiet_end].
Qed.

(** Where the call stack is enough: a text that selects the block grammar is
    valid whatever follows the
    keyword: the result has no diagnostic, the diagram type block, and a
    block node at the place of the keyword. *)
Lemma validateMermaid_block validatedAgainst fuel src t :
  firstDiagramToken (tokenize src) = Some t -> tok_type t = BLOCK_BETA ->
  length src + 1 < fuel ->
  exists a,
    validateMermaid validatedAgainst fuel (JSString src) None =
      Some (mkResult true "block" [] (Some a)) /\
    nodeAt "block" t a.
Proof.
  intros Hfirst Hty Hfuel. pose proof (tokenize_length src) as Hlen.
  destruct (@parseDiagram_directives fuel src)
    as (t' & p1 & Hfirst' & Hmv & Hlt & Hcur & Hk); [lia|].
  rewrite Hfirst in Hfirst'. injection Hfirst' as <-.
  pose proof (movedFrom_endsWithEOF Hmv (tokenize_endsWithEOF src 0 [] 0)) as Heof1.
  destruct Hmv as (Ht & He & _ & _). cbn [tokens p_errors] in Ht, He.
  destruct (@quiet_parseBlockDiagram fuel p1 Heof1)
    as (a & p2 & Hrun & Hnode & (Ht2 & _) & He2 & _); [rewrite Ht; lia|].
  assert (Hpd : parseDiagram fuel (mkParser (tokenize src) 0 [] 0) = Ret a p2).
  { unfold parseDiagram. rewrite Hk, Hty. exact Hrun. }
  exists a. rewrite Hcur in Hnode. split; [|exact Hnode].
  unfold validateMermaid, validateMermaidWith.
  rewrite (first_token_of_blank _ Hfirst) by (rewrite Hty; discriminate).
  rewrite (@parse_of_parseDiagram fuel (newParser src) _ _ Hpd), He2, He.
  rewrite (@getDiagramType_tokens p2 (newParser src)) by (cbn [newParser tokens]; congruence).
  unfold getDiagramType. cbn [newParser tokens].
  now rewrite tokenize_length_nonzero, Hfirst, Hty.
Qed.

(** *** Sequence diagrams *)

Lemma allFollowedOk_nth ts : forall i,
  allFollowedOk ts = true -> S i < length ts ->
  followedOk (nth i ts eofToken) (nth (S i) ts eofToken) = true.
Proof.
  induction ts as [|t ts IH]; intros i H Hi; [cbn in Hi; lia|].
  destruct ts as [|n ts]; [cbn in Hi; lia|].
  cbn [allFollowedOk] in H. apply andb_true_iff in H as [H1 H2].
  destruct i as [|i]; [exact H1|]. apply (IH i H2). cbn in *. lia.
Qed.

(** Inside, on a token that is not the last one. *)
Lemma next_inside p :
  endsWithEOF p -> isAtEnd p = false -> position p + 1 < length (tokens p).
Proof.
  intros Heof Hin. pose proof (not_isAtEnd _ Hin) as Hlt.
  destruct (Nat.eq_dec (position p + 1) (length (tokens p))) as [E|E]; [|lia].
  exfalso. unfold isAtEnd in Hin. apply orb_false_iff in Hin as [_ Hty].
  rewrite (currentToken_inside _ Hlt) in Hty. unfold tokenAt in Hty.
  unfold endsWithEOF in Heof. rewrite last_is_nth in Heof.
  replace (length (tokens p) - 1) with (position p) in Heof by lia.
  rewrite Heof in Hty. discriminate Hty.
Qed.

(** The token behind the cursor, after one [advance]. *)
Lemma quiet_next p p' :
  endsWithEOF p -> isAtEnd p = false -> quiet 1 p p' ->
  position p' <= position p + 1 ->
  currentToken p' = tokenAt p (position p + 1).
Proof.
  intros Heof Hin ((Ht & Hp & Hk) & _) Hle. specialize (Hk Hin).
  pose proof (next_inside Heof Hin) as Hlt.
  rewrite currentToken_inside by (rewrite Ht; lia). unfold tokenAt. rewrite Ht.
  f_equal. lia.
Qed.

Lemma wp_advance_next p (Q : unit -> Parser -> Prop) :
  endsWithEOF p -> isAtEnd p = false ->
  (forall p', quiet 1 p p' -> currentToken p' = tokenAt p (position p + 1) -> Q tt p') ->
  wp advance p Q.
Proof.
  intros Heof Hin H. pose proof (not_isAtEnd _ Hin) as Hlt.
  unfold wp. eexists tt, _. split; [apply advance_inside; exact Hlt|].
  apply H.
  - unfold quiet, onward. simpl. repeat split; lia.
  - apply quiet_next; try assumption.
    + unfold quiet, onward. simpl. repeat split; lia.
    + simpl. lia.
Qed.

(** A loop whose rounds add no diagnostic adds none. *)
Lemma quiet_while {St : Type} fuel (cond : St -> Parser -> bool)
      (body : St -> M (ctl St)) s p :
  (forall s q, cond s q = true -> isAtEnd q = false) ->
  (forall s q, tokens q = tokens p -> cond s q = true ->
               length (tokens q) - position q < fuel ->
               wp (body s) q (fun r q' => (exists s', r = Continue s') /\ quiet 1 q q')) ->
  length (tokens p) - position p < fuel ->
  wp (while fuel cond body s) p (fun _ p' => quiet 0 p p').
Proof.
  intros Hcond Hbody Hfuel.
  destruct (while_returns cond body
              (fun _ q => quiet 0 p q) (fun _ q => quiet 0 p q)
              (fun _ q => length (tokens q) - position q))
    with (fuel := fuel) (s := s) (p := p) as (s' & p' & Hrun & Hq).
  - auto.
  - intros s0 q Hq Hc. pose proof (Hcond _ _ Hc) as Hin.
    pose proof (not_isAtEnd _ Hin) as Hlt.
    destruct (Hbody s0 q) as (r & q' & Hrun & (s' & ->) & Hq');
      [unquiet; chain|exact Hc|unquiet; chain|].
    exists (Continue s'), q'. split; [exact Hrun|].
    split; [quiet_end|]. unquiet. chain.
  - unfold quiet. split; [apply onward_refl|auto].
  - exact Hfuel.
  - exists s', p'. auto.
Qed.

Ltac quiet_rounds :=
  eapply wp_conseq;
  [apply quiet_while;
   [intros ? ? ?; cbv beta in *; cond_inside
   | intros ? ? ? ? ?; repeat quiet_method; (split; [eauto|quiet_end])
   | unquiet; chain]
  | cbv beta; intros ? ? ?].

Lemma followed p :
  endsWithEOF p -> isAtEnd p = false -> allFollowedOk (tokens p) = true ->
  followedOk (currentToken p) (tokenAt p (position p + 1)) = true.
Proof.
  intros Heof Hin Hall. pose proof (next_inside Heof Hin) as Hlt.
  rewrite currentToken_inside by lia. unfold tokenAt.
  rewrite Nat.add_1_r in *. now apply allFollowedOk_nth.
Qed.

Lemma quiet_parseParticipant p :
  endsWithEOF p -> allFollowedOk (tokens p) = true ->
  tok_type (currentToken p) = PARTICIPANT ->
  wp parseParticipant p (fun _ p' => quiet 1 p p').
Proof.
  intros Heof Hall Hty.
  assert (Hin : isAtEnd p = false) by (apply inside_of_type; [exact Heof|now rewrite Hty]).
  pose proof (followed Heof Hin Hall) as Hf. unfold followedOk in Hf.
  rewrite Hty in Hf. cbn [ty_eqb TokenType_beq negb orb andb] in Hf.
  apply andb_true_iff in Hf as [Hname _].
  unfold parseParticipant. do 3 quiet_step. apply wp_advance_next; try assumption.
  intros p1 Hq1 Hcur1. cbv beta. do 4 quiet_step. rewrite Hcur1.
  assert (Hne : ty_eqb (tok_type (tokenAt p (position p + 1))) EOF = false).
  { apply orb_true_iff in Hname as [H|H]; apply ty_eqb_eq in H; now rewrite H. }
  assert (Hin1 : isAtEnd p1 = false).
  { apply inside_of_type; [unquiet; chain|now rewrite Hcur1]. }
  rewrite Hne, Hin1. cbn [orb].
  replace (negb (ty_eqb (tok_type (tokenAt p (position p + 1))) IDENTIFIER)
           && negb (ty_eqb (tok_type (tokenAt p (position p + 1))) STRING)) with false
    by (symmetry; rewrite <- negb_orb; now apply negb_false_iff).
  repeat quiet_method; quiet_end.
Qed.

Lemma quiet_parseMessageLine fuel p nt :
  endsWithEOF p -> allFollowedOk (tokens p) = true -> isAtEnd p = false ->
  peekToken p = Some nt ->
  ty_eqb (tok_type nt) SEQUENCE_ARROW || ty_eqb (tok_type nt) ARROW = true ->
  length (tokens p) - position p < fuel ->
  wp (parseMessageLine fuel) p (fun _ p' => quiet 1 p p').
Proof.
  intros Heof Hall Hin Hpeek Harrow Hfuel.
  assert (Hnt : tokenAt p (position p + 1) = nt).
  { unfold peekToken in Hpeek. destruct (length (tokens p) <=? position p + 1) eqn:E;
      [discriminate Hpeek|]. apply Nat.leb_gt in E. unfold tokenAt.
    now apply nth_error_nth. }
  unfold parseMessageLine. do 3 quiet_step. apply wp_advance_next; try assumption.
  intros p1 Hq1 Hcur1. cbv beta. do 3 quiet_step. rewrite Hcur1, Hnt, Harrow.
  assert (Heof1 : endsWithEOF p1) by (unquiet; chain).
  assert (Hall1 : allFollowedOk (tokens p1) = true) by (unquiet; unpack; toks; assumption).
  assert (Hin1 : isAtEnd p1 = false).
  { apply inside_of_type; [exact Heof1|]. rewrite Hcur1, Hnt.
    apply orb_true_iff in Harrow as [H|H]; apply ty_eqb_eq in H; now rewrite H. }
  pose proof (followed Heof1 Hin1 Hall1) as Hf. unfold followedOk in Hf.
  rewrite Hcur1, Hnt, Harrow in Hf. cbn [negb orb] in Hf.
  apply andb_true_iff in Hf as [_ Hf]. apply negb_true_iff in Hf.
  quiet_step. apply wp_advance_next; try assumption.
  intros p2 Hq2 Hcur2. cbv beta. do 5 quiet_step. rewrite Hcur2, Hf.
  assert (Hin2 : isAtEnd p2 = false).
  { apply inside_of_type; [unquiet; chain|now rewrite Hcur2]. }
  rewrite Hin2. cbn [orb].
  repeat quiet_method; quiet_rounds; repeat quiet_method; quiet_end.
Qed.


Lemma sequenceTokens_split ts :
  sequenceTokens ts = true ->
  Forall (fun t => valIn t stylingDirectives = false) ts /\ allFollowedOk ts = true.
Proof.
  unfold sequenceTokens. intros H. apply andb_true_iff in H as [H1 H2].
  split; [|exact H2]. rewrite forallb_forall in H1. apply Forall_forall.
  intros t Hin. apply negb_true_iff. auto.
Qed.

Lemma quiet_sequenceStatement fuel s p :
  endsWithEOF p -> sequenceTokens (tokens p) = true -> isAtEnd p = false ->
  length (tokens p) - position p < fuel ->
  wp (sequenceStatement fuel s) p
     (fun r p' => (exists s', r = Continue s') /\ quiet 1 p p').
Proof.
  intros Heof Hseq Hin Hfuel. destruct s as [participants messages].
  destruct (sequenceTokens_split _ Hseq) as [Hplain Hall].
  assert (Hno : valIn (currentToken p) stylingDirectives = false).
  { apply (@currentToken_Forall (fun t => valIn t stylingDirectives = false) p Hplain).
    reflexivity. }
  unfold sequenceStatement. apply wp_bind, wp_read. cbv beta. rewrite Hno.
  destruct (ty_eqb (tok_type (currentToken p)) PARTICIPANT) eqn:Hpart.
  { apply ty_eqb_eq in Hpart. apply wp_bind. eapply wp_conseq.
    - now apply quiet_parseParticipant.
    - cbv beta. intros ? ? ?. quiet_step. split; [eauto|assumption]. }
  destruct (ty_eqb (tok_type (currentToken p)) DIRECTIVE);
    [repeat quiet_method; (split; [eauto|quiet_end])|].
  destruct (ty_eqb (tok_type (currentToken p)) IDENTIFIER
            || ty_eqb (tok_type (currentToken p)) STRING);
    [|repeat quiet_method; (split; [eauto|quiet_end])].
  apply wp_bind, wp_read. cbv beta. destruct (peekToken p) as [nt|] eqn:Hpeek;
    [|repeat quiet_method; (split; [eauto|quiet_end])].
  destruct (ty_eqb (tok_type nt) SEQUENCE_ARROW || ty_eqb (tok_type nt) ARROW) eqn:Harrow;
    [|repeat quiet_method; (split; [eauto|quiet_end])].
  apply wp_bind. eapply wp_conseq.
  - eapply quiet_parseMessageLine; eauto.
  - cbv beta. intros ? ? ?. quiet_step. split; [eauto|assumption].
Qed.

Lemma quiet_parseSequenceDiagram fuel p :
  endsWithEOF p -> sequenceTokens (tokens p) = true ->
  length (tokens p) - position p < fuel ->
  wp (parseSequenceDiagram fuel) p
     (fun a p' => nodeAt "sequence" (currentToken p) a /\ quiet 0 p p').
Proof.
  intros Heof Hseq Hfuel. unfold parseSequenceDiagram. do 5 quiet_step.
  eapply wp_conseq.
  - apply quiet_while; [intros ? ? ?; cond_inside| |unquiet; chain].
    intros s q Hq Hc Hf. apply quiet_sequenceStatement;
      [unquiet; chain | rewrite Hq; unquiet; unpack; toks; assumption | cond_inside
      | exact Hf].
  - cbv beta. intros [participants messages] ? ?. unfold validateSequenceDiagram.
    repeat quiet_step. split; [repeat split|quiet_end].
Qed.

(** Where the call stack is enough: a sequence diagram in which no token is
    one of the six styling
    words, every [participant] keyword is followed by an identifier or a
    string, and no message arrow is the last token before the end of the
    input, is valid: [validateMermaid] returns no diagnostic, the diagram
    type "sequence", and a sequence node placed at the [sequenceDiagram]
    token.  Every other token is read or skipped without a word. *)
Lemma validateMermaid_plain_sequence validatedAgainst fuel src t :
  firstDiagramToken (tokenize src) = Some t -> tok_type t = SEQUENCE_DIAGRAM ->
  sequenceTokens (tokenize src) = true ->
  length src + 1 < fuel ->
  exists a,
    validateMermaid validatedAgainst fuel (JSString src) None =
      Some (mkResult true "sequence" [] (Some a)) /\
    nodeAt "sequence" t a.
Proof.
  intros Hfirst Hty Hseq Hfuel. pose proof (tokenize_length src) as Hlen.
  destruct (@parseDiagram_directives fuel src)
    as (t' & p1 & Hfirst' & Hmv & Hlt & Hcur & Hk); [lia|].
  rewrite Hfirst in Hfirst'. injection Hfirst' as <-.
  pose proof (movedFrom_endsWithEOF Hmv (tokenize_endsWithEOF src 0 [] 0)) as Heof1.
  destruct Hmv as (Ht & He & _ & _). cbn [tokens p_errors] in Ht, He.
  destruct (@quiet_parseSequenceDiagram fuel p1 Heof1)
    as (a & p2 & Hrun & Hnode & (Ht2 & _) & He2 & _);
    [now rewrite Ht|rewrite Ht; lia|].
  assert (Hpd : parseDiagram fuel (mkParser (tokenize src) 0 [] 0) = Ret a p2).
  { unfold parseDiagram. rewrite Hk, Hty. exact Hrun. }
  exists a. rewrite Hcur in Hnode. split; [|exact Hnode].
  unfold validateMermaid, validateMermaidWith.
  rewrite (first_token_of_blank _ Hfirst) by (rewrite Hty; discriminate).
  rewrite (@parse_of_parseDiagram fuel (newParser src) _ _ Hpd), He2, He.
  rewrite (@getDiagramType_tokens p2 (newParser src)) by (cbn [newParser tokens]; congruence).
  unfold getDiagramType. cbn [newParser tokens].
  now rewrite tokenize_length_nonzero, Hfirst, Hty.
Qed.

(* ===================================================================== *)
(** ** The call stack *)
(* ===================================================================== *)

(** *** The lexer *)

Lemma blankRun_skipn input pos :
  pos < length input -> isSpace (nth pos input 0%N) = true ->
  blankRun (skipn pos input) = S (blankRun (skipn (pos + 1) input)).
Proof.
  intros Hin Hs. rewrite (@skipn_nth _ _ _ 0%N Hin). cbn [blankRun].
  rewrite Hs, Nat.add_1_r. reflexivity.
Qed.

(** [nextToken] returns exactly when it has room for one call for each
    white-space code unit before it and one more. *)
Lemma nextTokenIn_spec calls : forall lx,
  nextTokenIn calls lx =
  if blankRun (skipn (lx_position lx) (lx_input lx)) <? calls
  then Some (nextToken lx) else None.
Proof.
  induction calls as [|calls IH]; intros lx; [reflexivity|].
  cbn [nextTokenIn].
  destruct (length (lx_input lx) <=? lx_position lx) eqn:El.
  - unfold nextToken. cbn [nextToken_rec]. rewrite El.
    apply Nat.leb_le in El. rewrite skipn_all2 by exact El. reflexivity.
  - pose proof El as Hin. apply Nat.leb_gt in Hin. cbv zeta.
    destruct (isSpace (nth (lx_position lx) (lx_input lx) 0%N)) eqn:Es.
    + rewrite (blankRun_skipn _ Hin Es).
      change (S ?a <? S ?b) with (a <? b).
      set (lx' := if N.eqb _ LF then newline lx else forward 1 lx).
      assert (Hi : lx_input lx' = lx_input lx) by (subst lx'; now destruct (N.eqb _ LF)).
      assert (Hp : lx_position lx' = lx_position lx + 1)
        by (subst lx'; now destruct (N.eqb _ LF)).
      rewrite IH, Hi, Hp. unfold nextToken at 2. cbn [nextToken_rec]. rewrite El.
      cbv zeta. rewrite Es. fold lx'. unfold nextToken.
      rewrite (@nextToken_budget (remaining lx) (S (remaining lx')) lx');
        unfold remaining; rewrite ?Hi, ?Hp; try lia. reflexivity.
    + rewrite (@skipn_nth _ _ _ 0%N Hin). cbn [blankRun]. rewrite Es. reflexivity.
Qed.

Lemma nextTokenIn_sound calls lx r : nextTokenIn calls lx = Some r -> r = nextToken lx.
Proof.
  rewrite nextTokenIn_spec. destruct (_ <? _); [|discriminate]. now intros [= <-].
Qed.

Lemma blankRun_longest input pos : blankRun (skipn pos input) <= longestBlankRun input.
Proof.
  revert pos. induction input as [|c input IH]; intros [|pos]; cbn [skipn longestBlankRun];
    try (cbn; lia).
  - specialize (IH pos). lia.
Qed.

Lemma tokenize_loopIn_sound calls n : forall lx acc r,
  tokenize_loopIn calls n lx acc = Some r -> r = tokenize_loop n lx acc.
Proof.
  induction n as [|n IH]; intros lx acc r H; cbn [tokenize_loopIn tokenize_loop] in *.
  - now injection H as <-.
  - destruct (nextTokenIn calls lx) as [x|] eqn:E; [|discriminate H].
    apply nextTokenIn_sound in E. subst x.
    destruct (nextToken lx) as [[t|] lx'].
    + destruct (ty_eqb (tok_type t) EOF); [now injection H as <-|]. now apply IH.
    + now injection H as <-.
Qed.

Lemma tokenize_loopIn_returns calls n : forall lx acc,
  longestBlankRun (lx_input lx) < calls ->
  tokenize_loopIn calls n lx acc = Some (tokenize_loop n lx acc).
Proof.
  induction n as [|n IH]; intros lx acc H; cbn [tokenize_loopIn tokenize_loop]; [reflexivity|].
  rewrite nextTokenIn_spec.
  pose proof (blankRun_longest (lx_input lx) (lx_position lx)) as Hle.
  destruct (_ <? _) eqn:E; [|apply Nat.ltb_ge in E; lia].
  destruct (nextToken lx) as [[t|] lx'] eqn:En; [|reflexivity].
  destruct (ty_eqb (tok_type t) EOF); [reflexivity|].
  apply IH. apply nextToken_rec_reaches in En as [[Hi _] _]. now rewrite Hi.
Qed.

(** The list [tokenize] returns is the list of [tokenize] above. *)
Lemma tokenizeIn_sound calls input ts :
  tokenizeIn calls input = Some ts -> ts = tokenize input.
Proof.
  unfold tokenizeIn, tokenize.
  destruct (tokenize_loopIn _ _ _ _) as [[ts' lx']|] eqn:E; [|discriminate].
  apply tokenize_loopIn_sound in E. rewrite <- E. now intros [= <-].
Qed.

(** [tokenize] returns where every run of white space is shorter than the
    room for nested calls. *)
Lemma tokenizeIn_returns calls input :
  longestBlankRun input < calls -> tokenizeIn calls input = Some (tokenize input).
Proof.
  intros H. unfold tokenizeIn, tokenize.
  rewrite tokenize_loopIn_returns by exact H.
  now destruct (tokenize_loop _ _ _).
Qed.

(** [tokenize] throws where the white space at the head of the input is not
    shorter than the room for nested calls. *)
Lemma tokenizeIn_overflows calls input :
  calls <= blankRun input -> tokenizeIn calls input = None.
Proof.
  intros H. unfold tokenizeIn. cbn [tokenize_loopIn].
  rewrite nextTokenIn_spec. cbn [lx_position lx_input skipn].
  destruct (_ <? _) eqn:E; [apply Nat.ltb_lt in E; lia|reflexivity].
Qed.

(** *** The parser where no subgraph is parsed *)

Lemma bind_ext {A B} (m : M A) (k1 k2 : A -> M B) p :
  (forall a p', m p = Ret a p' -> k1 a p' = k2 a p') -> bind m k1 p = bind m k2 p.
Proof. intros H. unfold bind. destruct (m p) eqn:E; auto. Qed.

(** Two loops whose rounds agree on the states of [Inv] agree from a state
    of [Inv], when the rounds keep the state in [Inv]. *)
Lemma while_ext {St} (Inv : Parser -> Prop) (cond : St -> Parser -> bool)
      (body1 body2 : St -> M (ctl St)) :
  (forall s q, Inv q -> body1 s q = body2 s q) ->
  (forall s q r q', Inv q -> body2 s q = Ret r q' -> Inv q') ->
  forall fuel s p, Inv p -> while fuel cond body1 s p = while fuel cond body2 s p.
Proof.
  intros Heq Hinv. induction fuel as [|fuel IH]; intros s p Hp; [reflexivity|].
  cbn [while]. destruct (cond s p); [|reflexivity]. rewrite (Heq s p Hp).
  destruct (body2 s p) as [[s'|s'] p'| |] eqn:E; try reflexivity.
  apply IH. exact (Hinv _ _ _ _ Hp E).
Qed.

(** The parsers of the flowchart grammar never move the cursor back. *)
Lemma forwards_ret {A} (a : A) : forwards (ret a).
Proof. intros p a' p' H. injection H as _ <-. split; [reflexivity|lia]. Qed.

Lemma forwards_read {A} (f : Parser -> A) : forwards (read f).
Proof. intros p a' p' H. injection H as _ <-. split; [reflexivity|lia]. Qed.

Lemma forwards_advance : forwards advance.
Proof. intros p [] p' H. apply movedFrom_advance in H as (Ht & _ & _ & Hp). now split. Qed.

Lemma forwards_addError token msg cd sugg : forwards (addError token msg cd sugg).
Proof. intros p a p' H. injection H as _ <-. cbn. split; [reflexivity|lia]. Qed.

Lemma forwards_setLinkCount n : forwards (setLinkCount n).
Proof. intros p a p' H. injection H as _ <-. cbn. split; [reflexivity|lia]. Qed.

Lemma forwards_bind {A B} (m : M A) (k : A -> M B) :
  forwards m -> (forall a, forwards (k a)) -> forwards (bind m k).
Proof.
  intros Hm Hk p b p' H. apply bind_Ret in H as (a & p1 & H1 & H2).
  apply Hm in H1 as [Ht1 Hp1]. apply Hk in H2 as [Ht2 Hp2]. split; [congruence|lia].
Qed.

Lemma forwards_when b (m : M unit) : forwards m -> forwards (when b m).
Proof. intros Hm. destruct b; [exact Hm|apply forwards_ret]. Qed.

Lemma forwards_while {St} fuel (cond : St -> Parser -> bool) (body : St -> M (ctl St)) s :
  (forall s, forwards (body s)) -> forwards (while fuel cond body s).
Proof.
  intros Hbody. revert s. induction fuel as [|fuel IH]; intros s p a p' H; [discriminate H|].
  cbn [while] in H. destruct (cond s p); [|injection H as _ <-; split; [reflexivity|lia]].
  destruct (body s p) as [[s1|s1] p1| |] eqn:E; try discriminate H.
  - apply Hbody in E as [Ht1 Hp1]. apply IH in H as [Ht2 Hp2]. split; [congruence|lia].
  - injection H as _ <-. now apply Hbody in E.
Qed.

Ltac forwards_step :=
  lazymatch goal with
  | |- forwards (ret _) => apply forwards_ret
  | |- forwards (done _) => apply forwards_ret
  | |- forwards (read _) => apply forwards_read
  | |- forwards advance => apply forwards_advance
  | |- forwards (addError _ _ _ _) => apply forwards_addError
  | |- forwards (unsupportedStyling _ _ _) => apply forwards_addError
  | |- forwards (setLinkCount _) => apply forwards_setLinkCount
  | |- forwards (when _ _) => apply forwards_when
  | |- forwards (while _ _ _ _) => apply forwards_while; intros ?
  | |- forwards (bind _ _) => apply forwards_bind; [|intros ?]
  | |- forwards (if ?b then _ else _) => destruct b
  | |- forwards (match ?x with _ => _ end) => destruct x
  | |- forwards _ => assumption
  end.

Ltac forwards_all := repeat forwards_step.

Lemma forwards_validateFlowchartConnections nodes :
  forwards (validateFlowchartConnections nodes).
Proof.
  intros p a p' H.
  destruct (validateFlowchartConnections_reports nodes p) as (added & Hrun & _).
  rewrite Hrun in H. injection H as _ <-. cbn. split; [reflexivity|lia].
Qed.

Lemma forwards_parseSubgraph fuel self : forwards self -> forwards (parseSubgraph fuel self).
Proof.
  intros Hself. pose proof forwards_validateFlowchartConnections as Hv.
  unfold parseSubgraph. forwards_all. apply Hv.
Qed.

Lemma forwards_parseFlowchartElement fuel : forwards (parseFlowchartElement fuel).
Proof.
  induction fuel as [|fuel IH]; [intros p a p' H; discriminate H|].
  pose proof (forwards_parseSubgraph fuel IH) as Hsub.
  cbn [parseFlowchartElement].
  unfold parseClassDef, parseClassAssignment, parseLinkStyle, parseStyle,
    parseClickStatement, parseNoteStatement, parseDirectionStatement, skipTitleDirective,
    skipUntilSemicolon, parseArrow, parseNode, collectIdentifiersAsLabel, shapeLabel,
    expectClose.
  forwards_all.
Qed.

Lemma filter_skipn_all {A} (f : A -> bool) : forall (l : list A) j,
  length (filter f (skipn j l)) <= length (filter f l).
Proof.
  induction l as [|x l IH]; intros j; [now rewrite skipn_nil|].
  destruct j as [|j]; [reflexivity|]. cbn [skipn filter].
  specialize (IH j). destruct (f x); cbn [length]; lia.
Qed.

Lemma filter_skipn_le {A} (f : A -> bool) : forall (l : list A) i j, i <= j ->
  length (filter f (skipn j l)) <= length (filter f (skipn i l)).
Proof.
  induction l as [|x l IH]; intros i j Hle; [now rewrite !skipn_nil|].
  destruct i as [|i]; [apply filter_skipn_all|].
  destruct j as [|j]; [lia|]. cbn [skipn]. apply IH. lia.
Qed.

Lemma subgraphsAhead_le p q :
  tokens q = tokens p -> position p <= position q -> subgraphsAhead q <= subgraphsAhead p.
Proof. intros Ht Hp. unfold subgraphsAhead. rewrite Ht. now apply filter_skipn_le. Qed.

Lemma subgraphsAhead_behind p q :
  position p < length (tokens p) -> tok_type (currentToken p) = SUBGRAPH ->
  tokens q = tokens p -> position p < position q ->
  S (subgraphsAhead q) <= subgraphsAhead p.
Proof.
  intros Hin Hty Ht Hp. unfold subgraphsAhead. rewrite Ht.
  rewrite (@skipn_nth _ _ (position p) eofToken Hin). cbn [filter].
  change (nth (position p) (tokens p) eofToken) with (tokenAt p (position p)).
  rewrite <- (currentToken_inside _ Hin), Hty. cbn [ty_eqb TokenType_beq length].
  apply le_n_S, filter_skipn_le. lia.
Qed.

Lemma subgraphsAhead_all p :
  subgraphsAhead p <= length (filter (fun t => ty_eqb (tok_type t) SUBGRAPH) (tokens p)).
Proof. unfold subgraphsAhead. apply (filter_skipn_le _ (tokens p) (i := 0)). lia. Qed.

(** [parseSubgraph] with two element parsers that agree behind its cursor. *)
Lemma parseSubgraph_ext fuel (f1 f2 : M (option FlowchartElement)) p :
  forwards f2 ->
  (forall q, tokens q = tokens p -> position p < position q -> f1 q = f2 q) ->
  position p < length (tokens p) ->
  parseSubgraph fuel f1 p = parseSubgraph fuel f2 p.
Proof.
  intros Hfw Hagree Hin. unfold parseSubgraph.
  apply bind_ext. intros startToken p1 H1. injection H1 as _ <-.
  apply bind_ext. intros [] p2 H2. rewrite (advance_inside _ Hin) in H2. injection H2 as <-.
  remember (mkParser (tokens p) (position p + 1) (p_errors p) (linkCount p)) as p2 eqn:E2.
  assert (Hp2 : tokens p2 = tokens p /\ position p < position p2)
    by (rewrite E2; cbn; split; [reflexivity|lia]).
  clear E2.
  apply bind_ext. intros idTok p3 H3. injection H3 as _ <-.
  apply bind_ext. intros [] p4 H4. apply forwards_advance in H4 as [Ht4 Hp4].
  apply bind_ext. intros open p5 H5. injection H5 as _ <-.
  apply bind_ext. intros [] p6 H6.
  assert (Hp6 : tokens p6 = tokens p /\ position p < position p6).
  { match type of H6 with
    | ?m _ = _ => assert (Hk : forwards m) by forwards_all; apply Hk in H6 as [Ht6 Hp6]
    end.
    destruct Hp2. split; [congruence|lia]. }
  match goal with
  | |- bind (while _ ?c ?b1 _) _ _ = bind (while _ _ ?b2 _) _ _ =>
      assert (Hw : while fuel c b1 [] p6 = while fuel c b2 [] p6)
  end.
  { apply (@while_ext _ (fun q => tokens q = tokens p /\ position p < position q));
      [| |exact Hp6].
    - intros children q [Hq1 Hq2]. unfold bind. now rewrite (Hagree q Hq1 Hq2).
    - intros children q r q' [Hq1 Hq2] E. apply bind_Ret in E as (child & q1 & Hc & E).
      apply Hfw in Hc as [Ht1 Hp1].
      destruct child; injection E as _ <-; split; try congruence; lia. }
  unfold bind at 1. rewrite Hw. reflexivity.
Qed.

(** Where the [subgraph] keywords ahead are no more than the levels there
    is room for, the call stack is enough. *)
Lemma parseFlowchartElementIn_nested fuel : forall levels p,
  endsWithEOF p -> subgraphsAhead p <= levels ->
  parseFlowchartElementIn levels fuel p = parseFlowchartElement fuel p.
Proof.
  induction fuel as [|fuel IH]; intros levels p Heof Hsub; [reflexivity|].
  cbn [parseFlowchartElementIn parseFlowchartElement].
  unfold bind at 1, read at 1. symmetry. unfold bind at 1, read at 1. symmetry.
  repeat match goal with
         | |- (if ?c then _ else _) _ = _ => destruct c eqn:?; [try reflexivity|]
         end; try reflexivity.
  match goal with H : ty_eqb _ SUBGRAPH = true |- _ => apply ty_eqb_eq in H; rename H into Hty end.
  assert (Hin : position p < length (tokens p)).
  { destruct (Nat.lt_ge_cases (position p) (length (tokens p))) as [H|H]; [exact H|].
    rewrite (currentToken_outside _ H) in Hty. unfold endsWithEOF in Heof. congruence. }
  assert (Hone : 1 <= subgraphsAhead p).
  { pose proof (@subgraphsAhead_behind p (mkParser (tokens p) (S (position p)) [] 0)
                  Hin Hty eq_refl) as H. cbn in H. specialize (H ltac:(lia)). lia. }
  destruct levels as [|levels]; [lia|].
  unfold bind. rewrite (@parseSubgraph_ext fuel (parseFlowchartElementIn levels fuel)
                          (parseFlowchartElement fuel) p); [reflexivity| | |exact Hin].
  - apply forwards_parseFlowchartElement.
  - intros q Hq Hpos. apply IH.
    + unfold endsWithEOF in *. now rewrite Hq.
    + pose proof (@subgraphsAhead_behind p q Hin Hty Hq Hpos). lia.
Qed.

Lemma parseFlowchartIn_nested levels fuel p :
  endsWithEOF p ->
  length (filter (fun t => ty_eqb (tok_type t) SUBGRAPH) (tokens p)) <= levels ->
  parseFlowchartIn levels fuel p = parseFlowchart fuel p.
Proof.
  intros Heof Hsub. unfold parseFlowchartIn, parseFlowchart.
  assert (Hagree : forall q, tokens q = tokens p ->
            parseFlowchartElementIn levels fuel q = parseFlowchartElement fuel q).
  { intros q Hq. apply parseFlowchartElementIn_nested.
    - unfold endsWithEOF in *. now rewrite Hq.
    - pose proof (subgraphsAhead_all q). rewrite Hq in *. lia. }
  apply bind_ext. intros startToken p1 H1. injection H1 as <- <-.
  apply bind_ext. intros [] p2 H2. apply movedFrom_advance in H2 as (Ht2 & _).
  apply bind_ext. intros [] p3 H3. injection H3 as <-.
  apply bind_ext. intros t p4 H4. injection H4 as <- <-.
  apply bind_ext. intros direction p5 H5.
  assert (Ht5 : tokens p5 = tokens p).
  { match type of H5 with
    | ?m _ = _ => assert (Hk : forwards m) by forwards_all; apply Hk in H5 as [Ht5 _]
    end.
    cbn in Ht5. congruence. }
  match goal with
  | |- bind (while _ ?c ?b1 _) _ _ = bind (while _ _ ?b2 _) _ _ =>
      assert (Hw : while fuel c b1 [] p5 = while fuel c b2 [] p5)
  end.
  { apply (@while_ext _ (fun q => tokens q = tokens p)); [| |exact Ht5].
    - intros nodes q Hq. apply bind_ext. intros token q1 E1. injection E1 as <- <-.
      destruct (includes diagramTypes _); [reflexivity|].
      unfold bind. now rewrite (Hagree q Hq).
    - intros nodes q r q' Hq E.
      match type of E with
      | ?m _ = _ =>
          assert (Hk : forwards m)
            by (pose proof (forwards_parseFlowchartElement fuel); forwards_all);
          apply Hk in E as [Ht _]
      end.
      congruence. }
  unfold bind at 1. rewrite Hw. reflexivity.
Qed.

Lemma parseDiagramIn_nested levels fuel src :
  nestingFits levels (tokenize src) = true -> length (tokenize src) < fuel ->
  parseDiagramIn levels fuel (mkParser (tokenize src) 0 [] 0) =
  parseDiagram fuel (mkParser (tokenize src) 0 [] 0).
Proof.
  intros Hfits Hfuel.
  destruct (parseDiagram_directives src Hfuel) as (t & p1 & Hfirst & Hmv & _ & _ & Hk).
  unfold nestingFits in Hfits. rewrite Hfirst in Hfits.
  assert (Hflow : tok_type t = GRAPH \/ tok_type t = FLOWCHART ->
                  parseFlowchartIn levels fuel p1 = parseFlowchart fuel p1).
  { intros Hty. apply parseFlowchartIn_nested.
    - apply (@movedFrom_endsWithEOF _ _ Hmv), tokenize_endsWithEOF.
    - destruct Hmv as (-> & _). cbn [tokens].
      destruct Hty as [Hty|Hty]; rewrite Hty in Hfits; now apply Nat.leb_le. }
  unfold parseDiagramIn, parseDiagram. rewrite !Hk.
  destruct (tok_type t); try reflexivity; apply Hflow; auto.
Qed.

(** The grammars other than the flowchart grammar do not call themselves. *)
Lemma parseDiagramIn_other levels fuel src t :
  firstDiagramToken (tokenize src) = Some t ->
  tok_type t <> GRAPH -> tok_type t <> FLOWCHART ->
  length (tokenize src) < fuel ->
  parseDiagramIn levels fuel (mkParser (tokenize src) 0 [] 0) =
  parseDiagram fuel (mkParser (tokenize src) 0 [] 0).
Proof.
  intros Hfirst Hg Hf Hfuel.
  destruct (parseDiagram_directives src Hfuel)
    as (t' & p1 & Hfirst' & _ & _ & _ & Hk).
  rewrite Hfirst in Hfirst'. injection Hfirst' as <-.
  unfold parseDiagramIn, parseDiagram. rewrite !Hk.
  destruct (tok_type t); try reflexivity; contradiction.
Qed.

Lemma parseIn_of_parseDiagramIn levels fuel p :
  parseDiagramIn levels fuel (mkParser (tokens p) 0 [] 0) =
  parseDiagram fuel (mkParser (tokens p) 0 [] 0) ->
  parseIn levels fuel p = parse fuel p.
Proof.
  intros H. unfold parseIn, parse. unfold bind at 1. symmetry. unfold bind at 1. symmetry.
  unfold try_catch. unfold bind at 1. symmetry. unfold bind at 1. symmetry.
  now rewrite H.
Qed.

Lemma parseIn_never_throws levels fuel p e p' : parseIn levels fuel p <> Throw e p'.
Proof.
  unfold parseIn, bind at 1, try_catch. simpl.
  destruct (bind (parseDiagramIn levels fuel) _ _); discriminate.
Qed.

(** The entry point, where the lexer returns and the parser does not ask
    the call stack, is the entry point above. *)
Lemma validateMermaidIn_plain validatedAgainst stack fuel src target ts :
  tokenizeIn (nextTokenCalls stack) src = Some ts ->
  parseDiagramIn (subgraphLevels stack) fuel (mkParser (tokenize src) 0 [] 0) =
    parseDiagram fuel (mkParser (tokenize src) 0 [] 0) ->
  validateMermaidIn validatedAgainst stack fuel (JSString src) target =
  validateMermaid validatedAgainst fuel (JSString src) target.
Proof.
  intros Hlex Hpd. pose proof (tokenizeIn_sound _ _ Hlex) as ->.
  unfold validateMermaidIn, validateMermaid, validateMermaidWith, runIn.
  rewrite Hlex.
  change (mkParser (tokenize src) 0 [] 0) with (newParser src).
  rewrite (@parseIn_of_parseDiagramIn _ fuel (newParser src) Hpd). reflexivity.
Qed.

(** Where the lexer exhausts the call stack, the entry point returns the
    result of its [catch] block, whatever the target version. *)
Lemma validateMermaidIn_overflow validatedAgainst stack fuel src target :
  isBlank src = false ->
  tokenizeIn (nextTokenCalls stack) src = None ->
  validateMermaidIn validatedAgainst stack fuel (JSString src) target =
  Some (validationError stackOverflow).
Proof.
  intros Hb Hlex. unfold validateMermaidIn, validateMermaidWith, runIn.
  rewrite Hlex, Hb. destruct src; [discriminate Hb|reflexivity].
Qed.

(** *** The lexer on blank input *)

(** X6: on an input that is empty or white space only, [tokenize] returns
    the EOF token alone when the input is shorter than the room for nested
    calls of [nextToken], and throws when it is not; and a list that
    [tokenize] returns is the EOF token alone only on such an input. *)
Theorem blank_input_has_no_tokens calls input :
  (isBlank input = true ->
   (length input < calls ->
    exists l c, tokenizeIn calls input = Some [mkToken EOF [] l c (length input)]) /\
   (calls <= length input -> tokenizeIn calls input = None))
  /\
  (forall l c pos,
     tokenizeIn calls input = Some [mkToken EOF [] l c pos] ->
     isBlank input = true /\ pos = length input).
Proof.
  assert (Hrun : isBlank input = true -> blankRun input = length input /\
                                         longestBlankRun input = length input).
  { clear calls. induction input as [|ch input IH]; [split; reflexivity|].
    cbn [isBlank forallb blankRun longestBlankRun length]. intros H.
    apply andb_true_iff in H as [Hc Hb]. rewrite Hc.
    destruct (IH Hb) as [-> ->]. split; lia. }
  split.
  - intros Hb. destruct (Hrun Hb) as [Hhead Hlong]. split.
    + intros Hlt. rewrite tokenizeIn_returns by lia.
      destruct (proj1 (tokenize_blank_iff input) Hb) as (l & c & ->). eauto.
    + intros Hle. apply tokenizeIn_overflows. lia.
  - intros l c pos H. apply tokenizeIn_sound in H.
    destruct (tokenize_lexed input) as (ts & lx & Ht & _ & Hp).
    assert (pos = length input).
    { rewrite Ht in H. destruct ts as [|t [|]]; try discriminate H.
      injection H as _ _ E. rewrite E. exact Hp. }
    subst pos. split; [|reflexivity].
    apply (tokenize_blank_iff input). eauto.
Qed.

Lemma blank_input_has_no_tokens_witness :
  (exists l c, tokenizeIn 3 (u "  ") = Some [mkToken EOF [] l c 2]) /\
  tokenizeIn 2 (u "  ") = None.
Proof.
  destruct (proj1 (blank_input_has_no_tokens 3 (u "  ")) eq_refl) as [H _].
  destruct (proj1 (blank_input_has_no_tokens 2 (u "  ")) eq_refl) as [_ H'].
  split; [apply H; vm_compute; lia|apply H'; vm_compute; lia].
Defined.

(** *** The entry point *)

Lemma blankRun_repeat n rest : n <= blankRun (repeat 32%N n ++ rest).
Proof. induction n as [|n IH]; cbn [repeat app blankRun]; [lia|]. cbn [isSpace]. cbn. lia. Qed.

Lemma isBlank_app_false a b : isBlank b = false -> isBlank (a ++ b) = false.
Proof.
  intros H. unfold isBlank in *. rewrite forallb_app, H. apply andb_false_r.
Qed.

(** X24: when the recursion of the lexer over white space exhausts the call
    stack, the entry point returns the result of its [catch] block: the
    single diagnostic VALIDATION_ERROR at line 1, column 1, the type unknown
    and no AST, whatever the text says and whatever the target version.  The
    lexer returns where every run of white space is shorter than the room
    for nested calls, and it throws where the text starts with white space
    that is not; so on every engine some text with any given words is
    answered in this way. *)
Theorem lexer_stack_overflow_is_reported validatedAgainst stack fuel :
  (forall src target,
     isBlank src = false -> tokenizeIn (nextTokenCalls stack) src = None ->
     validateMermaidIn validatedAgainst stack fuel (JSString src) target =
       Some (validationError stackOverflow))
  /\
  (forall src, longestBlankRun src < nextTokenCalls stack ->
     tokenizeIn (nextTokenCalls stack) src = Some (tokenize src))
  /\
  (forall src, nextTokenCalls stack <= blankRun src ->
     tokenizeIn (nextTokenCalls stack) src = None)
  /\
  (forall words target,
     isBlank words = false ->
     validateMermaidIn validatedAgainst stack fuel
       (JSString (repeat 32%N (nextTokenCalls stack) ++ words)) target =
       Some (validationError stackOverflow)).
Proof.
  split; [|split; [|split]].
  - intros src target. apply validateMermaidIn_overflow.
  - intros src. apply tokenizeIn_returns.
  - intros src. apply tokenizeIn_overflows.
  - intros words target Hb. apply validateMermaidIn_overflow.
    + now apply isBlank_app_false.
    + apply tokenizeIn_overflows, blankRun_repeat.
Qed.

Lemma lexer_stack_overflow_is_reported_witness :
  validateMermaidIn version_11_12_0 (mkCallStack 4 0) 30
    (JSString (u "pie     x")) (Some (u "10.0.0")) =
  Some (validationError stackOverflow).
Proof.
  refine (proj1 (lexer_stack_overflow_is_reported version_11_12_0 (mkCallStack 4 0) 30)
            (u "pie     x") (Some (u "10.0.0")) _ _).
  - reflexivity.
  - vm_compute. reflexivity.
Defined.

(** X10: where the lexer returns and the first token that is no directive is
    the keyword of a grammar that reads to the end of the input (pie,
    journey, gitGraph, mindmap, timeline, gantt, erDiagram), the text is
    valid whatever follows the keyword: the result has no diagnostic, the
    diagram type of the keyword, and a node with the three base fields at
    the place of the keyword. *)
Theorem read_to_end_grammars_accept_everything validatedAgainst stack fuel src ts t :
  tokenizeIn (nextTokenCalls stack) src = Some ts ->
  firstDiagramToken ts = Some t ->
  includes readToEndTypes (tok_type t) = true ->
  length src + 1 < fuel ->
  validateMermaidIn validatedAgainst stack fuel (JSString src) None =
    Some (mkResult true (getDiagramType (mkParser ts 0 [] 0)) []
            (Some (PlainNode (getDiagramType (mkParser ts 0 [] 0))
                             (tok_line t) (tok_column t)))).
Proof.
  intros Hlex Hfirst Hty Hfuel. pose proof (tokenizeIn_sound _ _ Hlex) as E.
  pose proof (tokenize_length src) as Hlen. subst ts.
  rewrite (@validateMermaidIn_plain validatedAgainst stack fuel src None _ Hlex).
  - now apply validateMermaid_reads_to_end.
  - apply (parseDiagramIn_other (subgraphLevels stack) src Hfirst); try lia;
      intros Et; rewrite Et in Hty; discriminate Hty.
Qed.

(** X11: where the lexer returns, the text is not blank and its first token
    that is no directive selects no grammar, the result has exactly one
    diagnostic, PARSE_ERROR with the text of that token in its message and
    at the place of that token, the diagram type unknown, and a node of type
    unknown at the same place. *)
Theorem unknown_first_token_is_reported validatedAgainst stack fuel src ts t :
  tokenizeIn (nextTokenCalls stack) src = Some ts ->
  isBlank src = false ->
  firstDiagramToken ts = Some t ->
  includes grammarTypes (tok_type t) = false ->
  length src + 1 < fuel ->
  validateMermaidIn validatedAgainst stack fuel (JSString src) None =
    Some (mkResult false "unknown" [unsupportedDiagramType t]
            (Some (PlainNode "unknown" (tok_line t) (tok_column t)))).
Proof.
  intros Hlex Hb Hfirst Hty Hfuel. pose proof (tokenizeIn_sound _ _ Hlex) as E.
  pose proof (tokenize_length src) as Hlen. subst ts.
  rewrite (@validateMermaidIn_plain validatedAgainst stack fuel src None _ Hlex).
  - now apply validateMermaid_unsupported.
  - apply (parseDiagramIn_other (subgraphLevels stack) src Hfirst); try lia;
      intros Et; rewrite Et in Hty; discriminate Hty.
Qed.

(** X20: the exported [getDiagramType] gives the diagram type of the first
    token that is no directive, whether the text is valid or not, where the
    lexer returns, the loops are bounded and a flowchart has no more
    [subgraph] keywords than the call stack has room for levels
    ([nestingFits]); it gives unknown for a blank text and wherever the
    lexer exhausts the call stack. *)
Theorem getDiagramType_reads_the_first_token validatedAgainst stack fuel src :
  (forall ts,
     tokenizeIn (nextTokenCalls stack) src = Some ts ->
     loopsBounded ts = true -> nestingFits (subgraphLevels stack) ts = true ->
     length src + 1 < fuel ->
     getDiagramTypeIn validatedAgainst stack fuel (JSString src) =
       Some (getDiagramType (mkParser ts 0 [] 0)))
  /\
  (isBlank src = true \/ tokenizeIn (nextTokenCalls stack) src = None ->
   getDiagramTypeIn validatedAgainst stack fuel (JSString src) = Some "unknown"%string).
Proof.
  split.
  - intros ts Hlex Hloops Hfits Hfuel. pose proof (tokenizeIn_sound _ _ Hlex) as E.
    pose proof (tokenize_length src) as Hlen. subst ts.
    unfold getDiagramTypeIn.
    rewrite (@validateMermaidIn_plain validatedAgainst stack fuel src None _ Hlex).
    + apply getDiagramTypeOf_first_token; [exact Hloops|exact Hfuel].
    + apply parseDiagramIn_nested; [exact Hfits|lia].
  - intros H. unfold getDiagramTypeIn, validateMermaidIn, validateMermaidWith, runIn.
    destruct ((length src =? 0) || isBlank src) eqn:E; [reflexivity|].
    apply orb_false_iff in E as [_ E]. destruct H as [H|H]; [congruence|].
    now rewrite H.
Qed.

(** X21: where the lexer returns, a text that selects the state-diagram
    grammar, or the class-diagram grammar and has no double parenthesis, and
    in which no token is [linkStyle], [style], [click], [note] or an equals
    sign, is valid whatever else it holds: the result has no diagnostic, the
    diagram type of the keyword, and a node with the three base fields at
    the place of the keyword. *)
Theorem plain_state_and_class_diagrams_are_valid validatedAgainst stack fuel src ts t :
  tokenizeIn (nextTokenCalls stack) src = Some ts ->
  firstDiagramToken ts = Some t ->
  plainGrammar ts t = true ->
  plainTokens ts = true ->
  length src + 1 < fuel ->
  validateMermaidIn validatedAgainst stack fuel (JSString src) None =
    Some (mkResult true (getDiagramType (mkParser ts 0 [] 0)) []
            (Some (PlainNode (getDiagramType (mkParser ts 0 [] 0))
                             (tok_line t) (tok_column t)))).
Proof.
  intros Hlex Hfirst Hg Hplain Hfuel. pose proof (tokenizeIn_sound _ _ Hlex) as E.
  pose proof (tokenize_length src) as Hlen. subst ts.
  rewrite (@validateMermaidIn_plain validatedAgainst stack fuel src None _ Hlex).
  - now apply validateMermaid_plain_grammar.
  - apply (parseDiagramIn_other (subgraphLevels stack) src Hfirst); try lia;
      intros Et; unfold plainGrammar in Hg; rewrite Et in Hg; discriminate Hg.
Qed.

(** X22: where the lexer returns, a text that selects the block grammar is
    valid whatever follows the keyword: the result has no diagnostic, the
    diagram type block, and a block node at the place of the keyword. *)
Theorem block_diagrams_are_always_valid validatedAgainst stack fuel src ts t :
  tokenizeIn (nextTokenCalls stack) src = Some ts ->
  firstDiagramToken ts = Some t -> tok_type t = BLOCK_BETA ->
  length src + 1 < fuel ->
  exists a,
    validateMermaidIn validatedAgainst stack fuel (JSString src) None =
      Some (mkResult true "block" [] (Some a)) /\
    nodeAt "block" t a.
Proof.
  intros Hlex Hfirst Hty Hfuel. pose proof (tokenizeIn_sound _ _ Hlex) as E.
  pose proof (tokenize_length src) as Hlen. subst ts.
  rewrite (@validateMermaidIn_plain validatedAgainst stack fuel src None _ Hlex).
  - now apply validateMermaid_block.
  - apply (parseDiagramIn_other (subgraphLevels stack) src Hfirst); try lia; congruence.
Qed.

(** X23: where the lexer returns, a sequence diagram in which no token is
    one of the six styling words, every [participant] keyword is followed by
    an identifier or a string, and no message arrow is the last token before
    the end of the input, is valid: the result has no diagnostic, the
    diagram type sequence, and a sequence node at the place of the
    [sequenceDiagram] token.  Every other token is read or skipped without a
    word. *)
Theorem plain_sequence_diagrams_are_valid validatedAgainst stack fuel src ts t :
  tokenizeIn (nextTokenCalls stack) src = Some ts ->
  firstDiagramToken ts = Some t -> tok_type t = SEQUENCE_DIAGRAM ->
  sequenceTokens ts = true ->
  length src + 1 < fuel ->
  exists a,
    validateMermaidIn validatedAgainst stack fuel (JSString src) None =
      Some (mkResult true "sequence" [] (Some a)) /\
    nodeAt "sequence" t a.
Proof.
  intros Hlex Hfirst Hty Hseq Hfuel. pose proof (tokenizeIn_sound _ _ Hlex) as E.
  pose proof (tokenize_length src) as Hlen. subst ts.
  rewrite (@validateMermaidIn_plain validatedAgainst stack fuel src None _ Hlex).
  - now apply validateMermaid_plain_sequence.
  - apply (parseDiagramIn_other (subgraphLevels stack) src Hfirst); try lia; congruence.
Qed.

(** *** The version check *)

(** C8, as amended: for a string that is not blank, on which the lexer
    returns and the call without a target version returns [r0], a target
    version that is not empty and differs from the validated-against version
    gives [r0] with one VERSION_MISMATCH diagnostic appended and [isValid]
    false, the type and the AST being those of [r0]; an omitted or empty
    target, or the validated-against version itself, gives [r0]; on a blank
    string or a value that is no string the target version changes nothing;
    and where the lexer exhausts the call stack the exception leaves the
    [try] block before the version check, so that [r0] is the
    VALIDATION_ERROR result and comes back whatever the target version. *)
Theorem validateMermaid_version_check validatedAgainst stack fuel mermaidCode r0 :
  validateMermaidIn validatedAgainst stack fuel mermaidCode None = Some r0 ->
  (forall src target,
      mermaidCode = JSString src -> isBlank src = false ->
      tokenizeIn (nextTokenCalls stack) src <> None ->
      target <> [] -> target <> validatedAgainst ->
      validateMermaidIn validatedAgainst stack fuel mermaidCode (Some target) =
      Some (mkResult false (diagramType r0)
              (errors r0 ++ [versionMismatch validatedAgainst target]) (ast r0))
      /\ code (versionMismatch validatedAgainst target) = "VERSION_MISMATCH"%string)
  /\ validateMermaidIn validatedAgainst stack fuel mermaidCode (Some []) = Some r0
  /\ validateMermaidIn validatedAgainst stack fuel mermaidCode (Some validatedAgainst)
     = Some r0
  /\ (forall target,
        (forall src, mermaidCode = JSString src -> isBlank src = true) ->
        validateMermaidIn validatedAgainst stack fuel mermaidCode target = Some r0)
  /\ (forall src target,
        mermaidCode = JSString src -> isBlank src = false ->
        tokenizeIn (nextTokenCalls stack) src = None ->
        r0 = validationError stackOverflow /\
        validateMermaidIn validatedAgainst stack fuel mermaidCode target = Some r0).
Proof.
  unfold validateMermaidIn, validateMermaidWith, runIn. intros H0.
  split; [|split; [|split; [|split]]].
  - intros src target -> Hblank Hlex Hne Hdiff. split; [|reflexivity].
    assert (Hlen : (length src =? 0) = false).
    { destruct src; [discriminate Hblank|reflexivity]. }
    rewrite Hlen, Hblank in *. simpl in *.
    destruct (tokenizeIn (nextTokenCalls stack) src) as [ts|]; [|contradiction].
    destruct (parseIn _ fuel _) as [r p1|e p1|] eqn:E.
    + injection H0 as ->.
      cbn [orElse]. unfold isMermaidVersionSupported.
      rewrite str_eqb_neq by assumption.
      destruct target as [|c target]; [contradiction|reflexivity].
    + now apply parseIn_never_throws in E.
    + discriminate H0.
  - exact H0.
  - destruct mermaidCode as [| | | | |src]; try assumption.
    destruct (_ || _); [assumption|].
    destruct (tokenizeIn _ src); [|assumption].
    destruct (parseIn _ fuel _); try assumption.
    unfold isMermaidVersionSupported. rewrite str_eqb_refl, andb_false_r.
    simpl in H0. assumption.
  - intros target Hb. destruct mermaidCode as [| | | | |src]; try assumption.
    rewrite (Hb src eq_refl), orb_true_r in *. assumption.
  - intros src target -> Hblank Hlex.
    assert (Hlen : (length src =? 0) = false).
    { destruct src; [discriminate Hblank|reflexivity]. }
    rewrite Hlen, Hblank, Hlex in *. simpl in *. injection H0 as <-. split; reflexivity.
Qed.

Lemma validateMermaid_version_check_witness :
  (exists r0,
     validateMermaidIn version_11_12_0 (mkCallStack 2 0) 30
       (JSString flowchart_A_to_B) None = Some r0 /\
     validateMermaidIn version_11_12_0 (mkCallStack 2 0) 30
       (JSString flowchart_A_to_B) (Some (u "10.0.0")) =
       Some (mkResult false (diagramType r0)
               (errors r0 ++ [versionMismatch version_11_12_0 (u "10.0.0")]) (ast r0)) /\
     validateMermaidIn version_11_12_0 (mkCallStack 2 0) 30
       (JSString flowchart_A_to_B) (Some version_11_12_0) = Some r0)
  /\
  validateMermaidIn version_11_12_0 (mkCallStack 1 0) 30
    (JSString flowchart_A_to_B) (Some (u "10.0.0")) =
  Some (validationError stackOverflow).
Proof.
  split.
  - destruct (validateMermaidIn version_11_12_0 (mkCallStack 2 0) 30
                (JSString flowchart_A_to_B) None) as [r0|] eqn:E.
    + exists r0. split; [reflexivity|].
      destruct (validateMermaid_version_check version_11_12_0 (mkCallStack 2 0) 30
                  (JSString flowchart_A_to_B) E) as (Hdiff & _ & Hsame & _).
      split; [|exact Hsame].
      refine (proj1 (Hdiff flowchart_A_to_B (u "10.0.0") eq_refl _ _ _ _)).
      * vm_compute. reflexivity.
      * vm_compute. discriminate.
      * discriminate.
      * discriminate.
    + vm_compute in E. discriminate E.
  - destruct (validateMermaidIn version_11_12_0 (mkCallStack 1 0) 30
                (JSString flowchart_A_to_B) None) as [r0|] eqn:E.
    + destruct (validateMermaid_version_check version_11_12_0 (mkCallStack 1 0) 30
                  (JSString flowchart_A_to_B) E) as (_ & _ & _ & _ & Hover).
      destruct (Hover flowchart_A_to_B (Some (u "10.0.0")) eq_refl) as [-> H];
        [vm_compute; reflexivity|vm_compute; reflexivity|exact H].
    + vm_compute in E. discriminate E.
Defined.

(** X25: whenever the entry point returns on an engine with a bounded call
    stack, the result is valid exactly when it carries no diagnostic: also
    where the lexer or the parser exhausts the stack and a [catch] block
    builds the result. *)
Theorem isValid_iff_no_errors_on_every_stack validatedAgainst stack fuel mermaidCode target r :
  validateMermaidIn validatedAgainst stack fuel mermaidCode target = Some r ->
  (isValid r = true <-> errors r = []).
Proof.
  unfold validateMermaidIn, validateMermaidWith, runIn.
  destruct mermaidCode as [| | | | |code];
    try (intros H; injection H as <-; simpl; split; discriminate).
  destruct (_ || _).
  { intros H; injection H as <-; simpl; split; discriminate. }
  destruct (tokenizeIn _ code) as [ts|];
    [|intros H; injection H as <-; simpl; split; discriminate].
  destruct (parseIn _ fuel _) as [r0 p1|e p1|] eqn:E; try discriminate.
  - destruct (_ && _).
    + intros H; injection H as <-. simpl. split; [discriminate|].
      intros H. now apply app_eq_nil in H as [_ H].
    + intros H; injection H as <-. revert E. unfold parseIn. intros H.
      apply bind_Ret in H as (? & p0 & _ & H).
      unfold try_catch in H.
      destruct (bind (parseDiagramIn _ fuel) _ p0) as [r1 p2|e p2|] eqn:E; try discriminate.
      * injection H as <- <-.
        apply bind_Ret in E as (a & p3 & _ & E).
        unfold validateSingleDiagramType, bind, read, ret in E. injection E as <- <-.
        simpl. rewrite Nat.eqb_eq. apply length_zero_iff_nil.
      * unfold bind, read, addError, ret in H. injection H as <- <-. simpl.
        split; [discriminate|]. intros H. now apply app_eq_nil in H as [_ H].
  - intros H; injection H as <-; simpl; split; discriminate.
Qed.

Lemma isValid_iff_no_errors_on_every_stack_witness :
  exists r,
    validateMermaidIn version_11_12_0 (mkCallStack 2 0) 40 (JSString subgraph_closed) None
      = Some r /\
    map code (errors r) = ["PARSE_ERROR"%string] /\
    (isValid r = true <-> errors r = []).
Proof.
  destruct (validateMermaidIn version_11_12_0 (mkCallStack 2 0) 40
              (JSString subgraph_closed) None) as [r|] eqn:E.
  - exists r. split; [reflexivity|]. split.
    + vm_compute in E. injection E as <-. reflexivity.
    + exact (isValid_iff_no_errors_on_every_stack version_11_12_0 (mkCallStack 2 0) 40
               (JSString subgraph_closed) None E).
  - vm_compute in E. discriminate E.
Defined.

(* ===================================================================== *)
(** ** [linkStyle] statements the flowchart grammar does not reach *)
(* ===================================================================== *)

(** On a semicolon [parseFlowchartElement] moves the cursor on and returns
    [null]; the loop of [parseFlowchart] answers [null] with [advance]. *)
Lemma parseFlowchartElement_semicolon fuel p :
  tok_type (currentToken p) = SEMICOLON -> tok_value (currentToken p) = u ";" ->
  parseFlowchartElement (S fuel) p = (advance ;; ret None) p.
Proof.
  intros Hty Hval. cbn [parseFlowchartElement]. unfold bind at 1, read at 1.
  unfold isEnd, valIs. rewrite Hty, Hval. reflexivity.
Qed.

(** C6, the failing inputs: the flowchart of the claim, with one link and
    the index 5, is invalid with the single diagnostic
    INVALID_LINKSTYLE_INDEX; the same flowchart with a semicolon behind its
    first statement is valid and has no diagnostic, because the token behind
    a semicolon is skipped unread: [parseFlowchartElement] moves over the
    semicolon and returns [null], and the loop of [parseFlowchart] then
    moves on once more, over [linkStyle].  Nor is the index checked where a
    [classDef] statement without a semicolon stands before the [linkStyle]
    statement, which it skips with the rest of the input. *)
Theorem linkStyle_behind_a_semicolon_is_not_checked validatedAgainst calls levels fuel :
  validateMermaidIn validatedAgainst (mkCallStack (2 + calls) levels) (40 + fuel)
    (JSString linkStyle_5) None =
    Some (mkResult false "flowchart"
            [invalidLinkStyleIndex (mkToken IDENTIFIER (u "linkStyle") 3 10 33) 5 1]
            (Some (FlowchartNode 1 10 (Some (u "TD"))
                     [node 2 2 (u "A") (Some (u "Start")) rect;
                      arrow 2 11 None (Some (u "B"))])))
  /\
  validateMermaidIn validatedAgainst (mkCallStack (2 + calls) levels) (40 + fuel)
    (JSString linkStyle_5_semicolon) None =
    Some (mkResult true "flowchart" []
            (Some (FlowchartNode 1 10 (Some (u "TD"))
                     [node 2 2 (u "A") (Some (u "Start")) rect;
                      arrow 2 11 None (Some (u "B"));
                      node 3 24 (u "f00") None rect])))
  /\
  validateMermaidIn validatedAgainst (mkCallStack (2 + calls) levels) (40 + fuel)
    (JSString linkStyle_5_classDef) None =
    Some (mkResult true "flowchart" []
            (Some (FlowchartNode 1 10 (Some (u "TD"))
                     [node 2 2 (u "A") (Some (u "Start")) rect;
                      arrow 2 11 None (Some (u "B"))])))
  /\
  (forall n p,
     tok_type (currentToken p) = SEMICOLON -> tok_value (currentToken p) = u ";" ->
     parseFlowchartElement (S n) p = (advance ;; ret None) p).
Proof.
  split; [|split; [|split]]; try (vm_compute; reflexivity).
  intros n p. apply parseFlowchartElement_semicolon.
Qed.

(* ===================================================================== *)
(** ** Styling statements, where the loops find them *)
(* ===================================================================== *)







Section FirstWord.

Variables (input : jsstr) (fuel : nat) (p : Parser) (w : Token) (rest : list Token).
Hypothesis Htokens : tokens p = tokenize input.
Hypothesis Hinside : position p < length (tokens p).
Hypothesis Hnext : skipn (S (position p)) (tokens p) = w :: rest.
Hypothesis Hfuel : length (tokens p) - position p < fuel.

Let p1 := mkParser (tokens p) (position p + 1) (p_errors p) (linkCount p).





End FirstWord.





(** *** On concrete inputs and stacks *)

Lemma read_to_end_grammars_accept_everything_witness :
  validateMermaidIn version_11_12_0 (mkCallStack 2 0) 100 (JSString pie_styled) None =
    Some (mkResult true "pie" [] (Some (PlainNode "pie" 1 4))).
Proof.
  rewrite (@read_to_end_grammars_accept_everything version_11_12_0 (mkCallStack 2 0) 100
             pie_styled (tokenize pie_styled) (mkToken PIE (u "pie") 1 4 0)).
  - vm_compute. reflexivity.
  - vm_compute. reflexivity.
  - vm_compute. reflexivity.
  - vm_compute. reflexivity.
  - vm_compute. lia.
Defined.

Lemma unknown_first_token_is_reported_witness :
  validateMermaidIn version_11_12_0 (mkCallStack 2 0) 20 (JSString hello_world) None =
    Some (mkResult false "unknown"
            [mkError 1 6 [L "Unsupported diagram type: "; V (u "hello")] "PARSE_ERROR" None]
            (Some (PlainNode "unknown" 1 6))).
Proof.
  rewrite (@unknown_first_token_is_reported version_11_12_0 (mkCallStack 2 0) 20
             hello_world (tokenize hello_world) (mkToken IDENTIFIER (u "hello") 1 6 0)).
  - reflexivity.
  - vm_compute. reflexivity.
  - vm_compute. reflexivity.
  - vm_compute. reflexivity.
  - vm_compute. reflexivity.
  - vm_compute. lia.
Defined.

Lemma getDiagramType_reads_the_first_token_witness :
  getDiagramTypeIn version_11_12_0 (mkCallStack 2 1) 40 (JSString subgraph_closed)
    = Some "flowchart"%string /\
  getDiagramTypeIn version_11_12_0 (mkCallStack 1 1) 40 (JSString subgraph_closed)
    = Some "unknown"%string.
Proof.
  destruct (getDiagramType_reads_the_first_token version_11_12_0 (mkCallStack 2 1) 40
              subgraph_closed) as [H _].
  destruct (getDiagramType_reads_the_first_token version_11_12_0 (mkCallStack 1 1) 40
              subgraph_closed) as [_ H'].
  split.
  - rewrite (H (tokenize subgraph_closed)).
    + vm_compute. reflexivity.
    + vm_compute. reflexivity.
    + vm_compute. reflexivity.
    + vm_compute. reflexivity.
    + vm_compute. lia.
  - apply H'. right. vm_compute. reflexivity.
Defined.

Lemma plain_state_and_class_diagrams_are_valid_witness :
  validateMermaidIn version_11_12_0 (mkCallStack 2 0) 60 (JSString state_garbled) None =
    Some (mkResult true "state" [] (Some (PlainNode "state" 1 16))).
Proof.
  rewrite (@plain_state_and_class_diagrams_are_valid version_11_12_0 (mkCallStack 2 0) 60
             state_garbled (tokenize state_garbled)
             (mkToken STATE_DIAGRAM_V2 (u "stateDiagram-v2") 1 16 0)).
  - vm_compute. reflexivity.
  - vm_compute. reflexivity.
  - vm_compute. reflexivity.
  - vm_compute. reflexivity.
  - vm_compute. reflexivity.
  - vm_compute. lia.
Defined.

Lemma block_diagrams_are_always_valid_witness :
  exists a,
    validateMermaidIn version_11_12_0 (mkCallStack 2 0) 40 (JSString block_garbled) None =
      Some (mkResult true "block" [] (Some a)) /\
    nodeAt "block" (mkToken BLOCK_BETA (u "block-beta") 1 11 0) a.
Proof.
  apply (@block_diagrams_are_always_valid version_11_12_0 (mkCallStack 2 0) 40
           block_garbled (tokenize block_garbled)).
  - vm_compute. reflexivity.
  - vm_compute. reflexivity.
  - reflexivity.
  - vm_compute. lia.
Defined.

Lemma plain_sequence_diagrams_are_valid_witness :
  exists a,
    validateMermaidIn version_11_12_0 (mkCallStack 2 0) 60 (JSString sequence_A_B) None =
      Some (mkResult true "sequence" [] (Some a)) /\
    nodeAt "sequence" (mkToken SEQUENCE_DIAGRAM (u "sequenceDiagram") 1 16 0) a.
Proof.
  apply (@plain_sequence_diagrams_are_valid version_11_12_0 (mkCallStack 2 0) 60
           sequence_A_B (tokenize sequence_A_B)).
  - vm_compute. reflexivity.
  - vm_compute. reflexivity.
  - reflexivity.
  - vm_compute. reflexivity.
  - vm_compute. lia.
Defined.

(* ===================================================================== *)
(** ** The link counter of the flowchart grammar *)
(* ===================================================================== *)

Lemma arrows_subgraph l c id children : arrows (subgraph l c id children) = arrowsIn children.
Proof.
  unfold arrowsIn. cbn [arrows]. induction children as [|x rest IH]; [reflexivity|].
  cbn [map list_sum]. now rewrite IH.
Qed.

Lemma arrowsIn_snoc nodes e : arrowsIn (nodes ++ [e]) = arrowsIn nodes + arrows e.
Proof. unfold arrowsIn. rewrite map_app, list_sum_app. cbn. lia. Qed.

Lemma keeps_ret {A} (a : A) : keeps (ret a).
Proof. intros p a' p' H. injection H as _ <-. lia. Qed.

Lemma keeps_read {A} (f : Parser -> A) : keeps (read f).
Proof. intros p a' p' H. injection H as _ <-. lia. Qed.

Lemma keeps_advance : keeps advance.
Proof. intros p [] p' H. apply movedFrom_advance in H as (_ & _ & -> & _). lia. Qed.

Lemma keeps_addError token msg cd sugg : keeps (addError token msg cd sugg).
Proof. intros p a p' H. injection H as _ <-. cbn. lia. Qed.

Lemma counts_bind {A B} (m : M A) (k : A -> M B) (f : B -> nat) :
  keeps m -> (forall a, counts f (k a)) -> counts f (bind m k).
Proof.
  intros Hm Hk p b p' H. apply bind_Ret in H as (a & p1 & H1 & H2).
  apply Hm in H1. apply Hk in H2. lia.
Qed.

Lemma counts_then {A B} (m : M A) (g : A -> nat) (wrap : A -> B) (f : B -> nat) :
  counts g m -> (forall a, f (wrap a) = g a) ->
  counts f (bind m (fun a => ret (wrap a))).
Proof.
  intros Hm Hf p b p' H. apply bind_Ret in H as (a & p1 & H1 & H2).
  injection H2 as <- <-. rewrite Hf. now apply Hm.
Qed.

Lemma keeps_when b (m : M unit) : keeps m -> keeps (when b m).
Proof. intros Hm. destruct b; [exact Hm|apply keeps_ret]. Qed.

Lemma keeps_while {St} fuel (cond : St -> Parser -> bool) (body : St -> M (ctl St)) s :
  (forall s, keeps (body s)) -> keeps (while fuel cond body s).
Proof.
  intros Hbody. revert s. induction fuel as [|fuel IH]; intros s p a p' H; [discriminate H|].
  cbn [while] in H. destruct (cond s p); [|injection H as _ <-; lia].
  destruct (body s p) as [[s1|s1] p1| |] eqn:E; try discriminate H.
  - apply Hbody in E. apply IH in H. lia.
  - injection H as _ <-. apply Hbody in E. lia.
Qed.

Lemma counts_ret {A} (f : A -> nat) (a : A) : f a = 0 -> counts f (ret a).
Proof. intros Hf p a' p' H. injection H as <- <-. lia. Qed.

(** One step through a method that leaves the counter alone. *)
Ltac keeps_step :=
  lazymatch goal with
  | |- counts _ (ret _) => apply counts_ret; reflexivity
  | |- counts _ (done _) => unfold done; apply counts_ret; reflexivity
  | |- counts _ (read _) => apply keeps_read
  | |- counts _ advance => apply keeps_advance
  | |- counts _ (addError _ _ _ _) => apply keeps_addError
  | |- counts _ (unsupportedStyling _ _ _) => apply keeps_addError
  | |- counts _ (when _ _) => apply keeps_when
  | |- counts _ (while _ _ _ _) => apply keeps_while; intros ?
  | |- counts _ (bind _ _) => apply counts_bind; [|intros ?]
  | |- counts _ (if ?b then _ else _) => destruct b
  | |- counts _ (match ?x with _ => _ end) => destruct x
  | |- keeps _ => unfold keeps
  | |- counts _ _ => assumption
  end.

Ltac keeps_all := repeat keeps_step.

Lemma keeps_skipUntilSemicolon fuel : keeps (skipUntilSemicolon fuel).
Proof. unfold skipUntilSemicolon. keeps_all. Qed.

Lemma keeps_parseNode fuel : counts arrows (parseNode fuel).
Proof.
  unfold parseNode, collectIdentifiersAsLabel, shapeLabel, expectClose.
  apply counts_bind; [keeps_all|]. intros idToken.
  destruct (ty_eqb (tok_type idToken) EOF).
  - apply counts_bind; [keeps_all|]. intros _ p a p' H. injection H as <- <-. cbn. lia.
  - apply counts_bind; [keeps_all|]. intros _.
    apply counts_bind; [keeps_all|]. intros t.
    apply counts_bind; [keeps_all|]. intros [label shape] p a p' H.
    injection H as <- <-. cbn. lia.
Qed.

(** [parseArrow] returns an arrow element. *)
Lemma parseArrow_arrow fuel p a p' : parseArrow fuel p = Ret a p' -> arrows a = 1.
Proof.
  unfold parseArrow. intros H.
  repeat (apply bind_Ret in H as (? & ? & _ & H)).
  match type of H with
  | (if ?b then _ else _) _ = _ => destruct b
  end; apply bind_Ret in H as (? & ? & _ & H); injection H as <- _; reflexivity.
Qed.

Lemma counts_parseArrow fuel : counts arrows (parseArrow fuel).
Proof.
  intros p a p' H. rewrite (parseArrow_arrow _ _ H).
  exact (parseArrow_counts_one_link _ _ H).
Qed.

(** The loop of [parseSubgraph] and of [parseFlowchart]: the counter grows
    by the arrows of the elements the rounds add. *)
Lemma counts_elements fuel (cond : list FlowchartElement -> Parser -> bool)
      (body : list FlowchartElement -> M (ctl (list FlowchartElement))) :
  (forall s q r q', body s q = Ret r q' ->
     match r with
     | Continue s1 | Break s1 => linkCount q' + arrowsIn s = linkCount q + arrowsIn s1
     end) ->
  forall s p s' p',
    while fuel cond body s p = Ret s' p' ->
    linkCount p' + arrowsIn s = linkCount p + arrowsIn s'.
Proof.
  intros Hbody. induction fuel as [|fuel IH]; intros s p s' p' H; [discriminate H|].
  cbn [while] in H. destruct (cond s p); [|injection H as <- <-; lia].
  destruct (body s p) as [[s1|s1] p1| |] eqn:E; try discriminate H.
  - apply Hbody in E. apply IH in H. lia.
  - injection H as <- <-. apply Hbody in E. exact E.
Qed.

Lemma keeps_validateFlowchartConnections nodes : keeps (validateFlowchartConnections nodes).
Proof.
  intros p a p' H.
  destruct (validateFlowchartConnections_reports nodes p) as (added & Hrun & _).
  rewrite Hrun in H. injection H as _ <-. cbn. lia.
Qed.

Lemma counts_parseSubgraph fuel self :
  counts optArrows self -> counts arrows (parseSubgraph fuel self).
Proof.
  intros Hself. unfold parseSubgraph.
  do 6 (apply counts_bind; [keeps_all|intros ?]).
  intros p e p' H. apply bind_Ret in H as (children & p1 & Hloop & H).
  apply (@counts_elements fuel) in Hloop.
  - assert (Hrest : linkCount p' = linkCount p1 /\ arrows e = arrowsIn children).
    { apply bind_Ret in H as (t & p2 & [= <- <-] & H).
      apply bind_Ret in H as ([] & p3 & H3 & H).
      apply bind_Ret in H as ([] & p4 & H4 & H).
      injection H as <- <-. rewrite arrows_subgraph. split; [|reflexivity].
      apply keeps_validateFlowchartConnections in H4.
      match type of H3 with
      | ?m _ = _ => assert (Hk : keeps m) by keeps_all; apply Hk in H3
      end.
      lia. }
    unfold arrowsIn in Hloop at 1. cbn in Hloop. lia.
  - intros s q r q' Hr. apply bind_Ret in Hr as (child & q1 & Hc & Hr).
    apply Hself in Hc. destruct child as [c|]; injection Hr as <- <-.
    + rewrite arrowsIn_snoc. cbn in Hc. lia.
    + cbn in Hc. lia.
Qed.

Lemma keeps_statements fuel :
  keeps (parseClassDef fuel) /\ keeps (parseClassAssignment fuel) /\
  keeps (parseLinkStyle fuel) /\ keeps (parseStyle fuel) /\
  keeps (parseClickStatement fuel) /\ keeps (parseNoteStatement fuel) /\
  keeps parseDirectionStatement /\ keeps (skipTitleDirective fuel).
Proof.
  unfold parseClassDef, parseClassAssignment, parseLinkStyle, parseStyle,
    parseClickStatement, parseNoteStatement, parseDirectionStatement, skipTitleDirective,
    skipUntilSemicolon.
  repeat split; keeps_all.
Qed.

(** The counter after [parseFlowchartElement]: what it was and the arrows of
    the element returned. *)
Lemma counts_parseFlowchartElement fuel : counts optArrows (parseFlowchartElement fuel).
Proof.
  induction fuel as [|fuel IH]; [intros p a p' H; discriminate H|].
  destruct (keeps_statements fuel) as (H1 & H2 & H3 & H4 & H5 & H6 & H7 & H8).
  cbn [parseFlowchartElement]. apply counts_bind; [keeps_all|]. intros token.
  repeat match goal with
         | |- counts _ (if ?b then _ else _) => destruct b
         end;
    try (apply counts_bind; [assumption|intros ?; keeps_all]; fail);
    try (apply counts_bind; [keeps_all|intros ?]; keeps_all; fail).
  - apply (@counts_then _ _ (parseNode fuel) arrows Some optArrows);
      [apply keeps_parseNode|reflexivity].
  - apply (@counts_then _ _ (parseArrow fuel) arrows Some optArrows);
      [apply counts_parseArrow|reflexivity].
  - apply (@counts_then _ _ (parseSubgraph fuel (parseFlowchartElement fuel))
             arrows Some optArrows); [now apply counts_parseSubgraph|reflexivity].
  - keeps_all.
Qed.

(** When [parseFlowchart] returns, the counter is the number of arrows of
    the elements of the node it returns. *)
Lemma parseFlowchart_counts fuel p a p' :
  parseFlowchart fuel p = Ret a p' ->
  exists l c direction nodes,
    a = FlowchartNode l c direction nodes /\ linkCount p' = arrowsIn nodes.
Proof.
  unfold parseFlowchart. intros H.
  apply bind_Ret in H as (startToken & p1 & _ & H).
  apply bind_Ret in H as ([] & p2 & _ & H).
  apply bind_Ret in H as ([] & p3 & H3 & H). injection H3 as <-.
  apply bind_Ret in H as (t & p4 & H4 & H). injection H4 as _ <-.
  apply bind_Ret in H as (direction & p5 & H5 & H).
  assert (Hzero : linkCount p5 = 0).
  { match type of H5 with
    | ?m _ = _ => assert (Hk : keeps m) by keeps_all; apply Hk in H5
    end.
    cbn in H5. lia. }
  apply bind_Ret in H as (nodes & p6 & Hloop & H).
  apply bind_Ret in H as ([] & p7 & H7 & H). injection H as <- <-.
  apply keeps_validateFlowchartConnections in H7.
  exists (tok_line startToken), (tok_column startToken), direction, nodes.
  split; [reflexivity|].
  apply (@counts_elements fuel) in Hloop.
  - unfold arrowsIn in Hloop at 1. cbn in Hloop. lia.
  - intros s q r q' Hr. apply bind_Ret in Hr as (token & q1 & [= <- <-] & Hr).
    destruct (includes diagramTypes _); [injection Hr as <- <-; lia|].
    apply bind_Ret in Hr as (nd & q2 & Hnd & Hr).
    apply counts_parseFlowchartElement in Hnd.
    destruct nd as [e|]; cbn [optArrows] in Hnd.
    + assert (Hr' : ret (Continue (s ++ [e])) q2 = Ret r q' \/
                    (arrows e = 0 /\ ret (Continue s) q2 = Ret r q')).
      { destruct e; [left; exact Hr|left; exact Hr|left; exact Hr|right].
        split; [reflexivity|exact Hr]. }
      destruct Hr' as [Hr'|[He Hr']]; injection Hr' as <- <-; cbv beta iota;
        rewrite ?arrowsIn_snoc; lia.
    + apply bind_Ret in Hr as ([] & q3 & Ha & Hr). injection Hr as <- <-.
      apply keeps_advance in Ha. cbv beta iota. lia.
Qed.

(** X26: the link counter, against which the index of a [linkStyle]
    statement is checked, is the number of arrows parsed: [parseArrow]
    returns an arrow element and raises the counter by one; after
    [parseFlowchartElement] the counter has grown by the number of arrow
    elements in the element it returns, the children of subgraphs included,
    so that no other statement changes it; and when [parseFlowchart], which
    resets the counter, returns, the counter is the number of arrow elements
    in the node it returns. *)
Theorem link_counter_counts_the_arrows fuel p :
  (forall a p', parseArrow fuel p = Ret a p' ->
     arrows a = 1 /\ linkCount p' = linkCount p + 1)
  /\
  (forall r p', parseFlowchartElement fuel p = Ret r p' ->
     linkCount p' = linkCount p + optArrows r)
  /\
  (forall a p', parseFlowchart fuel p = Ret a p' ->
     exists l c direction nodes,
       a = FlowchartNode l c direction nodes /\ linkCount p' = arrowsIn nodes).
Proof.
  split; [|split].
  - intros a p' H. split; [exact (parseArrow_arrow _ _ H)|].
    exact (parseArrow_counts_one_link _ _ H).
  - intros r p'. apply counts_parseFlowchartElement.
  - intros a p'. apply parseFlowchart_counts.
Qed.

Lemma link_counter_counts_the_arrows_witness :
  exists a p',
    parseFlowchart 40 (mkParser (tokenize subgraph_closed) 0 [] 7) = Ret a p' /\
    linkCount p' = 1.
Proof.
  destruct (parseFlowchart 40 (mkParser (tokenize subgraph_closed) 0 [] 7))
    as [a p'| |] eqn:E; try (vm_compute in E; discriminate E).
  exists a, p'. split; [reflexivity|].
  destruct (proj2 (proj2 (link_counter_counts_the_arrows 40
                            (mkParser (tokenize subgraph_closed) 0 [] 7))) a p' E)
    as (l & c & d & nodes & Ha & Hc).
  rewrite Hc. vm_compute in E. injection E as <- _. injection Ha as _ _ _ <-. reflexivity.
Defined.

(** X27: where the loop of the flowchart grammar stops on [linkStyle]
    followed by a number of at most 15 digits (which [parseInt] gives
    exactly), the statement is checked against the link counter: an index
    that is not less than the counter gives exactly the diagnostic
    INVALID_LINKSTYLE_INDEX at the [linkStyle] token, with the index and the
    counter in its message, a smaller index gives none; the counter is kept
    and the element is the placeholder of a processed statement. *)
Theorem linkStyle_index_is_checked_where_reached fuel p :
  endsWithEOF p -> position p + 1 < length (tokens p) ->
  valIs (currentToken p) "linkStyle" = true ->
  tok_type (tokenAt p (position p + 1)) = NUMBER ->
  length (tok_value (tokenAt p (position p + 1))) <= 15 ->
  length (tokens p) < fuel ->
  let token := currentToken p in
  let linkIndex := parseInt (tok_value (tokenAt p (position p + 1))) in
  exists p',
    parseFlowchartElement (S fuel) p =
      Ret (Some (processed (tok_line token) (tok_column token))) p' /\
    tokens p' = tokens p /\ linkCount p' = linkCount p /\
    (linkCount p <= linkIndex ->
     p_errors p' = p_errors p ++ [invalidLinkStyleIndex token linkIndex (linkCount p)]) /\
    (linkIndex < linkCount p -> p_errors p' = p_errors p).
Proof.
  intros Heof Hnext Hval Hnum _ Hfuel token linkIndex.
  destruct (flowchart_linkStyle_statement Heof Hnext Hval Hnum Hfuel)
    as (p' & Hrun & Ht & Hl & He).
  exists p'. split; [exact Hrun|]. split; [exact Ht|]. split; [exact Hl|].
  fold linkIndex token in He. split.
  - intros Hle. apply Nat.leb_le in Hle. now rewrite Hle in He.
  - intros Hlt. apply Nat.leb_gt in Hlt. rewrite Hlt, app_nil_r in He. exact He.
Qed.

Lemma linkStyle_index_is_checked_where_reached_witness :
  exists p',
    parseFlowchartElement 20 atLinkStyle_5 = Ret (Some (processed 3 10)) p' /\
    map code (p_errors p') = ["INVALID_LINKSTYLE_INDEX"%string].
Proof.
  destruct (@linkStyle_index_is_checked_where_reached 19 atLinkStyle_5)
    as (p' & Hrun & _ & _ & Herr & _);
    [vm_compute; reflexivity | vm_compute; lia | vm_compute; reflexivity
    | vm_compute; reflexivity | vm_compute; lia | vm_compute; lia |].
  exists p'. split; [exact Hrun|].
  rewrite Herr by (vm_compute; lia). reflexivity.
Defined.
